(** * A shallow embedding of V8's external entity table and marking visitor

    Sources embedded:
    - [src/sandbox/external-entity-table-inl.h]: the segmented, freelist based
      allocator of sandboxed indices ([ExternalEntityTable]);
    - [src/heap/marking-visitor-inl.h]: the marking visitor
      ([MarkingVisitorBase]);
    - [src/objects/js-function-inl.h]: the predicates of [JSFunction] that
      the visitor reads, and [ResetIfCodeFlushed].

    Unsigned 32-bit and 16-bit integers are integers of [Z] with the
    wrap-around written out; sets and maps are stdpp's [gset] and [gmap];
    the code's sequencing of effects is a state-and-failure monad. *)

From Stdlib Require Import ZArith Lia.
From stdpp Require Import base option list list_numbers gmap.

Local Open Scope Z_scope.

#[local] Set Warnings "-clear-no-such-hyp".

(** ** Fixed-width integers *)

Definition wrap32 (z : Z) : Z := z mod 2 ^ 32.
Definition wrap16 (z : Z) : Z := z mod 2 ^ 16.

(** ** The monad of the embedding

    A computation reads and writes a state and either returns or stops the
    process: [V8::FatalProcessOutOfMemory], a failed [DCHECK] (debug builds)
    or [CHECK], a mutex taken twice, or a loop of the model that ran out of
    fuel. *)

Inductive Failure : Type :=
| FatalProcessOutOfMemory
| DcheckFailure
| CheckFailure
| Deadlock
| FuelExhausted.

Inductive Result (A : Type) : Type :=
| Ok (a : A)
| Err (f : Failure).
Arguments Ok {A} a.
Arguments Err {A} f.

Definition M (St A : Type) : Type := St → Result (A * St).

Definition ret {St A} (a : A) : M St A := λ s, Ok (a, s).

Definition bind {St A B} (m : M St A) (k : A → M St B) : M St B :=
  λ s, match m s with
       | Ok (a, s') => k a s'
       | Err f => Err f
       end.

Definition fail {St A} (f : Failure) : M St A := λ _, Err f.
Definition get {St} : M St St := λ s, Ok (s, s).
Definition gets {St A} (f : St → A) : M St A := λ s, Ok (f s, s).
Definition put {St} (s : St) : M St unit := λ _, Ok (tt, s).
Definition modify {St} (f : St → St) : M St unit := λ s, Ok (tt, f s).

(** [DCHECK(b)] and [CHECK(b)]. *)
Definition dcheck {St} (b : bool) : M St unit :=
  if b then ret tt else fail DcheckFailure.
Definition check {St} (b : bool) : M St unit :=
  if b then ret tt else fail CheckFailure.

Declare Scope monad_scope.
Delimit Scope monad_scope with monad.
Notation "x <- m ;; k" := (bind m (λ x, k))
  (at level 100, m at next level, right associativity) : monad_scope.
Notation "m ;;; k" := (bind m (λ _, k))
  (at level 100, right associativity) : monad_scope.
Local Open Scope monad_scope.

(** [while (!success) { body }], where the body returns [(success, value)]
    and the value of the last iteration is what the code reads after the
    loop. *)
Fixpoint until_success {St A} (fuel : nat) (body : M St (bool * A)) : M St A :=
  match fuel with
  | O => fail FuelExhausted
  | S fuel' =>
      r <- body;;
      if r.1 then ret r.2 else until_success fuel' body
  end.

(** The same loop with a body that may also leave the function:
    [inl r] is [return r] from inside the loop. *)
Fixpoint until_success_or_return {St R A} (fuel : nat)
    (body : M St (R + bool * A)) : M St (R + A) :=
  match fuel with
  | O => fail FuelExhausted
  | S fuel' =>
      r <- body;;
      match r with
      | inl early => ret (inl early)
      | inr (success, a) =>
          if (success : bool) then ret (inr a)
          else until_success_or_return fuel' body
      end
  end.

Fixpoint for_each {St A} (l : list A) (f : A → M St unit) : M St unit :=
  match l with
  | [] => ret tt
  | x :: l' => f x;;; for_each l' f
  end.

(** ** The external entity table (external-entity-table-inl.h) *)

Module ExternalEntityTable.

(** An entry is a free-list link or an entity payload; the template argument
    [Entry] of the table provides [MakeFreelistEntry] and
    [GetNextFreelistEntryIndex].  On a payload the latter returns whatever
    the low 32 bits hold. *)
Inductive Entry : Type :=
| FreelistEntry (next : Z)
| Payload (bits : Z).

Definition MakeFreelistEntry (next_entry_index : Z) : Entry :=
  FreelistEntry next_entry_index.

Definition GetNextFreelistEntryIndex (e : Entry) : Z :=
  match e with
  | FreelistEntry next => next
  | Payload bits => wrap32 bits
  end.

#[export] Instance Entry_eq_dec : EqDecision Entry.
Proof. solve_decision. Defined.

(** Modelled from the spec: [FreelistHead] (declared in
    external-entity-table.h, not among the sources), the atomic
    [{next_index, length}] pair of a space.  The empty head is the
    default-constructed one, [{0, 0}]. *)
Record FreelistHead : Type := mkFreelistHead { next_ : Z; length_ : Z }.

#[export] Instance FreelistHead_eq_dec : EqDecision FreelistHead.
Proof. solve_decision. Defined.

Definition empty_head : FreelistHead := mkFreelistHead 0 0.

Definition is_empty (h : FreelistHead) : bool :=
  (next_ h =? 0) && (length_ h =? 0).

Inductive PagePermissions : Type := kRead | kReadWrite.

(** The space: free-list head, the set of segments it owns, its mutex. *)
Record Space : Type := mkSpace {
  freelist_head_ : FreelistHead;
  segments_ : gset Z;
  mutex_ : bool;                     (* true: held *)
}.

(** The table: the reserved address range [vas_] (one page per segment,
    keyed by segment number, with its permission; [None] is [nullptr]) and
    the memory behind [base_]. *)
Record Table : Type := mkTable {
  vas_ : option (gmap Z PagePermissions);
  base_ : gmap Z Entry;
}.

Record State : Type := mkState { table : Table; space : Space }.

Definition set_table (f : Table → Table) (s : State) : State :=
  mkState (f (table s)) (space s).
Definition set_space (f : Space → Space) (s : State) : State :=
  mkState (table s) (f (space s)).

Definition the_pages (t : Table) : gmap Z PagePermissions :=
  default ∅ (vas_ t).

(** The constants of the header and the platform, gathered as the
    parameters of the table template.  [kEntriesPerSegment] is
    [kSegmentSize / sizeof(Entry)], [kNumSegments] is
    [kReservationSize / kSegmentSize]; [placement] is where the platform
    puts a segment asked for with [kNoHint] ([None]: it has none to give). *)
Class TableParams : Type := {
  kEntriesPerSegment : Z;
  kSegmentSize : Z;
  kNumSegments : Z;
  placement : gmap Z PagePermissions → option Z;
}.

Section Table.

Context {params : TableParams}.

Abbreviation MT := (M State).

(** *** Segments *)

(** [Segment::At(offset)]. *)
Definition Segment_At (offset : Z) : Z := offset / kSegmentSize.

(** [Segment::Containing(entry_index)]. *)
Definition Segment_Containing (entry_index : Z) : Z :=
  entry_index / kEntriesPerSegment.

(** Modelled from the spec: [Segment::offset], [Segment::first_entry] and
    [Segment::last_entry] (external-entity-table.h, not among the sources):
    a segment is numbered by [offset / kSegmentSize] and holds
    [kEntriesPerSegment] consecutive entries. *)
Definition Segment_offset (number : Z) : Z := wrap32 (number * kSegmentSize).
Definition first_entry (number : Z) : Z := wrap32 (number * kEntriesPerSegment).
Definition last_entry (number : Z) : Z :=
  wrap32 (first_entry number + kEntriesPerSegment - 1).

(** *** Space accessors *)

(** [Space::freelist_length]. *)
Definition freelist_length (sp : Space) : Z := length_ (freelist_head_ sp).

(** [Space::num_segments]. *)
Definition num_segments (sp : Space) : Z := Z.of_nat (size (segments_ sp)).

(** [Space::Contains]. *)
Definition Contains (sp : Space) (index : Z) : bool :=
  bool_decide (Segment_Containing index ∈ segments_ sp).

(** [at(index)]: memory never written reads as zero.  The code reads an
    entry only after the check that the space contains it; memory of a page
    that is not allocated holds nothing in [base_]. *)
Definition at_ (t : Table) (index : Z) : Entry :=
  default (Payload 0) (base_ t !! index).

Definition is_initialized (t : Table) : bool :=
  match vas_ t with Some _ => true | None => false end.

(** *** The virtual address space *)

(** Modelled from the spec: the virtual-address-space provider
    ([VirtualAddressSpace::AllocatePages] and [FreePages], a collaborator
    outside the sources), at the granularity of segments.  Without a hint the
    platform picks the place; the call fails when the platform has no page
    to give, gives one outside the reservation or one that is taken.
    [FreePages] gives the page back to the platform, and with it the memory
    of the entries of the segment ([released]): what they held is gone. *)
Definition AllocatePages (hint : option Z) (perm : PagePermissions)
    (pages : gmap Z PagePermissions) : option (Z * gmap Z PagePermissions) :=
  match (match hint with Some n => Some n | None => placement pages end) with
  | Some n =>
      if bool_decide (0 ≤ n < kNumSegments) && bool_decide (pages !! n = None)
      then Some (n, <[n := perm]> pages)
      else None
  | None => None
  end.

Definition FreePages (n : Z) (pages : gmap Z PagePermissions)
    : gmap Z PagePermissions := delete n pages.

Definition released (n : Z) (memory : gmap Z Entry) : gmap Z Entry :=
  filter (λ e, Segment_Containing e.1 ≠ n) memory.

(** The platform at [InitializeTable]: whether subspaces can be allocated,
    whether it gives the subspace, or else the reservation, and the segment
    at which it gives the page that is asked for at the base of the range
    ([None]: it gives none). *)
Record Platform : Type := mkPlatform {
  CanAllocateSubspaces : bool;
  AllocateSubspace_succeeds : bool;   (* the subspace is given *)
  AllocatePages_succeeds : bool;      (* the reservation is given *)
  AllocatePages_at_base : option Z;   (* where the first segment is given *)
}.

(** *** Table set-up and tear-down *)

Definition InitializeTable (p : Platform) : MT unit :=
  s <- get;;
  dcheck (negb (is_initialized (table s)));;;
  let vas : option (gmap Z PagePermissions) :=
    if CanAllocateSubspaces p then
      (if AllocateSubspace_succeeds p then Some ∅ else None)
    else
      (* Old Windows versions: a fully-backed emulated subspace over the
         reserved pages. *)
      (if AllocatePages_succeeds p then Some ∅ else None) in
  match vas with
  | None => fail FatalProcessOutOfMemory
  | Some pages =>
      (* Allocate the first segment of the table as read-only memory: it is
         asked for at the base, and the platform gives it there, elsewhere
         or not at all.  The memory of the new range holds nothing. *)
      match (match AllocatePages_at_base p with
             | Some n => AllocatePages (Some n) kRead pages
             | None => None
             end) with
      | Some (first_segment, pages') =>
          if first_segment =? 0
          then put (set_table (λ _, mkTable (Some pages') ∅) s)
          else fail FatalProcessOutOfMemory
      | None => fail FatalProcessOutOfMemory
      end
  end.

Definition TearDownTable : MT unit :=
  s <- get;;
  dcheck (is_initialized (table s));;;
  (* The first segment is freed and the address space is deleted: the
     memory of the table is gone. *)
  put (set_table (λ _, mkTable None ∅) s).

(** [InitializeSpace] only records the owner in debug builds. *)
Definition InitializeSpace : MT unit := ret tt.

Definition AllocateTableSegment : MT Z :=
  s <- get;;
  match AllocatePages None kReadWrite (the_pages (table s)) with
  | None => fail FatalProcessOutOfMemory
  | Some (n, pages') =>
      put (set_table (λ t, mkTable (Some pages') (base_ t)) s);;;
      let offset := wrap32 (n * kSegmentSize) in
      ret (Segment_At offset)
  end.

Definition FreeTableSegment (segment : Z) : MT unit :=
  (* Segment zero is reserved. *)
  dcheck (negb (segment =? 0));;;
  modify (set_table (λ t,
    mkTable (FreePages segment <$> vas_ t) (released segment (base_ t)))).

Definition TearDownSpace : MT unit :=
  s <- get;;
  dcheck (is_initialized (table s));;;
  for_each (elements (segments_ (space s))) FreeTableSegment;;;
  modify (set_space (λ sp, mkSpace (freelist_head_ sp) ∅ (mutex_ sp))).

(** *** Atomics and the mutex of a space *)

Definition set_freelist_head (h : FreelistHead) (s : State) : State :=
  set_space (λ sp, mkSpace h (segments_ sp) (mutex_ sp)) s.
Definition set_mutex (b : bool) (s : State) : State :=
  set_space (λ sp, mkSpace (freelist_head_ sp) (segments_ sp) b) s.
Definition write_entry (index : Z) (e : Entry) (s : State) : State :=
  set_table (λ t, mkTable (vas_ t) (<[index := e]> (base_ t))) s.

(** [freelist_head_.load(...)]. *)
Definition load_freelist_head : MT FreelistHead :=
  gets (λ s, freelist_head_ (space s)).

(** [freelist_head_.store(...)]. *)
Definition store_freelist_head (h : FreelistHead) : MT unit :=
  modify (set_freelist_head h).

(** [freelist_head_.compare_exchange_strong(expected, desired)]. *)
Definition compare_exchange_strong (expected desired : FreelistHead)
    : MT bool :=
  s <- get;;
  if bool_decide (freelist_head_ (space s) = expected)
  then put (set_freelist_head desired s);;; ret true
  else ret false.

(** [base::MutexGuard guard(&space->mutex_)] around [body]. *)
Definition MutexGuard {A} (body : MT A) : MT A :=
  s <- get;;
  if mutex_ (space s) then fail Deadlock
  else
    put (set_mutex true s);;;
    a <- body;;
    modify (set_mutex false);;;
    ret a.

(** *** Allocation *)

Definition TryAllocateEntryFromFreelist (freelist : FreelistHead) : MT bool :=
  s <- get;;
  dcheck (negb (is_empty freelist));;;
  dcheck (Contains (space s) (next_ freelist));;;
  let freelist_entry := at_ (table s) (next_ freelist) in
  let next_freelist_entry := GetNextFreelistEntryIndex freelist_entry in
  let new_freelist :=
    mkFreelistHead next_freelist_entry (wrap32 (length_ freelist - 1)) in
  success <- compare_exchange_strong freelist new_freelist;;
  (if success : bool then
     dcheck (implb (1 <? length_ freelist) (negb (is_empty new_freelist)));;;
     dcheck (implb (length_ freelist =? 1) (is_empty new_freelist))
   else ret tt);;;
  ret success.

Definition Extend : MT FreelistHead :=
  s <- get;;
  (* Freelist should be empty when calling this method. *)
  dcheck (freelist_length (space s) =? 0);;;
  (* The caller must lock the space's mutex before extending it. *)
  dcheck (mutex_ (space s));;;
  (* Allocate the new segment. *)
  segment <- AllocateTableSegment;;
  modify (set_space (λ sp,
    mkSpace (freelist_head_ sp) ({[segment]} ∪ segments_ sp) (mutex_ sp)));;;
  dcheck (negb (segment =? 0));;;
  (* Refill the freelist with the entries in the newly allocated segment. *)
  let first := first_entry segment in
  let last := last_entry segment in
  for_each (seqZ first (last - first)) (λ i,
    let next_free_entry := wrap32 (i + 1) in
    modify (write_entry i (MakeFreelistEntry next_free_entry)));;;
  modify (write_entry last (MakeFreelistEntry 0));;;
  let new_freelist_head := mkFreelistHead first (wrap32 (last - first + 1)) in
  store_freelist_head new_freelist_head;;;
  ret new_freelist_head.

(** One turn of the loop of [AllocateEntry]. *)
Definition AllocateEntry_body : MT (bool * FreelistHead) :=
  freelist <- load_freelist_head;;
  freelist <-
    (if is_empty freelist then
       (* Freelist is empty. Need to take the lock, then attempt to allocate
          a new segment if no other thread has done it in the meantime. *)
       MutexGuard (
         freelist <- load_freelist_head;;
         if is_empty freelist then
           freelist <- Extend;;
           dcheck (length_ freelist =? kEntriesPerSegment);;;
           ret freelist
         else ret freelist)
     else ret freelist);;
  success <- TryAllocateEntryFromFreelist freelist;;
  ret (success, freelist).

Definition AllocateEntry (fuel : nat) : MT Z :=
  s <- get;;
  dcheck (is_initialized (table s));;;
  freelist <- until_success fuel AllocateEntry_body;;
  let allocated_entry := next_ freelist in
  s <- get;;
  dcheck (Contains (space s) allocated_entry);;;
  dcheck (negb (allocated_entry =? 0));;;
  ret allocated_entry.

(** One turn of the loop of [AllocateEntryBelow]; [inl 0] is the
    [return 0] inside the loop. *)
Definition AllocateEntryBelow_body (threshold_index : Z)
    : MT (Z + bool * FreelistHead) :=
  freelist <- load_freelist_head;;
  (* Check that the next free entry is below the threshold. *)
  if is_empty freelist || (threshold_index <=? next_ freelist)
  then ret (inl 0)
  else
    success <- TryAllocateEntryFromFreelist freelist;;
    ret (inr (success, freelist)).

Definition AllocateEntryBelow (fuel : nat) (threshold_index : Z) : MT Z :=
  s <- get;;
  dcheck (is_initialized (table s));;;
  r <- until_success_or_return fuel (AllocateEntryBelow_body threshold_index);;
  match r with
  | inl early => ret early
  | inr freelist =>
      let allocated_entry := next_ freelist in
      s <- get;;
      dcheck (Contains (space s) allocated_entry);;;
      dcheck (negb (allocated_entry =? 0));;;
      dcheck (allocated_entry <? threshold_index);;;
      ret allocated_entry
  end.

(** ** Threads that allocate at the same time

    The calls of several threads are interleaved at the accesses to the
    shared state: a load of the free-list head, a read of an entry, a
    compare-and-swap, taking and releasing the mutex.  [Extend] runs under
    the mutex while the head is empty and writes entries that no free list
    reaches yet; it is one step.  Memory is sequentially consistent.  The
    debug checks of [AllocateEntry], [AllocateEntryBelow] and
    [TryAllocateEntryFromFreelist] are not steps of their own: that they
    hold where the code has them is proved of the states the threads
    reach. *)

Inductive Mode : Type :=
| ModeAllocate                              (* AllocateEntry *)
| ModeBelow (threshold_index : Z).          (* AllocateEntryBelow *)

(** Where a thread is in its call. *)
Inductive Thread : Type :=
| Idle                                      (* between two calls *)
| AtLoad (m : Mode)                         (* about to load the head *)
| AtLock                                    (* saw the empty head *)
| AtReload                                  (* holds the mutex *)
| AtExtend                                  (* holds it, the head is empty *)
| AtUnlock (freelist : FreelistHead)        (* about to leave the guard *)
| AtRead (m : Mode) (freelist : FreelistHead)
| AtCas (m : Mode) (freelist : FreelistHead) (next_freelist_entry : Z).

(** What a call returned. *)
Inductive Outcome : Type :=
| Allocated (m : Mode) (index : Z)
| Failed (threshold_index : Z).             (* AllocateEntryBelow gave 0 *)

(** [AllocateEntryBelow] leaves its loop with 0 on this head. *)
Definition gives_up (m : Mode) (freelist : FreelistHead) : bool :=
  match m with
  | ModeAllocate => false
  | ModeBelow threshold_index =>
      is_empty freelist || (threshold_index <=? next_ freelist)
  end.

Abbreviation head_of s := (freelist_head_ (space s)).

(** One step of a thread on the shared state; the label is what the call
    returns when the step ends it. *)
Inductive tstep : Thread → State → option Outcome → Thread → State → Prop :=
| tstep_call m s :
    tstep Idle s None (AtLoad m) s
| tstep_give_up T s :
    gives_up (ModeBelow T) (head_of s) = true →
    tstep (AtLoad (ModeBelow T)) s (Some (Failed T)) Idle s
| tstep_load_empty s :
    is_empty (head_of s) = true →
    tstep (AtLoad ModeAllocate) s None AtLock s
| tstep_load m s :
    is_empty (head_of s) = false → gives_up m (head_of s) = false →
    tstep (AtLoad m) s None (AtRead m (head_of s)) s
| tstep_lock s :
    mutex_ (space s) = false →
    tstep AtLock s None AtReload (set_mutex true s)
| tstep_reload_empty s :
    is_empty (head_of s) = true →
    tstep AtReload s None AtExtend s
| tstep_reload s :
    is_empty (head_of s) = false →
    tstep AtReload s None (AtUnlock (head_of s)) s
| tstep_extend s freelist s' :
    Extend s = Ok (freelist, s') →
    tstep AtExtend s None (AtUnlock freelist) s'
| tstep_unlock freelist s :
    tstep (AtUnlock freelist) s None (AtRead ModeAllocate freelist)
          (set_mutex false s)
| tstep_read m freelist s :
    tstep (AtRead m freelist) s None
          (AtCas m freelist
                 (GetNextFreelistEntryIndex (at_ (table s) (next_ freelist))))
          s
| tstep_cas_success m freelist next_freelist_entry s s' :
    compare_exchange_strong freelist
      (mkFreelistHead next_freelist_entry (wrap32 (length_ freelist - 1))) s
      = Ok (true, s') →
    tstep (AtCas m freelist next_freelist_entry) s
          (Some (Allocated m (next_ freelist))) Idle s'
| tstep_cas_failure m freelist next_freelist_entry s s' :
    compare_exchange_strong freelist
      (mkFreelistHead next_freelist_entry (wrap32 (length_ freelist - 1))) s
      = Ok (false, s') →
    tstep (AtCas m freelist next_freelist_entry) s None (AtLoad m) s'.

(** The threads, the state they share and what their calls have returned
    so far. *)
Record Config : Type := mkConfig {
  shared : State;
  threads : list Thread;
  outcomes : list Outcome;
}.

(** The indices handed out so far. *)
Definition allocated (os : list Outcome) : list Z :=
  omap (λ o, match o with Allocated _ r => Some r | Failed _ => None end) os.

(** A step of the system: a thread takes a step, or the owner of an
    allocated entry writes its payload. *)
Inductive step : Config → Config → Prop :=
| step_thread cfg i t o t' s' :
    threads cfg !! i = Some t →
    tstep t (shared cfg) o t' s' →
    step cfg (mkConfig s' (<[i := t']> (threads cfg))
                       (outcomes cfg ++ option_list o))
| step_payload cfg r bits :
    r ∈ allocated (outcomes cfg) →
    step cfg (mkConfig (write_entry r (Payload bits) (shared cfg))
                       (threads cfg) (outcomes cfg)).

End Table.

End ExternalEntityTable.

(** ** The marking visitor (marking-visitor-inl.h) *)

Module MarkingVisitor.

(** Heap objects and slots are addresses.  A tagged value is a small
    integer, a strong or a weak reference to a heap object, or a cleared
    weak reference. *)
Definition HeapObject : Type := Z.
Definition Slot : Type := Z.

Inductive Tagged : Type :=
| Smi (value : Z)
| Strong (target : HeapObject)
| Weak (target : HeapObject)
| ClearedWeak.

(** [GetHeapObjectIfStrong], [GetHeapObjectIfWeak], [IsHeapObject]. *)
Definition GetHeapObjectIfStrong (object : Tagged) : option HeapObject :=
  match object with Strong o => Some o | _ => None end.
Definition GetHeapObjectIfWeak (object : Tagged) : option HeapObject :=
  match object with Weak o => Some o | _ => None end.
Definition IsHeapObject (object : Tagged) : bool :=
  match object with Strong _ => true | _ => false end.

(** [HeapObject::cast]: unchecked outside debug builds, the bits are taken
    as an address. *)
Definition HeapObject_cast (object : Tagged) : HeapObject :=
  match object with
  | Strong o | Weak o => o
  | Smi n => n
  | ClearedWeak => 0
  end.

(** What the visitor does to its collaborators, in the order it does it:
    the slots it loads, what it pushes onto the worklists, the slots it
    records and what it reports to the reference summarizer and to the
    retaining-path tracer. *)
Inductive Event : Type :=
| LoadSlot (slot : Slot)
| PushMarking (object : HeapObject)           (* local_marking_worklists_ *)
| PushWeakReference (host : HeapObject) (slot : Slot)
| PushEphemeronHashTable (table : HeapObject)
| PushDiscoveredEphemeron (key value : HeapObject)
| PushJSWeakRef (weak_ref : HeapObject)
| RecordSlot (host : HeapObject) (slot : Slot) (target : HeapObject)
| AddStrongReference (host object : HeapObject)
| AddWeakReference (host object : HeapObject)
| AddRetainer (host object : HeapObject).

#[export] Instance Event_eq_dec : EqDecision Event.
Proof. solve_decision. Defined.

(** The state the visitor works on: the mark bits, the progress bars of the
    memory chunks (absent: the bar is disabled), the ages of the shared
    function infos, and the events so far, oldest first. *)
Record VisitorState : Type := mkVisitorState {
  marked : gset HeapObject;
  progress_bars : gmap Z Z;
  ages : gmap HeapObject Z;
  trace : list Event;
}.

Abbreviation MV := (M VisitorState).

Definition emit (e : Event) : MV unit :=
  modify (λ s, mkVisitorState (marked s) (progress_bars s) (ages s)
                              (trace s ++ [e])).

(** The worklists and the recorded slots are what was pushed and recorded:
    views of a sequence of events, and of the events of a state. *)
Definition pushed (evs : list Event) : list HeapObject :=
  omap (λ e, match e with PushMarking o => Some o | _ => None end) evs.
Definition pushed_tables (evs : list Event) : list HeapObject :=
  omap (λ e, match e with PushEphemeronHashTable t => Some t | _ => None end)
       evs.
Definition pushed_ephemerons (evs : list Event)
    : list (HeapObject * HeapObject) :=
  omap (λ e, match e with
             | PushDiscoveredEphemeron k v => Some (k, v) | _ => None end)
       evs.
Definition pushed_weak_refs (evs : list Event) : list HeapObject :=
  omap (λ e, match e with PushJSWeakRef r => Some r | _ => None end) evs.
Definition recorded (evs : list Event)
    : list (HeapObject * Slot * HeapObject) :=
  omap (λ e, match e with RecordSlot h sl t => Some (h, sl, t) | _ => None end)
       evs.
Definition loaded (evs : list Event) : list Slot :=
  omap (λ e, match e with LoadSlot sl => Some sl | _ => None end) evs.

Definition marking_worklist (s : VisitorState) : list HeapObject :=
  pushed (trace s).
Definition ephemeron_hash_tables (s : VisitorState) : list HeapObject :=
  pushed_tables (trace s).
Definition discovered_ephemerons (s : VisitorState)
    : list (HeapObject * HeapObject) :=
  pushed_ephemerons (trace s).
Definition js_weak_refs (s : VisitorState) : list HeapObject :=
  pushed_weak_refs (trace s).
Definition recorded_slots (s : VisitorState)
    : list (HeapObject * Slot * HeapObject) :=
  recorded (trace s).
Definition loaded_slots (s : VisitorState) : list Slot :=
  loaded (trace s).

(** The heap the visitor reads and the constants of the object layouts
    (declared in headers that are not among the sources). *)
Class Heap : Type := {
  kTaggedSize : Z;
  kMaxRegularHeapObjectSize : Z;
  FixedArray_kStartOffset : Z;        (* FixedArray::BodyDescriptor *)
  JSWeakRef_kTargetOffset : Z;
  Relaxed_Load : Slot → Tagged;
  map_of : HeapObject → HeapObject;
  SizeOf : HeapObject → HeapObject → Z;          (* map, object *)
  InReadOnlySpace : HeapObject → bool;
  InWritableSharedSpace : HeapObject → bool;
  ShouldMarkObject : HeapObject → bool;
  (* EphemeronHashTable *)
  IterateEntries : HeapObject → list Z;
  EntryToIndex : Z → Z;
  EntryToValueIndex : Z → Z;
  OffsetOfElementAt : Z → Z;
}.

(** [v8_flags] and the fields of the visitor that steer code flushing. *)
Class Flags : Type := mkFlags {
  flush_code_based_on_time : bool;
  flush_code_based_on_tab_visibility : bool;
  bytecode_old_time : Z;
  bytecode_old_age : Z;
  code_flushing_increase_ : Z;                    (* uint16_t *)
  isolate_in_background_ : bool;
}.

(** The concrete visitor the base class is instantiated with. *)
Class ConcreteVisitor : Type := {
  VisitJSObjectSubclass : HeapObject → HeapObject → MV Z;
  retaining_path_mode_enabled : bool;
}.

Section Visitor.

Context {heap : Heap} {flags : Flags} {concrete_visitor : ConcreteVisitor}.

(** [object.RawField(offset)]. *)
Definition RawField (object : HeapObject) (offset : Z) : Slot :=
  object + offset.

(** *** The marking state *)

(** Modelled from the spec: [TryMark], [IsMarked] and [IsUnmarked] of the
    marking-state provider (marking-state-inl.h is not among the sources):
    an atomic test-and-set of the mark bit that tells the first to mark. *)
Definition TryMark (object : HeapObject) : MV bool :=
  s <- get;;
  if bool_decide (object ∈ marked s) then ret false
  else
    put (mkVisitorState ({[object]} ∪ marked s) (progress_bars s) (ages s)
                        (trace s));;;
    ret true.
Definition IsMarked (object : HeapObject) : MV bool :=
  gets (λ s, bool_decide (object ∈ marked s)).
Definition IsUnmarked (object : HeapObject) : MV bool :=
  gets (λ s, negb (bool_decide (object ∈ marked s))).

(** [SynchronizePageAccess]: a fence for the thread sanitizer. *)
Definition SynchronizePageAccess (object : HeapObject) : MV unit := ret tt.

(** *** Visiting strong and weak pointers *)

Definition MarkObject (host object : HeapObject) : MV unit :=
  SynchronizePageAccess object;;;
  emit (AddStrongReference host object);;;
  first_to_mark <- TryMark object;;
  if first_to_mark : bool then
    emit (PushMarking object);;;
    if retaining_path_mode_enabled then emit (AddRetainer host object)
    else ret tt
  else ret tt.

Definition ProcessStrongHeapObject (host : HeapObject) (slot : Slot)
    (heap_object : HeapObject) : MV unit :=
  SynchronizePageAccess heap_object;;;
  if negb (ShouldMarkObject heap_object) then ret tt
  else
    MarkObject host heap_object;;;
    emit (RecordSlot host slot heap_object).

Definition ProcessWeakHeapObject (host : HeapObject) (slot : Slot)
    (heap_object : HeapObject) : MV unit :=
  SynchronizePageAccess heap_object;;;
  if negb (ShouldMarkObject heap_object) then ret tt
  else
    is_marked <- IsMarked heap_object;;
    if is_marked : bool then
      emit (RecordSlot host slot heap_object)
    else
      emit (PushWeakReference host slot);;;
      emit (AddWeakReference host heap_object).

(** The slots [start], [start + kTaggedSize], ... below [end_]. *)
Definition slots_between (start end_ : Slot) : list Slot :=
  (λ i, start + i * kTaggedSize)
    <$> seqZ 0 ((end_ - start + kTaggedSize - 1) / kTaggedSize).

(** [VisitPointersImpl] for a slot type with [kCanBeWeak = can_be_weak]. *)
Definition VisitPointersImpl (can_be_weak : bool) (host : HeapObject)
    (start end_ : Slot) : MV unit :=
  for_each (slots_between start end_) (λ slot,
    emit (LoadSlot slot);;;
    let object := Relaxed_Load slot in
    match GetHeapObjectIfStrong object with
    | Some heap_object => ProcessStrongHeapObject host slot heap_object
    | None =>
        if can_be_weak then
          match GetHeapObjectIfWeak object with
          | Some heap_object => ProcessWeakHeapObject host slot heap_object
          | None => ret tt
          end
        else ret tt
    end).

(** [VisitPointer], [VisitPointers] on [ObjectSlot]s and [VisitMapPointer]
    (marking-visitor.h, not among the sources) call the functions above. *)
Definition VisitPointers (host : HeapObject) (start end_ : Slot) : MV unit :=
  VisitPointersImpl false host start end_.
Definition VisitPointer (host : HeapObject) (p : Slot) : MV unit :=
  VisitPointersImpl false host p (p + kTaggedSize).
Definition VisitMapPointer (host : HeapObject) : MV unit :=
  ProcessStrongHeapObject host (RawField host 0) (map_of host).

(** *** Objects participating in bytecode flushing *)

(** [SharedFunctionInfo::kMaxAge], the largest 16-bit value. *)
Definition kMaxAge : Z := 65535.

(** Modelled from the spec: [SharedFunctionInfo::age] and
    [CompareExchangeAge] (shared-function-info-inl.h is not among the
    sources): the age is a 16-bit counter, updated by a compare-and-swap that
    returns the value it found. *)
Definition age (sfi : HeapObject) : MV Z :=
  gets (λ s, default 0 (ages s !! sfi)).
Definition CompareExchangeAge (sfi : HeapObject) (expected_age new_age : Z)
    : MV Z :=
  s <- get;;
  let found := default 0 (ages s !! sfi) in
  if bool_decide (found = expected_age) then
    put (mkVisitorState (marked s) (progress_bars s)
                        (<[sfi := wrap16 new_age]> (ages s)) (trace s));;;
    ret found
  else ret found.

(** Modelled from the spec: [SaturateAdd] on [uint16_t] (not among the
    sources), the 16-bit saturating addition. *)
Definition SaturateAdd (a b : Z) : Z := Z.min (a + b) 65535.

Definition IsOld (sfi : HeapObject) : MV bool :=
  if flush_code_based_on_time then
    a <- age sfi;; ret (bytecode_old_time <=? a)
  else if flush_code_based_on_tab_visibility then
    a <- age sfi;; ret (isolate_in_background_ || (a =? kMaxAge))
  else
    a <- age sfi;; ret (bytecode_old_age <=? a).

(** One turn of the [do ... while] loop of [MakeOlder]; it succeeds when the
    compare-and-swap found the age it had read.  [others] is what the other
    threads (the function itself, whose prologue resets the age) do to the
    state between the load of the age and the compare-and-swap. *)
Definition MakeOlder_body (others : MV unit) (sfi : HeapObject)
    : MV (bool * unit) :=
  current_age <- age sfi;;
  (* When the age is 0, it was reset by the function prologue: set it to 1;
     all non-0 values can be incremented as expected. *)
  let updated_age :=
    if current_age =? 0 then 1
    else SaturateAdd current_age code_flushing_increase_ in
  others;;;
  found <- CompareExchangeAge sfi current_age updated_age;;
  ret (found =? current_age, tt).

(** [MakeOlder] among other threads. *)
Definition MakeOlder_among (others : MV unit) (fuel : nat) (sfi : HeapObject)
    : MV unit :=
  if flush_code_based_on_time then
    dcheck (negb (code_flushing_increase_ =? 0));;;
    until_success fuel (MakeOlder_body others sfi)
  else if flush_code_based_on_tab_visibility then
    (* No need to increment age. *)
    ret tt
  else
    a <- age sfi;;
    others;;;
    (if a <? bytecode_old_age then
       _ <- CompareExchangeAge sfi a (a + 1);; ret tt
     else ret tt);;;
    a' <- age sfi;;
    dcheck (a' <=? bytecode_old_age).

(** [MakeOlder] when no other thread touches the age in between. *)
Definition MakeOlder (fuel : nat) (sfi : HeapObject) : MV unit :=
  MakeOlder_among (ret tt) fuel sfi.

(** *** Fixed arrays that need incremental processing *)

(** Modelled from the spec: the progress bar of a memory chunk
    (progress-bar.h is not among the sources), a cursor that is read and
    then updated by a compare-and-swap from the value read.  A bar that is
    not in [progress_bars] is disabled. *)
Definition ProgressBar_IsEnabled (bar : Z) : MV bool :=
  gets (λ s, bool_decide (is_Some (progress_bars s !! bar))).
Definition ProgressBar_Value (bar : Z) : MV Z :=
  s <- get;;
  match progress_bars s !! bar with
  | Some value => ret value
  | None => fail DcheckFailure
  end.
Definition ProgressBar_TrySetNewValue (bar : Z) (old_value new_value : Z)
    : MV bool :=
  s <- get;;
  match progress_bars s !! bar with
  | Some value =>
      if bool_decide (value = old_value) then
        put (mkVisitorState (marked s) (<[bar := new_value]> (progress_bars s))
                            (ages s) (trace s));;;
        ret true
      else ret false
  | None => fail DcheckFailure
  end.

(** [static_cast<int>] of a [size_t]; the sum and the difference of two
    [int]s, in two's complement; the conversion of an [int] to [size_t]. *)
Definition static_cast_int (z : Z) : Z := (z + 2 ^ 31) mod 2 ^ 32 - 2 ^ 31.
Definition int_add (a b : Z) : Z := static_cast_int (a + b).
Definition int_sub (a b : Z) : Z := static_cast_int (a - b).
Definition static_cast_size_t (z : Z) : Z := z mod 2 ^ 64.

(** The function among other threads: [others] is what they do to the
    state between the load of the cursor and the compare-and-swap of this
    thread. *)
Definition VisitFixedArrayWithProgressBar_among (others : MV unit)
    (map object : HeapObject) (progress_bar : Z) : MV Z :=
  let kProgressBarScanningChunk := kMaxRegularHeapObjectSize in
  is_marked <- IsMarked object;;
  dcheck is_marked;;;
  let size := SizeOf map object in
  current_progress_bar <- ProgressBar_Value progress_bar;;
  let start := static_cast_int current_progress_bar in
  start <- (if start =? 0 then
              VisitMapPointer object;;;
              ret FixedArray_kStartOffset
            else ret start);;
  let end_ := Z.min size (int_add start kProgressBarScanningChunk) in
  (if start <? end_ then
     VisitPointers object (RawField object start) (RawField object end_);;;
     others;;;
     success <-
       ProgressBar_TrySetNewValue progress_bar current_progress_bar
                                  (static_cast_size_t end_);;
     check success;;;
     if end_ <? size then
       (* The object can be pushed back onto the marking worklist only after
          progress bar was updated. *)
       dcheck (ShouldMarkObject object);;;
       emit (PushMarking object)
     else ret tt
   else ret tt);;;
  ret (int_sub end_ start).

(** The function when no other thread touches the state in between. *)
Definition VisitFixedArrayWithProgressBar (map object : HeapObject)
    (progress_bar : Z) : MV Z :=
  VisitFixedArrayWithProgressBar_among (ret tt) map object progress_bar.

(** *** Weak JavaScript objects *)

(** [table.RawFieldOfElementAt(index)], [table.KeyAt(i)] and
    [table.ValueAt(i)]. *)
Definition RawFieldOfElementAt (table : HeapObject) (index : Z) : Slot :=
  RawField table (OffsetOfElementAt index).
Definition KeyAt (table : HeapObject) (i : Z) : Tagged :=
  Relaxed_Load (RawFieldOfElementAt table (EntryToIndex i)).
Definition ValueAt (table : HeapObject) (i : Z) : Tagged :=
  Relaxed_Load (RawFieldOfElementAt table (EntryToValueIndex i)).

(** The body of the loop of [VisitEphemeronHashTable] for entry [i]. *)
Definition VisitEphemeronHashTable_entry (table : HeapObject) (i : Z)
    : MV unit :=
  let key_slot := RawFieldOfElementAt table (EntryToIndex i) in
  let key := HeapObject_cast (KeyAt table i) in
  SynchronizePageAccess key;;;
  emit (RecordSlot table key_slot key);;;
  emit (AddWeakReference table key);;;
  let value_slot := RawFieldOfElementAt table (EntryToValueIndex i) in
  (* Objects in the shared heap cannot be ephemeron keys. *)
  dcheck (negb (InWritableSharedSpace key));;;
  key_is_marked <- IsMarked key;;
  if InReadOnlySpace key || key_is_marked then
    VisitPointer table value_slot
  else
    let value_obj := ValueAt table i in
    if IsHeapObject value_obj then
      let value := HeapObject_cast value_obj in
      SynchronizePageAccess value;;;
      emit (RecordSlot table value_slot value);;;
      emit (AddWeakReference table value);;;
      if negb (ShouldMarkObject value) then ret tt        (* continue *)
      else
        (* Revisit ephemerons with both key and value unreachable at end
           of concurrent marking cycle. *)
        value_is_unmarked <- IsUnmarked value;;
        if value_is_unmarked : bool then
          emit (PushDiscoveredEphemeron key value)
        else ret tt
    else ret tt.

Definition VisitEphemeronHashTable (map table : HeapObject) : MV Z :=
  emit (PushEphemeronHashTable table);;;
  for_each (IterateEntries table) (VisitEphemeronHashTable_entry table);;;
  ret (SizeOf map table).

Definition VisitJSWeakRef (map weak_ref : HeapObject) : MV Z :=
  size <- VisitJSObjectSubclass map weak_ref;;
  if size =? 0 then ret 0
  else
    let target_obj :=
      Relaxed_Load (RawField weak_ref JSWeakRef_kTargetOffset) in
    (if IsHeapObject target_obj then
       let target := HeapObject_cast target_obj in
       SynchronizePageAccess target;;;
       target_is_marked <- IsMarked target;;
       if InReadOnlySpace target || target_is_marked then
         (* Record the slot inside the JSWeakRef, since the
            VisitJSObjectSubclass above didn't visit it. *)
         let slot := RawField weak_ref JSWeakRef_kTargetOffset in
         emit (RecordSlot weak_ref slot target)
       else
         (* JSWeakRef points to a potentially dead object. *)
         emit (PushJSWeakRef weak_ref);;;
         emit (AddWeakReference weak_ref target)
     else ret tt);;;
    ret size.

End Visitor.

End MarkingVisitor.

(** ** Further visit functions of the marking visitor
    (marking-visitor-inl.h) and the predicates of [JSFunction] they rest on
    (js-function-inl.h) *)

Module MarkingVisitorObjects.
Import MarkingVisitor.

(** Modelled from the spec: [base::EnumSet<CodeFlushMode>] and its tests
    (globals.h, not among the sources): the ways of flushing that are
    enabled; flushing is disabled when the set is empty. *)
Record CodeFlushModes : Type := mkCodeFlushModes {
  kFlushBytecode : bool;
  kFlushBaselineCode : bool;
  kStressFlushCode : bool;
}.

Definition IsFlushingDisabled (mode : CodeFlushModes) : bool :=
  negb (kFlushBytecode mode || kFlushBaselineCode mode || kStressFlushCode mode).
Definition IsByteCodeFlushingEnabled (mode : CodeFlushModes) : bool :=
  kFlushBytecode mode.
Definition IsBaselineCodeFlushingEnabled (mode : CodeFlushModes) : bool :=
  kFlushBaselineCode mode.
Definition IsStressFlushingEnabled (mode : CodeFlushModes) : bool :=
  kStressFlushCode mode.

(** What the functions below push onto the worklists that [Event] does not
    list, and the relocation slots they record, in the order they do it. *)
Inductive Effect : Type :=
| PushWeakCell (weak_cell : HeapObject)          (* weak_cells_local *)
| PushCodeFlushingCandidate (shared_info : HeapObject)
| PushBaselineFlushingCandidate (js_function : HeapObject)
| PushFlushedJSFunction (js_function : HeapObject)
| PushWeakObjectInCode (object code : HeapObject)
| RecordRelocSlot (host : HeapObject) (rinfo : Z) (target : HeapObject).

#[export] Instance Effect_eq_dec : EqDecision Effect.
Proof. solve_decision. Defined.

(** The state of the visitor with these worklists. *)
Record ObjectVisitorState : Type := mkObjectVisitorState {
  visitor_state : VisitorState;
  effects : list Effect;
}.

Abbreviation MO := (M ObjectVisitorState).

(** A function of the visitor that leaves these worklists alone. *)
Definition lift {A} (m : MV A) : MO A :=
  λ s, match m (visitor_state s) with
       | Ok (a, v) => Ok (a, mkObjectVisitorState v (effects s))
       | Err f => Err f
       end.

Definition push (e : Effect) : MO unit :=
  modify (λ s, mkObjectVisitorState (visitor_state s) (effects s ++ [e])).

(** The objects as the functions below read them (the object layouts and
    the accessors are declared in headers that are not among the sources):
    the kinds of objects they tell apart, the offsets of the fields they
    visit, the relocation entries of instruction streams (numbered) and the
    body descriptors. *)
Class Objects : Type := {
  IsCodeObject : HeapObject → bool;
  IsBytecodeArrayObject : HeapObject → bool;
  IsSharedFunctionInfoObject : HeapObject → bool;
  (* SharedFunctionInfo *)
  SharedFunctionInfo_kFunctionDataOffset : Z;
  IsResumableFunction_kind : HeapObject → bool;
  allows_lazy_compilation : HeapObject → bool;
  SharedFunctionInfo_is_compiled : HeapObject → bool;
  (* Code *)
  Code_kDeoptimizationDataOrInterpreterDataOffset : Z;
  Code_kind_is_BASELINE : HeapObject → bool;
  Code_builtin_id_is_kCompileLazy : HeapObject → bool;
  Code_IsWeakObject : HeapObject → HeapObject → bool;     (* code, object *)
  (* JSFunction *)
  JSFunction_kSharedFunctionInfoOffset : Z;
  JSFunction_kCodeOffset : Z;
  (* WeakCell *)
  WeakCell_kTargetOffset : Z;
  WeakCell_kUnregisterTokenOffset : Z;
  (* InstructionStream and RelocInfo *)
  raw_code : HeapObject → HeapObject;
  IsEmbeddedObjectMode : Z → bool;             (* of rinfo->rmode() *)
  IsCodeTargetMode : Z → bool;
  target_object : Z → HeapObject;
  target_address : Z → Z;
  FromTargetAddress : Z → HeapObject;
  (* MemoryChunk::FromHeapObject(object)->ProgressBar() *)
  ProgressBar_of : HeapObject → Z;
  (* BodyDescriptor::IterateBody(map, object, size, visitor) *)
  IterateBody : HeapObject → HeapObject → Z → MV unit;
}.

(** The fields of the visitor and the constants of the concrete visitor
    that the functions below read. *)
Class VisitorFields : Type := {
  code_flush_mode_ : CodeFlushModes;
  should_keep_ages_unchanged_ : bool;
  CanUpdateValuesInHeap : bool;
  ShouldVisitMapPointer : bool;
}.

Section Visitor.

Context {heap : Heap} {flags : Flags} {concrete_visitor : ConcreteVisitor}
        {objects : Objects} {fields : VisitorFields}.

(** [IsCode], [IsBytecodeArray] and [IsSharedFunctionInfo] of a tagged
    value: a small integer is none of them. *)
Definition IsCode (object : Tagged) : bool :=
  match object with Strong o => IsCodeObject o | _ => false end.
Definition IsBytecodeArray (object : Tagged) : bool :=
  match object with Strong o => IsBytecodeArrayObject o | _ => false end.
Definition IsSharedFunctionInfo (object : Tagged) : bool :=
  match object with Strong o => IsSharedFunctionInfoObject o | _ => false end.

(** Modelled from the spec: [SharedFunctionInfo::function_data] and
    [Code::bytecode_or_interpreter_data] (accessors of headers that are not
    among the sources) read the fields at [kFunctionDataOffset] and at
    [kDeoptimizationDataOrInterpreterDataOffset], the slots that
    [VisitSharedFunctionInfo] visits. *)
Definition function_data (sfi : HeapObject) : Tagged :=
  Relaxed_Load (RawField sfi SharedFunctionInfo_kFunctionDataOffset).
Definition bytecode_or_interpreter_data (code : HeapObject) : Tagged :=
  Relaxed_Load (RawField code Code_kDeoptimizationDataOrInterpreterDataOffset).

(** *** [JSFunction] (js-function-inl.h) *)

(** The acquire reads ([ACQUIRE_READ_FIELD]) of the fields at
    [kSharedFunctionInfoOffset] and at [kCodeOffset]. *)
Definition JSFunction_shared_field (js_function : HeapObject) : Tagged :=
  Relaxed_Load (RawField js_function JSFunction_kSharedFunctionInfoOffset).
Definition JSFunction_code_field (js_function : HeapObject) : Tagged :=
  Relaxed_Load (RawField js_function JSFunction_kCodeOffset).

(** [JSFunction::is_compiled]. *)
Definition JSFunction_is_compiled (js_function : HeapObject) : bool :=
  negb (Code_builtin_id_is_kCompileLazy
          (HeapObject_cast (JSFunction_code_field js_function))) &&
  SharedFunctionInfo_is_compiled
    (HeapObject_cast (JSFunction_shared_field js_function)).

(** [JSFunction::NeedsResetDueToFlushedBytecode]. *)
Definition NeedsResetDueToFlushedBytecode (js_function : HeapObject) : bool :=
  let maybe_shared := JSFunction_shared_field js_function in
  if negb (IsSharedFunctionInfo maybe_shared) then false
  else
    let maybe_code := JSFunction_code_field js_function in
    if negb (IsCode maybe_code) then false
    else
      let code := HeapObject_cast maybe_code in
      let shared := HeapObject_cast maybe_shared in
      negb (SharedFunctionInfo_is_compiled shared) &&
      negb (Code_builtin_id_is_kCompileLazy code).

(** *** Objects participating in bytecode flushing *)

Definition HasBytecodeArrayForFlushing (sfi : HeapObject) : MV bool :=
  if IsFlushingDisabled code_flush_mode_ then ret false
  else if IsResumableFunction_kind sfi || negb (allows_lazy_compilation sfi)
  then ret false
  else
    (* Get a snapshot of the function data field, and if it is a bytecode
       array, check if it is old. *)
    let data := function_data sfi in
    if IsCode data then
      let baseline_code := HeapObject_cast data in
      dcheck (Code_kind_is_BASELINE baseline_code);;;
      (* If baseline code flushing isn't enabled and we have baseline data
         on SFI we cannot flush baseline / bytecode. *)
      if negb (IsBaselineCodeFlushingEnabled code_flush_mode_) then ret false
      else ret (IsBytecodeArray (bytecode_or_interpreter_data baseline_code))
    else if negb (IsByteCodeFlushingEnabled code_flush_mode_) then
      (* If bytecode flushing isn't enabled and there is no baseline code
         there is nothing to flush. *)
      ret false
    else ret (IsBytecodeArray data).

Definition ShouldFlushCode (sfi : HeapObject) : MV bool :=
  if IsStressFlushingEnabled code_flush_mode_ then ret true
  else IsOld sfi.

Definition ShouldFlushBaselineCode (js_function : HeapObject) : MV bool :=
  if negb (IsBaselineCodeFlushingEnabled code_flush_mode_) then ret false
  else
    let maybe_shared := JSFunction_shared_field js_function in
    if negb (IsSharedFunctionInfo maybe_shared) then ret false
    else
      let maybe_code := JSFunction_code_field js_function in
      if negb (IsCode maybe_code) then ret false
      else
        let code := HeapObject_cast maybe_code in
        if negb (Code_kind_is_BASELINE code) then ret false
        else
          let shared := HeapObject_cast maybe_shared in
          has_bytecode <- HasBytecodeArrayForFlushing shared;;
          if has_bytecode : bool then ShouldFlushCode shared else ret false.

Definition VisitJSFunction (map js_function : HeapObject) : MO Z :=
  size <- lift (VisitJSObjectSubclass map js_function);;
  should_flush <- lift (ShouldFlushBaselineCode js_function);;
  (if should_flush : bool then
     dcheck (IsBaselineCodeFlushingEnabled code_flush_mode_);;;
     push (PushBaselineFlushingCandidate js_function)
   else
     lift (VisitPointer js_function
             (RawField js_function JSFunction_kCodeOffset));;;
     if IsByteCodeFlushingEnabled code_flush_mode_ &&
        NeedsResetDueToFlushedBytecode js_function
     then push (PushFlushedJSFunction js_function)
     else ret tt);;;
  ret size.

Definition VisitSharedFunctionInfo (fuel : nat) (map shared_info : HeapObject)
    : MO Z :=
  let size := SizeOf map shared_info in
  lift (VisitMapPointer shared_info);;;
  lift (IterateBody map shared_info size);;;
  can_flush_bytecode <- lift (HasBytecodeArrayForFlushing shared_info);;
  (* We found a BytecodeArray that can be flushed. Increment the age of the
     SFI. *)
  (if can_flush_bytecode && negb should_keep_ages_unchanged_
   then lift (MakeOlder fuel shared_info) else ret tt);;;
  should_flush <-
    (if can_flush_bytecode : bool then lift (ShouldFlushCode shared_info)
     else ret false);;
  (if negb can_flush_bytecode || negb should_flush then
     (* If the SharedFunctionInfo doesn't have old bytecode visit the
        function data strongly. *)
     lift (VisitPointer shared_info
             (RawField shared_info SharedFunctionInfo_kFunctionDataOffset))
   else if negb (IsByteCodeFlushingEnabled code_flush_mode_) then
     (* If bytecode flushing is disabled but baseline code flushing is
        enabled then we have to visit the bytecode but not the baseline
        code. *)
     dcheck (IsBaselineCodeFlushingEnabled code_flush_mode_);;;
     let baseline_code := HeapObject_cast (function_data shared_info) in
     lift (VisitPointer baseline_code
             (RawField baseline_code
                Code_kDeoptimizationDataOrInterpreterDataOffset));;;
     push (PushCodeFlushingCandidate shared_info)
   else
     (* In other cases, record as a flushing candidate since we have old
        bytecode. *)
     push (PushCodeFlushingCandidate shared_info));;;
  ret size.

(** *** Fixed arrays *)

(** Modelled from the spec: [VisitMapPointerIfNeeded] (objects-visiting-inl.h)
    visits the map pointer when the concrete visitor asks for it, and the
    body of a [FixedArray] (its [BodyDescriptor], objects-body-descriptors.h)
    is the range of slots from [kStartOffset] to the size of the array, the
    range that [VisitFixedArrayWithProgressBar] scans in chunks.  Neither
    header is among the sources. *)
Definition VisitMapPointerIfNeeded (host : HeapObject) : MV unit :=
  if ShouldVisitMapPointer then VisitMapPointer host else ret tt.
Definition FixedArray_IterateBody (map object : HeapObject) (size : Z)
    : MV unit :=
  VisitPointers object (RawField object FixedArray_kStartOffset)
                (RawField object size).

Definition VisitFixedArrayRegularly (map object : HeapObject) : MV Z :=
  let size := SizeOf map object in
  VisitMapPointerIfNeeded object;;;
  FixedArray_IterateBody map object size;;;
  ret size.

Definition VisitFixedArray (map object : HeapObject) : MV Z :=
  let progress_bar := ProgressBar_of object in
  enabled <- (if CanUpdateValuesInHeap
              then ProgressBar_IsEnabled progress_bar else ret false);;
  if CanUpdateValuesInHeap && enabled
  then VisitFixedArrayWithProgressBar map object progress_bar
  else VisitFixedArrayRegularly map object.

(** *** Weak cells *)

(** Modelled from the spec: [relaxed_target] and [relaxed_unregister_token]
    (js-weak-refs-inl.h, not among the sources) read the fields at
    [kTargetOffset] and at [kUnregisterTokenOffset], the slots that are
    recorded below. *)
Definition VisitWeakCell (map weak_cell : HeapObject) : MO Z :=
  let size := SizeOf map weak_cell in
  lift (VisitMapPointer weak_cell);;;
  lift (IterateBody map weak_cell size);;;
  let target :=
    HeapObject_cast (Relaxed_Load (RawField weak_cell WeakCell_kTargetOffset)) in
  let unregister_token :=
    HeapObject_cast
      (Relaxed_Load (RawField weak_cell WeakCell_kUnregisterTokenOffset)) in
  lift (SynchronizePageAccess target);;;
  lift (SynchronizePageAccess unregister_token);;;
  target_is_marked <- lift (IsMarked target);;
  token_is_marked <- lift (IsMarked unregister_token);;
  (if (InReadOnlySpace target || target_is_marked) &&
      (InReadOnlySpace unregister_token || token_is_marked)
   then
     (* Record the slots inside the WeakCell, since the IterateBody above
        didn't visit it. *)
     lift (emit (RecordSlot weak_cell
                   (RawField weak_cell WeakCell_kTargetOffset) target));;;
     lift (emit (RecordSlot weak_cell
                   (RawField weak_cell WeakCell_kUnregisterTokenOffset)
                   unregister_token))
   else
     (* WeakCell points to a potentially dead object or a dead unregister
        token. *)
     push (PushWeakCell weak_cell);;;
     lift (emit (AddWeakReference weak_cell target));;;
     lift (emit (AddWeakReference weak_cell unregister_token)));;;
  ret size.

(** *** Pointers embedded in code *)

Definition VisitEmbeddedPointer (host : HeapObject) (rinfo : Z) : MO unit :=
  dcheck (IsEmbeddedObjectMode rinfo);;;
  let object := target_object rinfo in
  if negb (ShouldMarkObject object) then ret tt
  else
    is_marked <- lift (IsMarked object);;
    (if negb is_marked then
       let code := raw_code host in
       if Code_IsWeakObject code object then
         push (PushWeakObjectInCode object code);;;
         lift (emit (AddWeakReference host object))
       else lift (MarkObject host object)
     else ret tt);;;
    push (RecordRelocSlot host rinfo object).

Definition VisitCodeTarget (host : HeapObject) (rinfo : Z) : MO unit :=
  dcheck (IsCodeTargetMode rinfo);;;
  let target := FromTargetAddress (target_address rinfo) in
  if negb (ShouldMarkObject target) then ret tt
  else
    lift (MarkObject host target);;;
    push (RecordRelocSlot host rinfo target).

End Visitor.

End MarkingVisitorObjects.

(** ** Resetting a function whose code was flushed (js-function-inl.h) *)

Module JSFunctionReset.
Import MarkingVisitor MarkingVisitorObjects.

(** [v8_flags] that [ResetIfCodeFlushed] reads. *)
Class FlushFlags : Type := {
  flush_bytecode : bool;
  flush_baseline_code : bool;
  stress_snapshot : bool;
}.

(** Modelled from the spec: the code objects of the builtins
    ([BUILTIN_CODE], builtins.h) and [SharedFunctionInfo::HasBaselineCode]
    (shared-function-info-inl.h); neither header is among the sources. *)
Class Builtins : Type := {
  CompileLazy : HeapObject;
  InterpreterEntryTrampoline : HeapObject;
  HasBaselineCode : HeapObject → bool;
}.

(** The memory of the heap, which [set_code] writes, with the write
    barriers and the functions whose feedback vector was reset, oldest
    first. *)
Record FunctionState : Type := mkFunctionState {
  memory : Slot → Tagged;
  write_barriers : list (HeapObject * Slot * HeapObject);
  reset_feedback_vectors : list HeapObject;
}.

Section Reads.

Context {heap : Heap} {objects : Objects} {builtins : Builtins}.

(** [JSFunction::NeedsResetDueToFlushedBaselineCode]; [code()] and
    [shared()] read the fields at [kCodeOffset] and at
    [kSharedFunctionInfoOffset]. *)
Definition NeedsResetDueToFlushedBaselineCode (js_function : HeapObject)
    : bool :=
  Code_kind_is_BASELINE (HeapObject_cast (JSFunction_code_field js_function)) &&
  negb (HasBaselineCode (HeapObject_cast (JSFunction_shared_field js_function))).

End Reads.

Section Function.

Context {heap : Heap} {objects : Objects} {flush_flags : FlushFlags}
        {builtins : Builtins}.

(** The heap with the memory [m]. *)
Definition heap_with (m : Slot → Tagged) : Heap := {|
  kTaggedSize := kTaggedSize;
  kMaxRegularHeapObjectSize := kMaxRegularHeapObjectSize;
  FixedArray_kStartOffset := FixedArray_kStartOffset;
  JSWeakRef_kTargetOffset := JSWeakRef_kTargetOffset;
  Relaxed_Load := m;
  map_of := map_of;
  SizeOf := SizeOf;
  InReadOnlySpace := InReadOnlySpace;
  InWritableSharedSpace := InWritableSharedSpace;
  ShouldMarkObject := ShouldMarkObject;
  IterateEntries := IterateEntries;
  EntryToIndex := EntryToIndex;
  EntryToValueIndex := EntryToValueIndex;
  OffsetOfElementAt := OffsetOfElementAt;
|}.

(** Modelled from the spec: the setter of the code field that
    [ACCESSORS_RELAXED] generates (object-macros.h, not among the sources):
    a store to the field followed by the write barrier. *)
Definition set_code (js_function value : HeapObject) : M FunctionState unit :=
  let slot := RawField js_function JSFunction_kCodeOffset in
  modify (λ s, mkFunctionState
                 (λ sl, if bool_decide (sl = slot) then Strong value
                        else memory s sl)
                 (write_barriers s ++ [(js_function, slot, value)])
                 (reset_feedback_vectors s)).

(** [raw_feedback_cell().reset_feedback_vector(...)] (feedback-cell-inl.h,
    not among the sources) is recorded. *)
Definition reset_feedback_vector (js_function : HeapObject)
    : M FunctionState unit :=
  modify (λ s, mkFunctionState (memory s) (write_barriers s)
                               (reset_feedback_vectors s ++ [js_function])).

Definition ResetIfCodeFlushed (js_function : HeapObject)
    : M FunctionState unit :=
  let kBytecodeCanFlush := flush_bytecode || stress_snapshot in
  let kBaselineCodeCanFlush := flush_baseline_code || stress_snapshot in
  if negb kBytecodeCanFlush && negb kBaselineCodeCanFlush then ret tt
  else
    needs_reset <-
      gets (λ s, NeedsResetDueToFlushedBytecode
                   (heap := heap_with (memory s)) js_function);;
    dcheck (implb needs_reset kBytecodeCanFlush);;;
    if kBytecodeCanFlush && needs_reset then
      (* Bytecode was flushed and function is now uncompiled, reset
         JSFunction by setting code to CompileLazy and clearing the
         feedback vector. *)
      set_code js_function CompileLazy;;;
      reset_feedback_vector js_function
    else
      needs_baseline_reset <-
        gets (λ s, NeedsResetDueToFlushedBaselineCode
                     (heap := heap_with (memory s)) js_function);;
      dcheck (implb needs_baseline_reset kBaselineCodeCanFlush);;;
      if kBaselineCodeCanFlush && needs_baseline_reset then
        (* Flush baseline code from the closure if required. *)
        set_code js_function InterpreterEntryTrampoline
      else ret tt.

End Function.

End JSFunctionReset.

(** * Properties *)

Lemma wrap32_small z : 0 ≤ z < 2 ^ 32 → wrap32 z = z.
Proof. intros; unfold wrap32; apply Z.mod_small; lia. Qed.

Lemma wrap16_small z : 0 ≤ z < 2 ^ 16 → wrap16 z = z.
Proof. intros; unfold wrap16; apply Z.mod_small; lia. Qed.

Lemma wrap32_range z : 0 ≤ wrap32 z < 2 ^ 32.
Proof. unfold wrap32; apply Z.mod_pos_bound; lia. Qed.

Lemma wrap16_range z : 0 ≤ wrap16 z < 2 ^ 16.
Proof. unfold wrap16; apply Z.mod_pos_bound; lia. Qed.

(** ** Reasoning in the monad *)

Lemma bind_Ok {St A B} (m : M St A) (k : A → M St B) s r :
  bind m k s = Ok r ↔ ∃ a s1, m s = Ok (a, s1) ∧ k a s1 = Ok r.
Proof.
  unfold bind; split.
  - destruct (m s) as [[a s1]|f]; [eauto | discriminate].
  - intros (a & s1 & -> & Hk); exact Hk.
Qed.

Lemma bind_Err {St A B} (m : M St A) (k : A → M St B) s f :
  bind m k s = Err f ↔
  m s = Err f ∨ ∃ a s1, m s = Ok (a, s1) ∧ k a s1 = Err f.
Proof.
  unfold bind; split.
  - destruct (m s) as [[a s1]|f']; [eauto | intros [= ->]; auto].
  - intros [-> | (a & s1 & -> & Hk)]; auto.
Qed.

Lemma bind_step {St A B} (m : M St A) (k : A → M St B) s a s1 :
  m s = Ok (a, s1) → bind m k s = k a s1.
Proof. unfold bind; intros ->; reflexivity. Qed.

Lemma for_each_modify {St A} (l : list A) (g : A → St → St) (s : St) :
  for_each l (λ x, modify (g x)) s = Ok (tt, foldl (λ s x, g x s) s l).
Proof.
  revert s; induction l as [|x l IH]; intros s; [reflexivity|].
  simpl; unfold bind at 1, modify at 1; apply IH.
Qed.

(** ** The external entity table *)

Module ExternalEntityTableProofs.
Import ExternalEntityTable.

Section Proofs.

Context {params : TableParams}.

(** What the header asserts statically: segments are not empty and every
    entry index and byte offset of the reservation fits 32 bits. *)
Hypothesis entries_per_segment_pos : 0 < kEntriesPerSegment.
Hypothesis segment_size_pos : 0 < kSegmentSize.
Hypothesis entries_fit : kEntriesPerSegment * kNumSegments ≤ 2 ^ 32.
Hypothesis offsets_fit : kSegmentSize * kNumSegments ≤ 2 ^ 32.

(** *** Segment arithmetic *)

Lemma first_entry_eq n :
  0 ≤ n < kNumSegments → first_entry n = n * kEntriesPerSegment.
Proof. intros; unfold first_entry; apply wrap32_small; nia. Qed.

Lemma last_entry_eq n :
  0 ≤ n < kNumSegments →
  last_entry n = n * kEntriesPerSegment + kEntriesPerSegment - 1.
Proof.
  intros; unfold last_entry; rewrite first_entry_eq by done.
  apply wrap32_small; nia.
Qed.

Lemma Segment_At_offset n :
  0 ≤ n < kNumSegments → Segment_At (wrap32 (n * kSegmentSize)) = n.
Proof.
  intros; unfold Segment_At; rewrite wrap32_small by nia.
  apply Z.div_mul; lia.
Qed.

Lemma Segment_Containing_entry n i :
  n * kEntriesPerSegment ≤ i < n * kEntriesPerSegment + kEntriesPerSegment →
  Segment_Containing i = n.
Proof.
  intros; unfold Segment_Containing.
  symmetry; apply (Z.div_unique i kEntriesPerSegment n (i - n * kEntriesPerSegment)); lia.
Qed.

Lemma Segment_Containing_zero : Segment_Containing 0 = 0.
Proof. unfold Segment_Containing; apply Z.div_0_l; lia. Qed.

(** *** Writing the links of a fresh segment *)

Definition link (i : Z) (s : State) : State :=
  write_entry i (MakeFreelistEntry (wrap32 (i + 1))) s.

Lemma foldl_link_space l s : space (foldl (λ s i, link i s) s l) = space s.
Proof. revert s; induction l; intros; simpl; [done | by rewrite IHl]. Qed.

Lemma foldl_link_vas l s :
  vas_ (table (foldl (λ s i, link i s) s l)) = vas_ (table s).
Proof. revert s; induction l; intros; simpl; [done | by rewrite IHl]. Qed.

Lemma foldl_link_lookup l s j :
  base_ (table (foldl (λ s i, link i s) s l)) !! j =
  if bool_decide (j ∈ l) then Some (FreelistEntry (wrap32 (j + 1)))
  else base_ (table s) !! j.
Proof.
  revert s; induction l as [|x l IH] using rev_ind; intros s.
  - reflexivity.
  - rewrite foldl_app; simpl.
    destruct (decide (j = x)) as [->|Hne].
    + rewrite lookup_insert_eq, bool_decide_eq_true_2; [done|].
      apply elem_of_app; right; apply list_elem_of_singleton; done.
    + rewrite lookup_insert_ne by done. rewrite IH.
      apply (f_equal (λ b : bool, if b then _ else _)).
      apply bool_decide_ext.
      rewrite elem_of_app, list_elem_of_singleton; tauto.
Qed.

Lemma foldl_link_base l s s' :
  base_ (table s) = base_ (table s') →
  base_ (table (foldl (λ s i, link i s) s l)) =
  base_ (table (foldl (λ s i, link i s) s' l)).
Proof.
  intros Heq. apply map_eq; intros j.
  rewrite !foldl_link_lookup, Heq. done.
Qed.

(** *** The virtual address space *)

Lemma AllocatePages_Some hint perm pages n pages' :
  AllocatePages hint perm pages = Some (n, pages') ↔
  (match hint with Some h => Some h | None => placement pages end) = Some n ∧
  0 ≤ n < kNumSegments ∧ pages !! n = None ∧ pages' = <[n := perm]> pages.
Proof.
  unfold AllocatePages.
  destruct (match hint with Some h => Some h | None => placement pages end)
    as [m|]; [|naive_solver].
  destruct (bool_decide (0 ≤ m < kNumSegments)) eqn:Hr;
    destruct (bool_decide (pages !! m = None)) eqn:Hf; simpl;
    try apply bool_decide_eq_true in Hr; try apply bool_decide_eq_true in Hf;
    try apply bool_decide_eq_false in Hr; try apply bool_decide_eq_false in Hf;
    naive_solver.
Qed.

(** *** The invariant of a table with one of its spaces *)

(** [chain t i l]: following the links from index [i] visits exactly the
    entries [l] and then reaches the terminator 0. *)
Fixpoint chain (t : Table) (i : Z) (l : list Z) : Prop :=
  match l with
  | [] => i = 0
  | x :: l' => x = i ∧ chain t (GetNextFreelistEntryIndex (at_ t i)) l'
  end.

(** The free list of the space holds exactly the entries [l], in order. *)
Record freelist_is (s : State) (l : list Z) : Prop := {
  fl_chain : chain (table s) (next_ (freelist_head_ (space s))) l;
  fl_length : length_ (freelist_head_ (space s)) = Z.of_nat (List.length l);
  fl_bound : length_ (freelist_head_ (space s)) < 2 ^ 32;
  fl_nodup : NoDup l;
  fl_contains : ∀ x, x ∈ l → Contains (space s) x = true;
}.

(** The table is initialized, segment 0 is taken (by [InitializeTable]) and
    the space owns allocated segments other than segment 0. *)
Record inv (s : State) : Prop := {
  inv_initialized : is_initialized (table s) = true;
  inv_null_segment : is_Some (the_pages (table s) !! 0);
  inv_segments : ∀ n, n ∈ segments_ (space s) →
      0 < n < kNumSegments ∧ is_Some (the_pages (table s) !! n);
}.

(** Between calls no thread is inside the critical section of the space. *)
Definition wf (s : State) : Prop := inv s ∧ mutex_ (space s) = false.

Lemma wf_initialized s : wf s → is_initialized (table s) = true.
Proof. intros [[] ?]; done. Qed.
Lemma wf_null_segment s : wf s → is_Some (the_pages (table s) !! 0).
Proof. intros [[] ?]; done. Qed.
Lemma wf_segments s : wf s → ∀ n, n ∈ segments_ (space s) →
  0 < n < kNumSegments ∧ is_Some (the_pages (table s) !! n).
Proof. intros [[] ?]; done. Qed.
Lemma wf_mutex s : wf s → mutex_ (space s) = false.
Proof. intros [? ?]; done. Qed.

Lemma Contains_nonzero s x :
  wf s → Contains (space s) x = true → x ≠ 0.
Proof.
  intros Hwf Hc ->. unfold Contains in Hc. apply bool_decide_eq_true in Hc.
  rewrite Segment_Containing_zero in Hc.
  apply (wf_segments _ Hwf) in Hc. lia.
Qed.

Lemma chain_nil_inv t i : chain t i [] → i = 0.
Proof. done. Qed.

Lemma chain_ext t t' i l :
  (∀ x, x ∈ l → at_ t' x = at_ t x) → chain t i l → chain t' i l.
Proof.
  revert i; induction l as [|x l IH]; intros i Heq; simpl; [done|].
  intros [-> Hc]; split; [done|].
  rewrite Heq by apply list_elem_of_here.
  apply IH; [|done]. intros y Hy; apply Heq; by apply list_elem_of_further.
Qed.

(** *** [Extend] *)

(** The state [Extend] leaves when the platform places the new segment at
    number [n]. *)
Definition extended (n : Z) (s : State) : State :=
  let first := n * kEntriesPerSegment in
  let last := first + kEntriesPerSegment - 1 in
  let linked := foldl (λ s i, link i s) s (seqZ first (last - first)) in
  mkState
    (mkTable (Some (<[n := kReadWrite]> (the_pages (table s))))
             (<[last := FreelistEntry 0]> (base_ (table linked))))
    (mkSpace (mkFreelistHead first kEntriesPerSegment)
             ({[n]} ∪ segments_ (space s)) (mutex_ (space s))).

Lemma AllocateTableSegment_Ok s n pages' :
  AllocatePages None kReadWrite (the_pages (table s)) = Some (n, pages') →
  AllocateTableSegment s =
    Ok (n, set_table (λ t, mkTable (Some pages') (base_ t)) s).
Proof.
  intros Ha. unfold AllocateTableSegment, bind, get. rewrite Ha; simpl.
  apply AllocatePages_Some in Ha as (_ & Hn & _ & _).
  unfold ret. by rewrite Segment_At_offset.
Qed.

Lemma AllocateTableSegment_Err s :
  AllocatePages None kReadWrite (the_pages (table s)) = None →
  AllocateTableSegment s = Err FatalProcessOutOfMemory.
Proof. intros Ha. unfold AllocateTableSegment, bind, get. by rewrite Ha. Qed.

Lemma Extend_Ok s n pages' :
  freelist_length (space s) = 0 →
  mutex_ (space s) = true →
  is_Some (the_pages (table s) !! 0) →
  AllocatePages None kReadWrite (the_pages (table s)) = Some (n, pages') →
  Extend s =
    Ok (mkFreelistHead (n * kEntriesPerSegment) kEntriesPerSegment,
        extended n s).
Proof.
  intros Hlen Hmx H0 Ha.
  pose proof Ha as Hseg%AllocateTableSegment_Ok.
  apply AllocatePages_Some in Ha as (_ & Hn & Hfree & ->).
  assert (n ≠ 0) as Hn0 by (intros ->; rewrite Hfree in H0; by destruct H0).
  unfold Extend.
  rewrite (bind_step get _ s s s) by done.
  rewrite Hlen, Hmx; simpl.
  unfold bind at 1; simpl. unfold bind at 1; simpl.
  rewrite (bind_step _ _ _ _ _ Hseg).
  unfold bind at 1, modify at 1.
  replace (negb (n =? 0)) with true by (symmetry; apply negb_true_iff; lia).
  unfold bind at 1; simpl.
  rewrite first_entry_eq, last_entry_eq by done.
  unfold bind at 1. rewrite for_each_modify.
  unfold bind, modify, store_freelist_head, modify, ret; simpl.
  f_equal. f_equal.
  - f_equal. rewrite wrap32_small; nia.
  - unfold extended, set_freelist_head, set_space, set_table, write_entry; simpl.
    fold link.
    rewrite !foldl_link_space, !foldl_link_vas; simpl.
    f_equal.
    + f_equal. f_equal. apply foldl_link_base. done.
    + f_equal. f_equal. rewrite wrap32_small; nia.
Qed.

Lemma extended_at n s i :
  0 ≤ n < kNumSegments →
  at_ (table (extended n s)) i =
    if bool_decide (i = n * kEntriesPerSegment + kEntriesPerSegment - 1)
    then FreelistEntry 0
    else if bool_decide (n * kEntriesPerSegment ≤ i
                         < n * kEntriesPerSegment + kEntriesPerSegment - 1)
    then FreelistEntry (i + 1)
    else at_ (table s) i.
Proof.
  intros Hn. unfold at_, extended; simpl.
  case_bool_decide as Hlast.
  - subst i. by rewrite lookup_insert_eq.
  - rewrite lookup_insert_ne by done. rewrite foldl_link_lookup.
    case_bool_decide as Hin; case_bool_decide as Hr;
      rewrite elem_of_seqZ in Hin; try lia; [|done].
    simpl. rewrite wrap32_small by nia. done.
Qed.

Lemma chain_extended n s (m : nat) i :
  0 ≤ n < kNumSegments →
  n * kEntriesPerSegment ≤ i →
  i + Z.of_nat m = n * kEntriesPerSegment + kEntriesPerSegment - 1 →
  chain (table (extended n s)) i (seqZ i (Z.of_nat (S m))).
Proof.
  intros Hn. revert i; induction m as [|m IH]; intros i Hlo Hhi.
  - rewrite seqZ_cons, seqZ_nil by lia; cbn [chain]. split; [done|].
    rewrite extended_at by done. rewrite bool_decide_eq_true_2 by lia. done.
  - rewrite seqZ_cons by lia. cbn [chain]. split; [done|].
    rewrite extended_at by done.
    rewrite bool_decide_eq_false_2, bool_decide_eq_true_2 by lia.
    cbn [GetNextFreelistEntryIndex].
    replace (Z.pred (Z.of_nat (S (S m)))) with (Z.of_nat (S m)) by lia.
    replace (Z.succ i) with (i + 1) by lia.
    apply IH; lia.
Qed.

Lemma Contains_extended n s i :
  Contains (space (extended n s)) i =
  bool_decide (Segment_Containing i = n) || Contains (space s) i.
Proof.
  unfold Contains, extended; simpl.
  do 3 case_bool_decide; simpl; set_solver.
Qed.

Lemma freelist_is_extended n s :
  0 < n < kNumSegments →
  freelist_is (extended n s)
    (seqZ (n * kEntriesPerSegment) kEntriesPerSegment).
Proof.
  intros Hn. split.
  - change (next_ (freelist_head_ (space (extended n s))))
      with (n * kEntriesPerSegment).
    replace kEntriesPerSegment
      with (Z.of_nat (S (Z.to_nat (kEntriesPerSegment - 1)))) at 3 by lia.
    apply chain_extended; [lia | lia | lia].
  - simpl. rewrite length_seqZ. lia.
  - simpl. nia.
  - apply NoDup_seqZ.
  - intros x Hx%elem_of_seqZ. rewrite Contains_extended.
    rewrite bool_decide_eq_true_2; [done|].
    apply Segment_Containing_entry; lia.
Qed.

(** *** Taking the head of the free list *)

(** The state after the head of the free list was taken. *)
Definition popped (s : State) : State :=
  let h := freelist_head_ (space s) in
  set_freelist_head
    (mkFreelistHead (GetNextFreelistEntryIndex (at_ (table s) (next_ h)))
                    (length_ h - 1)) s.

Lemma freelist_is_nil_empty s :
  freelist_is s [] → is_empty (freelist_head_ (space s)) = true.
Proof.
  intros [Hc Hl _ _ _]. simpl in *. unfold is_empty. rewrite Hc, Hl. done.
Qed.

Lemma freelist_is_cons_nonempty s x l :
  freelist_is s (x :: l) → is_empty (freelist_head_ (space s)) = false.
Proof.
  intros [_ Hl _ _ _]. unfold is_empty.
  apply andb_false_iff; right. apply Z.eqb_neq. rewrite Hl. simpl. lia.
Qed.

Lemma freelist_is_popped s x l :
  freelist_is s (x :: l) → freelist_is (popped s) l.
Proof.
  intros [Hc Hl Hb Hnd Hin]. simpl in Hc, Hl. destruct Hc as [-> Hc].
  split; simpl.
  - exact Hc.
  - lia.
  - lia.
  - by apply NoDup_cons in Hnd as [_ ?].
  - intros y Hy. apply Hin. by apply list_elem_of_further.
Qed.

Lemma inv_popped s : inv s → inv (popped s).
Proof. intros [? ? ?]; split; done. Qed.

Lemma wf_popped s : wf s → wf (popped s).
Proof. intros [? ?]; split; [by apply inv_popped | done]. Qed.

Lemma TryAllocateEntryFromFreelist_Ok s x l :
  freelist_is s (x :: l) →
  TryAllocateEntryFromFreelist (freelist_head_ (space s)) s
  = Ok (true, popped s).
Proof.
  intros Hfl. pose proof (freelist_is_popped _ _ _ Hfl) as Hfl'.
  pose proof (freelist_is_cons_nonempty _ _ _ Hfl) as Hne.
  destruct Hfl as [Hc Hl Hb Hnd Hin]. simpl in Hc, Hl. destruct Hc as [Hx Hc].
  unfold TryAllocateEntryFromFreelist.
  rewrite (bind_step get _ s s s) by done.
  rewrite Hne; simpl. unfold bind at 1; simpl.
  assert (Contains (space s) (next_ (freelist_head_ (space s))) = true) as ->
    by (rewrite <- Hx; apply Hin, list_elem_of_here).
  unfold bind at 1; simpl.
  unfold compare_exchange_strong.
  unfold bind at 1. unfold bind at 1. unfold get at 1.
  rewrite bool_decide_eq_true_2 by done.
  unfold bind at 1, put at 1. unfold ret at 1.
  rewrite (wrap32_small (length_ _ - 1)) by lia.
  fold (popped s).
  destruct l as [|y l].
  - (* the list had one entry: the new head is the empty one *)
    simpl in Hl. replace (1 <? _) with false by (symmetry; apply Z.ltb_ge; lia).
    replace (length_ (freelist_head_ (space s)) =? 1) with true
      by (symmetry; apply Z.eqb_eq; lia).
    simpl implb.
    change (mkFreelistHead _ _) with (freelist_head_ (space (popped s))).
    rewrite (freelist_is_nil_empty _ Hfl'). reflexivity.
  - simpl in Hl. replace (1 <? _) with true by (symmetry; apply Z.ltb_lt; lia).
    replace (length_ (freelist_head_ (space s)) =? 1) with false
      by (symmetry; apply Z.eqb_neq; lia).
    change (mkFreelistHead _ _) with (freelist_head_ (space (popped s))).
    rewrite (freelist_is_cons_nonempty _ _ _ Hfl'). reflexivity.
Qed.

(** *** One turn of the loop of [AllocateEntry] *)

Lemma AllocateEntry_body_pop s x l :
  freelist_is s (x :: l) →
  AllocateEntry_body s = Ok ((true, freelist_head_ (space s)), popped s).
Proof.
  intros Hfl. unfold AllocateEntry_body.
  unfold bind at 1, load_freelist_head at 1, gets at 1.
  rewrite (freelist_is_cons_nonempty _ _ _ Hfl).
  unfold bind at 1, ret at 1.
  rewrite (bind_step _ _ _ _ _ (TryAllocateEntryFromFreelist_Ok _ _ _ Hfl)).
  reflexivity.
Qed.

Lemma extended_under_mutex n s :
  mutex_ (space s) = false →
  set_mutex false (extended n (set_mutex true s)) = extended n s.
Proof.
  intros Hm. unfold extended, set_mutex, set_space; simpl.
  rewrite <- Hm. f_equal. f_equal. f_equal.
  apply foldl_link_base. done.
Qed.

Lemma inv_extended n s :
  inv s → 0 < n < kNumSegments → inv (extended n s).
Proof.
  intros [Hi H0 Hs] Hn. split; simpl; [done| |].
  - unfold the_pages; simpl. destruct (decide (n = 0)) as [->|?]; [lia|].
    by rewrite lookup_insert_ne.
  - intros m [->%elem_of_singleton|Hin]%elem_of_union.
    + split; [lia|]. unfold the_pages; simpl. by rewrite lookup_insert_eq.
    + destruct (Hs m Hin) as [? Hp]. split; [lia|].
      unfold the_pages; simpl.
      destruct (decide (n = m)) as [->|?];
        [by rewrite lookup_insert_eq | by rewrite lookup_insert_ne].
Qed.

Lemma wf_extended n s :
  wf s → 0 < n < kNumSegments → wf (extended n s).
Proof. intros [? ?] ?; split; [by apply inv_extended | done]. Qed.

Lemma placed_segment_nonzero s n pages' :
  is_Some (the_pages (table s) !! 0) →
  AllocatePages None kReadWrite (the_pages (table s)) = Some (n, pages') →
  0 < n < kNumSegments ∧ the_pages (table s) !! n = None.
Proof.
  intros [? Hp] (_ & Hn & Hfree & _)%AllocatePages_Some. split; [|done].
  destruct (decide (n = 0)) as [->|?]; [|lia]. congruence.
Qed.

Lemma AllocateEntry_body_extend s n pages' :
  wf s → freelist_is s [] →
  AllocatePages None kReadWrite (the_pages (table s)) = Some (n, pages') →
  AllocateEntry_body s =
    Ok ((true, mkFreelistHead (n * kEntriesPerSegment) kEntriesPerSegment),
        popped (extended n s)).
Proof.
  intros Hwf Hfl Ha.
  destruct (placed_segment_nonzero _ _ _ (wf_null_segment _ Hwf) Ha)
    as [Hn Hfree].
  pose proof (freelist_is_nil_empty _ Hfl) as He.
  assert (Extend (set_mutex true s) =
          Ok (mkFreelistHead (n * kEntriesPerSegment) kEntriesPerSegment,
              extended n (set_mutex true s))) as Hext.
  { apply (Extend_Ok _ _ pages'); [|done| |done].
    - destruct Hfl as [_ Hl _ _ _]. exact Hl.
    - apply (wf_null_segment _ Hwf). }
  unfold AllocateEntry_body.
  unfold bind at 1, load_freelist_head at 1, gets at 1. rewrite He.
  unfold MutexGuard.
  unfold bind at 1. unfold bind at 1, get at 1.
  rewrite (wf_mutex _ Hwf).
  unfold bind at 1, put at 1.
  unfold bind at 1. unfold bind at 1, load_freelist_head at 1, gets at 1.
  change (freelist_head_ (space (set_mutex true s)))
    with (freelist_head_ (space s)).
  rewrite He.
  rewrite (bind_step _ _ _ _ _ Hext).
  cbn [length_]. rewrite Z.eqb_refl.
  unfold dcheck at 1, bind at 1, ret at 1.
  unfold ret at 1. unfold bind at 1, modify at 1.
  unfold ret at 1.
  rewrite (extended_under_mutex _ _ (wf_mutex _ Hwf)).
  pose proof (freelist_is_extended n s Hn) as Hfl'.
  rewrite seqZ_cons in Hfl' by lia.
  pose proof (TryAllocateEntryFromFreelist_Ok _ _ _ Hfl') as Hpop.
  change (freelist_head_ (space (extended n s)))
    with (mkFreelistHead (n * kEntriesPerSegment) kEntriesPerSegment) in Hpop.
  rewrite (bind_step _ _ _ _ _ Hpop).
  reflexivity.
Qed.

Lemma AllocateEntry_body_oom s :
  wf s → freelist_is s [] →
  AllocatePages None kReadWrite (the_pages (table s)) = None →
  AllocateEntry_body s = Err FatalProcessOutOfMemory.
Proof.
  intros Hwf Hfl Ha.
  pose proof (freelist_is_nil_empty _ Hfl) as He.
  unfold AllocateEntry_body.
  unfold bind at 1, load_freelist_head at 1, gets at 1. rewrite He.
  unfold MutexGuard.
  unfold bind at 1. unfold bind at 1, get at 1.
  rewrite (wf_mutex _ Hwf).
  unfold bind at 1, put at 1.
  unfold bind at 1. unfold bind at 1, load_freelist_head at 1, gets at 1.
  change (freelist_head_ (space (set_mutex true s)))
    with (freelist_head_ (space s)).
  rewrite He.
  unfold Extend.
  unfold bind at 1. unfold bind at 1. unfold bind at 1, get at 1.
  destruct Hfl as [_ Hl _ _ _]. simpl in Hl.
  unfold freelist_length.
  change (freelist_head_ (space (set_mutex true s)))
    with (freelist_head_ (space s)).
  rewrite Hl. simpl.
  unfold bind at 1. simpl.
  unfold bind at 1. rewrite AllocateTableSegment_Err; done.
Qed.

(** *** [AllocateEntry] *)

Lemma Contains_popped s i : Contains (space (popped s)) i = Contains (space s) i.
Proof. reflexivity. Qed.

Lemma AllocateEntry_pop fuel s x l :
  wf s → freelist_is s (x :: l) →
  AllocateEntry (S fuel) s = Ok (x, popped s).
Proof.
  intros Hwf Hfl. unfold AllocateEntry.
  rewrite (bind_step get _ s s s) by done.
  rewrite (wf_initialized _ Hwf). unfold dcheck at 1, bind at 1, ret at 1.
  cbn [until_success].
  unfold bind at 1. unfold bind at 1.
  rewrite (AllocateEntry_body_pop _ _ _ Hfl). cbn [fst snd].
  unfold ret at 1. unfold bind at 1, get at 1.
  destruct (fl_chain _ _ Hfl) as [Hx _].
  rewrite <- Hx, Contains_popped.
  rewrite (fl_contains _ _ Hfl x) by apply list_elem_of_here.
  unfold dcheck at 1, bind at 1, ret at 1.
  assert (x ≠ 0) as Hx0.
  { apply (Contains_nonzero s); [done|].
    apply (fl_contains _ _ Hfl), list_elem_of_here. }
  replace (negb (x =? 0)) with true by (symmetry; apply negb_true_iff; lia).
  reflexivity.
Qed.

Lemma AllocateEntry_extend fuel s n pages' :
  wf s → freelist_is s [] →
  AllocatePages None kReadWrite (the_pages (table s)) = Some (n, pages') →
  AllocateEntry (S fuel) s = Ok (n * kEntriesPerSegment, popped (extended n s)).
Proof.
  intros Hwf Hfl Ha. unfold AllocateEntry.
  destruct (placed_segment_nonzero _ _ _ (wf_null_segment _ Hwf) Ha)
    as [Hn Hfree].
  rewrite (bind_step get _ s s s) by done.
  rewrite (wf_initialized _ Hwf). unfold dcheck at 1, bind at 1, ret at 1.
  cbn [until_success].
  unfold bind at 1. unfold bind at 1.
  rewrite (AllocateEntry_body_extend _ _ _ Hwf Hfl Ha). cbn [fst snd next_].
  unfold ret at 1. unfold bind at 1, get at 1.
  rewrite Contains_popped, Contains_extended.
  cbn [next_]. rewrite bool_decide_eq_true_2 by (apply Segment_Containing_entry; lia).
  unfold dcheck at 1, bind at 1, ret at 1. cbn [orb].
  replace (negb (n * kEntriesPerSegment =? 0)) with true
    by (symmetry; apply negb_true_iff; nia).
  reflexivity.
Qed.

Lemma AllocateEntry_oom fuel s :
  wf s → freelist_is s [] →
  AllocatePages None kReadWrite (the_pages (table s)) = None →
  AllocateEntry (S fuel) s = Err FatalProcessOutOfMemory.
Proof.
  intros Hwf Hfl Ha. unfold AllocateEntry.
  rewrite (bind_step get _ s s s) by done.
  rewrite (wf_initialized _ Hwf). unfold dcheck at 1, bind at 1, ret at 1.
  cbn [until_success].
  unfold bind at 1. unfold bind at 1.
  rewrite (AllocateEntry_body_oom _ Hwf Hfl Ha). reflexivity.
Qed.

(** What one call does to a well-formed state whose free entries are [l]:
    it returns an index that was free or belongs to a fresh segment, or the
    process has run out of address space. *)
Lemma AllocateEntry_spec fuel s l :
  wf s → freelist_is s l →
  match AllocateEntry (S fuel) s with
  | Ok (r, s') =>
      wf s' ∧ r ≠ 0 ∧ Contains (space s') r = true ∧
      segments_ (space s) ⊆ segments_ (space s') ∧
      (∃ l', freelist_is s' l' ∧ (r ∉ l') ∧
             ∀ h, Contains (space s) h = true → h ∉ l → h ≠ r ∧ (h ∉ l'))
  | Err f =>
      f = FatalProcessOutOfMemory ∧ l = [] ∧
      AllocatePages None kReadWrite (the_pages (table s)) = None
  end.
Proof.
  intros Hwf Hfl. destruct l as [|x l].
  - destruct (AllocatePages None kReadWrite (the_pages (table s)))
      as [[n pages']|] eqn:Ha.
    + rewrite (AllocateEntry_extend _ _ _ _ Hwf Hfl Ha).
      destruct (placed_segment_nonzero _ _ _ (wf_null_segment _ Hwf) Ha)
    as [Hn Hfree].
      pose proof (freelist_is_extended n s Hn) as Hfl'.
      rewrite seqZ_cons in Hfl' by lia.
      split; [by apply wf_popped, wf_extended|].
      split; [nia|].
      split.
      { rewrite Contains_popped.
        apply (fl_contains _ _ Hfl'), list_elem_of_here. }
      split; [simpl; set_solver|].
      eexists; split; [apply (freelist_is_popped _ _ _ Hfl')|].
      split.
      { intros Hin. pose proof (fl_nodup _ _ Hfl') as Hnd.
        by apply NoDup_cons in Hnd as [? _]. }
      intros h Hh _.
      assert (Segment_Containing h ≠ n) as Hseg.
      { intros <-. unfold Contains in Hh. apply bool_decide_eq_true in Hh.
        destruct (wf_segments _ Hwf _ Hh) as [_ [? Hp]]. congruence. }
      split.
      * intros ->. apply Hseg, Segment_Containing_entry. lia.
      * intros Hin%elem_of_seqZ. apply Hseg, Segment_Containing_entry. lia.
    + rewrite (AllocateEntry_oom _ _ Hwf Hfl Ha). done.
  - rewrite (AllocateEntry_pop _ _ _ _ Hwf Hfl).
    split; [by apply wf_popped|].
    split.
    { apply (Contains_nonzero s); [done|].
      apply (fl_contains _ _ Hfl), list_elem_of_here. }
    split.
    { rewrite Contains_popped.
      apply (fl_contains _ _ Hfl), list_elem_of_here. }
    split; [done|].
    exists l. split; [apply (freelist_is_popped _ _ _ Hfl)|].
    split.
    { pose proof (fl_nodup _ _ Hfl) as Hnd.
      by apply NoDup_cons in Hnd as [? _]. }
    intros h _ Hh. rewrite not_elem_of_cons in Hh. tauto.
Qed.

(** *** [AllocateEntryBelow] *)

(** Two states with the same table, segments and mutex: they differ in the
    head of the free list at most. *)
Definition same_but_head (s s' : State) : Prop :=
  table s' = table s ∧ segments_ (space s') = segments_ (space s) ∧
  mutex_ (space s') = mutex_ (space s).

Lemma same_but_head_refl s : same_but_head s s.
Proof. done. Qed.

Lemma same_but_head_trans s1 s2 s3 :
  same_but_head s1 s2 → same_but_head s2 s3 → same_but_head s1 s3.
Proof. intros (? & ? & ?) (? & ? & ?); repeat split; congruence. Qed.

Lemma dcheck_Ok {St} (b : bool) (s : St) u s' :
  dcheck b s = Ok (u, s') → b = true ∧ s' = s.
Proof. destruct b; unfold dcheck, ret, fail; intros [=]; subst; done. Qed.

Lemma compare_exchange_strong_frame e d s b s' :
  compare_exchange_strong e d s = Ok (b, s') → same_but_head s s'.
Proof.
  unfold compare_exchange_strong.
  intros (? & ? & [= <- <-] & Hcas)%bind_Ok.
  case_bool_decide.
  - apply bind_Ok in Hcas as (? & ? & [= <- <-] & [= <- <-]). done.
  - injection Hcas as <- <-. done.
Qed.

Lemma TryAllocateEntryFromFreelist_frame fl s b s' :
  TryAllocateEntryFromFreelist fl s = Ok (b, s') → same_but_head s s'.
Proof.
  unfold TryAllocateEntryFromFreelist.
  intros (? & ? & [= <- <-] & H1)%bind_Ok.
  apply bind_Ok in H1 as (? & ? & [_ ->]%dcheck_Ok & H1).
  apply bind_Ok in H1 as (? & ? & [_ ->]%dcheck_Ok & H1).
  apply bind_Ok in H1 as (ok & s1 & Hcas%compare_exchange_strong_frame & H1).
  apply bind_Ok in H1 as (? & s2 & Hd & [= <- <-]).
  destruct ok.
  - apply bind_Ok in Hd as (? & ? & [_ ->]%dcheck_Ok & [_ ->]%dcheck_Ok).
    done.
  - injection Hd as _ <-. done.
Qed.

Lemma AllocateEntryBelow_loop_inv fuel T : ∀ s r s',
  until_success_or_return fuel (AllocateEntryBelow_body T) s = Ok (r, s') →
  same_but_head s s' ∧
  match r with
  | inl early => early = 0
  | inr fl => next_ fl < T
  end.
Proof.
  induction fuel as [|fuel IH]; intros s r s'; [discriminate|].
  cbn [until_success_or_return].
  intros (r1 & s1 & Hbody & Hrest)%bind_Ok.
  unfold AllocateEntryBelow_body in Hbody.
  apply bind_Ok in Hbody as (fl & ? & [= <- <-] & Hbody).
  destruct (is_empty _ || (T <=? next_ _)) eqn:Hguard.
  - injection Hbody as <- <-. injection Hrest as <- <-. done.
  - apply orb_false_iff in Hguard as [_ Hlt%Z.leb_gt].
    apply bind_Ok in Hbody as (ok & s2 & Htry & [= <- <-]).
    apply TryAllocateEntryFromFreelist_frame in Htry.
    destruct ok.
    + injection Hrest as <- <-. done.
    + apply IH in Hrest as [? ?]. split; [|done].
      by apply (same_but_head_trans _ s2).
Qed.

(** Whatever the state, a call that returns has left the table and the
    segments of the space alone and has returned 0 or an index below the
    threshold. *)
Lemma AllocateEntryBelow_inv fuel T s r s' :
  AllocateEntryBelow fuel T s = Ok (r, s') →
  same_but_head s s' ∧ (r = 0 ∨ (r ≠ 0 ∧ r < T)).
Proof.
  unfold AllocateEntryBelow.
  intros (? & ? & [= <- <-] & H1)%bind_Ok.
  apply bind_Ok in H1 as (? & ? & [_ ->]%dcheck_Ok & H1).
  apply bind_Ok in H1 as (res & s1 & Hloop & H1).
  apply AllocateEntryBelow_loop_inv in Hloop as [Hsame Hres].
  destruct res as [early|fl].
  - injection H1 as <- <-. subst. auto.
  - apply bind_Ok in H1 as (? & ? & [= <- <-] & H1).
    apply bind_Ok in H1 as (? & ? & [_ ->]%dcheck_Ok & H1).
    apply bind_Ok in H1 as (? & ? & [Hnz ->]%dcheck_Ok & H1).
    apply bind_Ok in H1 as (? & ? & [_ ->]%dcheck_Ok & [= <- <-]).
    split; [done|]. right. split; [|done].
    apply negb_true_iff, Z.eqb_neq in Hnz. done.
Qed.

Lemma AllocateEntryBelow_fail fuel T s :
  is_initialized (table s) = true →
  is_empty (freelist_head_ (space s))
    || (T <=? next_ (freelist_head_ (space s))) = true →
  AllocateEntryBelow (S fuel) T s = Ok (0, s).
Proof.
  intros Hi Hguard. unfold AllocateEntryBelow.
  rewrite (bind_step get _ s s s) by done.
  rewrite Hi. unfold dcheck at 1, bind at 1, ret at 1.
  cbn [until_success_or_return]. unfold AllocateEntryBelow_body.
  unfold bind at 1. unfold bind at 1. unfold bind at 1.
  unfold load_freelist_head at 1, gets at 1.
  rewrite Hguard. reflexivity.
Qed.

Lemma AllocateEntryBelow_pop fuel T s x l :
  wf s → freelist_is s (x :: l) → x < T →
  AllocateEntryBelow (S fuel) T s = Ok (x, popped s).
Proof.
  intros Hwf Hfl HxT.
  destruct (fl_chain _ _ Hfl) as [Hx _].
  assert (x ≠ 0) as Hx0.
  { apply (Contains_nonzero s); [done|].
    apply (fl_contains _ _ Hfl), list_elem_of_here. }
  unfold AllocateEntryBelow.
  rewrite (bind_step get _ s s s) by done.
  rewrite (wf_initialized _ Hwf). unfold dcheck at 1, bind at 1, ret at 1.
  cbn [until_success_or_return]. unfold AllocateEntryBelow_body.
  unfold bind at 1. unfold bind at 1. unfold bind at 1.
  unfold load_freelist_head at 1, gets at 1.
  rewrite (freelist_is_cons_nonempty _ _ _ Hfl), <- Hx.
  replace (T <=? x) with false by (symmetry; apply Z.leb_gt; lia).
  cbn [orb]. rewrite Hx.
  rewrite (bind_step _ _ _ _ _ (TryAllocateEntryFromFreelist_Ok _ _ _ Hfl)).
  unfold ret at 1. unfold ret at 1.
  unfold bind at 1, get at 1.
  rewrite <- Hx, Contains_popped.
  rewrite (fl_contains _ _ Hfl x) by apply list_elem_of_here.
  unfold dcheck at 1, bind at 1, ret at 1.
  replace (negb (x =? 0)) with true by (symmetry; apply negb_true_iff; lia).
  unfold dcheck at 1, bind at 1, ret at 1.
  replace (x <? T) with true by (symmetry; apply Z.ltb_lt; lia).
  reflexivity.
Qed.

(** *** Sequences of calls *)

(** A client that calls [AllocateEntry] [n] times in a row and keeps what
    the calls return, in order. *)
Fixpoint AllocateEntries (fuel n : nat) : M State (list Z) :=
  match n with
  | O => ret []
  | S n' =>
      r <- AllocateEntry fuel;;
      rs <- AllocateEntries fuel n';;
      ret (r :: rs)
  end.

Lemma Contains_mono (sp sp' : Space) i :
  segments_ sp ⊆ segments_ sp' → Contains sp i = true → Contains sp' i = true.
Proof.
  unfold Contains. intros Hsub Hc%bool_decide_eq_true.
  apply bool_decide_eq_true. by apply Hsub.
Qed.

Lemma AllocateEntries_spec fuel n : ∀ s l (used : list Z),
  wf s → freelist_is s l →
  (∀ h, h ∈ used → Contains (space s) h = true ∧ (h ∉ l)) →
  match AllocateEntries (S fuel) n s with
  | Ok (rs, s') =>
      wf s' ∧ segments_ (space s) ⊆ segments_ (space s') ∧ NoDup rs ∧
      ∀ r, r ∈ rs → r ≠ 0 ∧ Contains (space s') r = true ∧ (r ∉ used)
  | Err f => f = FatalProcessOutOfMemory
  end.
Proof.
  induction n as [|n IH]; intros s l used Hwf Hfl Hused.
  - simpl. split; [done|]. split; [done|]. split; [apply NoDup_nil_2|].
    by intros ? ?%elem_of_nil.
  - cbn [AllocateEntries]. unfold bind at 1.
    pose proof (AllocateEntry_spec fuel s l Hwf Hfl) as Hone.
    destruct (AllocateEntry (S fuel) s) as [[r s1]|f]; [|by destruct Hone].
    destruct Hone as (Hwf1 & Hr0 & Hrc & Hsub & l1 & Hfl1 & Hrl1 & Hfresh).
    specialize (IH s1 l1 (r :: used) Hwf1 Hfl1).
    unfold bind at 1.
    destruct (AllocateEntries (S fuel) n s1) as [[rs s2]|f]; [|apply IH].
    + destruct IH as (Hwf2 & Hsub2 & Hnd & Hrs).
      { intros h [->|Hh]%elem_of_cons; [done|].
        destruct (Hused h Hh) as [Hc Hl]. split.
        - by apply (Contains_mono (space s)).
        - by apply Hfresh. }
      unfold ret. split; [done|]. split; [by etrans|]. split.
      * apply NoDup_cons. split; [|done].
        intros Hin. destruct (Hrs r Hin) as (_ & _ & Hnot).
        apply Hnot, list_elem_of_here.
      * intros r' [Heq|Hin]%elem_of_cons.
        -- subst r'.
           split; [done|]. split; [by apply (Contains_mono (space s1))|].
           intros Hu. destruct (Hused r Hu) as [Hc Hl].
           by destruct (Hfresh r Hc Hl).
        -- destruct (Hrs r' Hin) as (? & ? & Hnot).
           split; [done|]. split; [done|].
           intros Hu. apply Hnot. by apply list_elem_of_further.
    + intros h [->|Hh]%elem_of_cons; [done|].
      destruct (Hused h Hh) as [Hc Hl]. split.
      * by apply (Contains_mono (space s)).
      * by apply Hfresh.
Qed.

(** *** Initialization *)

(** A table and a space before [InitializeTable]. *)
Definition fresh_state : State :=
  mkState (mkTable None ∅) (mkSpace empty_head ∅ false).

(** The state [InitializeTable] leaves. *)
Definition initial_state : State :=
  mkState (mkTable (Some {[0 := kRead]}) ∅) (mkSpace empty_head ∅ false).

(** The platform gives the address range. *)
Definition reserves (p : Platform) : bool :=
  if CanAllocateSubspaces p then AllocateSubspace_succeeds p
  else AllocatePages_succeeds p.

Lemma InitializeTable_Ok p :
  0 < kNumSegments → reserves p = true → AllocatePages_at_base p = Some 0 →
  InitializeTable p fresh_state = Ok (tt, initial_state).
Proof.
  intros Hn Hres Hfirst. unfold InitializeTable. rewrite Hfirst.
  rewrite (bind_step get _ _ fresh_state fresh_state) by done.
  simpl. unfold bind at 1; simpl.
  replace (if CanAllocateSubspaces p
           then if AllocateSubspace_succeeds p then Some ∅ else None
           else if AllocatePages_succeeds p then Some ∅ else None)
    with (Some (∅ : gmap Z PagePermissions))
    by (unfold reserves in Hres; destruct (CanAllocateSubspaces p);
        by rewrite Hres).
  unfold AllocatePages. rewrite bool_decide_eq_true_2 by lia.
  rewrite bool_decide_eq_true_2 by apply lookup_empty. simpl.
  unfold put, initial_state, set_table; simpl. do 4 f_equal.
Qed.

Lemma wf_initial_state : 0 < kNumSegments → wf initial_state.
Proof.
  intros Hn. split; [split|]; simpl; [done| |by intros ? ?%elem_of_empty|done].
  unfold the_pages; simpl. rewrite lookup_singleton_eq. by eexists.
Qed.

Lemma freelist_is_initial_state : freelist_is initial_state [].
Proof.
  split; simpl; [done|done|lia|apply NoDup_nil_2|by intros ? ?%elem_of_nil].
Qed.

(** *** Inversion of [Extend] and the checks of its preconditions *)

Lemma Extend_unchecked s :
  freelist_length (space s) ≠ 0 ∨ mutex_ (space s) = false →
  Extend s = Err DcheckFailure.
Proof.
  intros Hpre. unfold Extend. rewrite (bind_step get _ s s s) by done.
  destruct (freelist_length (space s) =? 0) eqn:Hlen; [|done].
  apply Z.eqb_eq in Hlen. destruct Hpre as [?|Hm]; [done|].
  unfold dcheck at 1, bind at 1, ret at 1. by rewrite Hm.
Qed.

Lemma Extend_oom s :
  freelist_length (space s) = 0 → mutex_ (space s) = true →
  AllocatePages None kReadWrite (the_pages (table s)) = None →
  Extend s = Err FatalProcessOutOfMemory.
Proof.
  intros Hlen Hm Ha. unfold Extend. rewrite (bind_step get _ s s s) by done.
  rewrite Hlen, Hm. simpl. unfold bind at 1; simpl. unfold bind at 1; simpl.
  unfold bind at 1. by rewrite AllocateTableSegment_Err.
Qed.

Lemma Extend_inv s h s' :
  is_Some (the_pages (table s) !! 0) →
  Extend s = Ok (h, s') →
  ∃ n, 0 < n < kNumSegments ∧ the_pages (table s) !! n = None ∧
       freelist_length (space s) = 0 ∧ mutex_ (space s) = true ∧
       h = mkFreelistHead (n * kEntriesPerSegment) kEntriesPerSegment ∧
       s' = extended n s.
Proof.
  intros H0 Hext.
  destruct (decide (freelist_length (space s) = 0)) as [Hlen|Hlen];
    [|rewrite Extend_unchecked in Hext by auto; discriminate].
  destruct (mutex_ (space s)) eqn:Hm;
    [|rewrite Extend_unchecked in Hext by auto; discriminate].
  destruct (AllocatePages None kReadWrite (the_pages (table s)))
    as [[n pages']|] eqn:Ha;
    [|rewrite Extend_oom in Hext by done; discriminate].
  rewrite (Extend_Ok _ _ _ Hlen Hm H0 Ha) in Hext. injection Hext as <- <-.
  destruct (placed_segment_nonzero _ _ _ H0 Ha). exists n. done.
Qed.

(** *** [TearDownSpace] *)

Lemma FreeTableSegment_zero s : FreeTableSegment 0 s = Err DcheckFailure.
Proof. reflexivity. Qed.

Lemma the_pages_FreePages m s k :
  the_pages (table (set_table
    (λ t, mkTable (FreePages m <$> vas_ t) (released m (base_ t))) s)) !! k
  = if bool_decide (k = m) then None else the_pages (table s) !! k.
Proof.
  unfold the_pages, set_table, FreePages; simpl.
  destruct (vas_ (table s)) as [pages|]; simpl.
  - case_bool_decide as Hk; [subst; apply lookup_delete_eq|].
    by rewrite lookup_delete_ne.
  - rewrite lookup_empty. by case_bool_decide.
Qed.

Lemma for_each_FreeTableSegment l : ∀ s,
  0 ∉ l →
  ∃ s', for_each l FreeTableSegment s = Ok (tt, s') ∧
        space s' = space s ∧
        is_initialized (table s') = is_initialized (table s) ∧
        ∀ k, the_pages (table s') !! k =
             if bool_decide (k ∈ l) then None else the_pages (table s) !! k.
Proof.
  induction l as [|m l IH]; intros s Hl.
  - exists s. simpl. repeat split.
  - apply not_elem_of_cons in Hl as [Hm Hl].
    cbn [for_each]. unfold bind at 1.
    unfold FreeTableSegment at 1. unfold bind at 1.
    replace (negb (m =? 0)) with true by (symmetry; apply negb_true_iff; lia).
    unfold dcheck at 1, ret at 1, modify at 1.
    destruct (IH (set_table
      (λ t, mkTable (FreePages m <$> vas_ t) (released m (base_ t))) s) Hl)
      as (s' & -> & Hsp & Hi & Hp).
    exists s'. split; [done|]. split; [done|]. split.
    + rewrite Hi. unfold is_initialized, set_table; simpl.
      by destruct (vas_ (table s)).
    + intros k. rewrite Hp, the_pages_FreePages.
      destruct (decide (k = m)) as [->|Hne].
      * rewrite (bool_decide_eq_true_2 (m ∈ m :: l)) by apply list_elem_of_here.
        rewrite (bool_decide_eq_true_2 (m = m)) by done. by destruct (bool_decide _).
      * rewrite (bool_decide_eq_false_2 (k = m)) by done.
        apply (f_equal (λ b : bool, if b then _ else _)).
        apply bool_decide_ext. rewrite elem_of_cons. tauto.
Qed.

Lemma TearDownSpace_Ok s :
  inv s →
  ∃ s', TearDownSpace s = Ok (tt, s') ∧
        segments_ (space s') = ∅ ∧
        is_initialized (table s') = true ∧
        (∀ k, the_pages (table s') !! k =
              if bool_decide (k ∈ segments_ (space s)) then None
              else the_pages (table s) !! k).
Proof.
  intros [Hi H0 Hs]. unfold TearDownSpace.
  rewrite (bind_step get _ s s s) by done.
  rewrite Hi. unfold dcheck at 1, bind at 1, ret at 1.
  destruct (for_each_FreeTableSegment (elements (segments_ (space s))) s)
    as (s' & Hfor & Hsp & Hi' & Hp).
  { intros Hin%elem_of_elements. apply Hs in Hin. lia. }
  unfold bind at 1. rewrite Hfor. unfold modify.
  eexists; split; [done|]. simpl. split; [done|]. split; [congruence|].
  intros k. rewrite Hp.
  apply (f_equal (λ b : bool, if b then _ else _)).
  apply bool_decide_ext. apply elem_of_elements.
Qed.

(** *** What a call of [AllocateEntryBelow] does to a well-formed state *)

Lemma AllocateEntryBelow_spec fuel T s l :
  wf s → freelist_is s l →
  (is_empty (freelist_head_ (space s)) = true
     ∨ T ≤ next_ (freelist_head_ (space s))) ∧
    AllocateEntryBelow (S fuel) T s = Ok (0, s)
  ∨
  (is_empty (freelist_head_ (space s)) = false
     ∧ next_ (freelist_head_ (space s)) < T) ∧
    next_ (freelist_head_ (space s)) ≠ 0 ∧
    AllocateEntryBelow (S fuel) T s
      = Ok (next_ (freelist_head_ (space s)), popped s).
Proof.
  intros Hwf Hfl.
  destruct (is_empty (freelist_head_ (space s))) eqn:He.
  { left. split; [by left|].
    apply AllocateEntryBelow_fail; [by apply wf_initialized | by rewrite He]. }
  destruct (decide (T ≤ next_ (freelist_head_ (space s)))) as [Hge|Hlt].
  { left. split; [by right|].
    apply AllocateEntryBelow_fail; [by apply wf_initialized|].
    apply orb_true_iff; right. by apply Z.leb_le. }
  right. destruct l as [|x l].
  { rewrite (freelist_is_nil_empty _ Hfl) in He. discriminate. }
  destruct (fl_chain _ _ Hfl) as [Hx _]. rewrite <- Hx.
  split; [split; [done | lia]|]. split.
  - apply (Contains_nonzero s); [done|].
    apply (fl_contains _ _ Hfl), list_elem_of_here.
  - apply (AllocateEntryBelow_pop _ _ _ _ l); [done | done | lia].
Qed.

(** *** Entry 0 and segment 0 *)

Lemma InitializeTable_inv p u s' :
  InitializeTable p fresh_state = Ok (u, s') →
  0 < kNumSegments ∧ s' = initial_state.
Proof.
  unfold InitializeTable.
  rewrite (bind_step get _ _ fresh_state fresh_state) by done.
  simpl. unfold bind at 1; simpl.
  destruct (if CanAllocateSubspaces p
            then if AllocateSubspace_succeeds p then Some ∅ else None
            else if AllocatePages_succeeds p then Some ∅ else None)
    as [pages|] eqn:Hvas; [|discriminate].
  assert (pages = ∅) as ->
    by (destruct (CanAllocateSubspaces p), (AllocateSubspace_succeeds p),
          (AllocatePages_succeeds p); congruence).
  destruct (AllocatePages_at_base p) as [n|]; [|discriminate].
  unfold AllocatePages.
  destruct (bool_decide (0 ≤ n < kNumSegments)) eqn:Hn; [|discriminate].
  apply bool_decide_eq_true in Hn.
  rewrite bool_decide_eq_true_2 by apply lookup_empty. simpl.
  destruct (n =? 0) eqn:Hz; [|discriminate].
  apply Z.eqb_eq in Hz. subst n.
  unfold put. intros [= <- <-]. split; [lia|].
  unfold initial_state, set_table; simpl. do 3 f_equal.
Qed.

Lemma freelist_nonzero s l : wf s → freelist_is s l → 0 ∉ l.
Proof.
  intros Hwf Hfl Hin. apply (Contains_nonzero s 0); [done| |done].
  by apply (fl_contains _ _ Hfl).
Qed.

Lemma extended_null_entry n s :
  0 < n < kNumSegments →
  at_ (table (extended n s)) 0 = at_ (table s) 0 ∧
  the_pages (table (extended n s)) !! 0 = the_pages (table s) !! 0.
Proof.
  intros Hn. split.
  - rewrite extended_at by lia. rewrite !bool_decide_eq_false_2 by nia. done.
  - unfold the_pages at 1; simpl. rewrite lookup_insert_ne by lia. done.
Qed.

Lemma AllocateEntry_cases fuel s l r s' :
  wf s → freelist_is s l →
  AllocateEntry (S fuel) s = Ok (r, s') →
  (∃ l', l = r :: l' ∧ s' = popped s) ∨
  (∃ n, 0 < n < kNumSegments ∧ l = [] ∧ r = n * kEntriesPerSegment ∧
        s' = popped (extended n s)).
Proof.
  intros Hwf Hfl Hcall. destruct l as [|x l].
  - right.
    destruct (AllocatePages None kReadWrite (the_pages (table s)))
      as [[n pages']|] eqn:Ha.
    + rewrite (AllocateEntry_extend _ _ _ _ Hwf Hfl Ha) in Hcall.
      injection Hcall as <- <-.
      destruct (placed_segment_nonzero _ _ _ (wf_null_segment _ Hwf) Ha).
      by exists n.
    + rewrite (AllocateEntry_oom _ _ Hwf Hfl Ha) in Hcall. discriminate.
  - left. rewrite (AllocateEntry_pop _ _ _ _ Hwf Hfl) in Hcall.
    injection Hcall as <- <-. by exists l.
Qed.

(** *** Threads that allocate at the same time *)

Abbreviation head_of s := (freelist_head_ (space s)).

(** A thread that holds the mutex of the space. *)
Definition holds (t : Thread) : bool :=
  match t with AtReload | AtExtend | AtUnlock _ => true | _ => false end.

(** A head a thread loaded is not empty, names an entry of the space, is
    below the threshold of the call, and is the current head unless its entry
    is among the entries [used], those handed out so far. *)
Definition head_ok (s : State) (used : list Z) (m : Mode)
    (freelist : FreelistHead) : Prop :=
  is_empty freelist = false ∧
  Contains (space s) (next_ freelist) = true ∧
  match m with
  | ModeAllocate => True
  | ModeBelow threshold_index => next_ freelist < threshold_index
  end ∧
  (freelist = head_of s ∨ next_ freelist ∈ used).

Definition thread_ok (s : State) (used : list Z) (t : Thread) : Prop :=
  match t with
  | AtRead m freelist => head_ok s used m freelist
  | AtCas m freelist next_freelist_entry =>
      head_ok s used m freelist ∧
      (freelist = head_of s →
       next_freelist_entry =
         GetNextFreelistEntryIndex (at_ (table s) (next_ freelist)))
  | AtUnlock freelist => head_ok s used ModeAllocate freelist
  | AtExtend => is_empty (head_of s) = true
  | _ => True
  end.

(** The mutex is held exactly when a thread is inside the guard, and at most
    one thread is. *)
Definition mutex_ok (held : bool) (ts : list Thread) : Prop :=
  (held = true ↔ ∃ i t, ts !! i = Some t ∧ holds t = true) ∧
  (∀ i j ti tj, ts !! i = Some ti → ts !! j = Some tj →
                holds ti = true → holds tj = true → i = j).

(** The invariant of the system. *)
Record cinv (cfg : Config) : Prop := {
  ci_inv : inv (shared cfg);
  ci_free : ∃ l, freelist_is (shared cfg) l ∧
                 NoDup (allocated (outcomes cfg) ++ l);
  ci_contains : ∀ r, r ∈ allocated (outcomes cfg) →
                     Contains (space (shared cfg)) r = true;
  ci_below : ∀ T r, Allocated (ModeBelow T) r ∈ outcomes cfg → r < T;
  ci_mutex : mutex_ok (mutex_ (space (shared cfg))) (threads cfg);
  ci_threads : ∀ i t, threads cfg !! i = Some t →
                      thread_ok (shared cfg) (allocated (outcomes cfg)) t;
}.

Lemma lookup_insert_thread (ts : list Thread) i j t t' :
  <[i := t']> ts !! j = Some t →
  (j = i ∧ t = t') ∨ (j ≠ i ∧ ts !! j = Some t).
Proof.
  intros [(-> & -> & _)|[? ?]]%list_lookup_insert_Some; [by left | by right].
Qed.

(** The mutex and the threads after a step of thread [i]. *)
Lemma mutex_ok_step ts i t t' (held held' : bool) :
  ts !! i = Some t →
  mutex_ok held ts →
  (holds t' = holds t ∧ held' = held) ∨
  (holds t = false ∧ holds t' = true ∧ held = false ∧ held' = true) ∨
  (holds t = true ∧ holds t' = false ∧ held' = false) →
  mutex_ok held' (<[i := t']> ts).
Proof.
  intros Hi [Hheld Huniq] Hcase.
  assert (i < List.length ts)%nat as Hlen by (by eapply lookup_lt_Some).
  assert (<[i := t']> ts !! i = Some t') as Hi'
    by (by apply list_lookup_insert_eq).
  split.
  - split.
    + intros Hheld'.
      destruct Hcase as [[Hh Heq]|[(_ & Hh & _)|(_ & _ & ?)]];
        [|by eauto|congruence].
      destruct (proj1 Hheld) as (j & tj & Hj & Hhj); [congruence|].
      destruct (decide (j = i)) as [->|Hne].
      * exists i, t'. split; [done|]. congruence.
      * exists j, tj. by rewrite list_lookup_insert_ne.
    + intros (j & tj & Hj & Hhj).
      apply lookup_insert_thread in Hj as [[-> ->]|[Hne Hj]].
      * destruct Hcase as [[Hh Heq]|[(_ & _ & _ & Heq)|(_ & Hh & _)]];
          [|done|congruence].
        rewrite Heq. apply Hheld. exists i, t. split; [done|]. congruence.
      * assert (held = true) as Hheld' by (apply Hheld; eauto).
        destruct Hcase as [[_ Heq]|[(_ & _ & ? & _)|(Hh & _ & _)]];
          [congruence|congruence|].
        destruct Hne. by apply (Huniq j i tj t).
  - intros j1 j2 t1 t2 H1 H2 Hh1 Hh2.
    apply lookup_insert_thread in H1 as [[-> ->]|[Hne1 H1]];
      apply lookup_insert_thread in H2 as [[-> ->]|[Hne2 H2]]; [done|..].
    + destruct Hcase as [[Hh _]|[(_ & _ & Hf & _)|(_ & Hh & _)]];
        [|..|congruence].
      * symmetry. apply (Huniq j2 i t2 t); [done|done|done|congruence].
      * assert (held = true) by (apply Hheld; eauto). congruence.
    + destruct Hcase as [[Hh _]|[(_ & _ & Hf & _)|(_ & Hh & _)]];
        [|..|congruence].
      * apply (Huniq j1 i t1 t); [done|done|done|congruence].
      * assert (held = true) by (apply Hheld; eauto). congruence.
    + by apply (Huniq j1 j2 t1 t2).
Qed.

Lemma compare_exchange_strong_inv e d s b s' :
  compare_exchange_strong e d s = Ok (b, s') →
  (b = true ∧ head_of s = e ∧ s' = set_freelist_head d s) ∨
  (b = false ∧ head_of s ≠ e ∧ s' = s).
Proof.
  unfold compare_exchange_strong, bind, get, put, ret.
  case_bool_decide; intros [= <- <-]; [by left | by right].
Qed.

(** A head whose entry was handed out is not the current head. *)
Lemma stale_not_head s l (used : list Z) freelist :
  freelist_is s l → NoDup (used ++ l) →
  is_empty freelist = false → next_ freelist ∈ used →
  freelist ≠ head_of s.
Proof.
  intros Hfl Hnd Hne Hstale ->. destruct l as [|x l].
  - rewrite (freelist_is_nil_empty _ Hfl) in Hne. discriminate.
  - destruct (fl_chain _ _ Hfl) as [Hx _].
    apply NoDup_app in Hnd as (_ & Hdisj & _).
    apply (Hdisj _ Hstale). rewrite <- Hx. apply list_elem_of_here.
Qed.

Lemma allocated_app os1 os2 :
  allocated (os1 ++ os2) = allocated os1 ++ allocated os2.
Proof. apply omap_app. Qed.

Lemma set_mutex_same s : set_mutex (mutex_ (space s)) s = s.
Proof. by destruct s as [? []]. Qed.

Lemma inv_set_mutex b s : inv s → inv (set_mutex b s).
Proof. intros [? ? ?]; split; done. Qed.

Lemma freelist_is_set_mutex b s l :
  freelist_is s l → freelist_is (set_mutex b s) l.
Proof. intros [? ? ? ? ?]; split; done. Qed.

Lemma thread_ok_set_mutex b s used t :
  thread_ok s used t → thread_ok (set_mutex b s) used t.
Proof. by destruct t. Qed.

Lemma inv_write_entry i e s : inv s → inv (write_entry i e s).
Proof. intros [? ? ?]; split; done. Qed.

Lemma at_write_entry i e s x :
  x ≠ i → at_ (table (write_entry i e s)) x = at_ (table s) x.
Proof. intros. unfold at_, write_entry; simpl. by rewrite lookup_insert_ne. Qed.

Lemma freelist_is_write_entry i e s l :
  i ∉ l → freelist_is s l → freelist_is (write_entry i e s) l.
Proof.
  intros Hi [Hc ? ? ? ?]; split; try done.
  apply (chain_ext (table s)); [|done].
  intros x Hx. apply at_write_entry. by intros ->.
Qed.

Lemma head_nonempty s l :
  freelist_is s l → is_empty (head_of s) = false →
  ∃ l', l = next_ (head_of s) :: l'.
Proof.
  intros Hfl Hne. destruct l as [|x l'].
  - rewrite (freelist_is_nil_empty _ Hfl) in Hne. discriminate.
  - destruct (fl_chain _ _ Hfl) as [-> _]. by eexists.
Qed.

(** The head a thread loads is one it may go on with. *)
Lemma head_ok_loaded s l used m :
  freelist_is s l → is_empty (head_of s) = false →
  gives_up m (head_of s) = false →
  head_ok s used m (head_of s).
Proof.
  intros Hfl Hne Hgo. destruct (head_nonempty _ _ Hfl Hne) as [l' ->].
  split; [done|]. split; [apply (fl_contains _ _ Hfl), list_elem_of_here|].
  split; [|by left].
  destruct m as [|T]; [done|]. simpl in Hgo.
  apply orb_false_iff in Hgo as [_ Hgo]. by apply Z.leb_gt in Hgo.
Qed.

(** *** The steps that leave the free list as it is *)

Lemma cinv_quiet cfg i t t' (b : bool) o :
  cinv cfg → threads cfg !! i = Some t →
  (o = None ∨ ∃ T, o = Some (Failed T)) →
  (holds t' = holds t ∧ b = mutex_ (space (shared cfg))) ∨
  (holds t = false ∧ holds t' = true ∧
   mutex_ (space (shared cfg)) = false ∧ b = true) ∨
  (holds t = true ∧ holds t' = false ∧ b = false) →
  thread_ok (shared cfg) (allocated (outcomes cfg)) t' →
  cinv (mkConfig (set_mutex b (shared cfg)) (<[i := t']> (threads cfg))
                 (outcomes cfg ++ option_list o)).
Proof.
  intros [Hinv (l & Hfl & Hnd) Hc Hb Hm Ht] Hi Ho Hcase Ht'.
  assert (allocated (outcomes cfg ++ option_list o) = allocated (outcomes cfg))
    as Hal.
  { rewrite allocated_app. destruct Ho as [->|[T ->]]; apply app_nil_r. }
  split; cbn [shared threads outcomes].
  - by apply inv_set_mutex.
  - exists l. rewrite Hal. split; [by apply freelist_is_set_mutex | done].
  - rewrite Hal. exact Hc.
  - intros T r [Hin|Hin]%elem_of_app; [by apply Hb|].
    destruct Ho as [->|[T' ->]]; simpl in Hin.
    + by apply elem_of_nil in Hin.
    + by apply list_elem_of_singleton in Hin.
  - by eapply mutex_ok_step.
  - rewrite Hal. intros j tj [[-> ->]|[_ Hj]]%lookup_insert_thread;
      apply thread_ok_set_mutex; [done | by eapply Ht].
Qed.

Lemma cinv_local cfg i t t' o :
  cinv cfg → threads cfg !! i = Some t →
  (o = None ∨ ∃ T, o = Some (Failed T)) →
  holds t' = holds t →
  thread_ok (shared cfg) (allocated (outcomes cfg)) t' →
  cinv (mkConfig (shared cfg) (<[i := t']> (threads cfg))
                 (outcomes cfg ++ option_list o)).
Proof.
  intros. rewrite <- (set_mutex_same (shared cfg)).
  eapply cinv_quiet; eauto.
Qed.

(** *** A compare-and-swap that succeeds *)

Lemma thread_ok_popped s used l t :
  is_empty (head_of s) = false →
  freelist_is (popped s) l →
  NoDup ((used ++ [next_ (head_of s)]) ++ l) →
  thread_ok s used t →
  thread_ok (popped s) (used ++ [next_ (head_of s)]) t.
Proof.
  intros Hne Hfl Hnd.
  assert (∀ m fl, head_ok s used m fl →
            head_ok (popped s) (used ++ [next_ (head_of s)]) m fl ∧
            next_ fl ∈ used ++ [next_ (head_of s)]) as Hhead.
  { intros m fl (H1 & H2 & H3 & H4).
    assert (next_ fl ∈ used ++ [next_ (head_of s)]) as Hstale.
    { apply elem_of_app. destruct H4 as [->|?]; [right|by left].
      apply list_elem_of_here. }
    split; [|done]. split; [done|]. split; [done|]. split; [done|].
    by right. }
  destruct t as [| | | | |fl|m fl|m fl nxt]; cbn [thread_ok]; try done.
  - intros He. congruence.
  - intros H. by apply Hhead.
  - intros H. by apply Hhead.
  - intros [H _]. apply Hhead in H as [H Hstale]. split; [done|].
    intros Heq.
    destruct (stale_not_head _ _ _ _ Hfl Hnd (proj1 H) Hstale Heq).
Qed.

Lemma cinv_cas_success cfg i m fl nxt s' :
  cinv cfg → threads cfg !! i = Some (AtCas m fl nxt) →
  compare_exchange_strong fl
    (mkFreelistHead nxt (wrap32 (length_ fl - 1))) (shared cfg)
    = Ok (true, s') →
  cinv (mkConfig s' (<[i := Idle]> (threads cfg))
                 (outcomes cfg ++ [Allocated m (next_ fl)])).
Proof.
  intros [Hinv (l & Hfl & Hnd) Hc Hb Hm Ht] Hi Hcas.
  apply compare_exchange_strong_inv in Hcas as [(_ & Hhead & ->)|(? & _)];
    [|done].
  destruct (Ht _ _ Hi) as [(Hne & Hcont & Hmode & _) Hnxt].
  specialize (Hnxt (eq_sym Hhead)). subst fl.
  destruct (head_nonempty _ _ Hfl Hne) as [l' ->].
  assert (set_freelist_head
            (mkFreelistHead nxt (wrap32 (length_ (head_of (shared cfg)) - 1)))
            (shared cfg) = popped (shared cfg)) as ->.
  { unfold popped. rewrite Hnxt, wrap32_small; [done|].
    pose proof (fl_length _ _ Hfl) as Hlen.
    pose proof (fl_bound _ _ Hfl). simpl in Hlen. lia. }
  assert (allocated (outcomes cfg ++
                     [Allocated m (next_ (head_of (shared cfg)))])
          = allocated (outcomes cfg) ++ [next_ (head_of (shared cfg))])
    as Hal by (by rewrite allocated_app).
  pose proof (freelist_is_popped _ _ _ Hfl) as Hfl'.
  assert (NoDup ((allocated (outcomes cfg) ++ [next_ (head_of (shared cfg))])
                 ++ l')) as Hnd' by (by rewrite <- app_assoc).
  split; cbn [shared threads outcomes].
  - by apply inv_popped.
  - exists l'. by rewrite Hal.
  - rewrite Hal.
    intros r [Hr|Hr%list_elem_of_singleton]%elem_of_app;
      [by apply Hc | by subst r].
  - intros T r [Hin|Hin%list_elem_of_singleton]%elem_of_app;
      [by eapply Hb|].
    injection Hin as Hmode' Hr. subst m r. exact Hmode.
  - eapply mutex_ok_step; [done|done|]. by left.
  - rewrite Hal.
    intros j tj [[-> ->]|[_ Hj]]%lookup_insert_thread; [done|].
    apply (thread_ok_popped _ _ l'); [done|done|done|by eapply Ht].
Qed.

(** *** [Extend] under the mutex *)

Lemma thread_ok_extended n s used l t :
  is_empty (head_of s) = true → holds t = false →
  freelist_is (extended n s) l → NoDup (used ++ l) →
  thread_ok s used t → thread_ok (extended n s) used t.
Proof.
  intros He Hh Hfl Hnd.
  assert (∀ m fl, head_ok s used m fl →
            head_ok (extended n s) used m fl ∧ next_ fl ∈ used) as Hhead.
  { intros m fl (H1 & H2 & H3 & H4).
    assert (next_ fl ∈ used) as Hstale
      by (destruct H4 as [->|?]; [congruence|done]).
    split; [|done]. split; [done|].
    split; [rewrite Contains_extended, H2; apply orb_true_r|].
    split; [done|]. by right. }
  destruct t as [| | | | |fl|m fl|m fl nxt]; cbn [thread_ok]; try done.
  - intros H. by apply Hhead.
  - intros [H _]. apply Hhead in H as [H Hstale]. split; [done|].
    intros Heq.
    destruct (stale_not_head _ _ _ _ Hfl Hnd (proj1 H) Hstale Heq).
Qed.

Lemma cinv_extend cfg i fl s' :
  cinv cfg → threads cfg !! i = Some AtExtend →
  Extend (shared cfg) = Ok (fl, s') →
  cinv (mkConfig s' (<[i := AtUnlock fl]> (threads cfg)) (outcomes cfg)).
Proof.
  intros [Hinv (l & Hfl & Hnd) Hc Hb Hm Ht] Hi Hext.
  apply Extend_inv in Hext as (n & Hn & Hfree & Hlen & Hmx & -> & ->);
    [|by apply inv_null_segment].
  pose proof (Ht _ _ Hi) as He; cbn [thread_ok] in He.
  assert (l = []) as ->.
  { destruct l; [done|].
    rewrite (freelist_is_cons_nonempty _ _ _ Hfl) in He. discriminate. }
  rewrite app_nil_r in Hnd.
  pose proof (freelist_is_extended n (shared cfg) Hn) as Hfl'.
  assert (NoDup (allocated (outcomes cfg) ++
                 seqZ (n * kEntriesPerSegment) kEntriesPerSegment)) as Hnd'.
  { apply NoDup_app. split; [done|]. split; [|apply NoDup_seqZ].
    intros r Hr Hr2%elem_of_seqZ. apply Hc in Hr.
    unfold Contains in Hr. apply bool_decide_eq_true in Hr.
    rewrite (Segment_Containing_entry n) in Hr by lia.
    apply (inv_segments _ Hinv) in Hr as [_ [? ?]]. congruence. }
  split; cbn [shared threads outcomes].
  - by apply inv_extended.
  - eexists. split; done.
  - intros r Hr. rewrite Contains_extended, (Hc _ Hr). apply orb_true_r.
  - done.
  - eapply mutex_ok_step; [done|done|]. by left.
  - intros j tj [[-> ->]|[Hne Hj]]%lookup_insert_thread.
    + split; [|split; [|split; [done|by left]]].
      * apply andb_false_iff; right. apply Z.eqb_neq. simpl. lia.
      * apply (fl_contains _ _ Hfl'). apply elem_of_seqZ. simpl. lia.
    + eapply thread_ok_extended; [done| |done|done|by eapply Ht].
      destruct (holds tj) eqn:Hh; [|done].
      destruct Hne. by apply (proj2 Hm j i tj AtExtend).
Qed.

(** The checks of [Extend] hold whenever a thread reaches it. *)
Lemma Extend_checked cfg i :
  cinv cfg → threads cfg !! i = Some AtExtend →
  Extend (shared cfg) = Err FatalProcessOutOfMemory ∨
  ∃ fl s', Extend (shared cfg) = Ok (fl, s').
Proof.
  intros [Hinv _ _ _ Hm Ht] Hi.
  pose proof (Ht _ _ Hi) as He; cbn [thread_ok] in He.
  assert (freelist_length (space (shared cfg)) = 0) as Hlen.
  { apply andb_true_iff in He as [_ He]. by apply Z.eqb_eq in He. }
  assert (mutex_ (space (shared cfg)) = true) as Hmx
    by (apply (proj1 Hm); by exists i, AtExtend).
  destruct (AllocatePages None kReadWrite (the_pages (table (shared cfg))))
    as [[n pages']|] eqn:Ha.
  - right. eexists _, _. apply (Extend_Ok _ n pages'); [done|done| |done].
    by apply inv_null_segment.
  - left. by apply Extend_oom.
Qed.

(** *** The owner of an entry writes it *)

Lemma thread_ok_write_entry r e s used l t :
  r ∈ used → freelist_is s l → NoDup (used ++ l) →
  thread_ok s used t → thread_ok (write_entry r e s) used t.
Proof.
  intros Hr Hfl Hnd.
  destruct t as [| | | | |fl|m fl|m fl nxt]; cbn [thread_ok]; try done.
  intros [H Hnxt]. split; [done|]. intros Heq. rewrite (Hnxt Heq).
  rewrite at_write_entry; [done|].
  destruct H as (Hne & _). subst fl.
  destruct (head_nonempty _ _ Hfl Hne) as [l' ->].
  intros Heq. apply NoDup_app in Hnd as (_ & Hdisj & _).
  apply (Hdisj _ Hr). rewrite <- Heq. apply list_elem_of_here.
Qed.

Lemma cinv_payload cfg r bits :
  cinv cfg → r ∈ allocated (outcomes cfg) →
  cinv (mkConfig (write_entry r (Payload bits) (shared cfg))
                 (threads cfg) (outcomes cfg)).
Proof.
  intros [Hinv (l & Hfl & Hnd) Hc Hb Hm Ht] Hr.
  split; cbn [shared threads outcomes].
  - by apply inv_write_entry.
  - exists l. split; [|done]. apply freelist_is_write_entry; [|done].
    apply NoDup_app in Hnd as (_ & Hdisj & _). by apply Hdisj.
  - exact Hc.
  - exact Hb.
  - exact Hm.
  - intros j tj Hj. eapply thread_ok_write_entry; [done|done|done|].
    by eapply Ht.
Qed.

(** *** The invariant holds in every state the threads reach *)

Lemma cinv_step cfg cfg' : cinv cfg → step cfg cfg' → cinv cfg'.
Proof.
  intros Hcfg Hstep.
  destruct Hstep as [cfg i t o t' s' Hi Hstep|cfg r bits Hr];
    [|by apply cinv_payload].
  pose proof (ci_threads _ Hcfg _ _ Hi) as Hok.
  destruct (ci_free _ Hcfg) as (l & Hfl & _).
  inversion Hstep; subst; cbn [option_list].
  - by apply (cinv_local _ _ Idle); auto.
  - apply (cinv_local _ _ (AtLoad (ModeBelow T))); eauto.
  - by apply (cinv_local _ _ (AtLoad ModeAllocate)); auto.
  - apply (cinv_local _ _ (AtLoad m)); auto.
    by apply (head_ok_loaded _ l).
  - apply (cinv_quiet _ _ AtLock); auto. right; left. done.
  - by apply (cinv_local _ _ AtReload); auto.
  - apply (cinv_local _ _ AtReload); auto.
    by apply (head_ok_loaded _ l).
  - rewrite app_nil_r. by apply cinv_extend.
  - apply (cinv_quiet _ _ (AtUnlock freelist)); auto.
  - apply (cinv_local _ _ (AtRead m freelist)); auto.
    split; [exact Hok | done].
  - by apply (cinv_cas_success _ _ _ _ next_freelist_entry).
  - match goal with H : compare_exchange_strong _ _ _ = _ |- _ =>
      apply compare_exchange_strong_inv in H as [(? & _)|(_ & _ & ->)]
    end; [done|].
    by apply (cinv_local _ _ (AtCas m freelist next_freelist_entry)); auto.
Qed.

Lemma cinv_initial s l n :
  wf s → freelist_is s l → cinv (mkConfig s (replicate n Idle) []).
Proof.
  intros [Hinv Hmx] Hfl. split; cbn [shared threads outcomes].
  - done.
  - exists l. split; [done|]. exact (fl_nodup _ _ Hfl).
  - by intros r ?%elem_of_nil.
  - by intros T r ?%elem_of_nil.
  - split.
    + rewrite Hmx. split; [done|].
      intros (i & t & [-> _]%lookup_replicate & ?). done.
    + intros i j ti tj [-> _]%lookup_replicate. done.
  - by intros i t [-> _]%lookup_replicate.
Qed.

Lemma cinv_reachable s l n cfg :
  wf s → freelist_is s l →
  rtc step (mkConfig s (replicate n Idle) []) cfg → cinv cfg.
Proof.
  intros Hwf Hfl Hrun.
  revert cfg Hrun. apply (rtc_ind_r (R := step) (λ c, cinv c)).
  - by apply (cinv_initial _ l).
  - intros cfg1 cfg2 _ Hstep IH. by apply (cinv_step cfg1).
Qed.

(** Whatever the interleaving of the calls of [n] threads: no index is handed
    out twice, every index handed out is not 0 and is in a segment of the
    space, [AllocateEntryBelow] hands out indices below its threshold only,
    at most one thread is inside the guard of the mutex, and a thread that
    loaded a head goes on with a head that passes the checks of
    [TryAllocateEntryFromFreelist]. *)
Theorem concurrent_allocation_safe s l n cfg :
  wf s → freelist_is s l →
  rtc step (mkConfig s (replicate n Idle) []) cfg →
  NoDup (allocated (outcomes cfg)) ∧
  (∀ r, r ∈ allocated (outcomes cfg) →
        r ≠ 0 ∧ Contains (space (shared cfg)) r = true) ∧
  (∀ T r, Allocated (ModeBelow T) r ∈ outcomes cfg → r < T) ∧
  (∀ i j ti tj, threads cfg !! i = Some ti → threads cfg !! j = Some tj →
                holds ti = true → holds tj = true → i = j) ∧
  (∀ i m freelist nxt,
     threads cfg !! i = Some (AtRead m freelist) ∨
     threads cfg !! i = Some (AtCas m freelist nxt) →
     is_empty freelist = false ∧
     Contains (space (shared cfg)) (next_ freelist) = true) ∧
  (∀ i, threads cfg !! i = Some AtExtend →
        Extend (shared cfg) ≠ Err DcheckFailure).
Proof.
  intros Hwf Hfl Hrun.
  pose proof (cinv_reachable _ _ _ _ Hwf Hfl Hrun) as Hcfg.
  pose proof Hcfg as [Hinv (l' & Hfl' & Hnd) Hc Hb Hm Ht].
  split; [by apply NoDup_app in Hnd as (? & _)|].
  split.
  { intros r Hr. split; [|by apply Hc].
    intros ->. specialize (Hc _ Hr). unfold Contains in Hc.
    apply bool_decide_eq_true in Hc. rewrite Segment_Containing_zero in Hc.
    apply (inv_segments _ Hinv) in Hc. lia. }
  split; [done|]. split; [exact (proj2 Hm)|]. split.
  - intros i m fl nxt [Hi|Hi]; specialize (Ht _ _ Hi); cbn [thread_ok] in Ht.
    + by destruct Ht as (? & ? & _).
    + by destruct Ht as [(? & ? & _) _].
  - intros i Hi.
    destruct (Extend_checked _ _ Hcfg Hi) as [->|(? & ? & ->)]; done.
Qed.

(** *** A thread that runs alone takes the steps of the sequential code *)

Lemma step_alone t s o t' s' os :
  tstep t s o t' s' →
  step (mkConfig s [t] os) (mkConfig s' [t'] (os ++ option_list o)).
Proof. intros H. by apply (step_thread (mkConfig s [t] os) 0 t o t' s'). Qed.

Lemma step_alone_silent t s t' s' os :
  tstep t s None t' s' → step (mkConfig s [t] os) (mkConfig s' [t'] os).
Proof.
  intros H%(step_alone _ _ _ _ _ os). simpl in H. by rewrite app_nil_r in H.
Qed.

Lemma cas_head s l :
  freelist_is s l → is_empty (head_of s) = false →
  compare_exchange_strong (head_of s)
    (mkFreelistHead
       (GetNextFreelistEntryIndex (at_ (table s) (next_ (head_of s))))
       (wrap32 (length_ (head_of s) - 1))) s
  = Ok (true, popped s).
Proof.
  intros Hfl Hne. destruct (head_nonempty _ _ Hfl Hne) as [l' ->].
  unfold compare_exchange_strong, bind, get, put, ret.
  rewrite bool_decide_eq_true_2 by done.
  rewrite wrap32_small; [done|].
  pose proof (fl_length _ _ Hfl) as Hlen. pose proof (fl_bound _ _ Hfl).
  simpl in Hlen. lia.
Qed.

Lemma run_read m s l os :
  freelist_is s l → is_empty (head_of s) = false →
  rtc step (mkConfig s [AtRead m (head_of s)] os)
           (mkConfig (popped s) [Idle]
                     (os ++ [Allocated m (next_ (head_of s))])).
Proof.
  intros Hfl Hne.
  eapply rtc_l; [apply step_alone_silent, tstep_read|].
  apply rtc_once. apply (step_alone _ _ (Some _)), tstep_cas_success.
  by apply (cas_head _ l).
Qed.

Lemma run_pop m s l os :
  freelist_is s l → is_empty (head_of s) = false →
  gives_up m (head_of s) = false →
  rtc step (mkConfig s [AtLoad m] os)
           (mkConfig (popped s) [Idle]
                     (os ++ [Allocated m (next_ (head_of s))])).
Proof.
  intros Hfl Hne Hgo.
  eapply rtc_l; [by apply step_alone_silent, tstep_load|].
  by apply (run_read m s l).
Qed.

(** The steps of a call of [AllocateEntry] that no other thread disturbs
    end in the state and with the index the sequential function gives. *)
Lemma run_AllocateEntry fuel s l r s' os :
  wf s → freelist_is s l →
  AllocateEntry (S fuel) s = Ok (r, s') →
  rtc step (mkConfig s [Idle] os)
           (mkConfig s' [Idle] (os ++ [Allocated ModeAllocate r])).
Proof.
  intros Hwf Hfl Hrun.
  eapply rtc_l; [apply step_alone_silent, (tstep_call ModeAllocate)|].
  destruct l as [|x l'].
  - destruct (AllocatePages None kReadWrite (the_pages (table s)))
      as [[n pages']|] eqn:Ha;
      [|rewrite AllocateEntry_oom in Hrun by done; discriminate].
    rewrite (AllocateEntry_extend _ _ _ _ Hwf Hfl Ha) in Hrun.
    injection Hrun as <- <-.
    destruct (placed_segment_nonzero _ _ _ (wf_null_segment _ Hwf) Ha)
      as [Hn _].
    pose proof (freelist_is_nil_empty _ Hfl) as He.
    eapply rtc_l; [by apply step_alone_silent, tstep_load_empty|].
    eapply rtc_l; [by apply step_alone_silent, tstep_lock, wf_mutex|].
    eapply rtc_l; [by apply step_alone_silent, tstep_reload_empty|].
    eapply rtc_l.
    { apply step_alone_silent, tstep_extend.
      apply (Extend_Ok _ n pages'); [|done| |done].
      - exact (fl_length _ _ Hfl).
      - exact (wf_null_segment _ Hwf). }
    eapply rtc_l; [apply step_alone_silent, tstep_unlock|].
    rewrite extended_under_mutex by (by apply wf_mutex).
    apply (run_read ModeAllocate (extended n s) _ os
             (freelist_is_extended n s Hn)).
    apply andb_false_iff; right. apply Z.eqb_neq. simpl. lia.
  - rewrite (AllocateEntry_pop _ _ _ _ Hwf Hfl) in Hrun.
    injection Hrun as <- <-.
    pose proof (freelist_is_cons_nonempty _ _ _ Hfl) as Hne.
    destruct (fl_chain _ _ Hfl) as [Hx _]. rewrite Hx.
    by apply (run_pop ModeAllocate s (x :: l')).
Qed.

(** The same for [AllocateEntryBelow]; its result 0 is the call that gave
    up. *)
Lemma run_AllocateEntryBelow fuel T s l r s' os :
  wf s → freelist_is s l →
  AllocateEntryBelow (S fuel) T s = Ok (r, s') →
  rtc step (mkConfig s [Idle] os)
           (mkConfig s' [Idle]
              (os ++ [if bool_decide (r = 0) then Failed T
                      else Allocated (ModeBelow T) r])).
Proof.
  intros Hwf Hfl Hrun.
  eapply rtc_l; [apply step_alone_silent, (tstep_call (ModeBelow T))|].
  destruct (AllocateEntryBelow_spec fuel T s l Hwf Hfl)
    as [[Hg Heq]|([Hne Hlt] & Hnz & Heq)];
    rewrite Heq in Hrun; injection Hrun as <- <-.
  - rewrite bool_decide_eq_true_2 by done.
    apply rtc_once. apply (step_alone _ _ (Some _)), tstep_give_up. simpl.
    destruct Hg as [->|Hge]; [done|].
    apply orb_true_iff; right. by apply Z.leb_le.
  - rewrite bool_decide_eq_false_2 by done.
    apply (run_pop (ModeBelow T) _ l); [done|done|].
    simpl. rewrite Hne. simpl. by apply Z.leb_gt.
Qed.

(** *** The claims about the table *)

(** C1.  A call to [AllocateEntry] on a well-formed table and space returns
    (unless the free list is empty and the platform has no segment left, in
    which case the process is stopped as out of memory), what it returns is a
    nonzero index contained in the space, and the indices returned by any
    number of calls in a row are pairwise distinct, nonzero and contained in
    the space.  The same holds of the indices handed out to any number of
    threads whose calls are interleaved in any way. *)
Theorem C1_AllocateEntry_distinct_nonzero_contained
    (s : State) (l : list Z) (fuel : nat) :
  wf s → freelist_is s l →
  (l ≠ [] ∨ is_Some (AllocatePages None kReadWrite (the_pages (table s))) →
   ∃ r s', AllocateEntry (S fuel) s = Ok (r, s')) ∧
  (∀ r s', AllocateEntry (S fuel) s = Ok (r, s') →
     r ≠ 0 ∧ Contains (space s') r = true) ∧
  (∀ n, match AllocateEntries (S fuel) n s with
        | Ok (rs, s') =>
            NoDup rs ∧ ∀ r, r ∈ rs → r ≠ 0 ∧ Contains (space s') r = true
        | Err f => f = FatalProcessOutOfMemory
        end) ∧
  (∀ n cfg, rtc step (mkConfig s (replicate n Idle) []) cfg →
     NoDup (allocated (outcomes cfg)) ∧
     ∀ r, r ∈ allocated (outcomes cfg) →
          r ≠ 0 ∧ Contains (space (shared cfg)) r = true).
Proof using All.
  intros Hwf Hfl. pose proof (AllocateEntry_spec fuel s l Hwf Hfl) as Hone.
  split; [|split; [|split]]; cycle 3.
  { intros n cfg Hrun.
    destruct (concurrent_allocation_safe s l n cfg Hwf Hfl Hrun)
      as (? & ? & _). done. }
  - intros Havail.
    destruct (AllocateEntry (S fuel) s) as [[r s']|f]; [by eauto|].
    destruct Hone as (_ & -> & Hnone). rewrite Hnone in Havail.
    destruct Havail as [?|[? ?]]; done.
  - intros r s' Hr. rewrite Hr in Hone. tauto.
  - intros n.
    pose proof (AllocateEntries_spec fuel n s l [] Hwf Hfl) as Hmany.
    destruct (AllocateEntries (S fuel) n s) as [[rs s']|f].
    + destruct Hmany as (_ & _ & Hnd & Hrs); [by intros ? ?%elem_of_nil|].
      split; [done|]. intros r Hr. destruct (Hrs r Hr) as (? & ? & _). done.
    + apply Hmany. by intros ? ?%elem_of_nil.
Qed.

(** C2.  [AllocateEntryBelow] returns on a well-formed table and space, and
    what it returns is 0 or an index below the threshold; it returns 0
    exactly when the free list is empty or the index at its head is at or
    above the threshold, whatever entries lie deeper in the list; and it
    leaves the table, its address space and the segments of the space as
    they were: no segment is added.  When the calls of several threads are
    interleaved, an index a call of [AllocateEntryBelow] hands out is below
    the threshold of that call and is not 0. *)
Theorem C2_AllocateEntryBelow_respects_threshold
    (s : State) (l : list Z) (fuel : nat) (T : Z) :
  wf s → freelist_is s l →
  (∃ r s', AllocateEntryBelow (S fuel) T s = Ok (r, s') ∧
    (r ≠ 0 → r < T) ∧ (0 < T → r < T) ∧
    (r = 0 ↔ is_empty (freelist_head_ (space s)) = true
             ∨ T ≤ next_ (freelist_head_ (space s))) ∧
    (∀ x l', l = x :: l' → T ≤ x → r = 0 ∧ s' = s) ∧
    table s' = table s ∧ segments_ (space s') = segments_ (space s)) ∧
  (∀ n cfg T' r, rtc step (mkConfig s (replicate n Idle) []) cfg →
     Allocated (ModeBelow T') r ∈ outcomes cfg → r ≠ 0 ∧ r < T').
Proof using All.
  intros Hwf Hfl. split; cycle 1.
  { intros n cfg T' r Hrun Hin.
    destruct (concurrent_allocation_safe s l n cfg Hwf Hfl Hrun)
      as (_ & Hr & Hb & _).
    split; [|by apply Hb]. apply Hr.
    apply list_elem_of_omap. by exists (Allocated (ModeBelow T') r). }
  destruct (AllocateEntryBelow_spec fuel T s l Hwf Hfl)
    as [[Hguard Hcall]|[[He Hlt] [Hnz Hcall]]].
  - exists 0, s. split; [done|]. split; [done|]. split; [done|].
    split; [tauto|]. split; [|done]. done.
  - eexists _, _. split; [exact Hcall|]. split; [done|]. split; [done|].
    split; [|split; [|done]].
    + split; [done|]. intros [He'|Hge]; [congruence | lia].
    + intros x l' -> Hge. destruct (fl_chain _ _ Hfl) as [Hx _]. lia.
Qed.

(** C3.  With the mutex of the space held and its free list empty,
    [Extend] takes exactly one new segment from the address space and adds
    it to the space, links every entry of the segment to the next one and
    the last one to 0, and publishes (and returns) the head that starts at
    the first entry of the segment with length [kEntriesPerSegment]; when
    the platform has no segment to give the process is stopped as out of
    memory. *)
Theorem C3_Extend_links_one_new_segment (s : State) :
  mutex_ (space s) = true →
  freelist_length (space s) = 0 →
  is_Some (the_pages (table s) !! 0) →
  match AllocatePages None kReadWrite (the_pages (table s)) with
  | Some (n, pages') =>
      ∃ s', Extend s
            = Ok (mkFreelistHead (first_entry n) kEntriesPerSegment, s') ∧
        the_pages (table s) !! n = None ∧
        vas_ (table s') = Some (<[n := kReadWrite]> (the_pages (table s))) ∧
        segments_ (space s') = {[n]} ∪ segments_ (space s) ∧
        (∀ i, first_entry n ≤ i < last_entry n →
              at_ (table s') i = FreelistEntry (i + 1)) ∧
        at_ (table s') (last_entry n) = FreelistEntry 0 ∧
        (∀ i, ¬ (first_entry n ≤ i ≤ last_entry n) →
              at_ (table s') i = at_ (table s) i) ∧
        last_entry n - first_entry n + 1 = kEntriesPerSegment ∧
        freelist_head_ (space s')
          = mkFreelistHead (first_entry n) kEntriesPerSegment ∧
        mutex_ (space s') = true
  | None => Extend s = Err FatalProcessOutOfMemory
  end.
Proof using All.
  intros Hm Hlen H0.
  destruct (AllocatePages None kReadWrite (the_pages (table s)))
    as [[n pages']|] eqn:Ha; [|by apply Extend_oom].
  destruct (placed_segment_nonzero _ _ _ H0 Ha) as [Hn Hfree].
  assert (0 ≤ n < kNumSegments) as Hn' by lia.
  rewrite (Extend_Ok _ _ _ Hlen Hm H0 Ha).
  rewrite (first_entry_eq _ Hn'), (last_entry_eq _ Hn').
  exists (extended n s). split; [done|]. split; [done|]. split; [done|].
  split; [done|]. split; [|split; [|split; [|split; [lia|done]]]].
  - intros i Hi. rewrite extended_at by done.
    rewrite bool_decide_eq_false_2, bool_decide_eq_true_2 by lia. done.
  - rewrite extended_at by done. by rewrite bool_decide_eq_true_2.
  - intros i Hi. rewrite extended_at by done.
    rewrite !bool_decide_eq_false_2 by lia. done.
Qed.

(** C4.  Entry 0 is reserved: [InitializeTable] commits segment 0
    read-only; from then on no call of [AllocateEntry] returns 0,
    [AllocateEntryBelow] returns 0 only as its failure value, with nothing
    allocated; the segment [Extend] adds is never segment 0, the free list
    it builds does not hold entry 0, and entry 0 and the page of segment 0
    stay as they were; the space never owns segment 0, so that
    [TearDownSpace] frees its segments without ever applying
    [FreeTableSegment] to segment 0 (which a debug build would stop). *)
Theorem C4_entry_zero_is_reserved :
  (∀ p u s', InitializeTable p fresh_state = Ok (u, s') →
     the_pages (table s') !! 0 = Some kRead ∧ wf s' ∧ freelist_is s' []) ∧
  (∀ s l fuel r s', wf s → freelist_is s l →
     AllocateEntry (S fuel) s = Ok (r, s') →
     r ≠ 0 ∧ wf s' ∧ (∃ l', freelist_is s' l' ∧ (0 ∉ l')) ∧
     at_ (table s') 0 = at_ (table s) 0 ∧
     the_pages (table s') !! 0 = the_pages (table s) !! 0) ∧
  (∀ s l fuel T r s', wf s → freelist_is s l →
     AllocateEntryBelow (S fuel) T s = Ok (r, s') →
     (r = 0 → s' = s) ∧ wf s' ∧ (∃ l', freelist_is s' l' ∧ (0 ∉ l')) ∧
     table s' = table s) ∧
  (∀ s h s', inv s → Extend s = Ok (h, s') →
     ∃ n, n ≠ 0 ∧ segments_ (space s') = {[n]} ∪ segments_ (space s) ∧
          (0 ∉ segments_ (space s')) ∧ next_ h ≠ 0 ∧ inv s' ∧
          freelist_is s' (seqZ (first_entry n) kEntriesPerSegment) ∧
          (0 ∉ seqZ (first_entry n) kEntriesPerSegment) ∧
          at_ (table s') 0 = at_ (table s) 0 ∧
          the_pages (table s') !! 0 = the_pages (table s) !! 0) ∧
  (∀ s, inv s →
     (0 ∉ segments_ (space s)) ∧
     ∃ s', TearDownSpace s = Ok (tt, s') ∧
           the_pages (table s') !! 0 = the_pages (table s) !! 0) ∧
  (∀ s, FreeTableSegment 0 s = Err DcheckFailure).
Proof using All.
  split; [|split; [|split; [|split; [|split]]]].
  - intros p u s' [Hn ->]%InitializeTable_inv.
    split; [|split].
    + unfold the_pages; simpl. apply lookup_singleton_eq.
    + by apply wf_initial_state.
    + apply freelist_is_initial_state.
  - intros s l fuel r s' Hwf Hfl Hcall.
    pose proof (AllocateEntry_spec fuel s l Hwf Hfl) as Hspec.
    rewrite Hcall in Hspec.
    destruct Hspec as (Hwf' & Hr & _ & _ & l' & Hfl' & _).
    split; [done|]. split; [done|].
    split; [exists l'; split; [done | by apply (freelist_nonzero s')]|].
    destruct (AllocateEntry_cases _ _ _ _ _ Hwf Hfl Hcall)
      as [(? & _ & ->)|(n & Hn & _ & _ & ->)]; [done|].
    destruct (extended_null_entry n s Hn) as [Hat Hpg]. done.
  - intros s l fuel T r s' Hwf Hfl Hcall.
    destruct (AllocateEntryBelow_spec fuel T s l Hwf Hfl)
      as [[_ Hc]|[_ [Hnz Hc]]]; rewrite Hc in Hcall;
      injection Hcall as <- <-.
    + split; [done|]. split; [done|]. split; [|done].
      exists l. split; [done | by apply (freelist_nonzero s)].
    + split; [done|]. split; [by apply wf_popped|]. split; [|done].
      destruct l as [|x l].
      { pose proof (freelist_is_nil_empty _ Hfl) as He.
        apply andb_true_iff in He as [He%Z.eqb_eq _]. done. }
      exists l. split; [by apply (freelist_is_popped _ x)|].
      intros Hin. apply (freelist_nonzero s (x :: l)); [done|done|].
      by apply list_elem_of_further.
  - intros s h s' Hinv Hext.
    apply Extend_inv in Hext as (n & Hn & Hfree & _ & _ & -> & ->);
      [|by apply (inv_null_segment _ Hinv)].
    exists n. rewrite first_entry_eq by lia.
    destruct (extended_null_entry n s Hn) as [Hat Hpg].
    split; [lia|]. split; [done|]. split.
    { simpl. intros [?%elem_of_singleton|Hin]%elem_of_union; [lia|].
      apply (inv_segments _ Hinv) in Hin. lia. }
    split; [simpl; nia|]. split; [by apply inv_extended|].
    split; [by apply freelist_is_extended|].
    split; [|done]. intros Hin%elem_of_seqZ. nia.
  - intros s Hinv. split.
    + intros Hin. apply (inv_segments _ Hinv) in Hin. lia.
    + destruct (TearDownSpace_Ok s Hinv) as (s' & Htd & _ & _ & Hp).
      exists s'. split; [done|]. rewrite Hp.
      rewrite bool_decide_eq_false_2; [done|].
      intros Hin. apply (inv_segments _ Hinv) in Hin. lia.
  - intros s. apply FreeTableSegment_zero.
Qed.

(** *** Segments, set-up and tear-down *)

(** X1.  For a segment number [n] of the reservation: the offset of the
    segment is aligned to [kSegmentSize] (the check of [Segment::At]) and
    [Segment::At] gives [n] back from it; the segment holds
    [kEntriesPerSegment] entries, and [Segment::Containing] maps an index
    to [n] exactly when the index lies between the first and the last entry
    of segment [n]. *)
Theorem X1_segment_numbers_round_trip (n i : Z) :
  0 ≤ n < kNumSegments →
  Segment_offset n mod kSegmentSize = 0 ∧
  Segment_At (Segment_offset n) = n ∧
  last_entry n - first_entry n + 1 = kEntriesPerSegment ∧
  (Segment_Containing i = n ↔ first_entry n ≤ i ≤ last_entry n).
Proof using All.
  intros Hn.
  rewrite first_entry_eq, last_entry_eq by done.
  split; [|split; [|split; [lia|]]].
  - unfold Segment_offset. rewrite wrap32_small by nia.
    apply Z.mod_mul. lia.
  - by apply Segment_At_offset.
  - split.
    + unfold Segment_Containing. intros <-.
      pose proof (Z.mul_div_le i kEntriesPerSegment
                    entries_per_segment_pos).
      pose proof (Z.mul_succ_div_gt i kEntriesPerSegment
                    entries_per_segment_pos).
      lia.
    + intros Hi. apply Segment_Containing_entry. lia.
Qed.

Lemma TearDownTable_Ok s :
  is_initialized (table s) = true →
  TearDownTable s = Ok (tt, set_table (λ _, mkTable None ∅) s).
Proof.
  intros Hi. unfold TearDownTable.
  rewrite (bind_step get _ s s s) by done. by rewrite Hi.
Qed.

Lemma InitializeTable_again p s :
  is_initialized (table s) = true → InitializeTable p s = Err DcheckFailure.
Proof.
  intros Hi. unfold InitializeTable.
  rewrite (bind_step get _ s s s) by done. by rewrite Hi.
Qed.

Lemma InitializeTable_uninitialized p s :
  0 < kNumSegments → is_initialized (table s) = false →
  InitializeTable p s =
    if reserves p && bool_decide (AllocatePages_at_base p = Some 0)
    then Ok (tt, set_table (λ _, mkTable (Some {[0 := kRead]}) ∅) s)
    else Err FatalProcessOutOfMemory.
Proof.
  intros Hn Hi. unfold InitializeTable.
  rewrite (bind_step get _ s s s) by done.
  rewrite Hi. simpl. unfold bind at 1; simpl.
  unfold reserves.
  destruct (CanAllocateSubspaces p), (AllocateSubspace_succeeds p),
    (AllocatePages_succeeds p); try done; cbn [andb];
    (destruct (AllocatePages_at_base p) as [n|];
     [|by rewrite bool_decide_eq_false_2]);
    unfold AllocatePages;
    (destruct (decide (n = 0)) as [->|Hne];
     [rewrite (bool_decide_eq_true_2 (Some 0 = Some 0)) by done;
      rewrite bool_decide_eq_true_2 by lia;
      rewrite bool_decide_eq_true_2 by apply lookup_empty; simpl;
      unfold put, set_table; simpl; do 4 f_equal
     |rewrite (bool_decide_eq_false_2 (Some n = Some 0)) by congruence;
      destruct (bool_decide (0 ≤ n < kNumSegments)); [|done];
      rewrite bool_decide_eq_true_2 by apply lookup_empty; simpl;
      replace (n =? 0) with false; [done|];
      symmetry; apply Z.eqb_neq; congruence]).
Qed.

(** X2.  The life of the table.  [InitializeTable] on a table that is not
    initialized reserves the address range and commits segment 0 read-only,
    and nothing else: the memory of the new range holds nothing; it stops
    the process as out of memory when the platform gives no range, or does
    not give the first segment at the base of the range; on an initialized
    table it fails its check.  [TearDownTable] fails its check on a table
    that is not initialized; on an initialized one it gives the whole range
    back, with the memory of the entries, after which the table can be
    initialized again.  Neither touches the space. *)
Theorem X2_table_set_up_and_tear_down (p : Platform) (s : State) :
  0 < kNumSegments →
  (is_initialized (table s) = false →
     TearDownTable s = Err DcheckFailure ∧
     (reserves p = false ∨ AllocatePages_at_base p ≠ Some 0 →
        InitializeTable p s = Err FatalProcessOutOfMemory) ∧
     (reserves p = true → AllocatePages_at_base p = Some 0 →
        ∃ s1, InitializeTable p s = Ok (tt, s1) ∧
              is_initialized (table s1) = true ∧
              the_pages (table s1) = {[0 := kRead]} ∧
              base_ (table s1) = ∅ ∧ space s1 = space s ∧
              ∃ s2, TearDownTable s1 = Ok (tt, s2) ∧
                    is_initialized (table s2) = false ∧
                    base_ (table s2) = ∅ ∧ space s2 = space s)) ∧
  (is_initialized (table s) = true →
     InitializeTable p s = Err DcheckFailure ∧
     ∃ s1, TearDownTable s = Ok (tt, s1) ∧
           is_initialized (table s1) = false ∧
           the_pages (table s1) = ∅ ∧
           base_ (table s1) = ∅ ∧ space s1 = space s ∧
           (reserves p = false ∨ AllocatePages_at_base p ≠ Some 0 →
              InitializeTable p s1 = Err FatalProcessOutOfMemory) ∧
           (reserves p = true → AllocatePages_at_base p = Some 0 →
              ∃ s2, InitializeTable p s1 = Ok (tt, s2) ∧
                    the_pages (table s2) = {[0 := kRead]})).
Proof using All.
  intros Hn.
  assert (∀ s0, is_initialized (table s0) = false →
            (reserves p = false ∨ AllocatePages_at_base p ≠ Some 0) →
            InitializeTable p s0 = Err FatalProcessOutOfMemory) as Hoom.
  { intros s0 Hi Hno. rewrite InitializeTable_uninitialized by done.
    destruct Hno as [->|Hno]; [done|].
    rewrite bool_decide_eq_false_2 by done. by rewrite andb_false_r. }
  assert (∀ s0, is_initialized (table s0) = false →
            reserves p = true → AllocatePages_at_base p = Some 0 →
            InitializeTable p s0 =
              Ok (tt, set_table (λ _, mkTable (Some {[0 := kRead]}) ∅) s0))
    as Hok.
  { intros s0 Hi Hres Hfirst. rewrite InitializeTable_uninitialized by done.
    by rewrite Hres, bool_decide_eq_true_2. }
  split.
  - intros Hi. split; [|split].
    + unfold TearDownTable. rewrite (bind_step get _ s s s) by done.
      by rewrite Hi.
    + by apply Hoom.
    + intros Hres Hfirst. rewrite Hok by done.
      eexists. split; [done|]. split; [done|]. split; [done|].
      split; [done|]. split; [done|].
      rewrite TearDownTable_Ok by done. eexists. done.
  - intros Hi. split; [by apply InitializeTable_again|].
    eexists. split; [by apply TearDownTable_Ok|].
    split; [done|]. split; [done|]. split; [done|]. split; [done|].
    split; [by apply Hoom|].
    intros Hres Hfirst. rewrite Hok by done. eexists. split; done.
Qed.

Lemma lookup_released n (memory : gmap Z Entry) i :
  released n memory !! i =
    if bool_decide (Segment_Containing i = n) then None else memory !! i.
Proof.
  unfold released. case_bool_decide as Hn.
  - apply map_lookup_filter_None. right. intros x _. simpl. by intros ?.
  - destruct (memory !! i) as [x|] eqn:Hx.
    + apply map_lookup_filter_Some. done.
    + apply map_lookup_filter_None. by left.
Qed.

Lemma FreeTableSegment_base m s u s' :
  FreeTableSegment m s = Ok (u, s') →
  base_ (table s') = released m (base_ (table s)) ∧ space s' = space s.
Proof.
  unfold FreeTableSegment.
  intros (? & ? & [_ ->]%dcheck_Ok & [= <- <-])%bind_Ok. done.
Qed.

Lemma for_each_FreeTableSegment_base l : ∀ s u s',
  for_each l FreeTableSegment s = Ok (u, s') →
  ∀ i, base_ (table s') !! i =
       if bool_decide (Segment_Containing i ∈ l) then None
       else base_ (table s) !! i.
Proof.
  induction l as [|m l IH]; intros s u s'; cbn [for_each].
  - intros [= <- <-] i. rewrite bool_decide_eq_false_2; [done|].
    apply not_elem_of_nil.
  - intros (? & s1 & [Hb _]%FreeTableSegment_base & Hrest)%bind_Ok i.
    rewrite (IH _ _ _ Hrest), Hb, lookup_released.
    destruct (decide (Segment_Containing i = m)) as [<-|Hne].
    + rewrite (bool_decide_eq_true_2 (_ ∈ _ :: l)) by apply list_elem_of_here.
      rewrite (bool_decide_eq_true_2 (_ = _)) by done.
      by destruct (bool_decide _).
    + rewrite (bool_decide_eq_false_2 (_ = m)) by done.
      apply (f_equal (λ b : bool, if b then _ else _)).
      apply bool_decide_ext. rewrite elem_of_cons. tauto.
Qed.

(** X3.  [TearDownSpace] on a table that is not initialized fails its
    check.  On a well-formed table and space it frees the page of every
    segment of the space and of no other segment (segment 0 stays
    committed), and with the pages the memory of their entries, while the
    entries of every other segment are as they were; it leaves the space
    without segments, so that it contains no index any more and the check
    of the destructor of the space holds, and leaves the head of the free
    list and the mutex as they were; a second call changes nothing. *)
Theorem X3_TearDownSpace_frees_the_segments (s : State) :
  (is_initialized (table s) = false → TearDownSpace s = Err DcheckFailure) ∧
  (inv s →
   ∃ s', TearDownSpace s = Ok (tt, s') ∧
     segments_ (space s') = ∅ ∧
     (∀ i, Contains (space s') i = false) ∧
     (∀ k, the_pages (table s') !! k =
           if bool_decide (k ∈ segments_ (space s)) then None
           else the_pages (table s) !! k) ∧
     is_Some (the_pages (table s') !! 0) ∧
     (∀ i, base_ (table s') !! i =
           if bool_decide (Segment_Containing i ∈ segments_ (space s))
           then None else base_ (table s) !! i) ∧
     freelist_head_ (space s') = freelist_head_ (space s) ∧
     mutex_ (space s') = mutex_ (space s) ∧
     TearDownSpace s' = Ok (tt, s')).
Proof using All.
  split.
  - intros Hi. unfold TearDownSpace.
    rewrite (bind_step get _ s s s) by done. by rewrite Hi.
  - intros Hinv. destruct (TearDownSpace_Ok s Hinv) as (s' & Htd & Hseg & Hi & Hp).
    exists s'. split; [done|]. split; [done|].
    split; [intros i; unfold Contains; rewrite Hseg;
            by apply bool_decide_eq_false_2|].
    split; [done|].
    assert (is_Some (the_pages (table s') !! 0)) as H0.
    { rewrite Hp, bool_decide_eq_false_2; [by apply inv_null_segment|].
      intros Hin. apply (inv_segments _ Hinv) in Hin. lia. }
    split; [done|].
    pose proof Htd as Htd'. unfold TearDownSpace in Htd'.
    apply bind_Ok in Htd' as (? & ? & [= <- <-] & Htd').
    apply bind_Ok in Htd' as (? & ? & [_ ->]%dcheck_Ok & Htd').
    apply bind_Ok in Htd' as (? & s1 & Hfor & [= <-]).
    pose proof (for_each_FreeTableSegment_base _ _ _ _ Hfor) as Hbase.
    destruct (for_each_FreeTableSegment (elements (segments_ (space s))) s)
      as (s1' & Hfor' & Hsp & _).
    { intros Hin%elem_of_elements. apply (inv_segments _ Hinv) in Hin. lia. }
    rewrite Hfor in Hfor'. injection Hfor' as Heq.
    split.
    { intros i. cbn [table set_space]. rewrite Hbase.
      apply (f_equal (λ b : bool, if b then _ else _)).
      apply bool_decide_ext. apply elem_of_elements. }
    split; [simpl; congruence|]. split; [simpl; congruence|].
    unfold TearDownSpace.
    rewrite (bind_step get _ _ _ _ eq_refl).
    cbn [table space set_space segments_].
    replace (is_initialized (table s1)) with true
      by (symmetry; exact Hi).
    unfold dcheck at 1, bind at 1, ret at 1.
    rewrite elements_empty. cbn [for_each]. unfold bind, ret, modify.
    done.
Qed.

Lemma TryAllocateEntryFromFreelist_unchecked fl s :
  is_empty fl = true ∨ Contains (space s) (next_ fl) = false →
  TryAllocateEntryFromFreelist fl s = Err DcheckFailure.
Proof.
  intros Hpre. unfold TryAllocateEntryFromFreelist.
  rewrite (bind_step get _ s s s) by done.
  destruct (is_empty fl) eqn:He; [done|].
  destruct Hpre as [?|Hc]; [done|].
  unfold dcheck at 1, bind at 1, ret at 1. cbn [negb]. by rewrite Hc.
Qed.

Lemma TryAllocateEntryFromFreelist_stale fl s :
  is_empty fl = false → Contains (space s) (next_ fl) = true →
  fl ≠ head_of s →
  TryAllocateEntryFromFreelist fl s = Ok (false, s).
Proof.
  intros He Hc Hne. unfold TryAllocateEntryFromFreelist.
  rewrite (bind_step get _ s s s) by done.
  rewrite He; simpl. unfold bind at 1; simpl.
  rewrite Hc. unfold bind at 1; simpl.
  unfold compare_exchange_strong.
  unfold bind at 1. unfold bind at 1. unfold get at 1.
  rewrite bool_decide_eq_false_2 by (intros Heq; by apply Hne).
  reflexivity.
Qed.

(** X4.  [TearDownSpace] does not reset the free list: the head still names
    the entry it named, in a segment the space no longer owns.  A later
    [AllocateEntry] on the space stops at the check that the space contains
    the entry at the head, and so does [AllocateEntryBelow] unless the
    threshold makes it give up. *)
Theorem X4_allocation_after_TearDownSpace
    (s s' : State) (x : Z) (l : list Z) (fuel : nat) (T : Z) :
  wf s → freelist_is s (x :: l) →
  TearDownSpace s = Ok (tt, s') →
  next_ (freelist_head_ (space s')) = x ∧
  Contains (space s') x = false ∧
  AllocateEntry (S fuel) s' = Err DcheckFailure ∧
  AllocateEntryBelow (S fuel) T s' =
    if T <=? x then Ok (0, s') else Err DcheckFailure.
Proof using All.
  intros Hwf Hfl Htd.
  destruct (TearDownSpace_Ok s (proj1 Hwf)) as (s1 & Htd1 & Hseg & Hi & _).
  rewrite Htd in Htd1. injection Htd1 as <-.
  assert (freelist_head_ (space s') = freelist_head_ (space s)) as Hhead.
  { unfold TearDownSpace in Htd.
    apply bind_Ok in Htd as (? & ? & [= <- <-] & Htd).
    apply bind_Ok in Htd as (? & ? & [_ ->]%dcheck_Ok & Htd).
    apply bind_Ok in Htd as (? & s1 & Hfor & [= <-]).
    destruct (for_each_FreeTableSegment (elements (segments_ (space s))) s)
      as (s1' & Hfor' & Hsp & _).
    { intros Hin%elem_of_elements. apply (wf_segments _ Hwf) in Hin. lia. }
    rewrite Hfor in Hfor'. injection Hfor' as Heq. simpl. congruence. }
  destruct (fl_chain _ _ Hfl) as [Hx _].
  pose proof (freelist_is_cons_nonempty _ _ _ Hfl) as Hne.
  assert (∀ i, Contains (space s') i = false) as Hnone.
  { intros i. unfold Contains. rewrite Hseg. by apply bool_decide_eq_false_2. }
  split; [by rewrite Hhead|]. split; [done|]. split.
  - unfold AllocateEntry. rewrite (bind_step get _ s' s' s') by done.
    rewrite Hi. unfold dcheck at 1, bind at 1, ret at 1.
    cbn [until_success]. unfold AllocateEntry_body.
    unfold bind at 1. unfold bind at 1. unfold bind at 1. unfold bind at 1.
    unfold load_freelist_head at 1, gets at 1.
    rewrite Hhead, Hne. unfold ret at 1. unfold bind at 1.
    rewrite TryAllocateEntryFromFreelist_unchecked; [done|].
    right. apply Hnone.
  - destruct (T <=? x) eqn:HT.
    + apply AllocateEntryBelow_fail; [done|].
      rewrite Hhead, <- Hx, HT. apply orb_true_r.
    + unfold AllocateEntryBelow. rewrite (bind_step get _ s' s' s') by done.
      rewrite Hi. unfold dcheck at 1, bind at 1, ret at 1.
      cbn [until_success_or_return]. unfold AllocateEntryBelow_body.
      unfold bind at 1. unfold bind at 1. unfold bind at 1.
      unfold load_freelist_head at 1, gets at 1.
      rewrite Hhead, Hne, <- Hx, HT. cbn [orb].
      unfold bind at 1.
      rewrite TryAllocateEntryFromFreelist_unchecked; [done|].
      right. apply Hnone.
Qed.

(** *** Taking entries from the free list *)

(** X5.  [TryAllocateEntryFromFreelist] fails its checks on an empty head
    and on a head whose entry the space does not contain.  Otherwise it
    succeeds exactly when the head it is given is the head of the space at
    the compare-and-swap: then the head moves to the next entry of the list
    with one entry less, and nothing else changes; on a head that is not
    the current one it returns false and changes nothing. *)
Theorem X5_TryAllocateEntryFromFreelist_needs_the_current_head
    (s : State) (l : list Z) (fl : FreelistHead) :
  freelist_is s l →
  TryAllocateEntryFromFreelist fl s =
    (if is_empty fl || negb (Contains (space s) (next_ fl))
     then Err DcheckFailure
     else if bool_decide (fl = head_of s) then Ok (true, popped s)
     else Ok (false, s)) ∧
  (is_empty (head_of s) = false →
   ∃ l', l = next_ (head_of s) :: l' ∧ freelist_is (popped s) l' ∧
         freelist_length (space (popped s)) = freelist_length (space s) - 1 ∧
         same_but_head s (popped s)).
Proof using All.
  intros Hfl. split.
  - destruct (is_empty fl) eqn:He;
      [by apply TryAllocateEntryFromFreelist_unchecked; left|].
    destruct (Contains (space s) (next_ fl)) eqn:Hc;
      [|by apply TryAllocateEntryFromFreelist_unchecked; right].
    cbn [orb negb]. case_bool_decide as Hhead.
    + subst fl. destruct (head_nonempty _ _ Hfl He) as [l' ->].
      by apply (TryAllocateEntryFromFreelist_Ok _ (next_ (head_of s)) l').
    + by apply TryAllocateEntryFromFreelist_stale.
  - intros He. destruct (head_nonempty _ _ Hfl He) as [l' ->].
    exists l'. split; [done|].
    split; [by apply (freelist_is_popped _ (next_ (head_of s)))|].
    split; [done|]. done.
Qed.

Lemma AllocateEntries_take fuel n : ∀ s l,
  wf s → freelist_is s l → (n ≤ List.length l)%nat →
  ∃ s', AllocateEntries (S fuel) n s = Ok (take n l, s') ∧
        wf s' ∧ freelist_is s' (drop n l) ∧ same_but_head s s' ∧
        freelist_length (space s') = freelist_length (space s) - Z.of_nat n.
Proof.
  induction n as [|n IH]; intros s l Hwf Hfl Hn.
  - exists s. rewrite take_0, drop_0. split; [done|]. split; [done|].
    split; [done|]. split; [done|]. lia.
  - destruct l as [|x l]; [simpl in Hn; lia|].
    cbn [AllocateEntries]. unfold bind at 1.
    rewrite (AllocateEntry_pop _ _ _ _ Hwf Hfl).
    destruct (IH (popped s) l) as (s' & Hrun & Hwf' & Hfl' & Hsame & Hlen).
    { by apply wf_popped. }
    { by apply (freelist_is_popped _ x). }
    { simpl in Hn. lia. }
    unfold bind at 1. rewrite Hrun. unfold ret.
    exists s'. split; [done|]. split; [done|]. split; [done|].
    split; [by apply (same_but_head_trans _ (popped s))|].
    rewrite Hlen. unfold freelist_length, popped; simpl. lia.
Qed.

(** X6.  While the free list holds enough entries, [AllocateEntry] hands
    them out in the order of the list and takes nothing else: [n] calls on
    a list of at least [n] entries return its first [n] entries, leave the
    rest as the free list, [n] less in [freelist_length], and leave the
    table, its pages and the segments of the space as they were. *)
Theorem X6_AllocateEntry_follows_the_free_list
    (s : State) (l : list Z) (fuel n : nat) :
  wf s → freelist_is s l → (n ≤ List.length l)%nat →
  ∃ s', AllocateEntries (S fuel) n s = Ok (take n l, s') ∧
        wf s' ∧ freelist_is s' (drop n l) ∧
        table s' = table s ∧ segments_ (space s') = segments_ (space s) ∧
        freelist_length (space s') = freelist_length (space s) - Z.of_nat n.
Proof using All.
  intros Hwf Hfl Hn.
  destruct (AllocateEntries_take fuel n s l Hwf Hfl Hn)
    as (s' & Hrun & Hwf' & Hfl' & (Ht & Hs & _) & Hlen).
  exists s'. done.
Qed.

(** X7.  On a space with nothing free, [kEntriesPerSegment] calls of
    [AllocateEntry] take one segment from the platform and hand out its
    entries from the first to the last, in ascending order; the free list
    is empty again afterwards. *)
Theorem X7_a_new_segment_is_handed_out_in_order
    (s : State) (fuel : nat) (n : Z) (pages' : gmap Z PagePermissions) :
  wf s → freelist_is s [] →
  AllocatePages None kReadWrite (the_pages (table s)) = Some (n, pages') →
  ∃ s', AllocateEntries (S fuel) (Z.to_nat kEntriesPerSegment) s
        = Ok (seqZ (first_entry n) kEntriesPerSegment, s') ∧
        wf s' ∧ freelist_is s' [] ∧
        segments_ (space s') = {[n]} ∪ segments_ (space s) ∧
        the_pages (table s') = <[n := kReadWrite]> (the_pages (table s)).
Proof using All.
  intros Hwf Hfl Ha.
  destruct (placed_segment_nonzero _ _ _ (wf_null_segment _ Hwf) Ha)
    as [Hn _].
  rewrite first_entry_eq by lia.
  replace (Z.to_nat kEntriesPerSegment)
    with (S (Z.to_nat (kEntriesPerSegment - 1))) by lia.
  cbn [AllocateEntries]. unfold bind at 1.
  rewrite (AllocateEntry_extend _ _ _ _ Hwf Hfl Ha).
  pose proof (freelist_is_extended n s Hn) as Hext.
  rewrite seqZ_cons in Hext by lia.
  apply freelist_is_popped in Hext.
  destruct (AllocateEntries_take fuel (Z.to_nat (kEntriesPerSegment - 1))
              (popped (extended n s)) _
              (wf_popped _ (wf_extended _ _ Hwf Hn)) Hext)
    as (s' & Hrun & Hwf' & Hfl' & (Ht & Hs & _) & _).
  { rewrite length_seqZ. lia. }
  unfold bind at 1. rewrite Hrun. unfold ret.
  exists s'.
  rewrite take_ge, drop_ge in * by (rewrite length_seqZ; lia).
  split; [by rewrite (seqZ_cons (n * kEntriesPerSegment)) by lia|].
  split; [done|]. split; [done|]. split; [by rewrite Hs|].
  by rewrite Ht.
Qed.

(** *** More on threads that allocate at the same time *)

(** X8.  Whatever the interleaving of the calls of the threads: the table
    and the space stay well formed; the mutex of the space is held exactly
    when one thread is inside the guard of [AllocateEntry], and no two
    threads are; a thread reaches [Extend] only with the mutex held and the
    free list empty, so that [Extend] passes its checks: it returns, or the
    platform has no segment to give. *)
Theorem X8_interleaved_calls_extend_under_the_mutex
    (s : State) (l : list Z) (n : nat) (cfg : Config) :
  wf s → freelist_is s l →
  rtc step (mkConfig s (replicate n Idle) []) cfg →
  inv (shared cfg) ∧
  (mutex_ (space (shared cfg)) = true ↔
     ∃ i t, threads cfg !! i = Some t ∧ holds t = true) ∧
  (∀ i j ti tj, threads cfg !! i = Some ti → threads cfg !! j = Some tj →
                holds ti = true → holds tj = true → i = j) ∧
  (∀ i, threads cfg !! i = Some AtExtend →
        mutex_ (space (shared cfg)) = true ∧
        freelist_length (space (shared cfg)) = 0 ∧
        (Extend (shared cfg) = Err FatalProcessOutOfMemory ∨
         ∃ freelist s', Extend (shared cfg) = Ok (freelist, s') ∧
                        length_ freelist = kEntriesPerSegment)).
Proof using All.
  intros Hwf Hfl Hrun.
  pose proof (cinv_reachable _ _ _ _ Hwf Hfl Hrun) as Hcfg.
  pose proof Hcfg as [Hinv _ _ _ [Hheld Huniq] Ht].
  split; [done|]. split; [done|]. split; [done|].
  intros i Hi.
  assert (mutex_ (space (shared cfg)) = true) as Hmx
    by (apply Hheld; by exists i, AtExtend).
  pose proof (Ht _ _ Hi) as He; cbn [thread_ok] in He.
  split; [done|]. split.
  { apply andb_true_iff in He as [_ He]. by apply Z.eqb_eq in He. }
  destruct (Extend_checked _ _ Hcfg Hi) as [?|(fl & s' & Hext)]; [by left|].
  right. exists fl, s'. split; [done|].
  apply Extend_inv in Hext as (? & _ & _ & _ & _ & -> & _);
    [done | by apply inv_null_segment].
Qed.

Lemma chain_unique t : ∀ l1 l2 i,
  chain t i l1 → chain t i l2 → List.length l1 = List.length l2 → l1 = l2.
Proof.
  induction l1 as [|x l1 IH]; intros [|y l2] i; simpl; try done.
  intros [-> H1] [-> H2] [= Hlen]. f_equal. by apply (IH _ _ H1 H2).
Qed.

Lemma freelist_is_unique s l1 l2 :
  freelist_is s l1 → freelist_is s l2 → l1 = l2.
Proof.
  intros H1 H2.
  apply (chain_unique (table s) _ _ _ (fl_chain _ _ H1) (fl_chain _ _ H2)).
  pose proof (fl_length _ _ H1). pose proof (fl_length _ _ H2). lia.
Qed.

(** What a step does to the free list, to the indices handed out and to
    the segments of the space: nothing, or the first entry of the list is
    handed out, or the empty list is replaced by the entries of a new
    segment. *)
Inductive effect (cfg cfg' : Config) : Prop :=
| effect_none l :
    freelist_is (shared cfg) l → freelist_is (shared cfg') l →
    allocated (outcomes cfg') = allocated (outcomes cfg) →
    segments_ (space (shared cfg')) = segments_ (space (shared cfg)) →
    effect cfg cfg'
| effect_pop x l :
    freelist_is (shared cfg) (x :: l) → freelist_is (shared cfg') l →
    allocated (outcomes cfg') = allocated (outcomes cfg) ++ [x] →
    segments_ (space (shared cfg')) = segments_ (space (shared cfg)) →
    effect cfg cfg'
| effect_extend n :
    freelist_is (shared cfg) [] → 0 < n < kNumSegments →
    n ∉ segments_ (space (shared cfg)) →
    freelist_is (shared cfg')
      (seqZ (n * kEntriesPerSegment) kEntriesPerSegment) →
    allocated (outcomes cfg') = allocated (outcomes cfg) →
    segments_ (space (shared cfg')) = {[n]} ∪ segments_ (space (shared cfg)) →
    effect cfg cfg'.

Lemma step_effect cfg cfg' : cinv cfg → step cfg cfg' → effect cfg cfg'.
Proof.
  intros Hcfg Hstep.
  destruct Hstep as [cfg i t o t' s' Hi Hstep|cfg r bits Hr].
  - pose proof (ci_threads _ Hcfg _ _ Hi) as Hok.
    destruct (ci_free _ Hcfg) as (l & Hfl & Hnd).
    inversion Hstep; subst; cbn [option_list];
      try (by apply (effect_none _ _ l);
             cbn [shared outcomes]; rewrite ?app_nil_r;
             [done | try done; by apply freelist_is_set_mutex
             | by rewrite ?allocated_app, ?app_nil_r | done]).
    + (* Extend *)
      match goal with H : Extend _ = _ |- _ =>
        apply Extend_inv in H as (n & Hn & Hfree & _ & _ & -> & ->);
          [|by apply inv_null_segment, ci_inv] end.
      cbn [thread_ok] in Hok.
      assert (l = []) as ->.
      { destruct l; [done|].
        rewrite (freelist_is_cons_nonempty _ _ _ Hfl) in Hok. discriminate. }
      apply (effect_extend _ _ n); cbn [shared outcomes];
        [done | done | | by apply freelist_is_extended
        | by rewrite app_nil_r | done].
      intros Hin. apply (inv_segments _ (ci_inv _ Hcfg)) in Hin as [_ [? ?]].
      congruence.
    + (* the compare-and-swap succeeds *)
      match goal with H : compare_exchange_strong _ _ _ = _ |- _ =>
        apply compare_exchange_strong_inv in H
          as [(_ & Hhead & ->)|(? & _)]; [|done] end.
      destruct Hok as [(Hne & _) Hnxt].
      specialize (Hnxt (eq_sym Hhead)). subst freelist.
      destruct (head_nonempty _ _ Hfl Hne) as [l' ->].
      apply (effect_pop _ _ (next_ (head_of (shared cfg))) l');
        cbn [shared outcomes]; [done | | by rewrite allocated_app | done].
      replace (set_freelist_head _ (shared cfg)) with (popped (shared cfg)).
      { by apply (freelist_is_popped _ (next_ (head_of (shared cfg)))). }
      unfold popped. rewrite Hnxt, wrap32_small; [done|].
      pose proof (fl_length _ _ Hfl) as Hlen.
      pose proof (fl_bound _ _ Hfl). simpl in Hlen. lia.
    + (* the compare-and-swap fails *)
      match goal with H : compare_exchange_strong _ _ _ = _ |- _ =>
        apply compare_exchange_strong_inv in H
          as [(? & _)|(_ & _ & ->)]; [done|] end.
      apply (effect_none _ _ l); cbn [shared outcomes];
        [done | done | by rewrite app_nil_r | done].
  - destruct (ci_free _ Hcfg) as (l & Hfl & Hnd).
    apply (effect_none _ _ l); cbn [shared outcomes]; [done| |done|done].
    apply freelist_is_write_entry; [|done].
    apply NoDup_app in Hnd as (_ & Hdisj & _). by apply Hdisj.
Qed.

(** The entries that are free or handed out are the entries that were free
    at the start and the entries of the segments added since. *)
Definition accounted (s0 : State) (l0 : list Z) (cfg : Config) : Prop :=
  segments_ (space s0) ⊆ segments_ (space (shared cfg)) ∧
  ∃ l, freelist_is (shared cfg) l ∧
       ∀ r, r ∈ allocated (outcomes cfg) ++ l ↔
            r ∈ l0 ∨ (Contains (space (shared cfg)) r = true ∧
                      Contains (space s0) r = false).

Lemma accounted_step s0 l0 cfg cfg' :
  accounted s0 l0 cfg → effect cfg cfg' → accounted s0 l0 cfg'.
Proof.
  intros (Hsub & l & Hfl & Hacc) Heff.
  destruct Heff as [l1 Hfl1 Hfl1' Hal Hseg|x l1 Hfl1 Hfl1' Hal Hseg
                   |n Hfl1 Hn Hnew Hfl1' Hal Hseg];
    pose proof (freelist_is_unique _ _ _ Hfl Hfl1) as ->.
  - split; [by rewrite Hseg|]. exists l1. split; [done|].
    intros r. unfold Contains. rewrite Hal, Hseg. apply Hacc.
  - split; [by rewrite Hseg|]. exists l1. split; [done|].
    intros r. unfold Contains. rewrite Hal, Hseg, <- app_assoc. apply Hacc.
  - split; [rewrite Hseg; set_solver|].
    eexists. split; [done|]. intros r. rewrite Hal.
    specialize (Hacc r). rewrite app_nil_r in Hacc.
    rewrite elem_of_app, elem_of_seqZ.
    unfold Contains in *. rewrite Hseg.
    rewrite !bool_decide_eq_true, !bool_decide_eq_false in *.
    rewrite elem_of_union, elem_of_singleton.
    split.
    + intros [Hr|Hr].
      * apply Hacc in Hr as [?|[? ?]]; [by left | right; split; auto].
      * right. rewrite (Segment_Containing_entry n r) by lia.
        split; [by left|]. intros Hin. by apply Hnew, Hsub.
    + intros [Hr|[[Hr|Hr] H0]].
      * left. apply Hacc. by left.
      * right. unfold Segment_Containing in Hr. subst n.
        pose proof (Z.mul_div_le r kEntriesPerSegment
                      entries_per_segment_pos).
        pose proof (Z.mul_succ_div_gt r kEntriesPerSegment
                      entries_per_segment_pos).
        lia.
      * left. apply Hacc. right. done.
Qed.

(** X9.  No entry is lost or invented, whatever the interleaving of the
    calls: at every moment the entries handed out so far and the entries of
    the free list are, without repetition, exactly the entries that were
    free at the start and the entries of the segments the space has got
    since; the space never gives a segment back. *)
Theorem X9_interleaved_calls_account_for_every_entry
    (s : State) (l : list Z) (n : nat) (cfg : Config) :
  wf s → freelist_is s l →
  rtc step (mkConfig s (replicate n Idle) []) cfg →
  segments_ (space s) ⊆ segments_ (space (shared cfg)) ∧
  ∃ l', freelist_is (shared cfg) l' ∧
        NoDup (allocated (outcomes cfg) ++ l') ∧
        ∀ r, r ∈ allocated (outcomes cfg) ++ l' ↔
             r ∈ l ∨ (Contains (space (shared cfg)) r = true ∧
                      Contains (space s) r = false).
Proof using All.
  intros Hwf Hfl Hrun.
  assert (cinv cfg ∧ accounted s l cfg) as [Hcfg (Hsub & l' & Hfl' & Hacc)].
  { revert cfg Hrun.
    apply (rtc_ind_r (R := step) (λ c, cinv c ∧ accounted s l c)).
    - split; [by apply (cinv_initial _ l)|]. split; [done|].
      exists l. split; [done|]. intros r. cbn [outcomes shared allocated omap].
      rewrite app_nil_l. split; [by left|].
      intros [?|[? ?]]; [done|congruence].
    - intros cfg1 cfg2 _ Hstep [Hc1 Ha1]. split; [by apply (cinv_step cfg1)|].
      apply (accounted_step _ _ cfg1); [done|]. by apply step_effect. }
  split; [done|]. exists l'. split; [done|]. split; [|done].
  destruct (ci_free _ Hcfg) as (l'' & Hfl'' & Hnd).
  by rewrite (freelist_is_unique _ _ _ Hfl' Hfl'').
Qed.

End Proofs.

(** *** A small table on which the statements above are run *)

(** The platform gives the free segment of lowest number. *)
Definition first_fit (n : Z) (pages : gmap Z PagePermissions) : option Z :=
  head (filter (λ i, pages !! i = None) (seqZ 0 n)).

(** Four entries in a segment, as in the scenario of the specification. *)
Definition small_table : TableParams := {|
  kEntriesPerSegment := 4;
  kSegmentSize := 65536;
  kNumSegments := 8;
  placement := first_fit 8;
|}.

(** A space whose free list holds entry 9 and then entry 5: the lower
    index lies behind the higher one. *)
Definition stuck_state : State :=
  mkState
    (mkTable (Some {[0 := kRead; 1 := kReadWrite; 2 := kReadWrite]})
             {[9 := FreelistEntry 5; 5 := FreelistEntry 0]})
    (mkSpace (mkFreelistHead 9 2) {[1; 2]} false).

Lemma wf_stuck_state : wf (params := small_table) stuck_state.
Proof.
  split; [split|done]; [done|by eexists|].
  intros n [->%elem_of_singleton| ->%elem_of_singleton]%elem_of_union;
    (split; [done | by eexists]).
Qed.

Lemma freelist_is_stuck_state :
  freelist_is (params := small_table) stuck_state [9; 5].
Proof.
  split; [done|done|done| |].
  - apply NoDup_cons; split; [|apply NoDup_singleton].
    by intros ?%list_elem_of_singleton.
  - intros x [->|[->|[]%elem_of_nil]%elem_of_cons]%elem_of_cons; done.
Qed.

(** Thread [i] takes the step of [rule]. *)
Ltac thread_step i rule :=
  eapply rtc_l;
  [ eapply (step_thread _ i); [reflexivity | rule]
  | cbn [shared threads outcomes insert list_insert app option_list] ].

(** Two threads load the head (9, 2) of [stuck_state] and read entry 9.
    Once the first has swapped the head, the compare-and-swap of the second
    can only fail: the thread goes back to load the head. *)
Example race_loser_retries :
  ∃ cfg,
    rtc (step (params := small_table))
        (mkConfig stuck_state [Idle; Idle] []) cfg ∧
    threads cfg = [Idle; AtCas ModeAllocate (mkFreelistHead 9 2) 5] ∧
    outcomes cfg = [Allocated ModeAllocate 9] ∧
    freelist_head_ (space (shared cfg)) = mkFreelistHead 5 1 ∧
    ∀ o t' s',
      tstep (params := small_table)
            (AtCas ModeAllocate (mkFreelistHead 9 2) 5) (shared cfg) o t' s' →
      o = None ∧ t' = AtLoad ModeAllocate ∧ s' = shared cfg.
Proof.
  eexists. split; [|split; [|split; [|split]]].
  - thread_step 0%nat ltac:(apply (tstep_call ModeAllocate)).
    thread_step 1%nat ltac:(apply (tstep_call ModeAllocate)).
    thread_step 0%nat ltac:(by apply tstep_load).
    thread_step 1%nat ltac:(by apply tstep_load).
    thread_step 0%nat ltac:(apply tstep_read).
    thread_step 1%nat ltac:(apply tstep_read).
    thread_step 0%nat ltac:(by apply tstep_cas_success).
    apply rtc_refl.
  - reflexivity.
  - reflexivity.
  - reflexivity.
  - intros o t' s' Hstep. inversion Hstep as [| | | | | | | | | |
      ? ? ? ? ? Hcas|? ? ? ? ? Hcas]; subst.
    + discriminate Hcas.
    + injection Hcas as <-. done.
Qed.

(** The whole race: the second thread loads the new head and gets entry 5. *)
Example two_threads_race :
  rtc (step (params := small_table))
      (mkConfig stuck_state [Idle; Idle] [])
      (mkConfig (popped (popped stuck_state)) [Idle; Idle]
                [Allocated ModeAllocate 9; Allocated ModeAllocate 5]).
Proof.
  thread_step 0%nat ltac:(apply (tstep_call ModeAllocate)).
  thread_step 1%nat ltac:(apply (tstep_call ModeAllocate)).
  thread_step 0%nat ltac:(by apply tstep_load).
  thread_step 1%nat ltac:(by apply tstep_load).
  thread_step 0%nat ltac:(apply tstep_read).
  thread_step 1%nat ltac:(apply tstep_read).
  thread_step 0%nat ltac:(by apply tstep_cas_success).
  thread_step 1%nat ltac:(by apply tstep_cas_failure).
  thread_step 1%nat ltac:(by apply tstep_load).
  thread_step 1%nat ltac:(apply tstep_read).
  thread_step 1%nat ltac:(by apply tstep_cas_success).
  apply rtc_refl.
Qed.

Lemma C1_witness :
  match AllocateEntries (params := small_table) 1 5 initial_state with
  | Ok (rs, s') =>
      NoDup rs ∧
      ∀ r, r ∈ rs → r ≠ 0 ∧ Contains (params := small_table) (space s') r = true
  | Err f => f = FatalProcessOutOfMemory
  end.
Proof.
  destruct (C1_AllocateEntry_distinct_nonzero_contained (params := small_table)
              ltac:(done) ltac:(done) ltac:(done) ltac:(done)
              initial_state [] 0%nat) as (_ & _ & Hmany & _).
  - by apply wf_initial_state.
  - apply freelist_is_initial_state.
  - exact (Hmany 5%nat).
Defined.

Lemma C2_witness :
  ∃ r s', AllocateEntryBelow (params := small_table) 1 6 stuck_state
          = Ok (r, s') ∧
    (r ≠ 0 → r < 6) ∧ (0 < 6 → r < 6) ∧
    (r = 0 ↔ is_empty (freelist_head_ (space stuck_state)) = true
             ∨ 6 ≤ next_ (freelist_head_ (space stuck_state))) ∧
    (∀ x l', [9; 5] = x :: l' → 6 ≤ x → r = 0 ∧ s' = stuck_state) ∧
    table s' = table stuck_state ∧
    segments_ (space s') = segments_ (space stuck_state).
Proof.
  refine (proj1 (C2_AllocateEntryBelow_respects_threshold
                   (params := small_table)
                   ltac:(done) ltac:(done) ltac:(done) ltac:(done)
                   stuck_state [9; 5] 0%nat 6 _ _)).
  - apply wf_stuck_state.
  - apply freelist_is_stuck_state.
Defined.

Lemma C3_witness :
  ∃ s', Extend (params := small_table) (set_mutex true initial_state)
        = Ok (mkFreelistHead 4 4, s') ∧
    at_ (table s') 4 = FreelistEntry 5 ∧
    at_ (table s') 5 = FreelistEntry 6 ∧
    at_ (table s') 6 = FreelistEntry 7 ∧
    at_ (table s') 7 = FreelistEntry 0 ∧
    segments_ (space s') = {[1]} ∧
    freelist_head_ (space s') = mkFreelistHead 4 4.
Proof.
  pose proof (C3_Extend_links_one_new_segment (params := small_table)
                ltac:(done) ltac:(done) ltac:(done) ltac:(done)
                (set_mutex true initial_state)
                ltac:(done) ltac:(done) ltac:(by eexists)) as Hext.
  change (AllocatePages (params := small_table) None kReadWrite
            (the_pages (table (set_mutex true initial_state))))
    with (Some (1, <[1 := kReadWrite]> ({[0 := kRead]} : gmap Z _))) in Hext.
  destruct Hext as (s' & Hcall & _ & _ & Hsegs & Hlink & Hlast & _ & _ & Hhead & _).
  exists s'. split; [exact Hcall|].
  split; [apply (Hlink 4); done|].
  split; [apply (Hlink 5); done|].
  split; [apply (Hlink 6); done|].
  split; [exact Hlast|].
  split; [|exact Hhead].
  rewrite Hsegs. simpl. apply (right_id_L ∅ (∪)).
Defined.

Lemma C4_witness :
  (0 ∉ segments_ (space stuck_state)) ∧
  (∃ s', TearDownSpace (params := small_table) stuck_state = Ok (tt, s') ∧
         the_pages (table s') !! 0 = the_pages (table stuck_state) !! 0) ∧
  FreeTableSegment (params := small_table) 0 stuck_state = Err DcheckFailure.
Proof.
  destruct (C4_entry_zero_is_reserved (params := small_table)
              ltac:(done) ltac:(done) ltac:(done) ltac:(done))
    as (_ & _ & _ & _ & Htd & Hfree).
  destruct (Htd stuck_state (proj1 wf_stuck_state)) as [Hzero Hdown].
  split; [exact Hzero|]. split; [exact Hdown|]. apply Hfree.
Defined.

Lemma X1_witness :
  Segment_offset (params := small_table) 2 mod 65536 = 0 ∧
  Segment_At (params := small_table) (Segment_offset (params := small_table) 2)
    = 2 ∧
  last_entry (params := small_table) 2 - first_entry (params := small_table) 2
    + 1 = 4 ∧
  (Segment_Containing (params := small_table) 9 = 2 ↔
   first_entry (params := small_table) 2 ≤ 9
   ≤ last_entry (params := small_table) 2).
Proof.
  apply (X1_segment_numbers_round_trip (params := small_table)
           ltac:(done) ltac:(done) ltac:(done) ltac:(done) 2 9).
  simpl. lia.
Defined.

(** A platform that gives the range and the first segment at its base, and
    one that gives the first segment elsewhere. *)
Definition giving_platform : Platform := mkPlatform true true true (Some 0).
Definition misplacing_platform : Platform := mkPlatform true true true (Some 1).

Lemma X2_witness :
  InitializeTable (params := small_table) misplacing_platform fresh_state
    = Err FatalProcessOutOfMemory ∧
  ∃ s1, InitializeTable (params := small_table) giving_platform fresh_state
          = Ok (tt, s1) ∧
        the_pages (table s1) = {[0 := kRead]} ∧
        base_ (table s1) = ∅ ∧
        ∃ s2, TearDownTable s1 = Ok (tt, s2) ∧
              is_initialized (table s2) = false.
Proof.
  split.
  - destruct (X2_table_set_up_and_tear_down (params := small_table)
                ltac:(done) ltac:(done) ltac:(done) ltac:(done)
                misplacing_platform fresh_state ltac:(done))
      as [Hfresh _].
    destruct (Hfresh eq_refl) as (_ & Hoom & _). apply Hoom. by right.
  - destruct (X2_table_set_up_and_tear_down (params := small_table)
                ltac:(done) ltac:(done) ltac:(done) ltac:(done)
                giving_platform fresh_state ltac:(done))
      as [Hfresh _].
    destruct (Hfresh eq_refl) as (_ & _ & Hok).
    destruct (Hok eq_refl eq_refl)
      as (s1 & Hrun & _ & Hp & Hb & _ & s2 & Htd & Hi & _).
    exists s1. split; [exact Hrun|]. split; [exact Hp|]. split; [exact Hb|].
    exists s2. split; [exact Htd | exact Hi].
Defined.

Lemma X3_witness :
  ∃ s', TearDownSpace (params := small_table) stuck_state = Ok (tt, s') ∧
        segments_ (space s') = ∅ ∧
        the_pages (table s') !! 0 = Some kRead ∧
        the_pages (table s') !! 1 = None ∧
        the_pages (table s') !! 2 = None ∧
        base_ (table s') !! 9 = None ∧
        freelist_head_ (space s') = mkFreelistHead 9 2.
Proof.
  destruct (X3_TearDownSpace_frees_the_segments (params := small_table)
              ltac:(done) ltac:(done) ltac:(done) ltac:(done) stuck_state)
    as [_ Htd].
  destruct (Htd (proj1 wf_stuck_state))
    as (s' & Hrun & Hseg & _ & Hp & _ & Hb & Hhead & _).
  exists s'. split; [exact Hrun|]. split; [exact Hseg|].
  split; [exact (Hp 0)|]. split; [exact (Hp 1)|]. split; [exact (Hp 2)|].
  split; [exact (Hb 9) | exact Hhead].
Defined.

(** [stuck_state] after [TearDownSpace]. *)
Definition torn_down_state : State :=
  mkState
    (mkTable (Some {[0 := kRead]}) ∅)
    (mkSpace (mkFreelistHead 9 2) ∅ false).

Lemma TearDownSpace_stuck_state :
  TearDownSpace (params := small_table) stuck_state = Ok (tt, torn_down_state).
Proof. vm_compute. reflexivity. Qed.

Lemma X4_witness :
  next_ (freelist_head_ (space torn_down_state)) = 9 ∧
  Contains (params := small_table) (space torn_down_state) 9 = false ∧
  AllocateEntry (params := small_table) 1 torn_down_state
    = Err DcheckFailure ∧
  AllocateEntryBelow (params := small_table) 1 12 torn_down_state
    = Err DcheckFailure.
Proof.
  apply (X4_allocation_after_TearDownSpace (params := small_table)
           ltac:(done) ltac:(done) ltac:(done) ltac:(done)
           stuck_state torn_down_state 9 [5] 0%nat 12).
  - apply wf_stuck_state.
  - apply freelist_is_stuck_state.
  - apply TearDownSpace_stuck_state.
Defined.

Lemma X5_witness :
  TryAllocateEntryFromFreelist (params := small_table)
    (mkFreelistHead 5 1) stuck_state = Ok (false, stuck_state) ∧
  (is_empty (freelist_head_ (space stuck_state)) = false →
   ∃ l', [9; 5] = next_ (freelist_head_ (space stuck_state)) :: l' ∧
         freelist_is (params := small_table) (popped stuck_state) l' ∧
         freelist_length (space (popped stuck_state))
           = freelist_length (space stuck_state) - 1 ∧
         same_but_head stuck_state (popped stuck_state)).
Proof.
  apply (X5_TryAllocateEntryFromFreelist_needs_the_current_head
           (params := small_table)
           ltac:(done) ltac:(done) ltac:(done) ltac:(done)
           stuck_state [9; 5] (mkFreelistHead 5 1)).
  apply freelist_is_stuck_state.
Defined.

Lemma X6_witness :
  ∃ s', AllocateEntries (params := small_table) 1 2 stuck_state
        = Ok ([9; 5], s') ∧
        wf (params := small_table) s' ∧
        freelist_is (params := small_table) s' [] ∧
        table s' = table stuck_state ∧
        segments_ (space s') = segments_ (space stuck_state) ∧
        freelist_length (space s') = freelist_length (space stuck_state) - 2.
Proof.
  apply (X6_AllocateEntry_follows_the_free_list (params := small_table)
           ltac:(done) ltac:(done) ltac:(done) ltac:(done)
           stuck_state [9; 5] 0%nat 2%nat).
  - apply wf_stuck_state.
  - apply freelist_is_stuck_state.
  - simpl. lia.
Defined.

Lemma X7_witness :
  ∃ s', AllocateEntries (params := small_table) 1 4 initial_state
        = Ok ([4; 5; 6; 7], s') ∧
        wf (params := small_table) s' ∧
        freelist_is (params := small_table) s' [] ∧
        segments_ (space s') = {[1]} ∪ ∅ ∧
        the_pages (table s') = <[1 := kReadWrite]> {[0 := kRead]}.
Proof.
  apply (X7_a_new_segment_is_handed_out_in_order (params := small_table)
           ltac:(done) ltac:(done) ltac:(done) ltac:(done)
           initial_state 0%nat 1
           (<[1 := kReadWrite]> ({[0 := kRead]} : gmap Z _))).
  - apply wf_initial_state. done.
  - apply freelist_is_initial_state.
  - reflexivity.
Defined.

Lemma X8_witness :
  inv (params := small_table) (popped (popped stuck_state)) ∧
  (mutex_ (space (popped (popped stuck_state))) = true ↔
     ∃ i t, [Idle; Idle] !! i = Some t ∧ holds t = true) ∧
  (∀ i j ti tj, [Idle; Idle] !! i = Some ti → [Idle; Idle] !! j = Some tj →
                holds ti = true → holds tj = true → i = j) ∧
  (∀ i, [Idle; Idle] !! i = Some AtExtend →
        mutex_ (space (popped (popped stuck_state))) = true ∧
        freelist_length (space (popped (popped stuck_state))) = 0 ∧
        (Extend (params := small_table) (popped (popped stuck_state))
           = Err FatalProcessOutOfMemory ∨
         ∃ freelist s',
           Extend (params := small_table) (popped (popped stuck_state))
             = Ok (freelist, s') ∧
           length_ freelist = 4)).
Proof.
  apply (X8_interleaved_calls_extend_under_the_mutex (params := small_table)
           ltac:(done) ltac:(done) ltac:(done) ltac:(done)
           stuck_state [9; 5] 2%nat
           (mkConfig (popped (popped stuck_state)) [Idle; Idle]
                     [Allocated ModeAllocate 9; Allocated ModeAllocate 5])).
  - apply wf_stuck_state.
  - apply freelist_is_stuck_state.
  - apply two_threads_race.
Defined.

Lemma X9_witness :
  segments_ (space stuck_state)
    ⊆ segments_ (space (popped (popped stuck_state))) ∧
  ∃ l', freelist_is (params := small_table) (popped (popped stuck_state)) l' ∧
        NoDup ([9; 5] ++ l') ∧
        ∀ r, r ∈ [9; 5] ++ l' ↔
             r ∈ [9; 5] ∨
             (Contains (params := small_table)
                (space (popped (popped stuck_state))) r = true ∧
              Contains (params := small_table) (space stuck_state) r = false).
Proof.
  apply (X9_interleaved_calls_account_for_every_entry (params := small_table)
           ltac:(done) ltac:(done) ltac:(done) ltac:(done)
           stuck_state [9; 5] 2%nat
           (mkConfig (popped (popped stuck_state)) [Idle; Idle]
                     [Allocated ModeAllocate 9; Allocated ModeAllocate 5])).
  - apply wf_stuck_state.
  - apply freelist_is_stuck_state.
  - apply two_threads_race.
Defined.

End ExternalEntityTableProofs.

(** ** The marking visitor *)

Module MarkingVisitorProofs.
Import MarkingVisitor.

Section Proofs.

Context {heap : Heap} {flags : Flags} {concrete_visitor : ConcreteVisitor}.

(** *** Events *)

(** The events of visiting pointers: everything but the pushes onto the
    weak worklists of ephemerons and weak references to JS objects. *)
Definition pointer_event (e : Event) : bool :=
  match e with
  | PushEphemeronHashTable _ | PushDiscoveredEphemeron _ _ | PushJSWeakRef _ =>
      false
  | _ => true
  end.

Lemma pushed_app evs1 evs2 : pushed (evs1 ++ evs2) = pushed evs1 ++ pushed evs2.
Proof. apply omap_app. Qed.

Lemma loaded_app evs1 evs2 : loaded (evs1 ++ evs2) = loaded evs1 ++ loaded evs2.
Proof. apply omap_app. Qed.

Lemma pushed_tables_app evs1 evs2 :
  pushed_tables (evs1 ++ evs2) = pushed_tables evs1 ++ pushed_tables evs2.
Proof. apply omap_app. Qed.

Lemma pointer_events_no_tables evs :
  Forall (λ e, pointer_event e = true) evs → pushed_tables evs = [].
Proof.
  induction 1 as [|e evs He _ IH]; [done|].
  destruct e; try discriminate; exact IH.
Qed.

Lemma pointer_events_no_ephemerons evs :
  Forall (λ e, pointer_event e = true) evs → pushed_ephemerons evs = [].
Proof.
  induction 1 as [|e evs He _ IH]; [done|].
  destruct e; try discriminate; exact IH.
Qed.

(** *** What visiting pointers does to a state *)

(** [marks s s' evs]: the visitor went from [s] to [s'] doing [evs]; it left
    the progress bars and the ages alone, and what it pushed onto the marking
    worklist is what it marked: objects that were not marked, each once. *)
Record marks (s s' : VisitorState) (evs : list Event) : Prop := {
  marks_trace : trace s' = trace s ++ evs;
  marks_bars : progress_bars s' = progress_bars s;
  marks_ages : ages s' = ages s;
  marks_marked : marked s' = marked s ∪ list_to_set (pushed evs);
  marks_fresh : ∀ o, o ∈ pushed evs → o ∉ marked s;
  marks_nodup : NoDup (pushed evs);
  marks_events : Forall (λ e, pointer_event e = true) evs;
}.

Lemma marks_refl s : marks s s [].
Proof.
  split; simpl; [by rewrite app_nil_r|done|done|set_solver| |apply NoDup_nil_2|done].
  by intros ? ?%elem_of_nil.
Qed.

Lemma marks_trans s1 s2 s3 evs1 evs2 :
  marks s1 s2 evs1 → marks s2 s3 evs2 → marks s1 s3 (evs1 ++ evs2).
Proof.
  intros [Ht1 Hb1 Ha1 Hm1 Hf1 Hn1 He1] [Ht2 Hb2 Ha2 Hm2 Hf2 Hn2 He2].
  split.
  - rewrite Ht2, Ht1. by rewrite app_assoc.
  - congruence.
  - congruence.
  - rewrite Hm2, Hm1, pushed_app, list_to_set_app_L. set_solver.
  - rewrite pushed_app. intros o [Ho|Ho]%elem_of_app; [by apply Hf1|].
    apply Hf2 in Ho. rewrite Hm1 in Ho. set_solver.
  - rewrite pushed_app. apply NoDup_app. split; [done|]. split; [|done].
    intros o Ho1 Ho2. apply Hf2 in Ho2. rewrite Hm1 in Ho2.
    apply Ho2, elem_of_union. right. by apply elem_of_list_to_set.
  - by apply Forall_app.
Qed.

(** An event that is not a push onto the marking worklist. *)
Lemma marks_emit s e :
  pointer_event e = true → pushed [e] = [] →
  emit e s = Ok (tt, mkVisitorState (marked s) (progress_bars s) (ages s)
                                    (trace s ++ [e])) ∧
  marks s (mkVisitorState (marked s) (progress_bars s) (ages s)
                          (trace s ++ [e])) [e].
Proof.
  intros He Hp. split; [done|].
  split; cbn [marked progress_bars ages trace];
    [done|done|done| | | |by apply Forall_singleton].
  - rewrite Hp. set_solver.
  - rewrite Hp. by intros ? ?%elem_of_nil.
  - rewrite Hp. apply NoDup_nil_2.
Qed.

(** *** [MarkObject] *)

(** The events of [MarkObject host object] and the state it leaves. *)
Definition MarkObject_events (host object : HeapObject) (s : VisitorState)
    : list Event :=
  if bool_decide (object ∈ marked s) then [AddStrongReference host object]
  else AddStrongReference host object :: PushMarking object ::
       (if retaining_path_mode_enabled then [AddRetainer host object] else []).

Definition MarkObject_state (host object : HeapObject) (s : VisitorState)
    : VisitorState :=
  mkVisitorState ({[object]} ∪ marked s) (progress_bars s) (ages s)
                 (trace s ++ MarkObject_events host object s).

Lemma MarkObject_Ok host object s :
  MarkObject host object s = Ok (tt, MarkObject_state host object s).
Proof.
  unfold MarkObject, MarkObject_state, MarkObject_events, TryMark,
    SynchronizePageAccess, emit, bind, ret, get, put, modify; simpl.
  case_bool_decide as Hm.
  - do 2 f_equal. f_equal. set_solver.
  - destruct retaining_path_mode_enabled; simpl;
      rewrite <- ?app_assoc; reflexivity.
Qed.

Lemma pushed_MarkObject_events host object s :
  pushed (MarkObject_events host object s) =
  if bool_decide (object ∈ marked s) then [] else [object].
Proof.
  unfold MarkObject_events. case_bool_decide; [done|].
  by destruct retaining_path_mode_enabled.
Qed.

Lemma marks_MarkObject host object s :
  marks s (MarkObject_state host object s) (MarkObject_events host object s).
Proof.
  split; cbn [marked progress_bars ages trace MarkObject_state];
    [done|done|done|..]; rewrite ?pushed_MarkObject_events.
  - case_bool_decide; set_solver.
  - case_bool_decide; [by intros ? ?%elem_of_nil|].
    by intros ? ->%list_elem_of_singleton.
  - case_bool_decide; [apply NoDup_nil_2 | apply NoDup_singleton].
  - unfold MarkObject_events. case_bool_decide.
    + by apply Forall_singleton.
    + destruct retaining_path_mode_enabled; repeat constructor.
Qed.

(** *** [ProcessStrongHeapObject], [ProcessWeakHeapObject] and
    [VisitPointersImpl] *)

Lemma ProcessStrongHeapObject_marks host slot object s :
  ∃ s' evs, ProcessStrongHeapObject host slot object s = Ok (tt, s') ∧
            marks s s' evs ∧ loaded evs = [].
Proof.
  unfold ProcessStrongHeapObject, SynchronizePageAccess.
  unfold bind at 1, ret at 1.
  destruct (ShouldMarkObject object); simpl.
  - unfold bind at 1. rewrite MarkObject_Ok.
    destruct (marks_emit (MarkObject_state host object s)
                (RecordSlot host slot object)) as [-> Hm]; [done|done|].
    eexists _, _. split; [done|]. split.
    + eapply marks_trans; [apply marks_MarkObject | exact Hm].
    + rewrite loaded_app. unfold MarkObject_events.
      case_bool_decide; [done|]. by destruct retaining_path_mode_enabled.
  - exists s, []. split; [done|]. split; [apply marks_refl | done].
Qed.

Lemma ProcessWeakHeapObject_marks host slot object s :
  ∃ s' evs, ProcessWeakHeapObject host slot object s = Ok (tt, s') ∧
            marks s s' evs ∧ loaded evs = [] ∧ pushed evs = [].
Proof.
  unfold ProcessWeakHeapObject, SynchronizePageAccess.
  unfold bind at 1, ret at 1.
  destruct (ShouldMarkObject object); simpl.
  - unfold bind at 1, IsMarked at 1, gets at 1.
    case_bool_decide.
    + destruct (marks_emit s (RecordSlot host slot object)) as [-> Hm];
        [done|done|].
      eexists _, _. split; [done|]. split; [exact Hm|done].
    + unfold bind at 1.
      destruct (marks_emit s (PushWeakReference host slot)) as [-> Hm1];
        [done|done|].
      destruct (marks_emit
        (mkVisitorState (marked s) (progress_bars s) (ages s)
                        (trace s ++ [PushWeakReference host slot]))
        (AddWeakReference host object)) as [-> Hm2]; [done|done|].
      eexists _, _. split; [done|]. split.
      * eapply marks_trans; [exact Hm1 | exact Hm2].
      * done.
  - exists s, []. split; [done|]. split; [apply marks_refl | done].
Qed.

(** The body of the loop of [VisitPointersImpl]. *)
Definition visit_slot (can_be_weak : bool) (host : HeapObject) (slot : Slot)
    : MV unit :=
  emit (LoadSlot slot);;;
  let object := Relaxed_Load slot in
  match GetHeapObjectIfStrong object with
  | Some heap_object => ProcessStrongHeapObject host slot heap_object
  | None =>
      if can_be_weak then
        match GetHeapObjectIfWeak object with
        | Some heap_object => ProcessWeakHeapObject host slot heap_object
        | None => ret tt
        end
      else ret tt
  end.

Lemma visit_slot_marks can_be_weak host slot s :
  ∃ s' evs, visit_slot can_be_weak host slot s = Ok (tt, s') ∧
            marks s s' evs ∧ loaded evs = [slot].
Proof.
  unfold visit_slot. unfold bind at 1.
  destruct (marks_emit s (LoadSlot slot)) as [-> Hm]; [done|done|].
  set (s1 := mkVisitorState _ _ _ _) in *.
  destruct (GetHeapObjectIfStrong (Relaxed_Load slot)) as [o|].
  - destruct (ProcessStrongHeapObject_marks host slot o s1)
      as (s' & evs & -> & Hm' & Hl).
    exists s', ([LoadSlot slot] ++ evs). split; [done|]. split.
    + by eapply marks_trans.
    + rewrite loaded_app, Hl. done.
  - destruct can_be_weak;
      [destruct (GetHeapObjectIfWeak (Relaxed_Load slot)) as [o|]|].
    + destruct (ProcessWeakHeapObject_marks host slot o s1)
        as (s' & evs & -> & Hm' & Hl & _).
      exists s', ([LoadSlot slot] ++ evs). split; [done|]. split.
      * by eapply marks_trans.
      * rewrite loaded_app, Hl. done.
    + exists s1, [LoadSlot slot]. done.
    + exists s1, [LoadSlot slot]. done.
Qed.

Lemma visit_slots_marks can_be_weak host slots : ∀ s,
  ∃ s' evs, for_each slots (visit_slot can_be_weak host) s = Ok (tt, s') ∧
            marks s s' evs ∧ loaded evs = slots.
Proof.
  induction slots as [|slot slots IH]; intros s.
  - exists s, []. split; [done|]. split; [apply marks_refl | done].
  - cbn [for_each]. unfold bind at 1.
    destruct (visit_slot_marks can_be_weak host slot s)
      as (s1 & evs1 & -> & Hm1 & Hl1).
    destruct (IH s1) as (s' & evs & -> & Hm & Hl).
    exists s', (evs1 ++ evs). split; [done|]. split.
    + by eapply marks_trans.
    + rewrite loaded_app, Hl1, Hl. done.
Qed.

Lemma VisitPointersImpl_marks can_be_weak host start end_ s :
  ∃ s' evs, VisitPointersImpl can_be_weak host start end_ s = Ok (tt, s') ∧
            marks s s' evs ∧ loaded evs = slots_between start end_.
Proof. apply visit_slots_marks. Qed.

(** A marked object stays marked and is not pushed again. *)
Lemma marks_keeps_marked s s' evs o :
  marks s s' evs → o ∈ marked s → o ∈ marked s' ∧ (o ∉ pushed evs).
Proof.
  intros Hm Ho. split.
  - rewrite (marks_marked _ _ _ Hm). set_solver.
  - intros Hin. by apply (marks_fresh _ _ _ Hm) in Hin.
Qed.

(** *** At most one push for an object *)

(** Every object on the marking worklist is marked and is there once. *)
Definition pushed_once (s : VisitorState) : Prop :=
  NoDup (marking_worklist s) ∧ ∀ o, o ∈ marking_worklist s → o ∈ marked s.

Lemma marks_pushed_once s s' evs :
  marks s s' evs → pushed_once s → pushed_once s'.
Proof.
  intros Hm [Hnd Hsub]. unfold pushed_once, marking_worklist.
  rewrite (marks_trace _ _ _ Hm), pushed_app. split.
  - apply NoDup_app. split; [done|]. split; [|apply (marks_nodup _ _ _ Hm)].
    intros o Ho Ho'. apply (marks_fresh _ _ _ Hm) in Ho'. by apply Ho', Hsub.
  - intros o [Ho|Ho]%elem_of_app; rewrite (marks_marked _ _ _ Hm).
    + apply elem_of_union; left. by apply Hsub.
    + apply elem_of_union; right. by apply elem_of_list_to_set.
Qed.

(** A client that marks the objects of a list of (host, object) pairs. *)
Definition MarkObjects (refs : list (HeapObject * HeapObject)) : MV unit :=
  for_each refs (λ r, MarkObject r.1 r.2).

Lemma MarkObjects_marks refs : ∀ s,
  ∃ s' evs, MarkObjects refs s = Ok (tt, s') ∧ marks s s' evs.
Proof.
  unfold MarkObjects.
  induction refs as [|[host o] refs IH]; intros s.
  - exists s, []. split; [done | apply marks_refl].
  - cbn [for_each]. unfold bind at 1. cbn [fst snd].
    rewrite MarkObject_Ok.
    destruct (IH (MarkObject_state host o s)) as (s' & evs & -> & Hm).
    eexists _, _. split; [done|].
    eapply marks_trans; [apply marks_MarkObject | exact Hm].
Qed.

(** The start of a marking cycle: nothing is marked, nothing was pushed. *)
Definition cycle_start (bars : gmap Z Z) (ages : gmap HeapObject Z)
    : VisitorState :=
  mkVisitorState ∅ bars ages [].

(** C5.  [MarkObject] returns; when the referent is already marked
    ([TryMark] answers false) the marking worklist is left as it was, and when
    it is not, the referent is marked and pushed once, at the end of the
    worklist.  Hence calls of [MarkObject] keep every object at most once on
    the worklist (as do the visits of slot ranges, which push through
    [MarkObject] only), from the start of a marking cycle in particular;
    a second entry comes only from the re-pushes of other functions. *)
Theorem C5_MarkObject_pushes_first_marker_only
    (host object : HeapObject) (s : VisitorState) :
  (∃ s', MarkObject host object s = Ok (tt, s') ∧
     (object ∈ marked s →
        marking_worklist s' = marking_worklist s ∧ marked s' = marked s) ∧
     (object ∉ marked s →
        marking_worklist s' = marking_worklist s ++ [object] ∧
        marked s' = {[object]} ∪ marked s) ∧
     (pushed_once s → pushed_once s')) ∧
  (∀ refs, ∃ s', MarkObjects refs s = Ok (tt, s') ∧
                 (pushed_once s → pushed_once s')) ∧
  (∀ refs bars ages, ∃ s',
     MarkObjects refs (cycle_start bars ages) = Ok (tt, s') ∧
     NoDup (marking_worklist s')) ∧
  (∀ can_be_weak start end_, ∃ s',
     VisitPointersImpl can_be_weak host start end_ s = Ok (tt, s') ∧
     (pushed_once s → pushed_once s')).
Proof.
  split; [|split; [|split]].
  - exists (MarkObject_state host object s). split; [apply MarkObject_Ok|].
    unfold marking_worklist. cbn [trace marked MarkObject_state].
    rewrite pushed_app, pushed_MarkObject_events.
    split; [|split].
    + intros Hm. rewrite bool_decide_eq_true_2 by done.
      split; [apply app_nil_r | set_solver].
    + intros Hm. rewrite bool_decide_eq_false_2 by done. done.
    + apply marks_pushed_once with (evs := MarkObject_events host object s).
      apply marks_MarkObject.
  - intros refs. destruct (MarkObjects_marks refs s) as (s' & evs & Hcall & Hm).
    exists s'. split; [done|]. by apply (marks_pushed_once _ _ evs).
  - intros refs bars ages.
    destruct (MarkObjects_marks refs (cycle_start bars ages))
      as (s' & evs & Hcall & Hm).
    exists s'. split; [done|].
    apply (marks_pushed_once _ _ evs Hm). split; [apply NoDup_nil_2|].
    by intros ? ?%elem_of_nil.
  - intros can_be_weak start end_.
    destruct (VisitPointersImpl_marks can_be_weak host start end_ s)
      as (s' & evs & Hcall & Hm & _).
    exists s'. split; [done|]. by apply (marks_pushed_once _ _ evs).
Qed.

(** *** Slot ranges *)

Lemma static_cast_int_small z : 0 ≤ z < 2 ^ 31 → static_cast_int z = z.
Proof.
  intros Hz. unfold static_cast_int. rewrite Z.mod_small; lia.
Qed.

Section SlotRanges.

Hypothesis tagged_size_pos : 0 < kTaggedSize.

Lemma slots_between_nil a b : b ≤ a → slots_between a b = [].
Proof.
  intros Hle. unfold slots_between. rewrite seqZ_nil; [done|].
  assert ((b - a + kTaggedSize - 1) / kTaggedSize < 1); [|lia].
  apply Z.div_lt_upper_bound; lia.
Qed.

Lemma slots_between_cons a b :
  a < b → slots_between a b = a :: slots_between (a + kTaggedSize) b.
Proof.
  intros Hlt. unfold slots_between.
  replace ((b - a + kTaggedSize - 1) / kTaggedSize)
    with (1 + (b - (a + kTaggedSize) + kTaggedSize - 1) / kTaggedSize).
  2:{ rewrite <- Z.div_add_l by lia. f_equal. lia. }
  assert (0 ≤ (b - (a + kTaggedSize) + kTaggedSize - 1) / kTaggedSize) as Hq
    by (apply Z.div_pos; lia).
  rewrite seqZ_cons by lia. rewrite fmap_cons. f_equal; [lia|].
  replace (Z.pred (1 + (b - (a + kTaggedSize) + kTaggedSize - 1) / kTaggedSize))
    with ((b - (a + kTaggedSize) + kTaggedSize - 1) / kTaggedSize) by lia.
  replace (Z.succ 0) with (1 + 0) by lia.
  rewrite <- fmap_add_seqZ, <- list_fmap_compose.
  apply list_fmap_ext. intros _ i _. simpl. lia.
Qed.

Lemma slots_between_head a b : a < b → head (slots_between a b) = Some a.
Proof. intros Hlt. by rewrite slots_between_cons. Qed.

(** Ranges that start at different slots differ. *)
Lemma slots_between_differ a b c d :
  a < b → c < d → a ≠ c → slots_between a b ≠ slots_between c d.
Proof.
  intros Hab Hcd Hac Heq. apply (f_equal head) in Heq.
  rewrite !slots_between_head in Heq by done. congruence.
Qed.

(** A range splits at a slot boundary. *)
Lemma slots_between_app (m : nat) : ∀ a c,
  a + Z.of_nat m * kTaggedSize ≤ c →
  slots_between a c =
  slots_between a (a + Z.of_nat m * kTaggedSize)
    ++ slots_between (a + Z.of_nat m * kTaggedSize) c.
Proof.
  induction m as [|m IH]; intros a c Hle.
  - replace (a + Z.of_nat 0 * kTaggedSize) with a by lia.
    rewrite (slots_between_nil a a) by lia. done.
  - rewrite (slots_between_cons a c) by nia.
    rewrite (slots_between_cons a (a + Z.of_nat (S m) * kTaggedSize)) by nia.
    rewrite <- app_comm_cons. f_equal.
    rewrite (IH (a + kTaggedSize) c) by nia.
    f_equal; f_equal; lia.
Qed.

Lemma elem_of_slots_between x a b :
  x ∈ slots_between a b → a ≤ x < b ∧ (x - a) mod kTaggedSize = 0.
Proof.
  unfold slots_between. intros (i & -> & Hi%elem_of_seqZ)%list_elem_of_fmap.
  assert (i * kTaggedSize < b - a).
  { assert (i < (b - a + kTaggedSize - 1) / kTaggedSize) as Hlt by lia.
    pose proof (Z.mul_div_le (b - a + kTaggedSize - 1) kTaggedSize
                  tagged_size_pos).
    nia. }
  split; [nia|].
  replace (a + i * kTaggedSize - a) with (i * kTaggedSize) by lia.
  apply Z.mod_mul. lia.
Qed.

Lemma NoDup_slots_between a b : NoDup (slots_between a b).
Proof.
  unfold slots_between. apply NoDup_fmap_2; [|apply NoDup_seqZ].
  intros i j Hij. nia.
Qed.

End SlotRanges.

(** *** What the visit of a range of slots marks, records and queues *)

(** The heap object a slot refers to strongly, or weakly, when the object is
    one that should be marked. *)
Definition strong_target (slot : Slot) : option HeapObject :=
  match Relaxed_Load slot with
  | Strong o => if ShouldMarkObject o then Some o else None
  | _ => None
  end.
Definition weak_target (slot : Slot) : option HeapObject :=
  match Relaxed_Load slot with
  | Weak o => if ShouldMarkObject o then Some o else None
  | _ => None
  end.

(** The slots pushed onto the worklist of weak references. *)
Definition pushed_weak_references (evs : list Event)
    : list (HeapObject * Slot) :=
  omap (λ e, match e with PushWeakReference h sl => Some (h, sl) | _ => None end)
       evs.

(** The events of the visit of one slot when [m] is the set of marked
    objects, and the set of marked objects after it. *)
Definition slot_events (can_be_weak : bool) (host : HeapObject)
    (m : gset HeapObject) (slot : Slot) : list Event :=
  LoadSlot slot ::
  match Relaxed_Load slot with
  | Strong o =>
      if ShouldMarkObject o then
        AddStrongReference host o ::
        (if bool_decide (o ∈ m) then []
         else PushMarking o ::
              (if retaining_path_mode_enabled then [AddRetainer host o]
               else [])) ++
        [RecordSlot host slot o]
      else []
  | Weak o =>
      if can_be_weak && ShouldMarkObject o then
        if bool_decide (o ∈ m) then [RecordSlot host slot o]
        else [PushWeakReference host slot; AddWeakReference host o]
      else []
  | _ => []
  end.

Definition slot_marks (m : gset HeapObject) (slot : Slot) : gset HeapObject :=
  match strong_target slot with
  | Some o => {[o]} ∪ m
  | None => m
  end.

Fixpoint range_events (can_be_weak : bool) (host : HeapObject)
    (m : gset HeapObject) (slots : list Slot) : list Event :=
  match slots with
  | [] => []
  | slot :: slots' =>
      slot_events can_be_weak host m slot ++
      range_events can_be_weak host (slot_marks m slot) slots'
  end.

Lemma visit_slot_exact can_be_weak host slot s :
  visit_slot can_be_weak host slot s =
    Ok (tt, mkVisitorState (slot_marks (marked s) slot) (progress_bars s)
                           (ages s)
                           (trace s ++
                            slot_events can_be_weak host (marked s) slot)).
Proof.
  unfold visit_slot, slot_events, slot_marks, strong_target.
  unfold bind at 1, emit at 1, modify at 1.
  destruct (Relaxed_Load slot) as [n|o|o|]; cbn [GetHeapObjectIfStrong].
  - by destruct can_be_weak.
  - unfold ProcessStrongHeapObject, SynchronizePageAccess.
    unfold bind at 1, ret at 1.
    destruct (ShouldMarkObject o); cbn [negb]; [|done].
    unfold bind at 1. rewrite MarkObject_Ok.
    unfold emit, modify, MarkObject_state, MarkObject_events.
    cbn [marked progress_bars ages trace].
    do 3 f_equal. rewrite <- !app_assoc. cbn [app].
    by case_bool_decide.
  - destruct can_be_weak; cbn [GetHeapObjectIfWeak andb]; [|done].
    unfold ProcessWeakHeapObject, SynchronizePageAccess.
    unfold bind at 1, ret at 1.
    destruct (ShouldMarkObject o); cbn [negb]; [|done].
    unfold bind at 1, IsMarked at 1, gets at 1.
    cbn [marked]. case_bool_decide.
    + unfold emit, modify. cbn [marked progress_bars ages trace].
      do 3 f_equal. by rewrite <- !app_assoc.
    + unfold bind, emit, modify. cbn [marked progress_bars ages trace].
      do 3 f_equal. by rewrite <- !app_assoc.
  - by destruct can_be_weak.
Qed.

Lemma visit_slots_exact can_be_weak host slots : ∀ s,
  for_each slots (visit_slot can_be_weak host) s =
    Ok (tt, mkVisitorState (foldl slot_marks (marked s) slots)
                           (progress_bars s) (ages s)
                           (trace s ++
                            range_events can_be_weak host (marked s) slots)).
Proof.
  induction slots as [|slot slots IH]; intros s.
  - cbn [for_each foldl range_events]. rewrite app_nil_r. by destruct s.
  - cbn [for_each foldl range_events]. unfold bind at 1.
    rewrite visit_slot_exact, IH. cbn [marked progress_bars ages trace].
    by rewrite app_assoc.
Qed.

Lemma range_marks_eq slots : ∀ m,
  foldl slot_marks m slots = m ∪ list_to_set (omap strong_target slots).
Proof.
  induction slots as [|slot slots IH]; intros m.
  - simpl. set_solver.
  - cbn [foldl]. rewrite IH. unfold slot_marks. simpl.
    destruct (strong_target slot); simpl; set_solver.
Qed.

Lemma recorded_slot_events can_be_weak host m slot :
  recorded (slot_events can_be_weak host m slot) =
    match Relaxed_Load slot with
    | Strong o => if ShouldMarkObject o then [(host, slot, o)] else []
    | Weak o =>
        if can_be_weak && ShouldMarkObject o && bool_decide (o ∈ m)
        then [(host, slot, o)] else []
    | _ => []
    end.
Proof.
  unfold slot_events.
  destruct (Relaxed_Load slot) as [n|o|o|]; [done| | |done].
  - destruct (ShouldMarkObject o); [|done].
    case_bool_decide; [done|]. by destruct retaining_path_mode_enabled.
  - destruct can_be_weak, (ShouldMarkObject o); try done.
    cbn [andb]. by case_bool_decide.
Qed.

Lemma weak_references_slot_events can_be_weak host m slot :
  pushed_weak_references (slot_events can_be_weak host m slot) =
    match Relaxed_Load slot with
    | Weak o =>
        if can_be_weak && ShouldMarkObject o && negb (bool_decide (o ∈ m))
        then [(host, slot)] else []
    | _ => []
    end.
Proof.
  unfold slot_events.
  destruct (Relaxed_Load slot) as [n|o|o|]; [done| | |done].
  - destruct (ShouldMarkObject o); [|done].
    case_bool_decide; [done|]. by destruct retaining_path_mode_enabled.
  - destruct can_be_weak, (ShouldMarkObject o); try done.
    cbn [andb]. by case_bool_decide.
Qed.

Lemma recorded_app evs1 evs2 :
  recorded (evs1 ++ evs2) = recorded evs1 ++ recorded evs2.
Proof. apply omap_app. Qed.

Lemma pushed_weak_references_app evs1 evs2 :
  pushed_weak_references (evs1 ++ evs2) =
  pushed_weak_references evs1 ++ pushed_weak_references evs2.
Proof. apply omap_app. Qed.

(** On slots that cannot be weak what is recorded does not depend on the
    marked objects: every strong reference to an object that should be
    marked. *)
Lemma recorded_strong_range host slots : ∀ m,
  recorded (range_events false host m slots) =
    omap (λ slot, (λ o, (host, slot, o)) <$> strong_target slot) slots ∧
  pushed_weak_references (range_events false host m slots) = [].
Proof.
  induction slots as [|slot slots IH]; intros m; [done|].
  cbn [range_events].
  rewrite recorded_app, pushed_weak_references_app.
  destruct (IH (slot_marks m slot)) as [-> ->].
  rewrite recorded_slot_events, weak_references_slot_events.
  unfold strong_target.
  destruct (Relaxed_Load slot) as [n|o|o|] eqn:Hload; simpl;
    rewrite ?Hload; simpl; try done.
  by destruct (ShouldMarkObject o).
Qed.

(** Every slot recorded points to an object that is marked at the end of
    the visit. *)
Lemma recorded_range_marked can_be_weak host slots : ∀ m h slot o,
  (h, slot, o) ∈ recorded (range_events can_be_weak host m slots) →
  h = host ∧ slot ∈ slots ∧ o ∈ foldl slot_marks m slots ∧
  (strong_target slot = Some o ∨
   (can_be_weak = true ∧ weak_target slot = Some o)).
Proof.
  induction slots as [|slot0 slots IH]; intros m h slot o;
    cbn [range_events foldl]; [by intros ?%elem_of_nil|].
  rewrite recorded_app, elem_of_app, recorded_slot_events.
  intros [Hin|Hin].
  - assert (h = host ∧ slot = slot0 ∧ o ∈ slot_marks m slot0 ∧
            (strong_target slot = Some o ∨
             (can_be_weak = true ∧ weak_target slot = Some o)))
      as (-> & -> & Ho & Hkind).
    { unfold slot_marks, strong_target, weak_target.
      destruct (Relaxed_Load slot0) as [n|o'|o'|] eqn:Hload;
        [by apply elem_of_nil in Hin| | |by apply elem_of_nil in Hin].
      - destruct (ShouldMarkObject o') eqn:Hs;
          [|by apply elem_of_nil in Hin].
        apply list_elem_of_singleton in Hin. injection Hin as -> -> ->.
        rewrite Hload, Hs. split; [done|]. split; [done|].
        split; [set_solver | by left].
      - destruct can_be_weak; [|by apply elem_of_nil in Hin].
        destruct (ShouldMarkObject o') eqn:Hs;
          [|by apply elem_of_nil in Hin].
        cbn [andb] in Hin. case_bool_decide;
          [|by apply elem_of_nil in Hin].
        apply list_elem_of_singleton in Hin. injection Hin as -> -> ->.
        rewrite Hload, Hs. split; [done|]. split; [done|].
        split; [done | by right]. }
    split; [done|]. split; [apply list_elem_of_here|]. split; [|done].
    rewrite range_marks_eq. set_solver.
  - destruct (IH _ _ _ _ Hin) as (-> & Hslot & Ho & Hkind).
    split; [done|]. split; [by apply list_elem_of_further|]. done.
Qed.

(** Every weak reference to an object that should be marked is recorded or
    queued; it is recorded when the object was marked before the visit. *)
Lemma weak_slot_accounted host slots : ∀ m slot o,
  slot ∈ slots → weak_target slot = Some o →
  ((host, slot, o) ∈ recorded (range_events true host m slots) ∨
   (host, slot) ∈ pushed_weak_references (range_events true host m slots)) ∧
  (o ∈ m → (host, slot, o) ∈ recorded (range_events true host m slots)).
Proof.
  induction slots as [|slot0 slots IH]; intros m slot o;
    [by intros ?%elem_of_nil|].
  cbn [range_events].
  rewrite recorded_app, pushed_weak_references_app, !elem_of_app.
  rewrite recorded_slot_events, weak_references_slot_events.
  intros [->|Hin]%elem_of_cons Hweak.
  - unfold weak_target in Hweak.
    destruct (Relaxed_Load slot0) as [n|o'|o'|]; try done.
    destruct (ShouldMarkObject o'); [|done]. injection Hweak as ->.
    cbn [andb]. case_bool_decide; cbn [negb].
    + split; [left; left|intros _; left]; apply list_elem_of_here.
    + split; [right; left; apply list_elem_of_here | done].
  - destruct (IH (slot_marks m slot0) slot o Hin Hweak) as [Hor Hm].
    split; [destruct Hor; [left|right]; by right|].
    intros Ho. right. apply Hm. unfold slot_marks.
    destruct (strong_target slot0); set_solver.
Qed.

Lemma weak_references_range host slots : ∀ m h slot,
  (h, slot) ∈ pushed_weak_references (range_events true host m slots) →
  h = host ∧ slot ∈ slots ∧ ∃ o, weak_target slot = Some o ∧ (o ∉ m).
Proof.
  induction slots as [|slot0 slots IH]; intros m h slot;
    cbn [range_events]; [by intros ?%elem_of_nil|].
  rewrite pushed_weak_references_app, elem_of_app,
    weak_references_slot_events.
  intros [Hin|Hin].
  - unfold weak_target.
    destruct (Relaxed_Load slot0) as [n|o'|o'|] eqn:Hload;
      try (by apply elem_of_nil in Hin).
    destruct (ShouldMarkObject o') eqn:Hs; [|by apply elem_of_nil in Hin].
    cbn [andb] in Hin. case_bool_decide; [by apply elem_of_nil in Hin|].
    apply list_elem_of_singleton in Hin. injection Hin as -> ->.
    split; [done|]. split; [apply list_elem_of_here|].
    exists o'. by rewrite Hload, Hs.
  - destruct (IH _ _ _ Hin) as (-> & Hslot & o & Ho & Hm).
    split; [done|]. split; [by apply list_elem_of_further|].
    exists o. split; [done|]. intros Hin'. apply Hm. unfold slot_marks.
    destruct (strong_target slot0); set_solver.
Qed.

(** *** The map pointer *)

(** The events of [ProcessStrongHeapObject] and the objects marked after
    it. *)
Definition strong_events (host : HeapObject) (slot : Slot)
    (object : HeapObject) (s : VisitorState) : list Event :=
  if ShouldMarkObject object
  then MarkObject_events host object s ++ [RecordSlot host slot object]
  else [].

Definition strong_marks (m : gset HeapObject) (object : HeapObject)
    : gset HeapObject :=
  if ShouldMarkObject object then {[object]} ∪ m else m.

Lemma ProcessStrongHeapObject_exact host slot object s :
  ProcessStrongHeapObject host slot object s =
    Ok (tt, mkVisitorState (strong_marks (marked s) object) (progress_bars s)
                           (ages s)
                           (trace s ++ strong_events host slot object s)).
Proof.
  unfold ProcessStrongHeapObject, SynchronizePageAccess, strong_events,
    strong_marks.
  unfold bind at 1, ret at 1.
  destruct (ShouldMarkObject object); cbn [negb].
  - unfold bind at 1. rewrite MarkObject_Ok.
    unfold emit, modify, MarkObject_state.
    cbn [marked progress_bars ages trace]. by rewrite <- app_assoc.
  - rewrite app_nil_r. by destruct s.
Qed.

Lemma loaded_strong_events host slot object s :
  loaded (strong_events host slot object s) = [].
Proof.
  unfold strong_events, MarkObject_events.
  destruct (ShouldMarkObject object); [|done].
  rewrite loaded_app. case_bool_decide; [done|].
  by destruct retaining_path_mode_enabled.
Qed.

Lemma pushed_strong_events host slot object s :
  pushed (strong_events host slot object s) =
  if ShouldMarkObject object && negb (bool_decide (object ∈ marked s))
  then [object] else [].
Proof.
  unfold strong_events.
  destruct (ShouldMarkObject object); [|done].
  rewrite pushed_app, pushed_MarkObject_events. cbn [andb].
  by case_bool_decide.
Qed.

(** *** [VisitFixedArrayWithProgressBar] *)

Lemma loaded_range_events can_be_weak host slots : ∀ m,
  loaded (range_events can_be_weak host m slots) = slots.
Proof.
  induction slots as [|slot slots IH]; intros m; [done|].
  cbn [range_events]. rewrite loaded_app, IH.
  assert (loaded (slot_events can_be_weak host m slot) = [slot]) as ->; [|done].
  unfold slot_events.
  destruct (Relaxed_Load slot) as [n|o|o|]; [done| | |done].
  - destruct (ShouldMarkObject o); [|done].
    case_bool_decide; [done|]. by destruct retaining_path_mode_enabled.
  - destruct (can_be_weak && ShouldMarkObject o); [|done].
    by case_bool_decide.
Qed.

(** What a visit of slots pushes was not marked before. *)
Lemma pushed_range_events_fresh can_be_weak host slots : ∀ m o,
  o ∈ pushed (range_events can_be_weak host m slots) → o ∉ m.
Proof.
  induction slots as [|slot slots IH]; intros m o;
    [by intros ?%elem_of_nil|].
  cbn [range_events]. rewrite pushed_app.
  intros [Hin|Hin]%elem_of_app.
  - unfold slot_events in Hin.
    destruct (Relaxed_Load slot) as [n|o'|o'|];
      try (by apply elem_of_nil in Hin).
    + destruct (ShouldMarkObject o'); [|by apply elem_of_nil in Hin].
      case_bool_decide as Hm; [by apply elem_of_nil in Hin|].
      destruct retaining_path_mode_enabled;
        apply list_elem_of_singleton in Hin; by subst.
    + destruct (can_be_weak && ShouldMarkObject o');
        [|by apply elem_of_nil in Hin].
      case_bool_decide; by apply elem_of_nil in Hin.
  - apply IH in Hin. intros Hm. apply Hin. unfold slot_marks.
    destruct (strong_target slot); set_solver.
Qed.

Lemma range_marks_grow slots m : m ⊆ foldl slot_marks m slots.
Proof. rewrite range_marks_eq. set_solver. Qed.

(** Where a visit starts when the cursor it reads is [cur], and where it
    ends. *)
Definition scan_start (cur : Z) : Z :=
  if cur =? 0 then FixedArray_kStartOffset else cur.
Definition scan_end (map object : HeapObject) (cur : Z) : Z :=
  Z.min (SizeOf map object) (scan_start cur + kMaxRegularHeapObjectSize).

(** The slots a visit scans, the events of its visit of the map pointer and
    the objects that are marked after that visit. *)
Definition scanned (map object : HeapObject) (cur : Z) : list Slot :=
  if scan_start cur <? scan_end map object cur
  then slots_between (RawField object (scan_start cur))
                     (RawField object (scan_end map object cur))
  else [].
Definition map_pointer_events (object : HeapObject) (cur : Z)
    (s : VisitorState) : list Event :=
  if cur =? 0
  then strong_events object (RawField object 0) (map_of object) s else [].
Definition map_pointer_marks (object : HeapObject) (cur : Z)
    (m : gset HeapObject) : gset HeapObject :=
  if cur =? 0 then strong_marks m (map_of object) else m.

(** The events of a visit up to the compare-and-swap, and the state they
    leave. *)
Definition scan_events (map object : HeapObject) (cur : Z) (s : VisitorState)
    : list Event :=
  map_pointer_events object cur s ++
  range_events false object (map_pointer_marks object cur (marked s))
               (scanned map object cur).
Definition after_scan (map object : HeapObject) (cur : Z) (s : VisitorState)
    : VisitorState :=
  mkVisitorState
    (foldl slot_marks (map_pointer_marks object cur (marked s))
           (scanned map object cur))
    (progress_bars s) (ages s) (trace s ++ scan_events map object cur s).

(** What follows the visit of the slots: the compare-and-swap of the cursor
    from the value read, after what the other threads did, and the push. *)
Definition move_cursor (others : MV unit) (map object : HeapObject)
    (bar cur : Z) : MV unit :=
  others;;;
  success <-
    ProgressBar_TrySetNewValue bar cur
      (static_cast_size_t (scan_end map object cur));;
  check success;;;
  if scan_end map object cur <? SizeOf map object then
    dcheck (ShouldMarkObject object);;;
    emit (PushMarking object)
  else ret tt.

Lemma visit_map_pointer_exact object cur s :
  (if cur =? 0 then VisitMapPointer object;;; ret FixedArray_kStartOffset
   else ret cur) s =
  Ok (scan_start cur,
      mkVisitorState (map_pointer_marks object cur (marked s))
                     (progress_bars s) (ages s)
                     (trace s ++ map_pointer_events object cur s)).
Proof.
  unfold scan_start, map_pointer_marks, map_pointer_events.
  destruct (cur =? 0).
  - unfold bind, VisitMapPointer. by rewrite ProcessStrongHeapObject_exact.
  - unfold ret. rewrite app_nil_r. by destruct s.
Qed.

(** The visit up to the compare-and-swap. *)
Lemma VisitFixedArrayWithProgressBar_scan others map object bar s cur :
  object ∈ marked s →
  progress_bars s !! bar = Some cur →
  0 ≤ cur < 2 ^ 31 →
  - 2 ^ 31 ≤ scan_start cur + kMaxRegularHeapObjectSize < 2 ^ 31 →
  VisitFixedArrayWithProgressBar_among others map object bar s =
    if scan_start cur <? scan_end map object cur
    then (move_cursor others map object bar cur;;;
          ret (int_sub (scan_end map object cur) (scan_start cur)))
           (after_scan map object cur s)
    else Ok (int_sub (scan_end map object cur) (scan_start cur),
             after_scan map object cur s).
Proof.
  intros Hmarked Hbar Hcur Hfit.
  unfold VisitFixedArrayWithProgressBar_among.
  unfold bind at 1, IsMarked at 1, gets at 1.
  rewrite bool_decide_eq_true_2 by done.
  unfold dcheck at 1, bind at 1, ret at 1.
  unfold bind at 1, ProgressBar_Value at 1, bind at 1, get at 1.
  rewrite Hbar. unfold ret at 1.
  rewrite (static_cast_int_small _ Hcur).
  unfold bind at 1. rewrite visit_map_pointer_exact.
  unfold int_add.
  assert (static_cast_int (scan_start cur + kMaxRegularHeapObjectSize)
          = scan_start cur + kMaxRegularHeapObjectSize) as ->.
  { unfold static_cast_int. rewrite Z.mod_small; lia. }
  fold (scan_end map object cur).
  unfold after_scan, scan_events, scanned.
  destruct (scan_start cur <? scan_end map object cur) eqn:Hlt.
  - unfold bind at 1. unfold bind at 1. unfold VisitPointers, VisitPointersImpl.
    pose proof (visit_slots_exact false object
                  (slots_between (RawField object (scan_start cur))
                                 (RawField object (scan_end map object cur)))
                  (mkVisitorState (map_pointer_marks object cur (marked s))
                     (progress_bars s) (ages s)
                     (trace s ++ map_pointer_events object cur s)))
      as Hexact.
    unfold visit_slot in Hexact. rewrite Hexact.
    cbn [marked progress_bars ages trace]. rewrite <- app_assoc.
    reflexivity.
  - unfold bind at 1, ret at 1, ret at 1.
    cbn [range_events foldl]. by rewrite app_nil_r.
Qed.

Lemma static_cast_size_t_small z : 0 ≤ z < 2 ^ 31 → static_cast_size_t z = z.
Proof. intros Hz. unfold static_cast_size_t. apply Z.mod_small. lia. Qed.

Lemma int_sub_small a b : - 2 ^ 31 ≤ a - b < 2 ^ 31 → int_sub a b = a - b.
Proof.
  intros Hz. unfold int_sub, static_cast_int. rewrite Z.mod_small; lia.
Qed.

(** The state a visit leaves when no other thread moves the cursor. *)
Definition push_events (map object : HeapObject) (cur : Z) : list Event :=
  if (scan_start cur <? scan_end map object cur)
     && (scan_end map object cur <? SizeOf map object)
  then [PushMarking object] else [].
Definition after_visit (map object : HeapObject) (bar cur : Z)
    (s : VisitorState) : VisitorState :=
  mkVisitorState
    (marked (after_scan map object cur s))
    (if scan_start cur <? scan_end map object cur
     then <[bar := scan_end map object cur]> (progress_bars s)
     else progress_bars s)
    (ages s)
    (trace s ++ scan_events map object cur s ++ push_events map object cur).

Lemma VisitFixedArrayWithProgressBar_exact map object bar s cur :
  object ∈ marked s →
  progress_bars s !! bar = Some cur →
  0 ≤ cur < 2 ^ 31 →
  ShouldMarkObject object = true →
  0 ≤ scan_start cur →
  scan_start cur + kMaxRegularHeapObjectSize < 2 ^ 31 →
  0 ≤ SizeOf map object < 2 ^ 31 →
  0 ≤ kMaxRegularHeapObjectSize →
  VisitFixedArrayWithProgressBar map object bar s
    = Ok (scan_end map object cur - scan_start cur,
          after_visit map object bar cur s).
Proof.
  intros Hmarked Hbar Hcur Hshould Hstart Hfit Hsize Hchunk.
  unfold VisitFixedArrayWithProgressBar.
  rewrite (VisitFixedArrayWithProgressBar_scan _ _ _ _ _ cur)
    by (done || lia).
  assert (- 2 ^ 31 ≤ scan_end map object cur - scan_start cur < 2 ^ 31)
    as Hdiff by (unfold scan_end; lia).
  rewrite int_sub_small by done.
  unfold after_visit, push_events.
  destruct (scan_start cur <? scan_end map object cur) eqn:Hlt; cbn [andb].
  - apply Z.ltb_lt in Hlt.
    unfold move_cursor. unfold bind at 1. unfold bind at 1.
    unfold ret at 1. unfold bind at 1.
    unfold ProgressBar_TrySetNewValue at 1. unfold bind at 1, get at 1.
    cbn [progress_bars after_scan]. rewrite Hbar.
    rewrite bool_decide_eq_true_2 by done.
    unfold bind at 1, put at 1, ret at 1.
    unfold check at 1, bind at 1, ret at 1.
    rewrite static_cast_size_t_small by (unfold scan_end; lia).
    destruct (scan_end map object cur <? SizeOf map object).
    + rewrite Hshould. unfold dcheck at 1, bind at 1, ret at 1.
      unfold bind, emit, modify, ret.
      cbn [marked progress_bars ages trace]. unfold after_scan.
      cbn [marked progress_bars ages trace]. by rewrite <- app_assoc.
    + unfold bind, ret. cbn [marked progress_bars ages trace].
      unfold after_scan. cbn [marked progress_bars ages trace].
      by rewrite app_nil_r.
  - unfold after_scan. cbn [marked progress_bars ages trace].
    by rewrite app_nil_r.
Qed.

(** When another thread has moved the cursor between the load and the
    compare-and-swap, the compare-and-swap does not store and the visit
    stops at [CHECK(success)]. *)
Lemma VisitFixedArrayWithProgressBar_raced others map object bar s cur v :
  object ∈ marked s →
  progress_bars s !! bar = Some cur →
  0 ≤ cur < 2 ^ 31 →
  - 2 ^ 31 ≤ scan_start cur + kMaxRegularHeapObjectSize < 2 ^ 31 →
  scan_start cur < scan_end map object cur →
  v ≠ cur →
  (∀ s1, progress_bars s1 !! bar = Some cur →
         ∃ s2, others s1 = Ok (tt, s2) ∧ progress_bars s2 !! bar = Some v) →
  VisitFixedArrayWithProgressBar_among others map object bar s
    = Err CheckFailure.
Proof.
  intros Hmarked Hbar Hcur Hfit Hlt Hv Hothers.
  rewrite (VisitFixedArrayWithProgressBar_scan _ _ _ _ _ cur) by done.
  replace (scan_start cur <? scan_end map object cur) with true
    by (symmetry; by apply Z.ltb_lt).
  destruct (Hothers (after_scan map object cur s)) as (s2 & Hrun & Hbar2);
    [done|].
  unfold move_cursor. unfold bind at 1. unfold bind at 1. rewrite Hrun.
  unfold bind at 1. unfold ProgressBar_TrySetNewValue at 1.
  unfold bind at 1, get at 1. rewrite Hbar2.
  rewrite bool_decide_eq_false_2 by done. reflexivity.
Qed.

(** The views of the events of a visit: the slots it loads are the slots
    it scans, and what it pushes besides the array itself was not marked. *)
Lemma loaded_scan_events map object cur s :
  loaded (scan_events map object cur s) = scanned map object cur.
Proof.
  unfold scan_events, map_pointer_events.
  rewrite loaded_app, loaded_range_events.
  destruct (cur =? 0); [|done]. by rewrite loaded_strong_events.
Qed.

Lemma pushed_scan_events_fresh map object cur s o :
  o ∈ pushed (scan_events map object cur s) → o ∉ marked s.
Proof.
  unfold scan_events. rewrite pushed_app. intros [Hin|Hin]%elem_of_app.
  - unfold map_pointer_events in Hin.
    destruct (cur =? 0); [|by apply elem_of_nil in Hin].
    rewrite pushed_strong_events in Hin.
    destruct (ShouldMarkObject (map_of object) &&
              negb (bool_decide (map_of object ∈ marked s))) eqn:Hc;
      [|by apply elem_of_nil in Hin].
    apply list_elem_of_singleton in Hin. subst o.
    apply andb_true_iff in Hc as [_ Hc]. apply negb_true_iff in Hc.
    by apply bool_decide_eq_false in Hc.
  - apply pushed_range_events_fresh in Hin. intros Hm. apply Hin.
    unfold map_pointer_marks, strong_marks.
    destruct (cur =? 0); [|done].
    destruct (ShouldMarkObject (map_of object)); set_solver.
Qed.

Lemma marked_after_scan map object cur s :
  marked s ⊆ marked (after_scan map object cur s).
Proof.
  unfold after_scan. cbn [marked].
  etrans; [|apply range_marks_grow].
  unfold map_pointer_marks, strong_marks.
  destruct (cur =? 0); [|done].
  destruct (ShouldMarkObject (map_of object)); set_solver.
Qed.

Lemma VisitFixedArrayWithProgressBar_spec map object bar s cur :
  object ∈ marked s →
  progress_bars s !! bar = Some cur →
  0 ≤ cur < 2 ^ 31 →
  ShouldMarkObject object = true →
  0 ≤ scan_start cur →
  scan_start cur + kMaxRegularHeapObjectSize < 2 ^ 31 →
  0 ≤ SizeOf map object < 2 ^ 31 →
  0 ≤ kMaxRegularHeapObjectSize →
  ∃ s' evs refs,
    VisitFixedArrayWithProgressBar map object bar s
      = Ok (scan_end map object cur - scan_start cur, s') ∧
    trace s' = trace s ++ evs ∧ ages s' = ages s ∧
    marked s ⊆ marked s' ∧
    loaded evs =
      (if scan_start cur <? scan_end map object cur
       then slots_between (RawField object (scan_start cur))
                          (RawField object (scan_end map object cur))
       else []) ∧
    progress_bars s' =
      (if scan_start cur <? scan_end map object cur
       then <[bar := scan_end map object cur]> (progress_bars s)
       else progress_bars s) ∧
    pushed evs =
      refs ++ (if (scan_start cur <? scan_end map object cur)
                  && (scan_end map object cur <? SizeOf map object)
               then [object] else []) ∧
    (object ∉ refs).
Proof.
  intros Hmarked Hbar Hcur Hshould Hstart Hfit Hsize Hchunk.
  exists (after_visit map object bar cur s),
    (scan_events map object cur s ++ push_events map object cur),
    (pushed (scan_events map object cur s)).
  split; [by apply VisitFixedArrayWithProgressBar_exact|].
  split; [done|]. split; [done|].
  split; [apply marked_after_scan|].
  split.
  { rewrite loaded_app, loaded_scan_events.
    assert (loaded (push_events map object cur) = []) as ->
      by (unfold push_events; by destruct (_ && _)).
    by rewrite app_nil_r. }
  split; [done|]. split.
  - rewrite pushed_app. f_equal. unfold push_events.
    by destruct (_ && _).
  - intros Hin. by apply pushed_scan_events_fresh in Hin.
Qed.

(** *** The increments of a scan *)

(** The marker visits the array again each time it pops it from the
    worklist: [n] visits in a row. *)
Fixpoint VisitIncrements (n : nat) (map object : HeapObject) (bar : Z)
    : MV unit :=
  match n with
  | O => ret tt
  | S n' =>
      _ <- VisitFixedArrayWithProgressBar map object bar;;
      VisitIncrements n' map object bar
  end.

(** The number of visits a scan of the array takes. *)
Definition increments (map object : HeapObject) : nat :=
  Z.to_nat ((SizeOf map object - FixedArray_kStartOffset
             + kMaxRegularHeapObjectSize - 1) / kMaxRegularHeapObjectSize).

(** How often [object] was pushed onto the marking worklist by [evs]. *)
Definition pushes_of (object : HeapObject) (evs : list Event) : nat :=
  List.length (filter (λ o, o = object) (pushed evs)).

Lemma pushes_of_app object evs1 evs2 :
  pushes_of object (evs1 ++ evs2)
  = (pushes_of object evs1 + pushes_of object evs2)%nat.
Proof.
  unfold pushes_of. by rewrite pushed_app, filter_app, length_app.
Qed.

Lemma filter_absent (object : HeapObject) (l : list HeapObject) :
  object ∉ l → filter (λ o, o = object) l = [].
Proof.
  induction l as [|x l IH]; [done|].
  intros [Hx Hl]%not_elem_of_cons.
  rewrite filter_cons_False by congruence. by apply IH.
Qed.

Section Scan.

(** The layout of fixed arrays: slots are not empty, the chunk of a visit is
    a positive number of slots (the [static_assert] of the function) and the
    elements start after a header. *)
Hypothesis tagged_size_pos : 0 < kTaggedSize.
Hypothesis chunk_pos : 0 < kMaxRegularHeapObjectSize.
Hypothesis chunk_aligned : kMaxRegularHeapObjectSize mod kTaggedSize = 0.
Hypothesis start_offset_pos : 0 < FixedArray_kStartOffset.

Lemma chunk_slots :
  kMaxRegularHeapObjectSize =
  Z.of_nat (Z.to_nat (kMaxRegularHeapObjectSize / kTaggedSize)) * kTaggedSize.
Proof.
  pose proof (Z.div_mod kMaxRegularHeapObjectSize kTaggedSize) as Hdm.
  assert (0 ≤ kMaxRegularHeapObjectSize / kTaggedSize)
    by (apply Z.div_pos; lia).
  rewrite Z2Nat.id by done. lia.
Qed.

Lemma scan_from map object bar (m : nat) : ∀ s cur,
  object ∈ marked s →
  progress_bars s !! bar = Some cur →
  ShouldMarkObject object = true →
  0 ≤ cur → 0 < scan_start cur →
  SizeOf map object + kMaxRegularHeapObjectSize < 2 ^ 31 →
  scan_start cur + Z.of_nat m * kMaxRegularHeapObjectSize < SizeOf map object →
  SizeOf map object
    ≤ scan_start cur + Z.of_nat (S m) * kMaxRegularHeapObjectSize →
  ∃ s' evs,
    VisitIncrements (S m) map object bar s = Ok (tt, s') ∧
    trace s' = trace s ++ evs ∧ ages s' = ages s ∧
    object ∈ marked s' ∧
    loaded evs = slots_between (RawField object (scan_start cur))
                               (RawField object (SizeOf map object)) ∧
    progress_bars s' = <[bar := SizeOf map object]> (progress_bars s) ∧
    pushes_of object evs = m.
Proof.
  induction m as [|m IH]; intros s cur Hmarked Hbar Hshould Hcur Ha Hsize Hlo Hhi.
  - assert (cur < 2 ^ 31) as Hcur'
      by (unfold scan_start in *; destruct (cur =? 0) eqn:?; lia).
    destruct (VisitFixedArrayWithProgressBar_spec map object bar s cur)
      as (s' & evs & refs & Hcall & Htr & Hages & Hsub & Hl & Hb & Hp & Hrefs);
      [done|done|lia|done|lia|lia|lia|lia|].
    assert (scan_end map object cur = SizeOf map object) as Hend
      by (unfold scan_end; lia).
    rewrite Hend in *.
    replace (scan_start cur <? SizeOf map object) with true in *
      by (symmetry; apply Z.ltb_lt; lia).
    rewrite Z.ltb_irrefl in Hp. simpl in Hp. rewrite app_nil_r in Hp.
    exists s', evs. cbn [VisitIncrements]. unfold bind at 1. rewrite Hcall.
    split; [done|]. split; [done|]. split; [done|]. split; [by apply Hsub|].
    split; [done|]. split; [done|].
    unfold pushes_of. rewrite Hp, filter_absent by done. done.
  - assert (cur < 2 ^ 31) as Hcur'
      by (unfold scan_start in *; destruct (cur =? 0) eqn:?; lia).
    destruct (VisitFixedArrayWithProgressBar_spec map object bar s cur)
      as (s1 & evs1 & refs & Hcall & Htr & Hages & Hsub & Hl & Hb & Hp & Hrefs);
      [done|done|lia|done|lia|lia|lia|lia|].
    assert (scan_end map object cur
            = scan_start cur + kMaxRegularHeapObjectSize) as Hend
      by (unfold scan_end; nia).
    rewrite Hend in *.
    replace (scan_start cur <? scan_start cur + kMaxRegularHeapObjectSize)
      with true in * by (symmetry; apply Z.ltb_lt; lia).
    replace (scan_start cur + kMaxRegularHeapObjectSize <? SizeOf map object)
      with true in * by (symmetry; apply Z.ltb_lt; nia).
    simpl in Hp.
    set (cur' := scan_start cur + kMaxRegularHeapObjectSize) in *.
    assert (scan_start cur' = cur') as Hstart'.
    { unfold scan_start. replace (cur' =? 0) with false; [done|].
      symmetry; apply Z.eqb_neq; lia. }
    destruct (IH s1 cur') as (s' & evs & Hrest & Htr' & Hages' & Hmarked' & Hl'
                                & Hb' & Hp');
      [by apply Hsub | by rewrite Hb, lookup_insert_eq | done | lia
      | lia | done | rewrite Hstart'; unfold cur'; lia
      | rewrite Hstart'; unfold cur'; lia |].
    exists s', (evs1 ++ evs).
    change (VisitIncrements (S (S m)) map object bar s)
      with ((_ <- VisitFixedArrayWithProgressBar map object bar;;
             VisitIncrements (S m) map object bar) s).
    unfold bind at 1. rewrite Hcall.
    split; [done|]. split; [by rewrite Htr', Htr, app_assoc|].
    split; [congruence|]. split; [done|]. split; [|split].
    + rewrite loaded_app, Hl, Hl', Hstart'. unfold RawField.
      rewrite (slots_between_app tagged_size_pos
                 (Z.to_nat (kMaxRegularHeapObjectSize / kTaggedSize))
                 (object + scan_start cur) (object + SizeOf map object));
        rewrite <- chunk_slots; unfold cur'.
      * f_equal; f_equal; lia.
      * lia.
    + rewrite Hb', Hb. apply insert_insert_eq.
    + rewrite pushes_of_app, Hp'. unfold pushes_of. rewrite Hp.
      rewrite filter_app, filter_absent by done. simpl.
      rewrite filter_cons_True by done. simpl. done.
Qed.

(** Once the cursor has reached the size of the array a visit does
    nothing. *)
Lemma VisitFixedArrayWithProgressBar_done map object bar s :
  object ∈ marked s →
  progress_bars s !! bar = Some (SizeOf map object) →
  ShouldMarkObject object = true →
  0 < SizeOf map object →
  SizeOf map object + kMaxRegularHeapObjectSize < 2 ^ 31 →
  VisitFixedArrayWithProgressBar map object bar s = Ok (0, s).
Proof.
  intros Hmarked Hbar Hshould Hpos Hsize.
  assert (scan_start (SizeOf map object) = SizeOf map object) as Hstart.
  { unfold scan_start. replace (SizeOf map object =? 0) with false; [done|].
    symmetry; apply Z.eqb_neq; lia. }
  assert (scan_end map object (SizeOf map object) = SizeOf map object) as Hend
    by (unfold scan_end; rewrite Hstart; lia).
  rewrite (VisitFixedArrayWithProgressBar_exact _ _ _ _ (SizeOf map object))
    by (rewrite ?Hstart; (done || lia)).
  rewrite Hstart, Hend. f_equal. f_equal; [lia|].
  unfold after_visit, after_scan, scan_events, push_events, scanned,
    map_pointer_marks, map_pointer_events.
  rewrite Hstart, Hend, Z.ltb_irrefl.
  replace (SizeOf map object =? 0) with false
    by (symmetry; apply Z.eqb_neq; lia).
  cbn [andb foldl range_events marked app]. rewrite app_nil_r.
  by destruct s.
Qed.

(** When the other threads leave the cursor alone, the compare-and-swap
    moves it, whatever else they did. *)
Lemma VisitFixedArrayWithProgressBar_unraced others map object bar s cur :
  object ∈ marked s →
  progress_bars s !! bar = Some cur →
  0 ≤ cur < 2 ^ 31 →
  ShouldMarkObject object = true →
  0 ≤ scan_start cur →
  scan_start cur + kMaxRegularHeapObjectSize < 2 ^ 31 →
  0 ≤ SizeOf map object < 2 ^ 31 →
  scan_start cur < scan_end map object cur →
  (∀ s1, ∃ s2, others s1 = Ok (tt, s2) ∧
               progress_bars s2 = progress_bars s1) →
  ∃ s', VisitFixedArrayWithProgressBar_among others map object bar s
          = Ok (scan_end map object cur - scan_start cur, s') ∧
        progress_bars s' =
          <[bar := scan_end map object cur]> (progress_bars s).
Proof.
  intros Hmarked Hbar Hcur Hshould Hstart Hfit Hsize Hlt Hothers.
  rewrite (VisitFixedArrayWithProgressBar_scan _ _ _ _ _ cur)
    by (done || lia).
  replace (scan_start cur <? scan_end map object cur) with true
    by (symmetry; by apply Z.ltb_lt).
  assert (- 2 ^ 31 ≤ scan_end map object cur - scan_start cur < 2 ^ 31)
    as Hdiff by (unfold scan_end; lia).
  rewrite int_sub_small by done.
  destruct (Hothers (after_scan map object cur s)) as (s2 & Hrun & Hbars).
  unfold move_cursor. unfold bind at 1. unfold bind at 1. rewrite Hrun.
  unfold bind at 1. unfold ProgressBar_TrySetNewValue at 1.
  unfold bind at 1, get at 1. rewrite Hbars.
  cbn [progress_bars after_scan]. rewrite Hbar.
  rewrite bool_decide_eq_true_2 by done.
  unfold bind at 1, put at 1, ret at 1.
  unfold check at 1, bind at 1, ret at 1.
  rewrite static_cast_size_t_small by (unfold scan_end; lia).
  destruct (scan_end map object cur <? SizeOf map object).
  - rewrite Hshould. unfold dcheck at 1, bind at 1, ret at 1.
    unfold bind, emit, modify, ret. cbn [progress_bars].
    eexists. split; [reflexivity|]. done.
  - unfold bind, ret. eexists. split; [reflexivity|]. done.
Qed.

(** C6 (as the code has it).  A visit that reads the cursor [cur] starts at
    [cur], or, when [cur] is 0, visits the map pointer and starts at
    [kStartOffset], past the header.  Its events are, in this order, those
    of the visit of the map pointer, those of the visit of the slots from
    the start to the smaller of the size and start + chunk, and the push of
    the array when that end is below the size, and no other; it moves the
    cursor to that end, which is at most the size.  The cursor moves by a
    compare-and-swap from [cur]: when the other threads leave the cursor
    alone it moves whatever else they did, and when one of them has moved
    the cursor since it was read nothing is stored and the visit stops at
    [CHECK(success)].  From cursor 0 the visits of a scan load exactly the
    slots of [kStartOffset, size), each once and in order, leave the cursor
    at the size and have pushed the array once less than there were visits;
    a further visit does nothing. *)
Theorem C6_progress_bar_scans_elements_once
    (map object : HeapObject) (bar : Z) (s : VisitorState) (cur : Z) :
  object ∈ marked s →
  progress_bars s !! bar = Some cur →
  0 ≤ cur ≤ SizeOf map object →
  ShouldMarkObject object = true →
  FixedArray_kStartOffset ≤ SizeOf map object →
  SizeOf map object + kMaxRegularHeapObjectSize < 2 ^ 31 →
  (∃ s' evs,
     VisitFixedArrayWithProgressBar map object bar s
       = Ok (scan_end map object cur - scan_start cur, s') ∧
     trace s' = trace s ++ evs ∧
     evs =
       map_pointer_events object cur s ++
       range_events false object (map_pointer_marks object cur (marked s))
                    (scanned map object cur) ++
       (if scan_end map object cur <? SizeOf map object
        then [PushMarking object] else []) ∧
     loaded evs = scanned map object cur ∧
     marked s' =
       foldl slot_marks (map_pointer_marks object cur (marked s))
             (scanned map object cur) ∧
     progress_bars s' =
       (if scan_start cur <? scan_end map object cur
        then <[bar := scan_end map object cur]> (progress_bars s)
        else progress_bars s) ∧
     ages s' = ages s ∧
     scan_start cur ≤ scan_end map object cur ≤ SizeOf map object ∧
     pushes_of object evs =
       (if scan_end map object cur <? SizeOf map object
        then 1%nat else 0%nat)) ∧
  (∀ others,
     scan_start cur < SizeOf map object →
     (∀ s1, ∃ s2, others s1 = Ok (tt, s2) ∧
                  progress_bars s2 = progress_bars s1) →
     ∃ s', VisitFixedArrayWithProgressBar_among others map object bar s
             = Ok (scan_end map object cur - scan_start cur, s') ∧
           progress_bars s' =
             <[bar := scan_end map object cur]> (progress_bars s)) ∧
  (∀ others v,
     scan_start cur < SizeOf map object → v ≠ cur →
     (∀ s1, progress_bars s1 !! bar = Some cur →
            ∃ s2, others s1 = Ok (tt, s2) ∧
                  progress_bars s2 !! bar = Some v) →
     VisitFixedArrayWithProgressBar_among others map object bar s
       = Err CheckFailure) ∧
  (cur = 0 → FixedArray_kStartOffset < SizeOf map object →
   ∃ s' evs,
     VisitIncrements (increments map object) map object bar s = Ok (tt, s') ∧
     trace s' = trace s ++ evs ∧
     loaded evs = slots_between (RawField object FixedArray_kStartOffset)
                                (RawField object (SizeOf map object)) ∧
     NoDup (loaded evs) ∧
     progress_bars s' = <[bar := SizeOf map object]> (progress_bars s) ∧
     S (pushes_of object evs) = increments map object ∧
     VisitFixedArrayWithProgressBar map object bar s' = Ok (0, s')).
Proof using All.
  intros Hmarked Hbar Hcur Hshould Hheader Hsize.
  assert (0 < scan_start cur ≤ SizeOf map object) as Hstart
    by (unfold scan_start; destruct (cur =? 0) eqn:H0;
        [|apply Z.eqb_neq in H0]; lia).
  assert (scan_start cur ≤ scan_end map object cur ≤ SizeOf map object)
    as Hend by (unfold scan_end; lia).
  assert ((scan_start cur <? scan_end map object cur)
          && (scan_end map object cur <? SizeOf map object)
          = (scan_end map object cur <? SizeOf map object)) as Hpush.
  { destruct (scan_end map object cur <? SizeOf map object) eqn:Hlt;
      [|apply andb_false_r].
    apply Z.ltb_lt in Hlt. rewrite andb_true_r. apply Z.ltb_lt.
    unfold scan_end in *. lia. }
  split; [|split; [|split]].
  - exists (after_visit map object bar cur s),
      (scan_events map object cur s ++ push_events map object cur).
    split; [apply VisitFixedArrayWithProgressBar_exact; (done || lia)|].
    split; [done|]. unfold push_events. rewrite Hpush.
    split; [unfold scan_events; by rewrite <- app_assoc|].
    split.
    { rewrite loaded_app, loaded_scan_events.
      destruct (_ <? SizeOf map object); by rewrite app_nil_r. }
    split; [done|]. split; [done|]. split; [done|]. split; [done|].
    rewrite pushes_of_app. unfold pushes_of at 1.
    rewrite filter_absent
      by (intros Hin; by apply pushed_scan_events_fresh in Hin).
    destruct (_ <? SizeOf map object); [|done].
    unfold pushes_of. simpl. by rewrite filter_cons_True.
  - intros others Hmore Hothers.
    apply VisitFixedArrayWithProgressBar_unraced;
      (done || lia || (unfold scan_end; lia)).
  - intros others v Hmore Hv Hothers.
    apply (VisitFixedArrayWithProgressBar_raced _ _ _ _ _ cur v);
      (done || lia || (unfold scan_end; lia)).
  - intros -> Hnonempty.
    set (x := SizeOf map object - FixedArray_kStartOffset
              + kMaxRegularHeapObjectSize - 1).
    pose proof (Z.mul_div_le x kMaxRegularHeapObjectSize chunk_pos) as Hq1.
    pose proof (Z.mul_succ_div_gt x kMaxRegularHeapObjectSize chunk_pos) as Hq2.
    assert (1 ≤ x / kMaxRegularHeapObjectSize) as Hq
      by (apply Z.div_le_lower_bound; unfold x; lia).
    assert (increments map object
            = S (Z.to_nat (x / kMaxRegularHeapObjectSize - 1))) as Hinc
      by (unfold increments; fold x; lia).
    destruct (scan_from map object bar
                (Z.to_nat (x / kMaxRegularHeapObjectSize - 1)) s 0)
      as (s' & evs & Hcall & Htr & _ & Hmarked' & Hl & Hb & Hp);
      [done|done|done|done|done|done|..].
    { change (scan_start 0) with FixedArray_kStartOffset.
      rewrite Z2Nat.id by lia. unfold x in *. nia. }
    { change (scan_start 0) with FixedArray_kStartOffset.
      rewrite Nat2Z.inj_succ, Z2Nat.id by lia. unfold x in *. nia. }
    exists s', evs. rewrite Hinc. split; [done|]. split; [done|].
    split; [done|]. split; [rewrite Hl; by apply NoDup_slots_between|].
    split; [done|]. split; [by rewrite Hp|].
    apply VisitFixedArrayWithProgressBar_done; [done| |done|lia|done].
    rewrite Hb. apply lookup_insert_eq.
Qed.

End Scan.

(** *** [VisitEphemeronHashTable] *)

(** A state with more events. *)
Definition with_events (s : VisitorState) (evs : list Event) : VisitorState :=
  mkVisitorState (marked s) (progress_bars s) (ages s) (trace s ++ evs).

Lemma emit_with_events e s : emit e s = Ok (tt, with_events s [e]).
Proof. reflexivity. Qed.

Lemma with_events_app s evs1 evs2 :
  with_events (with_events s evs1) evs2 = with_events s (evs1 ++ evs2).
Proof. unfold with_events; simpl. by rewrite app_assoc. Qed.

(** The key of entry [i], its slot and the slot of its value. *)
Definition key_of (table : HeapObject) (i : Z) : HeapObject :=
  HeapObject_cast (KeyAt table i).
Definition key_slot_of (table : HeapObject) (i : Z) : Slot :=
  RawFieldOfElementAt table (EntryToIndex i).
Definition value_slot_of (table : HeapObject) (i : Z) : Slot :=
  RawFieldOfElementAt table (EntryToValueIndex i).

(** What the visit of entry [i] does first, whatever the key. *)
Definition key_events (table : HeapObject) (i : Z) : list Event :=
  [RecordSlot table (key_slot_of table i) (key_of table i);
   AddWeakReference table (key_of table i)].

(** What it does for the value when the key is neither read-only nor
    marked. *)
Definition value_events (table : HeapObject) (i : Z) (s : VisitorState)
    : list Event :=
  match ValueAt table i with
  | Strong value =>
      [RecordSlot table (value_slot_of table i) value;
       AddWeakReference table value]
      ++ (if ShouldMarkObject value && negb (bool_decide (value ∈ marked s))
          then [PushDiscoveredEphemeron (key_of table i) value] else [])
  | _ => []
  end.

Lemma VisitEphemeronHashTable_entry_cases table i s :
  InWritableSharedSpace (key_of table i) = false →
  VisitEphemeronHashTable_entry table i s =
    if InReadOnlySpace (key_of table i)
       || bool_decide (key_of table i ∈ marked s)
    then VisitPointer table (value_slot_of table i)
           (with_events s (key_events table i))
    else Ok (tt, with_events s (key_events table i ++ value_events table i s)).
Proof.
  intros Hshared.
  unfold VisitEphemeronHashTable_entry, value_events, key_events, with_events,
    SynchronizePageAccess, emit, IsMarked, IsUnmarked, dcheck, bind, ret,
    gets, modify.
  fold (key_of table i) (key_slot_of table i) (value_slot_of table i).
  rewrite Hshared. cbn [negb marked progress_bars ages trace].
  rewrite <- !app_assoc. cbn [app].
  destruct (InReadOnlySpace (key_of table i)
            || bool_decide (key_of table i ∈ marked s)); [done|].
  destruct (ValueAt table i) as [n|value|value|];
    cbn [IsHeapObject HeapObject_cast]; rewrite ?app_nil_r; try done.
  destruct (ShouldMarkObject value);
    cbn [negb andb marked progress_bars ages trace];
    [|by rewrite <- !app_assoc].
  destruct (bool_decide (value ∈ marked s));
    cbn [negb marked progress_bars ages trace];
    by rewrite <- !app_assoc.
Qed.

(** C7 (as the code has it).  The visit of an entry records the key slot
    first.  When the key is in read-only space or marked it then visits the
    value slot as a strong pointer.  Otherwise nothing is marked, and when the
    value is a heap object its slot is recorded and the pair of key and value
    is pushed onto the discovered ephemerons exactly when the value should be
    marked and is not marked; when the value is not a heap object (a small
    integer) nothing is recorded for it. *)
Theorem C7_ephemeron_entry_by_key_liveness
    (table : HeapObject) (i : Z) (s : VisitorState) :
  InWritableSharedSpace (key_of table i) = false →
  (InReadOnlySpace (key_of table i) = true ∨ key_of table i ∈ marked s →
     VisitEphemeronHashTable_entry table i s =
     VisitPointer table (value_slot_of table i)
       (with_events s [RecordSlot table (key_slot_of table i) (key_of table i);
                       AddWeakReference table (key_of table i)])) ∧
  (InReadOnlySpace (key_of table i) = false → key_of table i ∉ marked s →
     ∃ s', VisitEphemeronHashTable_entry table i s = Ok (tt, s') ∧
       marked s' = marked s ∧ marking_worklist s' = marking_worklist s ∧
       match ValueAt table i with
       | Strong value =>
           recorded_slots s' =
             recorded_slots s
             ++ [(table, key_slot_of table i, key_of table i);
                 (table, value_slot_of table i, value)] ∧
           discovered_ephemerons s' =
             discovered_ephemerons s
             ++ (if ShouldMarkObject value
                    && negb (bool_decide (value ∈ marked s))
                 then [(key_of table i, value)] else [])
       | _ =>
           recorded_slots s' =
             recorded_slots s
             ++ [(table, key_slot_of table i, key_of table i)] ∧
           discovered_ephemerons s' = discovered_ephemerons s
       end).
Proof.
  intros Hshared.
  pose proof (VisitEphemeronHashTable_entry_cases table i s Hshared) as Hcases.
  split.
  - intros Hlive. rewrite Hcases.
    replace (InReadOnlySpace (key_of table i)
             || bool_decide (key_of table i ∈ marked s)) with true; [done|].
    symmetry. apply orb_true_iff.
    destruct Hlive as [?|?]; [by left | right; by apply bool_decide_eq_true].
  - intros Hro Hunmarked. rewrite Hcases, Hro.
    rewrite bool_decide_eq_false_2 by done. cbn [orb].
    eexists. split; [done|]. split; [done|].
    unfold marking_worklist, recorded_slots, discovered_ephemerons,
      with_events, value_events, key_events; cbn [trace].
    unfold pushed, recorded, pushed_ephemerons. rewrite !omap_app.
    destruct (ValueAt table i) as [n|value|value|]; cbn -[bool_decide];
      rewrite ?app_nil_r; try done.
    destruct (ShouldMarkObject value && negb (bool_decide (value ∈ marked s)));
      cbn; rewrite ?app_nil_r; done.
Qed.

Lemma VisitEphemeronHashTable_entry_events table i s :
  InWritableSharedSpace (key_of table i) = false →
  ∃ s' evs, VisitEphemeronHashTable_entry table i s = Ok (tt, s') ∧
            trace s' = trace s ++ evs ∧ pushed_tables evs = [].
Proof.
  intros Hshared. rewrite (VisitEphemeronHashTable_entry_cases _ _ _ Hshared).
  destruct (InReadOnlySpace (key_of table i)
            || bool_decide (key_of table i ∈ marked s)).
  - unfold VisitPointer.
    destruct (VisitPointersImpl_marks false table (value_slot_of table i)
                (value_slot_of table i + kTaggedSize)
                (with_events s (key_events table i)))
      as (s' & evs & -> & Hm & _).
    exists s', (key_events table i ++ evs). split; [done|].
    rewrite (marks_trace _ _ _ Hm). cbn [trace with_events].
    split; [by rewrite app_assoc|].
    rewrite pushed_tables_app.
    by rewrite (pointer_events_no_tables evs (marks_events _ _ _ Hm)).
  - eexists _, _. split; [done|]. split; [done|].
    rewrite pushed_tables_app. unfold value_events.
    destruct (ValueAt table i) as [n|value|value|]; try done.
    by destruct (ShouldMarkObject value && negb (bool_decide (value ∈ marked s))).
Qed.

Lemma VisitEphemeronHashTable_entries_events table entries : ∀ s,
  (∀ i, i ∈ entries → InWritableSharedSpace (key_of table i) = false) →
  ∃ s' evs,
    for_each entries (VisitEphemeronHashTable_entry table) s = Ok (tt, s') ∧
    trace s' = trace s ++ evs ∧ pushed_tables evs = [].
Proof.
  induction entries as [|i entries IH]; intros s Hshared.
  - exists s, []. split; [done|]. by rewrite app_nil_r.
  - cbn [for_each]. unfold bind at 1.
    destruct (VisitEphemeronHashTable_entry_events table i s)
      as (s1 & evs1 & -> & Htr1 & Hno1); [apply Hshared, list_elem_of_here|].
    destruct (IH s1) as (s' & evs & -> & Htr & Hno).
    { intros j Hj. by apply Hshared, list_elem_of_further. }
    exists s', (evs1 ++ evs). split; [done|].
    split; [by rewrite Htr, Htr1, app_assoc|].
    by rewrite pushed_tables_app, Hno1, Hno.
Qed.

(** C9.  [VisitEphemeronHashTable] pushes the table onto the worklist of
    ephemeron hash tables as the first thing it does, before it looks at any
    entry, and nothing it does for the entries pushes onto that worklist: the
    table is pushed exactly once, whatever is marked. *)
Theorem C9_ephemeron_table_pushed_once_first
    (map table : HeapObject) (s : VisitorState) :
  (∀ i, i ∈ IterateEntries table →
        InWritableSharedSpace (key_of table i) = false) →
  ∃ s' rest,
    VisitEphemeronHashTable map table s = Ok (SizeOf map table, s') ∧
    trace s' = trace s ++ PushEphemeronHashTable table :: rest ∧
    pushed_tables rest = [] ∧
    ephemeron_hash_tables s' = ephemeron_hash_tables s ++ [table].
Proof.
  intros Hshared. unfold VisitEphemeronHashTable.
  unfold bind at 1. rewrite emit_with_events.
  destruct (VisitEphemeronHashTable_entries_events table (IterateEntries table)
              (with_events s [PushEphemeronHashTable table]) Hshared)
    as (s' & rest & Hloop & Htr & Hno).
  unfold bind at 1. rewrite Hloop. unfold ret.
  exists s', rest. split; [done|].
  cbn [trace with_events] in Htr. rewrite <- app_assoc in Htr.
  split; [exact Htr|]. split; [done|].
  unfold ephemeron_hash_tables. rewrite Htr.
  rewrite pushed_tables_app. cbn [app].
  change (pushed_tables (PushEphemeronHashTable table :: rest))
    with (table :: pushed_tables rest).
  by rewrite Hno.
Qed.

(** *** [VisitJSWeakRef] *)

(** What [VisitJSWeakRef] does for the target when the visit of the object
    itself reported a size other than 0. *)
Definition target_events (weak_ref : HeapObject) (s : VisitorState)
    : list Event :=
  match Relaxed_Load (RawField weak_ref JSWeakRef_kTargetOffset) with
  | Strong target =>
      if InReadOnlySpace target || bool_decide (target ∈ marked s)
      then [RecordSlot weak_ref (RawField weak_ref JSWeakRef_kTargetOffset)
                       target]
      else [PushJSWeakRef weak_ref; AddWeakReference weak_ref target]
  | _ => []
  end.

Lemma with_events_nil s : with_events s [] = s.
Proof. destruct s. unfold with_events; simpl. by rewrite app_nil_r. Qed.

Lemma VisitJSWeakRef_after_subclass map weak_ref s s1 size :
  VisitJSObjectSubclass map weak_ref s = Ok (size, s1) →
  VisitJSWeakRef map weak_ref s =
    if size =? 0 then Ok (0, s1)
    else Ok (size, with_events s1 (target_events weak_ref s1)).
Proof.
  intros Hsub. unfold VisitJSWeakRef. unfold bind at 1. rewrite Hsub.
  destruct (size =? 0); [done|]. unfold target_events.
  destruct (Relaxed_Load (RawField weak_ref JSWeakRef_kTargetOffset))
    as [n|target|target|]; cbn [IsHeapObject HeapObject_cast];
    try (unfold bind, ret; by rewrite with_events_nil).
  unfold SynchronizePageAccess, IsMarked, emit, bind, ret, gets, modify.
  destruct (InReadOnlySpace target || bool_decide (target ∈ marked s1));
    cbn [marked progress_bars ages trace]; unfold with_events;
    by rewrite <- ?app_assoc.
Qed.

(** C10.  When the visit of the object as a JSObject subclass reports size 0,
    [VisitJSWeakRef] returns 0 in the state that visit left: no slot is
    recorded, nothing is pushed.  When it reports another size, the target
    is handled only if it is a heap object: its slot is recorded when the
    target is read-only or marked, and the weak reference is pushed onto the
    worklist of JS weak references otherwise. *)
Theorem C10_JSWeakRef_size_zero_skips_target
    (map weak_ref : HeapObject) (s s1 : VisitorState) (size : Z) :
  VisitJSObjectSubclass map weak_ref s = Ok (size, s1) →
  (size = 0 → VisitJSWeakRef map weak_ref s = Ok (0, s1)) ∧
  (size ≠ 0 →
     VisitJSWeakRef map weak_ref s
       = Ok (size, with_events s1 (target_events weak_ref s1)) ∧
     (IsHeapObject (Relaxed_Load (RawField weak_ref JSWeakRef_kTargetOffset))
        = false → target_events weak_ref s1 = [])).
Proof.
  intros Hsub.
  rewrite (VisitJSWeakRef_after_subclass _ _ _ _ _ Hsub).
  split.
  - intros ->. reflexivity.
  - intros Hsize. replace (size =? 0) with false
      by (symmetry; by apply Z.eqb_neq).
    split; [done|]. unfold target_events.
    by destruct (Relaxed_Load (RawField weak_ref JSWeakRef_kTargetOffset)).
Qed.

(** *** [MakeOlder] *)

Definition age_of (s : VisitorState) (sfi : HeapObject) : Z :=
  default 0 (ages s !! sfi).

Definition set_age (sfi : HeapObject) (a : Z) (s : VisitorState)
    : VisitorState :=
  mkVisitorState (marked s) (progress_bars s) (<[sfi := a]> (ages s)) (trace s).

Lemma age_of_set_age sfi a s : age_of (set_age sfi a s) sfi = a.
Proof. unfold age_of, set_age; simpl. by rewrite lookup_insert_eq. Qed.

Lemma CompareExchangeAge_found sfi new_age s :
  0 ≤ new_age ≤ kMaxAge →
  CompareExchangeAge sfi (age_of s sfi) new_age s
  = Ok (age_of s sfi, set_age sfi new_age s).
Proof.
  intros Hnew. unfold CompareExchangeAge, bind, get, put, ret; simpl.
  fold (age_of s sfi). rewrite bool_decide_eq_true_2 by done.
  rewrite wrap16_small by (unfold kMaxAge in Hnew; lia). done.
Qed.

Lemma CompareExchangeAge_stale sfi expected_age new_age s :
  age_of s sfi ≠ expected_age →
  CompareExchangeAge sfi expected_age new_age s = Ok (age_of s sfi, s).
Proof.
  intros Hne. unfold CompareExchangeAge, bind, get, put, ret; simpl.
  fold (age_of s sfi). by rewrite bool_decide_eq_false_2.
Qed.

(** The age the time policy gives to a function of age [a]. *)
Definition older_age (a : Z) : Z :=
  if a =? 0 then 1 else Z.min (a + code_flushing_increase_) kMaxAge.

(** One turn of the loop: the compare-and-swap stores when the other threads
    left the age as it was read, and stores nothing when they changed it. *)
Lemma MakeOlder_body_quiet others sfi s s1 :
  others s = Ok (tt, s1) → age_of s1 sfi = age_of s sfi →
  0 ≤ age_of s sfi ≤ kMaxAge → 0 < code_flushing_increase_ ≤ kMaxAge →
  MakeOlder_body others sfi s
    = Ok ((true, tt), set_age sfi (older_age (age_of s sfi)) s1).
Proof.
  intros Hrun Hsame Hage Hinc. unfold MakeOlder_body.
  unfold bind at 1, age at 1, gets at 1. fold (age_of s sfi).
  unfold bind at 1. rewrite Hrun. unfold bind at 1.
  rewrite <- Hsame at 1. unfold SaturateAdd. fold kMaxAge.
  rewrite CompareExchangeAge_found
    by (destruct (age_of s sfi =? 0); unfold kMaxAge in *; lia).
  unfold ret, older_age. rewrite Hsame, Z.eqb_refl. reflexivity.
Qed.

Lemma MakeOlder_body_disturbed others sfi s s1 :
  others s = Ok (tt, s1) → age_of s1 sfi ≠ age_of s sfi →
  MakeOlder_body others sfi s = Ok ((false, tt), s1).
Proof.
  intros Hrun Hne. unfold MakeOlder_body.
  unfold bind at 1, age at 1, gets at 1. fold (age_of s sfi).
  unfold bind at 1. rewrite Hrun. unfold bind at 1.
  rewrite CompareExchangeAge_stale by done.
  unfold ret. replace (age_of s1 sfi =? age_of s sfi) with false; [done|].
  symmetry. by apply Z.eqb_neq.
Qed.

(** [n] turns of the loop in each of which the other threads changed the
    age between the load and the compare-and-swap; they lead from [s] to
    [t]. *)
Inductive disturbed (others : MV unit) (sfi : HeapObject)
    : nat → VisitorState → VisitorState → Prop :=
| disturbed_O s : disturbed others sfi 0 s s
| disturbed_S n s s1 t :
    others s = Ok (tt, s1) → age_of s1 sfi ≠ age_of s sfi →
    disturbed others sfi n s1 t →
    disturbed others sfi (S n) s t.

(** The loop retries until a compare-and-swap succeeds, and stores the age
    computed from the age read last. *)
Lemma MakeOlder_loop_retries others sfi fuel n s t t' :
  disturbed others sfi n s t →
  others t = Ok (tt, t') → age_of t' sfi = age_of t sfi →
  0 ≤ age_of t sfi ≤ kMaxAge → 0 < code_flushing_increase_ ≤ kMaxAge →
  until_success (S (n + fuel)) (MakeOlder_body others sfi) s
    = Ok (tt, set_age sfi (older_age (age_of t sfi)) t').
Proof.
  intros Hd Hrun Hsame Hage Hinc.
  induction Hd as [s|n s s1 t Hrun1 Hne Hd IH].
  - cbn [until_success Nat.add]. unfold bind at 1.
    by rewrite (MakeOlder_body_quiet _ _ _ t').
  - change (S (S n + fuel)) with (S (S (n + fuel))).
    cbn [until_success]. unfold bind at 1.
    rewrite (MakeOlder_body_disturbed _ _ _ s1) by done.
    cbn [fst]. by apply IH.
Qed.

Lemma MakeOlder_among_time others fuel sfi s :
  flush_code_based_on_time = true →
  0 < code_flushing_increase_ →
  MakeOlder_among others fuel sfi s
    = until_success fuel (MakeOlder_body others sfi) s.
Proof.
  intros Htime Hinc. unfold MakeOlder_among. rewrite Htime.
  replace (code_flushing_increase_ =? 0) with false
    by (symmetry; apply Z.eqb_neq; lia).
  reflexivity.
Qed.

Lemma MakeOlder_time fuel sfi s :
  flush_code_based_on_time = true →
  0 ≤ age_of s sfi ≤ kMaxAge →
  0 < code_flushing_increase_ ≤ kMaxAge →
  MakeOlder (S fuel) sfi s =
    Ok (tt, set_age sfi
              (if age_of s sfi =? 0 then 1
               else Z.min (age_of s sfi + code_flushing_increase_) kMaxAge) s).
Proof.
  intros Htime Hage Hinc. unfold MakeOlder.
  rewrite MakeOlder_among_time by (done || lia).
  apply (MakeOlder_loop_retries (ret tt) sfi fuel 0 s s s);
    [constructor | done | done | done | done].
Qed.

Lemma MakeOlder_tab_visibility fuel sfi s :
  flush_code_based_on_time = false →
  flush_code_based_on_tab_visibility = true →
  MakeOlder fuel sfi s = Ok (tt, s).
Proof.
  intros Htime Htab. unfold MakeOlder, MakeOlder_among.
  by rewrite Htime, Htab.
Qed.

(** Under the age policy there is one compare-and-swap and no loop: when
    the other threads changed the age in between, nothing is stored. *)
Lemma MakeOlder_among_age others fuel sfi s s1 :
  flush_code_based_on_time = false →
  flush_code_based_on_tab_visibility = false →
  others s = Ok (tt, s1) →
  0 ≤ age_of s sfi → bytecode_old_age ≤ kMaxAge →
  MakeOlder_among others fuel sfi s =
    let s2 :=
      if (age_of s sfi <? bytecode_old_age)
         && bool_decide (age_of s1 sfi = age_of s sfi)
      then set_age sfi (age_of s sfi + 1) s1 else s1 in
    if age_of s2 sfi <=? bytecode_old_age then Ok (tt, s2)
    else Err DcheckFailure.
Proof.
  intros Htime Htab Hrun Hage Hold. unfold MakeOlder_among.
  rewrite Htime, Htab.
  unfold bind at 1, age at 1, gets at 1. fold (age_of s sfi).
  unfold bind at 1. rewrite Hrun. cbv zeta.
  destruct (age_of s sfi <? bytecode_old_age) eqn:Hlt; cbn [andb].
  - apply Z.ltb_lt in Hlt. unfold bind at 1. unfold bind at 1.
    case_bool_decide as Hsame.
    + rewrite <- Hsame at 1.
      rewrite CompareExchangeAge_found by lia.
      unfold ret at 1. unfold bind at 1, age at 1, gets at 1.
      rewrite <- Hsame.
      fold (age_of (set_age sfi (age_of s1 sfi + 1) s1) sfi).
      by destruct (_ <=? _).
    + rewrite CompareExchangeAge_stale by done.
      unfold ret at 1. unfold bind at 1, age at 1, gets at 1.
      fold (age_of s1 sfi). by destruct (_ <=? _).
  - unfold bind at 1, ret at 1. unfold bind at 1, age at 1, gets at 1.
    fold (age_of s1 sfi). by destruct (_ <=? _).
Qed.

Lemma MakeOlder_age fuel sfi s :
  flush_code_based_on_time = false →
  flush_code_based_on_tab_visibility = false →
  0 ≤ age_of s sfi ≤ bytecode_old_age →
  bytecode_old_age ≤ kMaxAge →
  MakeOlder fuel sfi s =
    Ok (tt, if age_of s sfi <? bytecode_old_age
            then set_age sfi (age_of s sfi + 1) s else s).
Proof.
  intros Htime Htab Hage Hold. unfold MakeOlder.
  rewrite (MakeOlder_among_age _ _ _ _ s) by (done || lia). cbv zeta.
  rewrite bool_decide_eq_true_2 by done. rewrite andb_true_r.
  destruct (age_of s sfi <? bytecode_old_age) eqn:Hlt.
  - apply Z.ltb_lt in Hlt. rewrite age_of_set_age.
    replace (age_of s sfi + 1 <=? bytecode_old_age) with true
      by (symmetry; apply Z.leb_le; lia).
    reflexivity.
  - replace (age_of s sfi <=? bytecode_old_age) with true
      by (symmetry; apply Z.leb_le; lia).
    reflexivity.
Qed.

(** C8 (as the code has it).  Under the time policy [MakeOlder] runs the
    compare-and-swap loop on the 16-bit age: an age of 0 becomes 1 and any
    other age grows by the increase, saturating at [kMaxAge]; each time the
    other threads change the age between the load and the compare-and-swap
    nothing is stored and the loop runs again, and the age that is stored
    in the end is computed from the age that was read last.  Under the
    tab-visibility policy the state is left as it is.  Under the age policy
    there is one compare-and-swap and no loop: it adds one to an age below
    the old-age threshold, an age at the threshold stays, so that the age
    does not exceed the threshold; when the other threads changed the age
    in between, nothing is stored and nothing is tried again. *)
Theorem C8_MakeOlder_by_policy (others : MV unit) (fuel : nat)
    (sfi : HeapObject) (s : VisitorState) :
  0 ≤ age_of s sfi ≤ kMaxAge →
  (flush_code_based_on_time = true →
   0 < code_flushing_increase_ ≤ kMaxAge →
   (∃ s', MakeOlder (S fuel) sfi s = Ok (tt, s') ∧
          age_of s' sfi =
            (if age_of s sfi =? 0 then 1
             else Z.min (age_of s sfi + code_flushing_increase_) kMaxAge) ∧
          0 < age_of s' sfi ≤ kMaxAge) ∧
   (∀ n t t',
      disturbed others sfi n s t →
      others t = Ok (tt, t') → age_of t' sfi = age_of t sfi →
      0 ≤ age_of t sfi ≤ kMaxAge →
      MakeOlder_among others (S (n + fuel)) sfi s
        = Ok (tt, set_age sfi
                    (if age_of t sfi =? 0 then 1
                     else Z.min (age_of t sfi + code_flushing_increase_)
                                kMaxAge) t'))) ∧
  (flush_code_based_on_time = false →
   flush_code_based_on_tab_visibility = true →
   MakeOlder_among others fuel sfi s = Ok (tt, s)) ∧
  (flush_code_based_on_time = false →
   flush_code_based_on_tab_visibility = false →
   bytecode_old_age ≤ kMaxAge →
   (age_of s sfi ≤ bytecode_old_age →
    ∃ s', MakeOlder fuel sfi s = Ok (tt, s') ∧
          age_of s' sfi =
            (if age_of s sfi <? bytecode_old_age then age_of s sfi + 1
             else age_of s sfi) ∧
          age_of s' sfi ≤ bytecode_old_age) ∧
   (∀ s1, others s = Ok (tt, s1) →
      MakeOlder_among others fuel sfi s =
        let s2 :=
          if (age_of s sfi <? bytecode_old_age)
             && bool_decide (age_of s1 sfi = age_of s sfi)
          then set_age sfi (age_of s sfi + 1) s1 else s1 in
        if age_of s2 sfi <=? bytecode_old_age then Ok (tt, s2)
        else Err DcheckFailure)).
Proof.
  intros Hage. split; [|split].
  - intros Htime Hinc. split.
    + eexists. split; [by apply MakeOlder_time|].
      rewrite age_of_set_age. split; [done|].
      destruct (age_of s sfi =? 0); unfold kMaxAge in *; lia.
    + intros n t t' Hd Hrun Hsame Hage'.
      rewrite MakeOlder_among_time by (done || lia).
      by apply (MakeOlder_loop_retries others sfi fuel n s t t').
  - intros Htime Htab. unfold MakeOlder_among. by rewrite Htime, Htab.
  - intros Htime Htab Hold. split.
    + intros Hle. eexists.
      split; [apply MakeOlder_age; [done|done|lia|done]|].
      destruct (age_of s sfi <? bytecode_old_age) eqn:Hlt.
      * rewrite age_of_set_age. apply Z.ltb_lt in Hlt. lia.
      * lia.
    + intros s1 Hrun. apply MakeOlder_among_age; (done || lia).
Qed.

(** *** Visits of ranges of slots *)

(** X10.  [VisitPointers] on a range of slots returns; it loads the slots of
    the range in order; the objects marked afterwards are those that were
    marked and the objects that should be marked to which a slot of the range
    refers strongly; each of these is recorded with its slot, whether or not
    it was marked before; those that were not marked are pushed onto the
    marking worklist, each once; no slot is queued as a weak reference, and
    the progress bars and the ages are left alone. *)
Theorem X10_VisitPointers_marks_the_strong_targets
    (host : HeapObject) (start end_ : Slot) (s : VisitorState) :
  ∃ s' evs,
    VisitPointers host start end_ s = Ok (tt, s') ∧
    trace s' = trace s ++ evs ∧
    loaded evs = slots_between start end_ ∧
    marked s' =
      marked s ∪ list_to_set (omap strong_target (slots_between start end_)) ∧
    recorded evs =
      omap (λ slot, (λ o, (host, slot, o)) <$> strong_target slot)
           (slots_between start end_) ∧
    NoDup (pushed evs) ∧
    (∀ o, o ∈ pushed evs ↔
          o ∈ omap strong_target (slots_between start end_) ∧
          o ∉ marked s) ∧
    pushed_weak_references evs = [] ∧
    progress_bars s' = progress_bars s ∧ ages s' = ages s.
Proof.
  destruct (VisitPointersImpl_marks false host start end_ s)
    as (s' & evs & Hrun & Hm & Hl).
  pose proof (visit_slots_exact false host (slots_between start end_) s)
    as Hexact.
  change (for_each (slots_between start end_) (visit_slot false host) s)
    with (VisitPointersImpl false host start end_ s) in Hexact.
  rewrite Hrun in Hexact. injection Hexact as Hs'.
  exists s', evs. split; [exact Hrun|].
  pose proof (marks_trace _ _ _ Hm) as Htr.
  assert (evs = range_events false host (marked s)
                  (slots_between start end_)) as Hevs.
  { rewrite Hs' in Htr. cbn [trace] in Htr. by apply app_inv_head in Htr. }
  assert (marked s' = marked s ∪
            list_to_set (omap strong_target (slots_between start end_)))
    as Hmarked.
  { rewrite Hs'. cbn [marked]. apply range_marks_eq. }
  split; [done|]. split; [done|]. split; [done|].
  destruct (recorded_strong_range host (slots_between start end_) (marked s))
    as [Hrec Hweak].
  split; [by rewrite Hevs|]. split; [apply (marks_nodup _ _ _ Hm)|].
  split.
  - intros o. pose proof (marks_marked _ _ _ Hm) as Hmm.
    rewrite Hmarked in Hmm. split.
    + intros Ho. split; [|by apply (marks_fresh _ _ _ Hm)].
      pose proof (marks_fresh _ _ _ Hm o Ho).
      assert (o ∈ marked s ∪ list_to_set (pushed evs)) as Hin
        by (apply elem_of_union; right; by apply elem_of_list_to_set).
      rewrite <- Hmm in Hin. apply elem_of_union in Hin as [?|Hin]; [done|].
      by apply elem_of_list_to_set in Hin.
    + intros [Ho Hno].
      assert (o ∈ marked s ∪ list_to_set (omap strong_target
                                   (slots_between start end_))) as Hin
        by (apply elem_of_union; right; by apply elem_of_list_to_set).
      rewrite Hmm in Hin. apply elem_of_union in Hin as [?|Hin]; [done|].
      by apply elem_of_list_to_set in Hin.
  - split; [by rewrite Hevs|].
    split; [apply (marks_bars _ _ _ Hm) | apply (marks_ages _ _ _ Hm)].
Qed.

(** X11.  On slots that can be weak ([MaybeObjectSlot]) a weak reference
    marks nothing: the objects marked after [VisitPointersImpl] are those
    that were marked and the strong targets.  Every weak reference to an
    object that should be marked is either recorded or queued on the
    worklist of weak references; it is recorded when the object was marked
    before the visit, and it is queued when the object is still unmarked
    after it.  Every slot that is recorded points to an object that is
    marked after the visit, and only weak references whose object was not
    marked before the visit are queued. *)
Theorem X11_weak_references_are_recorded_or_queued
    (host : HeapObject) (start end_ : Slot) (s : VisitorState) :
  ∃ s' evs,
    VisitPointersImpl true host start end_ s = Ok (tt, s') ∧
    trace s' = trace s ++ evs ∧
    marked s' =
      marked s ∪ list_to_set (omap strong_target (slots_between start end_)) ∧
    (∀ slot o, slot ∈ slots_between start end_ → weak_target slot = Some o →
       ((host, slot, o) ∈ recorded evs ∨
        (host, slot) ∈ pushed_weak_references evs) ∧
       (o ∈ marked s → (host, slot, o) ∈ recorded evs) ∧
       (o ∉ marked s' → (host, slot) ∈ pushed_weak_references evs)) ∧
    (∀ h slot o, (h, slot, o) ∈ recorded evs →
       h = host ∧ slot ∈ slots_between start end_ ∧ o ∈ marked s') ∧
    (∀ h slot, (h, slot) ∈ pushed_weak_references evs →
       h = host ∧ slot ∈ slots_between start end_ ∧
       ∃ o, weak_target slot = Some o ∧ (o ∉ marked s)).
Proof.
  pose proof (visit_slots_exact true host (slots_between start end_) s)
    as Hexact.
  change (for_each (slots_between start end_) (visit_slot true host) s)
    with (VisitPointersImpl true host start end_ s) in Hexact.
  eexists _, _. split; [exact Hexact|]. cbn [trace marked].
  split; [done|]. split; [apply range_marks_eq|].
  split; [|split].
  - intros slot o Hslot Hweak.
    destruct (weak_slot_accounted host _ (marked s) slot o Hslot Hweak)
      as [Hor Hm].
    split; [done|]. split; [done|].
    intros Hdead. destruct Hor as [Hrec|?]; [|done].
    apply recorded_range_marked in Hrec as (_ & _ & Ho & _). done.
  - intros h slot o Hrec.
    apply recorded_range_marked in Hrec as (? & ? & ? & _). done.
  - apply weak_references_range.
Qed.

(** *** Aging over several collections *)

(** The answer of [IsOld] for an age. *)
Definition is_old (a : Z) : bool :=
  if flush_code_based_on_time then bytecode_old_time <=? a
  else if flush_code_based_on_tab_visibility
       then isolate_in_background_ || (a =? kMaxAge)
       else bytecode_old_age <=? a.

Lemma IsOld_is_old sfi s : IsOld sfi s = Ok (is_old (age_of s sfi), s).
Proof.
  unfold IsOld, is_old.
  destruct flush_code_based_on_time; [done|].
  by destruct flush_code_based_on_tab_visibility.
Qed.

(** A shared function info that is met by [n] collections in a row without
    being run in between: [MakeOlder] is called [n] times. *)
Fixpoint MakeOlder_times (n fuel : nat) (sfi : HeapObject) : MV unit :=
  match n with
  | O => ret tt
  | S n' => MakeOlder fuel sfi;;; MakeOlder_times n' fuel sfi
  end.

(** Two states that differ in the age of [sfi] at most. *)
Definition same_but_age (sfi : HeapObject) (s s' : VisitorState) : Prop :=
  marked s' = marked s ∧ progress_bars s' = progress_bars s ∧
  trace s' = trace s ∧
  ∀ other, other ≠ sfi → age_of s' other = age_of s other.

Lemma same_but_age_refl sfi s : same_but_age sfi s s.
Proof. done. Qed.

Lemma same_but_age_trans sfi s1 s2 s3 :
  same_but_age sfi s1 s2 → same_but_age sfi s2 s3 → same_but_age sfi s1 s3.
Proof.
  intros (Hm1 & Hb1 & Ht1 & Ha1) (Hm2 & Hb2 & Ht2 & Ha2).
  repeat split; try congruence.
  intros other Hne. rewrite Ha2, Ha1; done.
Qed.

Lemma same_but_age_set_age sfi a s : same_but_age sfi s (set_age sfi a s).
Proof.
  repeat split. intros other Hne. unfold age_of, set_age; simpl.
  by rewrite lookup_insert_ne.
Qed.

Lemma MakeOlder_times_age fuel sfi n : ∀ s,
  flush_code_based_on_time = false →
  flush_code_based_on_tab_visibility = false →
  0 ≤ age_of s sfi ≤ bytecode_old_age → bytecode_old_age ≤ kMaxAge →
  ∃ s', MakeOlder_times n fuel sfi s = Ok (tt, s') ∧
        age_of s' sfi = Z.min (age_of s sfi + Z.of_nat n) bytecode_old_age ∧
        same_but_age sfi s s'.
Proof.
  induction n as [|n IH]; intros s Htime Htab Hage Hold.
  - exists s. split; [done|]. split; [lia | done].
  - cbn [MakeOlder_times]. unfold bind at 1.
    rewrite MakeOlder_age by done.
    destruct (age_of s sfi <? bytecode_old_age) eqn:Hlt.
    + apply Z.ltb_lt in Hlt.
      destruct (IH (set_age sfi (age_of s sfi + 1) s)) as (s' & -> & Ha & Hs);
        [done | done | rewrite age_of_set_age; lia | done |].
      exists s'. split; [done|]. rewrite age_of_set_age in Ha.
      split; [lia|].
      eapply same_but_age_trans; [apply same_but_age_set_age | exact Hs].
    + apply Z.ltb_ge in Hlt.
      destruct (IH s) as (s' & -> & Ha & Hs); [done|done|done|done|].
      exists s'. split; [done|]. split; [lia | done].
Qed.

Lemma MakeOlder_times_time fuel sfi n : ∀ s,
  flush_code_based_on_time = true →
  0 < code_flushing_increase_ ≤ kMaxAge →
  0 < age_of s sfi ≤ kMaxAge →
  ∃ s', MakeOlder_times n (S fuel) sfi s = Ok (tt, s') ∧
        age_of s' sfi =
          Z.min (age_of s sfi + Z.of_nat n * code_flushing_increase_)
                kMaxAge ∧
        same_but_age sfi s s'.
Proof.
  induction n as [|n IH]; intros s Htime Hinc Hage.
  - exists s. split; [done|]. split; [lia | done].
  - cbn [MakeOlder_times]. unfold bind at 1.
    rewrite MakeOlder_time by (done || lia).
    replace (age_of s sfi =? 0) with false
      by (symmetry; apply Z.eqb_neq; lia).
    destruct (IH (set_age sfi
                (Z.min (age_of s sfi + code_flushing_increase_) kMaxAge) s))
      as (s' & -> & Ha & Hs); [done | done | rewrite age_of_set_age; lia |].
    exists s'. split; [done|]. rewrite age_of_set_age in Ha.
    split; [nia|].
    eapply same_but_age_trans; [apply same_but_age_set_age | exact Hs].
Qed.

(** X12.  How many collections make a function old.  A shared function
    info whose age is 0 and that is aged by [n] collections in a row has,
    under the age policy, the age [n] until the age reaches
    [bytecode_old_age], where it stays, and it is old from the
    [bytecode_old_age]-th collection on; under the time policy its age is 1
    after the first collection and grows by the increase with every further
    one, up to [kMaxAge], and it is old once that age has reached
    [bytecode_old_time]; under the tab-visibility policy the collections
    change nothing, and the function is old exactly when the isolate is in
    the background or the age is [kMaxAge].  In all cases only the age of
    that function changes. *)
Theorem X12_collections_until_a_function_is_old
    (n fuel : nat) (sfi : HeapObject) (s : VisitorState) :
  age_of s sfi = 0 →
  (flush_code_based_on_time = false →
   flush_code_based_on_tab_visibility = false →
   0 ≤ bytecode_old_age ≤ kMaxAge →
   ∃ s', MakeOlder_times n fuel sfi s = Ok (tt, s') ∧
         age_of s' sfi = Z.min (Z.of_nat n) bytecode_old_age ∧
         IsOld sfi s' = Ok (bool_decide (bytecode_old_age ≤ Z.of_nat n), s') ∧
         same_but_age sfi s s') ∧
  (flush_code_based_on_time = true →
   0 < code_flushing_increase_ ≤ kMaxAge →
   ∃ s', MakeOlder_times n (S fuel) sfi s = Ok (tt, s') ∧
         age_of s' sfi =
           (if bool_decide (n = 0%nat) then 0
            else Z.min (1 + (Z.of_nat n - 1) * code_flushing_increase_)
                       kMaxAge) ∧
         IsOld sfi s' = Ok (bytecode_old_time <=? age_of s' sfi, s') ∧
         same_but_age sfi s s') ∧
  (flush_code_based_on_time = false →
   flush_code_based_on_tab_visibility = true →
   MakeOlder_times n fuel sfi s = Ok (tt, s) ∧
   IsOld sfi s = Ok (isolate_in_background_, s)).
Proof.
  intros Hzero. split; [|split].
  - intros Htime Htab Hold.
    destruct (MakeOlder_times_age fuel sfi n s) as (s' & Hrun & Ha & Hs);
      [done | done | lia | lia |].
    exists s'. rewrite Hzero in Ha. split; [done|]. split; [lia|].
    split; [|done].
    rewrite IsOld_is_old. unfold is_old. rewrite Htime, Htab, Ha.
    do 2 f_equal. case_bool_decide; [apply Z.leb_le | apply Z.leb_gt]; lia.
  - intros Htime Hinc. destruct n as [|n].
    + exists s. split; [done|]. split; [done|]. split; [|done].
      rewrite IsOld_is_old. unfold is_old. by rewrite Htime.
    + cbn [MakeOlder_times]. unfold bind at 1.
      rewrite MakeOlder_time by (done || rewrite Hzero; unfold kMaxAge; lia).
      rewrite Hzero. cbn [Z.eqb].
      destruct (MakeOlder_times_time fuel sfi n (set_age sfi 1 s))
        as (s' & -> & Ha & Hs);
        [done | done | rewrite age_of_set_age; unfold kMaxAge; lia |].
      exists s'. split; [done|]. rewrite age_of_set_age in Ha.
      split; [rewrite Ha, bool_decide_eq_false_2 by done; f_equal; lia|].
      split.
      * rewrite IsOld_is_old. unfold is_old. by rewrite Htime.
      * eapply same_but_age_trans; [apply same_but_age_set_age | exact Hs].
  - intros Htime Htab. split.
    + induction n as [|n IH]; [done|].
      cbn [MakeOlder_times]. unfold bind at 1.
      by rewrite MakeOlder_tab_visibility.
    + rewrite IsOld_is_old. unfold is_old. rewrite Htime, Htab, Hzero.
      by rewrite orb_false_r.
Qed.


(** *** An ephemeron hash table as a whole *)

(** The pair the visit of entry [i] pushes onto the discovered ephemerons
    when its key is neither read-only nor marked. *)
Definition discovered (table : HeapObject) (m : gset HeapObject) (i : Z)
    : option (HeapObject * HeapObject) :=
  match ValueAt table i with
  | Strong value =>
      if ShouldMarkObject value && negb (bool_decide (value ∈ m))
      then Some (key_of table i, value) else None
  | _ => None
  end.

(** The events of the entries of a table none of whose keys is live. *)
Definition dead_key_events (table : HeapObject) (s : VisitorState)
    (entries : list Z) : list Event :=
  flat_map (λ i, key_events table i ++ value_events table i s) entries.

Lemma entries_with_dead_keys table entries : ∀ s evs,
  (∀ i, i ∈ entries →
        InWritableSharedSpace (key_of table i) = false ∧
        InReadOnlySpace (key_of table i) = false ∧
        key_of table i ∉ marked s) →
  for_each entries (VisitEphemeronHashTable_entry table) (with_events s evs)
  = Ok (tt, with_events s (evs ++ dead_key_events table s entries)).
Proof.
  induction entries as [|i entries IH]; intros s evs Hdead.
  - cbn [for_each dead_key_events flat_map]. by rewrite app_nil_r.
  - destruct (Hdead i) as (Hshared & Hro & Hunmarked);
      [apply list_elem_of_here|].
    cbn [for_each dead_key_events flat_map]. unfold bind at 1.
    rewrite (VisitEphemeronHashTable_entry_cases _ _ _ Hshared), Hro.
    cbn [with_events marked]. rewrite bool_decide_eq_false_2 by done.
    cbn [orb]. rewrite with_events_app.
    change (value_events table i (with_events s evs))
      with (value_events table i s).
    rewrite IH by (intros j Hj; by apply Hdead, list_elem_of_further).
    by rewrite <- !app_assoc.
Qed.

Lemma pushed_ephemerons_app evs1 evs2 :
  pushed_ephemerons (evs1 ++ evs2) =
  pushed_ephemerons evs1 ++ pushed_ephemerons evs2.
Proof. apply omap_app. Qed.

Lemma dead_key_events_views table s entries :
  pushed (dead_key_events table s entries) = [] ∧
  pushed_ephemerons (dead_key_events table s entries) =
    omap (discovered table (marked s)) entries ∧
  ∀ i, i ∈ entries →
       (table, key_slot_of table i, key_of table i)
         ∈ recorded (dead_key_events table s entries).
Proof.
  induction entries as [|i entries (IHp & IHe & IHr)];
    [split; [done|]; split; [done|]; by intros ? ?%elem_of_nil|].
  cbn [dead_key_events flat_map].
  fold (dead_key_events table s entries).
  rewrite !pushed_app, !pushed_ephemerons_app, !recorded_app, IHp, IHe.
  assert (pushed (value_events table i s) = [] ∧
          pushed_ephemerons (value_events table i s) =
            option_list (discovered table (marked s) i)) as [Hp He].
  { unfold value_events, discovered.
    destruct (ValueAt table i) as [n|value|value|]; try done.
    by destruct (ShouldMarkObject value && negb (bool_decide (value ∈ marked s))). }
  rewrite Hp, He. split; [done|]. split.
  - simpl. by destruct (discovered table (marked s) i).
  - intros j [->|Hj]%elem_of_cons.
    + apply elem_of_app; left. apply elem_of_app; left.
      apply list_elem_of_here.
    + apply elem_of_app; right. by apply IHr.
Qed.

(** X20.  A table none of whose keys is live keeps nothing alive: when no
    key is in read-only space or marked, [VisitEphemeronHashTable] marks
    nothing and pushes nothing onto the marking worklist, whatever the
    values are; it records the slot of every key, and pushes onto the
    discovered ephemerons, in the order of the entries, the pair of key and
    value of every entry whose value is a heap object that should be marked
    and is not marked. *)
Theorem X20_table_with_dead_keys_marks_nothing
    (map table : HeapObject) (s : VisitorState) :
  (∀ i, i ∈ IterateEntries table →
        InWritableSharedSpace (key_of table i) = false ∧
        InReadOnlySpace (key_of table i) = false ∧
        key_of table i ∉ marked s) →
  ∃ s', VisitEphemeronHashTable map table s = Ok (SizeOf map table, s') ∧
        marked s' = marked s ∧
        marking_worklist s' = marking_worklist s ∧
        ephemeron_hash_tables s' = ephemeron_hash_tables s ++ [table] ∧
        discovered_ephemerons s' =
          discovered_ephemerons s ++
          omap (discovered table (marked s)) (IterateEntries table) ∧
        (∀ i, i ∈ IterateEntries table →
              (table, key_slot_of table i, key_of table i)
                ∈ recorded_slots s').
Proof.
  intros Hdead. unfold VisitEphemeronHashTable.
  unfold bind at 1. rewrite emit_with_events.
  unfold bind at 1. rewrite entries_with_dead_keys by done.
  unfold ret. eexists. split; [done|]. split; [done|].
  destruct (dead_key_events_views table s (IterateEntries table))
    as (Hp & He & Hr).
  unfold marking_worklist, ephemeron_hash_tables, discovered_ephemerons,
    recorded_slots. cbn [trace with_events].
  rewrite pushed_app, pushed_tables_app, pushed_ephemerons_app, recorded_app.
  rewrite (pushed_app [_]), (pushed_tables_app [_]),
    (pushed_ephemerons_app [_]), (recorded_app [_]), Hp, He.
  split; [by rewrite app_nil_r|]. split.
  - f_equal. cbn. clear.
    induction (IterateEntries table) as [|i l IH]; [done|].
    cbn [dead_key_events flat_map]. rewrite !pushed_tables_app.
    fold (dead_key_events table s l). rewrite <- IH.
    unfold value_events. destruct (ValueAt table i) as [n|value|value|];
      try done.
    by destruct (ShouldMarkObject value && negb (bool_decide (value ∈ marked s))).
  - split; [done|]. intros i Hi.
    apply elem_of_app; right. apply elem_of_app; right. by apply Hr.
Qed.

(** The visit of an entry marks what it pushes onto the marking worklist,
    and nothing else. *)
Definition grows (s s' : VisitorState) (evs : list Event) : Prop :=
  trace s' = trace s ++ evs ∧
  marked s' = marked s ∪ list_to_set (pushed evs).

Lemma grows_trans s1 s2 s3 evs1 evs2 :
  grows s1 s2 evs1 → grows s2 s3 evs2 → grows s1 s3 (evs1 ++ evs2).
Proof.
  intros [Ht1 Hm1] [Ht2 Hm2]. split.
  - by rewrite Ht2, Ht1, app_assoc.
  - rewrite Hm2, Hm1, pushed_app, list_to_set_app_L. set_solver.
Qed.

Lemma marks_grows s s' evs : marks s s' evs → grows s s' evs.
Proof. intros Hm. split; [apply Hm | apply (marks_marked _ _ _ Hm)]. Qed.

Lemma entry_grows table i s :
  InWritableSharedSpace (key_of table i) = false →
  ∃ s' evs, VisitEphemeronHashTable_entry table i s = Ok (tt, s') ∧
            grows s s' evs.
Proof.
  intros Hshared. rewrite (VisitEphemeronHashTable_entry_cases _ _ _ Hshared).
  destruct (InReadOnlySpace (key_of table i)
            || bool_decide (key_of table i ∈ marked s)).
  - unfold VisitPointer.
    destruct (VisitPointersImpl_marks false table (value_slot_of table i)
                (value_slot_of table i + kTaggedSize)
                (with_events s (key_events table i)))
      as (s' & evs & -> & Hm%marks_grows & _).
    exists s', (key_events table i ++ evs). split; [done|].
    apply (grows_trans _ (with_events s (key_events table i))); [|done].
    split; [done|]. cbn. set_solver.
  - eexists _, _. split; [done|]. split; [done|].
    cbn [marked with_events]. rewrite pushed_app.
    destruct (dead_key_events_views table s [i]) as (Hp & _).
    cbn [dead_key_events flat_map] in Hp. rewrite app_nil_r, pushed_app in Hp.
    rewrite Hp. set_solver.
Qed.

Lemma entries_grow table entries : ∀ s,
  (∀ i, i ∈ entries → InWritableSharedSpace (key_of table i) = false) →
  ∃ s' evs,
    for_each entries (VisitEphemeronHashTable_entry table) s = Ok (tt, s') ∧
    grows s s' evs.
Proof.
  induction entries as [|i entries IH]; intros s Hshared.
  - exists s, []. split; [done|]. split; [by rewrite app_nil_r|].
    cbn. set_solver.
  - cbn [for_each]. unfold bind at 1.
    destruct (entry_grows table i s) as (s1 & evs1 & -> & Hg1);
      [apply Hshared, list_elem_of_here|].
    destruct (IH s1) as (s' & evs & -> & Hg).
    { intros j Hj. by apply Hshared, list_elem_of_further. }
    exists s', (evs1 ++ evs). split; [done|]. by eapply grows_trans.
Qed.

Lemma grows_elem s s' evs o :
  grows s s' evs → (o ∈ marked s → o ∈ marked s') ∧
                   (o ∈ marked s' → o ∉ marked s → o ∈ pushed evs).
Proof.
  intros [_ Hm]. rewrite Hm. split; [set_solver|].
  intros [?|?%elem_of_list_to_set]%elem_of_union ?; done.
Qed.

Section LiveKeys.

Hypothesis tagged_size_pos : 0 < kTaggedSize.

Lemma entry_with_live_key table i s value :
  InWritableSharedSpace (key_of table i) = false →
  InReadOnlySpace (key_of table i) = true ∨ key_of table i ∈ marked s →
  ValueAt table i = Strong value → ShouldMarkObject value = true →
  ∃ s' evs, VisitEphemeronHashTable_entry table i s = Ok (tt, s') ∧
            grows s s' evs ∧ value ∈ marked s' ∧
            (table, value_slot_of table i, value) ∈ recorded evs.
Proof.
  intros Hshared Hlive Hvalue Hshould.
  rewrite (VisitEphemeronHashTable_entry_cases _ _ _ Hshared).
  replace (InReadOnlySpace (key_of table i)
           || bool_decide (key_of table i ∈ marked s)) with true.
  2: { symmetry. apply orb_true_iff.
       destruct Hlive; [by left | right; by apply bool_decide_eq_true]. }
  unfold VisitPointer.
  destruct (VisitPointersImpl_marks false table (value_slot_of table i)
              (value_slot_of table i + kTaggedSize)
              (with_events s (key_events table i)))
    as (s' & evs & Hrun & Hm & _).
  pose proof (visit_slots_exact false table
                (slots_between (value_slot_of table i)
                               (value_slot_of table i + kTaggedSize))
                (with_events s (key_events table i))) as Hexact.
  change (for_each _ (visit_slot false table) _)
    with (VisitPointersImpl false table (value_slot_of table i)
            (value_slot_of table i + kTaggedSize)
            (with_events s (key_events table i))) in Hexact.
  rewrite Hrun in Hexact. injection Hexact as Hs'.
  rewrite slots_between_cons, slots_between_nil in Hs' by lia.
  assert (strong_target (value_slot_of table i) = Some value) as Htarget.
  { unfold strong_target. unfold ValueAt in Hvalue.
    fold (value_slot_of table i) in Hvalue. by rewrite Hvalue, Hshould. }
  exists s', (key_events table i ++ evs). rewrite Hrun. split; [done|].
  split.
  { apply (grows_trans _ (with_events s (key_events table i)));
      [|by apply marks_grows].
    split; [done|]. cbn. set_solver. }
  assert (evs = range_events false table
                  (marked (with_events s (key_events table i)))
                  [value_slot_of table i]) as Hevs.
  { pose proof (marks_trace _ _ _ Hm) as Htr. rewrite Hs' in Htr.
    cbn [trace] in Htr. by apply app_inv_head in Htr. }
  split.
  - rewrite Hs'. cbn [marked foldl]. unfold slot_marks. rewrite Htarget.
    set_solver.
  - rewrite recorded_app. apply elem_of_app; right. rewrite Hevs.
    cbn [range_events]. rewrite app_nil_r, recorded_slot_events.
    unfold ValueAt in Hvalue. fold (value_slot_of table i) in Hvalue.
    rewrite Hvalue, Hshould. apply list_elem_of_here.
Qed.

(** X21.  A live key keeps its value alive: when the key of an entry is in
    read-only space or marked as [VisitEphemeronHashTable] starts, and the
    value of the entry is a heap object that should be marked, then the
    value is marked when the function returns and its slot is recorded; a
    value that was not marked before is on the marking worklist; and
    whatever was marked stays marked. *)
Theorem X21_live_key_keeps_its_value_alive
    (map table : HeapObject) (s : VisitorState) (i : Z) (value : HeapObject) :
  (∀ j, j ∈ IterateEntries table →
        InWritableSharedSpace (key_of table j) = false) →
  i ∈ IterateEntries table →
  InReadOnlySpace (key_of table i) = true ∨ key_of table i ∈ marked s →
  ValueAt table i = Strong value → ShouldMarkObject value = true →
  ∃ s', VisitEphemeronHashTable map table s = Ok (SizeOf map table, s') ∧
        marked s ⊆ marked s' ∧
        value ∈ marked s' ∧
        (table, value_slot_of table i, value) ∈ recorded_slots s' ∧
        (value ∉ marked s → value ∈ marking_worklist s').
Proof using All.
  intros Hshared Hi Hlive Hvalue Hshould.
  assert (∀ entries s0,
    (∀ j, j ∈ entries → InWritableSharedSpace (key_of table j) = false) →
    i ∈ entries →
    InReadOnlySpace (key_of table i) = true ∨ key_of table i ∈ marked s0 →
    ∃ s' evs,
      for_each entries (VisitEphemeronHashTable_entry table) s0
        = Ok (tt, s') ∧
      grows s0 s' evs ∧ value ∈ marked s' ∧
      (table, value_slot_of table i, value) ∈ recorded evs) as Hloop.
  { induction entries as [|i0 entries IH]; intros s0 Hsh Hin Hl;
      [by apply elem_of_nil in Hin|].
    cbn [for_each]. unfold bind at 1.
    apply elem_of_cons in Hin as [<-|Hin].
    - destruct (entry_with_live_key table i s0 value)
        as (s1 & evs1 & -> & Hg1 & Hv1 & Hr1);
        [apply Hsh, list_elem_of_here | done | done | done |].
      destruct (entries_grow table entries s1) as (s' & evs & -> & Hg).
      { intros j Hj. by apply Hsh, list_elem_of_further. }
      exists s', (evs1 ++ evs). split; [done|].
      split; [by eapply grows_trans|].
      split; [by apply (grows_elem _ _ _ _ Hg)|].
      rewrite recorded_app. apply elem_of_app. by left.
    - destruct (entry_grows table i0 s0) as (s1 & evs1 & -> & Hg1);
        [apply Hsh, list_elem_of_here|].
      destruct (IH s1) as (s' & evs & -> & Hg & Hv & Hr).
      { intros j Hj. by apply Hsh, list_elem_of_further. }
      { done. }
      { destruct Hl as [?|Hm]; [by left|].
        right. by apply (grows_elem _ _ _ _ Hg1). }
      exists s', (evs1 ++ evs). split; [done|].
      split; [by eapply grows_trans|]. split; [done|].
      rewrite recorded_app. apply elem_of_app. by right. }
  unfold VisitEphemeronHashTable.
  unfold bind at 1. rewrite emit_with_events.
  destruct (Hloop (IterateEntries table)
              (with_events s [PushEphemeronHashTable table]))
    as (s' & evs & Hrun & [Htr Hm] & Hv & Hr); [done|done|done|].
  unfold bind at 1. rewrite Hrun. unfold ret.
  exists s'. split; [done|].
  cbn [marked trace with_events] in Hm, Htr.
  split; [rewrite Hm; set_solver|]. split; [done|].
  unfold recorded_slots, marking_worklist. rewrite Htr.
  split.
  - rewrite recorded_app. apply elem_of_app. by right.
  - intros Hunmarked. rewrite pushed_app. apply elem_of_app; right.
    rewrite Hm in Hv.
    apply elem_of_union in Hv as [?|?%elem_of_list_to_set]; done.
Qed.

End LiveKeys.

End Proofs.

(** *** A small heap on which the statements above are run *)

(** Pointer compression: tagged values of 4 bytes, arrays with a header of
    8 bytes, regular objects of at most 128 KB.  The heap holds an
    ephemeron hash table at 4096 with two entries (its elements start at
    index 3), a JSWeakRef at 20480 and a fixed array of 262152 bytes at
    1048576; objects below 4096 are read-only. *)
Definition example_memory (slot : Slot) : Tagged :=
  if slot =? 4116 then Strong 8192          (* key of entry 0 *)
  else if slot =? 4120 then Smi 7           (* value of entry 0 *)
  else if slot =? 4124 then Strong 12288    (* key of entry 1 *)
  else if slot =? 4128 then Strong 16384    (* value of entry 1 *)
  else if slot =? 20492 then Strong 8192    (* target of the weak ref *)
  else Smi 0.

#[local] Instance example_heap : Heap := {|
  kTaggedSize := 4;
  kMaxRegularHeapObjectSize := 131072;
  FixedArray_kStartOffset := 8;
  JSWeakRef_kTargetOffset := 12;
  Relaxed_Load := example_memory;
  map_of := λ _, 64;
  SizeOf := λ _ object, if object =? 1048576 then 262152 else 32;
  InReadOnlySpace := λ object, object <? 4096;
  InWritableSharedSpace := λ _, false;
  ShouldMarkObject := λ object, negb (object <? 4096);
  IterateEntries := λ _, [0; 1];
  EntryToIndex := λ i, i * 2 + 3;
  EntryToValueIndex := λ i, i * 2 + 3 + 1;
  OffsetOfElementAt := λ index, 8 + index * 4;
|}.

Definition time_flags : Flags := mkFlags true false 30 6 1 false.
Definition tab_visibility_flags : Flags := mkFlags false true 30 6 1 false.
Definition age_flags : Flags := mkFlags false false 30 6 1 false.

(** A concrete visitor whose visit of a JSObject subclass gives up (size 0),
    as the concurrent visitor does on an object that changes under it. *)
#[local] Instance bailing_visitor : ConcreteVisitor := {|
  VisitJSObjectSubclass := λ _ _, ret 0;
  retaining_path_mode_enabled := false;
|}.

(** The fixed array is marked and its progress bar is enabled at 0. *)
Definition example_state : VisitorState :=
  mkVisitorState {[1048576]} {[1048576 := 0]} ∅ [].

Lemma example_array_marked : 1048576 ∈ marked example_state.
Proof. unfold example_state; cbn [marked]. by apply elem_of_singleton. Qed.

Lemma example_unmarked o : o ≠ 1048576 → o ∉ marked example_state.
Proof.
  intros Hne Hin. unfold example_state in Hin; cbn [marked] in Hin.
  by apply elem_of_singleton in Hin.
Qed.

Lemma C6_counterexample :
  ∃ s' evs,
    VisitFixedArrayWithProgressBar 64 1048576 1048576 example_state
      = Ok (131072, s') ∧
    trace s' = trace example_state ++ evs ∧
    loaded evs ≠
      slots_between (RawField 1048576 0)
                    (RawField 1048576 (Z.min (SizeOf 64 1048576)
                                             (0 + kMaxRegularHeapObjectSize))).
Proof.
  destruct (VisitFixedArrayWithProgressBar_spec 64 1048576 1048576
              example_state 0 example_array_marked)
    as (s' & evs & refs & Hcall & Htr & _ & _ & Hl & _);
    [done|done|done|done|done|done|done|].
  exists s', evs. split; [exact Hcall|]. split; [exact Htr|].
  rewrite Hl.
  replace (scan_start 0 <? scan_end 64 1048576 0) with true by done.
  apply slots_between_differ; done.
Qed.

(** Another thread that moves the cursor of the example array to the end of
    the first chunk. *)
Definition cursor_moved : MV unit :=
  modify (λ s, mkVisitorState (marked s)
                              (<[1048576 := 131080]> (progress_bars s))
                              (ages s) (trace s)).

Lemma C6_witness :
  (∃ s' evs,
     VisitIncrements (increments 64 1048576) 64 1048576 1048576 example_state
       = Ok (tt, s') ∧
     trace s' = trace example_state ++ evs ∧
     loaded evs = slots_between (RawField 1048576 8) (RawField 1048576 262152) ∧
     progress_bars s' !! 1048576 = Some 262152) ∧
  VisitFixedArrayWithProgressBar_among cursor_moved 64 1048576 1048576
    example_state = Err CheckFailure.
Proof.
  destruct (C6_progress_bar_scans_elements_once
              (flags := time_flags)
              ltac:(done) ltac:(done) ltac:(done) ltac:(done)
              64 1048576 1048576 example_state 0 example_array_marked)
    as (_ & _ & Hraced & Hscan); [done|done|done|done|done|].
  split.
  - destruct Hscan as (s' & evs & Hcall & Htr & Hl & _ & Hb & _); [done|done|].
    exists s', evs. split; [exact Hcall|]. split; [exact Htr|].
    split; [exact Hl|]. rewrite Hb. apply lookup_insert_eq.
  - apply (Hraced cursor_moved 131080); [done|done|].
    intros s1 _. eexists. split; [reflexivity|]. apply lookup_insert_eq.
Defined.

Lemma C7_counterexample :
  ∃ s',
    VisitEphemeronHashTable_entry 4096 0 example_state = Ok (tt, s') ∧
    InReadOnlySpace (key_of 4096 0) = false ∧
    (key_of 4096 0 ∉ marked example_state) ∧
    value_slot_of 4096 0 = 4120 ∧
    recorded_slots s' = [(4096, 4116, 8192)].
Proof.
  eexists. split; [vm_compute; reflexivity|]. split; [done|].
  split; [|done]. by apply example_unmarked.
Defined.

Lemma C7_witness :
  ∃ s',
    VisitEphemeronHashTable_entry 4096 1 example_state = Ok (tt, s') ∧
    marked s' = marked example_state ∧
    recorded_slots s' = [(4096, 4124, 12288); (4096, 4128, 16384)] ∧
    discovered_ephemerons s' = [(12288, 16384)].
Proof.
  destruct (C7_ephemeron_entry_by_key_liveness
              (heap := example_heap) (concrete_visitor := bailing_visitor)
              4096 1 example_state ltac:(reflexivity))
    as [_ Hdead].
  destruct Hdead as (s' & Hcall & Hmarked & _ & Hvalue);
    [done | by apply example_unmarked |].
  exists s'. split; [exact Hcall|]. split; [exact Hmarked|].
  change (ValueAt 4096 1) with (Strong 16384) in Hvalue.
  destruct Hvalue as [Hrec Hdisc]. split; [exact Hrec|].
  rewrite Hdisc. rewrite bool_decide_eq_false_2; [done|].
  by apply example_unmarked.
Defined.

(** The function runs while it is aged: when its age is [a], its prologue
    resets the age to 0. *)
Definition prologue_resets (sfi : HeapObject) (a : Z) : MV unit :=
  s <- get;;
  if bool_decide (age_of s sfi = a) then put (set_age sfi 0 s) else ret tt.

(** Under the age policy (old at 6) a function of age 5 runs between the
    load of its age and the compare-and-swap: the compare-and-swap fails and
    is not tried again, the age stays 0.  Under the time policy the loop
    runs again and makes the age 1. *)
Lemma C8_counterexample :
  (∃ s', MakeOlder_among (flags := age_flags) (prologue_resets 8192 5) 2 8192
           (set_age 8192 5 example_state) = Ok (tt, s') ∧
         age_of s' 8192 = 0) ∧
  (∃ s', MakeOlder_among (flags := time_flags) (prologue_resets 8192 5) 2 8192
           (set_age 8192 5 example_state) = Ok (tt, s') ∧
         age_of s' 8192 = 1).
Proof.
  split; eexists; (split; [vm_compute; reflexivity|]); reflexivity.
Qed.

Lemma C8_witness :
  (∃ s',
     MakeOlder (flags := time_flags) 1 8192 example_state = Ok (tt, s') ∧
     age_of s' 8192 = 1) ∧
  MakeOlder_among (flags := time_flags) (prologue_resets 8192 5) 2 8192
    (set_age 8192 5 example_state)
  = Ok (tt, set_age 8192 1 (set_age 8192 0 (set_age 8192 5 example_state))).
Proof.
  split.
  - destruct (C8_MakeOlder_by_policy (flags := time_flags) (ret tt) 0 8192
                example_state) as [Htime _]; [done|].
    destruct Htime as [(s' & Hcall & Hage & _) _]; [done|done|].
    exists s'. split; [exact Hcall | exact Hage].
  - destruct (C8_MakeOlder_by_policy (flags := time_flags)
                (prologue_resets 8192 5) 0 8192
                (set_age 8192 5 example_state)) as [Htime _]; [done|].
    destruct Htime as [_ Hretry]; [done|done|].
    apply (Hretry 1%nat (set_age 8192 0 (set_age 8192 5 example_state))
             (set_age 8192 0 (set_age 8192 5 example_state))).
    + eapply disturbed_S; [reflexivity|done|constructor].
    + reflexivity.
    + reflexivity.
    + done.
Defined.

Lemma C9_witness :
  ∃ s' rest,
    VisitEphemeronHashTable 64 4096 example_state
      = Ok (SizeOf 64 4096, s') ∧
    trace s' = trace example_state ++ PushEphemeronHashTable 4096 :: rest ∧
    pushed_tables rest = [] ∧
    ephemeron_hash_tables s' = ephemeron_hash_tables example_state ++ [4096].
Proof.
  apply (C9_ephemeron_table_pushed_once_first 64 4096 example_state).
  intros i _. reflexivity.
Defined.

Lemma C10_witness :
  VisitJSWeakRef 64 20480 example_state = Ok (0, example_state).
Proof.
  apply (C10_JSWeakRef_size_zero_skips_target 64 20480
           example_state example_state 0); reflexivity.
Defined.

Lemma X12_witness :
  ∃ s', MakeOlder_times (flags := age_flags) 7 0 8192 example_state
        = Ok (tt, s') ∧
        age_of s' 8192 = 6 ∧
        IsOld (flags := age_flags) 8192 s' = Ok (true, s').
Proof.
  destruct (X12_collections_until_a_function_is_old (flags := age_flags)
              7 0 8192 example_state ltac:(reflexivity)) as [Hage _].
  destruct Hage as (s' & Hrun & Ha & Hold & _); [done|done|done|].
  exists s'. split; [exact Hrun|]. split; [exact Ha | exact Hold].
Defined.


(** The start of a cycle on the example heap, and the state in which the
    key of entry 1 of the table is marked. *)
Definition nothing_marked : VisitorState := mkVisitorState ∅ ∅ ∅ [].
Definition key_marked : VisitorState := mkVisitorState {[12288]} ∅ ∅ [].

Lemma X20_witness :
  ∃ s', VisitEphemeronHashTable 64 4096 nothing_marked = Ok (32, s') ∧
        marked s' = ∅ ∧ marking_worklist s' = [] ∧
        discovered_ephemerons s' = [(12288, 16384)].
Proof.
  destruct (X20_table_with_dead_keys_marks_nothing
              (heap := example_heap) (concrete_visitor := bailing_visitor)
              64 4096 nothing_marked)
    as (s' & Hrun & Hm & Hw & _ & Hd & _).
  { intros i Hi. change (i ∈ [0; 1]) in Hi.
    apply elem_of_cons in Hi as [->|Hi];
      [|apply elem_of_cons in Hi as [->|Hi]; [|by apply elem_of_nil in Hi]];
      (split; [reflexivity|]; split; [reflexivity|apply not_elem_of_empty]). }
  exists s'. split; [exact Hrun|]. split; [exact Hm|]. split; [exact Hw|].
  exact Hd.
Defined.

Lemma X21_witness :
  ∃ s', VisitEphemeronHashTable 64 4096 key_marked = Ok (32, s') ∧
        16384 ∈ marked s' ∧
        (4096, 4128, 16384) ∈ recorded_slots s' ∧
        16384 ∈ marking_worklist s'.
Proof.
  destruct (X21_live_key_keeps_its_value_alive
              (heap := example_heap) (flags := age_flags)
              (concrete_visitor := bailing_visitor)
              ltac:(reflexivity) 64 4096 key_marked 1 16384)
    as (s' & Hrun & _ & Hv & Hr & Hw).
  - intros j _. reflexivity.
  - apply list_elem_of_further, list_elem_of_here.
  - right. change (12288 ∈ ({[12288]} : gset Z)). by apply elem_of_singleton.
  - reflexivity.
  - reflexivity.
  - exists s'. split; [exact Hrun|]. split; [exact Hv|]. split; [exact Hr|].
    apply Hw. change (16384 ∉ ({[12288]} : gset Z)).
    intros Hin. by apply elem_of_singleton in Hin.
Defined.

End MarkingVisitorProofs.

(** ** Further visit functions of the marking visitor *)

Module MarkingVisitorObjectsProofs.
Import MarkingVisitor MarkingVisitorObjects MarkingVisitorProofs.

Section Proofs.

Context {heap : Heap} {flags : Flags} {concrete_visitor : ConcreteVisitor}
        {objects : Objects} {fields : VisitorFields}.

(** *** Running a function of the visitor in the larger state *)

Lemma lift_Ok {A} (m : MV A) s a v :
  m (visitor_state s) = Ok (a, v) →
  lift m s = Ok (a, mkObjectVisitorState v (effects s)).
Proof. unfold lift. by intros ->. Qed.

Lemma bind_lift {A B} (m : MV A) (k : A → MO B) s a v :
  m (visitor_state s) = Ok (a, v) →
  bind (lift m) k s = k a (mkObjectVisitorState v (effects s)).
Proof. intros Hrun. unfold bind. by rewrite (lift_Ok _ _ _ _ Hrun). Qed.

(** *** Fixed arrays *)

(** X14.  [VisitFixedArray] chooses by the progress bar of the chunk of the
    array.  With a visitor that can update values in the heap and an enabled
    bar it is [VisitFixedArrayWithProgressBar].  Otherwise the array is
    visited whole in one call: the call returns the size of the array, loads
    the slots from [kStartOffset] to the size in order, marks the map (when
    the concrete visitor visits map pointers) and the strong targets of
    these slots, records each such target with its slot, does not push the
    array itself when it was marked, and leaves the progress bars and the
    ages alone. *)
Theorem X14_VisitFixedArray_by_progress_bar
    (map object : HeapObject) (s : VisitorState) :
  let bar := ProgressBar_of object in
  let body := slots_between (RawField object FixedArray_kStartOffset)
                            (RawField object (SizeOf map object)) in
  (CanUpdateValuesInHeap = true → is_Some (progress_bars s !! bar) →
     VisitFixedArray map object s =
       VisitFixedArrayWithProgressBar map object bar s) ∧
  (CanUpdateValuesInHeap = false ∨ progress_bars s !! bar = None →
     ∃ s' evs,
       VisitFixedArray map object s = Ok (SizeOf map object, s') ∧
       trace s' = trace s ++ evs ∧
       loaded evs = body ∧
       marked s' =
         (if ShouldVisitMapPointer
          then strong_marks (marked s) (map_of object) else marked s)
         ∪ list_to_set (omap strong_target body) ∧
       (∀ slot o, slot ∈ body → strong_target slot = Some o →
                  (object, slot, o) ∈ recorded evs) ∧
       (object ∈ marked s → object ∉ pushed evs) ∧
       progress_bars s' = progress_bars s ∧ ages s' = ages s).
Proof.
  intros bar body. split.
  - intros Hcan Hbar. unfold VisitFixedArray. fold bar. rewrite Hcan.
    unfold bind at 1, ProgressBar_IsEnabled at 1, gets at 1.
    by rewrite bool_decide_eq_true_2.
  - intros Hregular.
    assert (VisitFixedArray map object s = VisitFixedArrayRegularly map object s)
      as ->.
    { unfold VisitFixedArray. fold bar.
      destruct CanUpdateValuesInHeap; [|done].
      destruct Hregular as [?|Hnone]; [done|].
      unfold bind at 1, ProgressBar_IsEnabled at 1, gets at 1.
      rewrite bool_decide_eq_false_2; [done|].
      rewrite Hnone. by intros [? ?]. }
    unfold VisitFixedArrayRegularly, FixedArray_IterateBody.
    set (v1 := if ShouldVisitMapPointer
               then mkVisitorState (strong_marks (marked s) (map_of object))
                      (progress_bars s) (ages s)
                      (trace s ++ strong_events object (RawField object 0)
                                                (map_of object) s)
               else s).
    set (evs0 := if ShouldVisitMapPointer
                 then strong_events object (RawField object 0)
                                    (map_of object) s
                 else []).
    assert (VisitMapPointerIfNeeded object s = Ok (tt, v1)) as Hmap.
    { unfold VisitMapPointerIfNeeded, v1, VisitMapPointer.
      destruct ShouldVisitMapPointer; [|done].
      apply ProcessStrongHeapObject_exact. }
    assert (trace v1 = trace s ++ evs0 ∧ progress_bars v1 = progress_bars s ∧
            ages v1 = ages s ∧
            marked v1 = (if ShouldVisitMapPointer
                         then strong_marks (marked s) (map_of object)
                         else marked s)) as (Htr1 & Hb1 & Ha1 & Hm1).
    { unfold v1, evs0. destruct ShouldVisitMapPointer; [done|].
      by rewrite app_nil_r. }
    unfold bind at 1. rewrite Hmap. unfold bind at 1.
    pose proof (visit_slots_exact false object body v1) as Hexact.
    unfold VisitPointers, VisitPointersImpl. fold body.
    unfold visit_slot in Hexact. rewrite Hexact. unfold ret.
    eexists _, (evs0 ++ range_events false object (marked v1) body).
    split; [reflexivity|]. cbn [trace marked progress_bars ages].
    destruct (recorded_strong_range object body (marked v1)) as [Hrec _].
    split; [by rewrite Htr1, app_assoc|].
    split.
    { rewrite loaded_app.
      assert (loaded evs0 = []) as ->.
      { unfold evs0. destruct ShouldVisitMapPointer; [|done].
        apply loaded_strong_events. }
      destruct (visit_slots_marks false object body v1)
        as (s2 & evs2 & Hrun2 & Hm2 & Hl2).
      rewrite (visit_slots_exact false object body v1) in Hrun2.
      injection Hrun2 as Hs2. pose proof (marks_trace _ _ _ Hm2) as Htr2.
      rewrite <- Hs2 in Htr2. cbn [trace] in Htr2.
      apply app_inv_head in Htr2. by rewrite Htr2. }
    split; [by rewrite range_marks_eq, Hm1|].
    split.
    { intros slot o Hslot Htarget. rewrite recorded_app, Hrec.
      apply elem_of_app; right. apply list_elem_of_omap.
      exists slot. split; [done|]. by rewrite Htarget. }
    split; [|done].
    intros Hmarked. rewrite pushed_app. intros [Hin|Hin]%elem_of_app.
    + unfold evs0 in Hin. destruct ShouldVisitMapPointer;
        [|by apply elem_of_nil in Hin].
      rewrite pushed_strong_events in Hin.
      destruct (ShouldMarkObject (map_of object));
        [|by apply elem_of_nil in Hin].
      cbn [andb] in Hin. case_bool_decide as Hmm; cbn [negb] in Hin;
        [by apply elem_of_nil in Hin|].
      apply list_elem_of_singleton in Hin. congruence.
    + destruct (visit_slots_marks false object body v1)
        as (s2 & evs2 & Hrun2 & Hm2 & Hl2).
      rewrite (visit_slots_exact false object body v1) in Hrun2.
      injection Hrun2 as Hs2. pose proof (marks_trace _ _ _ Hm2) as Htr2.
      rewrite <- Hs2 in Htr2. cbn [trace] in Htr2.
      apply app_inv_head in Htr2. rewrite Htr2 in Hin.
      apply (marks_fresh _ _ _ Hm2) in Hin. apply Hin. rewrite Hm1.
      destruct ShouldVisitMapPointer; [|done].
      unfold strong_marks. destruct (ShouldMarkObject (map_of object));
        set_solver.
Qed.

(** *** Objects participating in bytecode flushing *)

(** When [HasBytecodeArrayForFlushing] says yes. *)
Definition flushable (sfi : HeapObject) : Prop :=
  IsResumableFunction_kind sfi = false ∧
  allows_lazy_compilation sfi = true ∧
  ((IsCode (function_data sfi) = true ∧
    kFlushBaselineCode code_flush_mode_ = true ∧
    IsBytecodeArray
      (bytecode_or_interpreter_data (HeapObject_cast (function_data sfi)))
      = true) ∨
   (IsCode (function_data sfi) = false ∧
    kFlushBytecode code_flush_mode_ = true ∧
    IsBytecodeArray (function_data sfi) = true)).

Lemma HasBytecodeArrayForFlushing_Ok sfi s b s' :
  HasBytecodeArrayForFlushing sfi s = Ok (b, s') →
  s' = s ∧ (b = true ↔ flushable sfi).
Proof.
  unfold HasBytecodeArrayForFlushing, flushable, IsFlushingDisabled,
    IsBaselineCodeFlushingEnabled, IsByteCodeFlushingEnabled.
  destruct (kFlushBytecode code_flush_mode_),
    (kFlushBaselineCode code_flush_mode_),
    (kStressFlushCode code_flush_mode_); cbn [orb negb];
  destruct (IsResumableFunction_kind sfi), (allows_lazy_compilation sfi);
    cbn [orb negb];
  try (intros [= <- <-]; split; [done|]; naive_solver);
  destruct (IsCode (function_data sfi));
  try (intros [= <- <-]; split; [done|]; naive_solver);
  try (unfold bind, dcheck;
       destruct (Code_kind_is_BASELINE _); [|done]; unfold ret;
       intros [= <- <-]; split; [done|]; naive_solver).
Qed.

(** X15.  [HasBytecodeArrayForFlushing] only reads.  When the function data
    of a shared function info is not code of another kind than baseline
    code, it returns; it says yes exactly for a function that is not
    resumable and allows lazy compilation and whose bytecode array is
    reached through a way of flushing that is enabled: behind baseline code
    when baseline code flushing is enabled, or as the function data itself
    when bytecode flushing is enabled.  With stress flushing alone nothing
    can be flushed. *)
Theorem X15_bytecode_is_flushed_only_through_an_enabled_mode
    (sfi : HeapObject) (s : VisitorState) :
  (IsCode (function_data sfi) = true →
   Code_kind_is_BASELINE (HeapObject_cast (function_data sfi)) = true) →
  ∃ b, HasBytecodeArrayForFlushing sfi s = Ok (b, s) ∧
       (b = true ↔ flushable sfi) ∧
       (kFlushBytecode code_flush_mode_ = false →
        kFlushBaselineCode code_flush_mode_ = false → b = false).
Proof.
  intros Hkind.
  assert (∃ b, HasBytecodeArrayForFlushing sfi s = Ok (b, s)) as [b Hrun].
  { unfold HasBytecodeArrayForFlushing.
    destruct (IsFlushingDisabled code_flush_mode_); [by eexists|].
    destruct (_ || _); [by eexists|].
    destruct (IsCode (function_data sfi)).
    - rewrite Hkind by done. unfold bind, dcheck, ret.
      destruct (negb _); by eexists.
    - destruct (negb _); by eexists. }
  exists b. split; [done|].
  destruct (HasBytecodeArrayForFlushing_Ok _ _ _ _ Hrun) as [_ Hb].
  split; [done|]. intros Hbc Hbl. destruct b; [|done].
  destruct Hb as [Hb _]. destruct (Hb eq_refl) as (_ & _ & [H|H]);
    destruct H as (_ & ? & _); congruence.
Qed.

Lemma ShouldFlushCode_Ok sfi s :
  ShouldFlushCode sfi s =
    Ok (kStressFlushCode code_flush_mode_ || is_old (age_of s sfi), s).
Proof.
  unfold ShouldFlushCode, IsStressFlushingEnabled.
  destruct (kStressFlushCode code_flush_mode_); [done|].
  apply IsOld_is_old.
Qed.

Lemma ShouldFlushBaselineCode_true js_function s s' :
  ShouldFlushBaselineCode js_function s = Ok (true, s') →
  kFlushBaselineCode code_flush_mode_ = true ∧
  IsSharedFunctionInfo (JSFunction_shared_field js_function) = true ∧
  IsCode (JSFunction_code_field js_function) = true ∧
  Code_kind_is_BASELINE (HeapObject_cast (JSFunction_code_field js_function))
    = true ∧
  flushable (HeapObject_cast (JSFunction_shared_field js_function)) ∧
  (kStressFlushCode code_flush_mode_ ||
   is_old (age_of s (HeapObject_cast (JSFunction_shared_field js_function))))
    = true.
Proof.
  unfold ShouldFlushBaselineCode, IsBaselineCodeFlushingEnabled.
  destruct (kFlushBaselineCode code_flush_mode_); cbn [negb]; [|done].
  destruct (IsSharedFunctionInfo _); cbn [negb]; [|done].
  destruct (IsCode (JSFunction_code_field js_function)); cbn [negb]; [|done].
  destruct (Code_kind_is_BASELINE _); cbn [negb]; [|done].
  intros Hrun. apply bind_Ok in Hrun as (b & s1 & Hhas & Hrun).
  apply HasBytecodeArrayForFlushing_Ok in Hhas as [-> Hb].
  destruct b; [|done]. rewrite ShouldFlushCode_Ok in Hrun.
  injection Hrun as Hold _. split; [done|]. split; [done|]. split; [done|].
  split; [done|]. split; [by apply Hb | done].
Qed.

(** *** Weak cells *)

(** X18.  A weak cell keeps neither its target nor its unregister token
    alive.  After the map pointer and the body of the cell are visited,
    [VisitWeakCell] returns the size of the cell; it marks nothing, pushes
    nothing onto the marking worklist and loads no slot.  When the target
    and the token are both live (in read-only space or marked) it records
    their two slots and the cell is not queued; otherwise it records
    nothing and queues the cell on the worklist of weak cells. *)
Theorem X18_weak_cell_does_not_keep_its_target_alive
    (map weak_cell : HeapObject) (s : ObjectVisitorState) (v1 : VisitorState) :
  (VisitMapPointer weak_cell;;;
   IterateBody map weak_cell (SizeOf map weak_cell)) (visitor_state s)
    = Ok (tt, v1) →
  let target_slot := RawField weak_cell WeakCell_kTargetOffset in
  let token_slot := RawField weak_cell WeakCell_kUnregisterTokenOffset in
  let target := HeapObject_cast (Relaxed_Load target_slot) in
  let unregister_token := HeapObject_cast (Relaxed_Load token_slot) in
  let live o := InReadOnlySpace o || bool_decide (o ∈ marked v1) in
  ∃ s' evs,
    VisitWeakCell map weak_cell s = Ok (SizeOf map weak_cell, s') ∧
    visitor_state s' = with_events v1 evs ∧
    pushed evs = [] ∧ loaded evs = [] ∧
    (live target && live unregister_token = true →
       effects s' = effects s ∧
       recorded evs = [(weak_cell, target_slot, target);
                       (weak_cell, token_slot, unregister_token)]) ∧
    (live target && live unregister_token = false →
       effects s' = effects s ++ [PushWeakCell weak_cell] ∧
       recorded evs = []).
Proof.
  intros Hbody target_slot token_slot target unregister_token live.
  apply bind_Ok in Hbody as ([] & v0 & Hmap & Hbody).
  unfold VisitWeakCell.
  rewrite (bind_lift _ _ _ tt v0) by exact Hmap.
  rewrite (bind_lift _ _ _ tt v1) by exact Hbody.
  fold target_slot token_slot. fold target unregister_token.
  unfold SynchronizePageAccess.
  rewrite (bind_lift (ret tt) _ _ tt v1) by done.
  rewrite (bind_lift (ret tt) _ _ tt v1) by done.
  rewrite (bind_lift _ _ _ (bool_decide (target ∈ marked v1)) v1) by done.
  rewrite (bind_lift _ _ _ (bool_decide (unregister_token ∈ marked v1)) v1)
    by done.
  cbn [effects visitor_state].
  change ((InReadOnlySpace target || bool_decide (target ∈ marked v1)) &&
          (InReadOnlySpace unregister_token ||
           bool_decide (unregister_token ∈ marked v1)))
    with (live target && live unregister_token).
  destruct (live target && live unregister_token).
  - eexists _, [RecordSlot weak_cell target_slot target;
                RecordSlot weak_cell token_slot unregister_token].
    split.
    { unfold bind at 1. unfold bind at 1.
      rewrite (lift_Ok _ _ tt (with_events v1
                 [RecordSlot weak_cell target_slot target])) by done.
      rewrite (lift_Ok _ _ tt (with_events v1
                 [RecordSlot weak_cell target_slot target;
                  RecordSlot weak_cell token_slot unregister_token])).
      2:{ cbn [visitor_state]. rewrite emit_with_events.
          by rewrite with_events_app. }
      reflexivity. }
    cbn [visitor_state effects]. done.
  - eexists _, [AddWeakReference weak_cell target;
                AddWeakReference weak_cell unregister_token].
    split.
    { unfold bind at 1. unfold bind at 1. unfold push at 1, modify at 1.
      cbn [visitor_state effects]. unfold bind at 1.
      rewrite (lift_Ok _ _ tt (with_events v1
                 [AddWeakReference weak_cell target])) by done.
      rewrite (lift_Ok _ _ tt (with_events v1
                 [AddWeakReference weak_cell target;
                  AddWeakReference weak_cell unregister_token])).
      2:{ cbn [visitor_state]. rewrite emit_with_events.
          by rewrite with_events_app. }
      reflexivity. }
    cbn [visitor_state effects]. done.
Qed.

(** *** Pointers embedded in code *)

(** X19.  A relocation entry of an instruction stream whose object should be
    marked is always recorded, and its object ends up marked or queued.
    [VisitEmbeddedPointer] on an embedded object leaves an object that the
    code holds weakly unmarked and queues it, with the code, while it is not
    marked; it marks an object that the code holds strongly and pushes it
    onto the marking worklist when it was not marked.  [VisitCodeTarget]
    always marks the target.  An object that should not be marked changes
    nothing. *)
Theorem X19_relocation_entries_are_recorded
    (host : HeapObject) (rinfo : Z) (s : ObjectVisitorState) :
  (IsEmbeddedObjectMode rinfo = true →
   let object := target_object rinfo in
   let code := raw_code host in
   let weak := Code_IsWeakObject code object in
   let unmarked := negb (bool_decide (object ∈ marked (visitor_state s))) in
   ∃ s', VisitEmbeddedPointer host rinfo s = Ok (tt, s') ∧
     if ShouldMarkObject object then
       effects s' =
         effects s ++
         (if unmarked && weak then [PushWeakObjectInCode object code] else [])
         ++ [RecordRelocSlot host rinfo object] ∧
       marked (visitor_state s') =
         (if unmarked && negb weak
          then {[object]} ∪ marked (visitor_state s)
          else marked (visitor_state s)) ∧
       marking_worklist (visitor_state s') =
         marking_worklist (visitor_state s) ++
         (if unmarked && negb weak then [object] else []) ∧
       (object ∈ marked (visitor_state s') ∨
        PushWeakObjectInCode object code ∈ effects s')
     else s' = s) ∧
  (IsCodeTargetMode rinfo = true →
   let target := FromTargetAddress (target_address rinfo) in
   let unmarked := negb (bool_decide (target ∈ marked (visitor_state s))) in
   ∃ s', VisitCodeTarget host rinfo s = Ok (tt, s') ∧
     if ShouldMarkObject target then
       effects s' = effects s ++ [RecordRelocSlot host rinfo target] ∧
       marked (visitor_state s') = {[target]} ∪ marked (visitor_state s) ∧
       marking_worklist (visitor_state s') =
         marking_worklist (visitor_state s) ++
         (if unmarked then [target] else [])
     else s' = s).
Proof.
  split.
  - intros Hmode object code weak unmarked.
    unfold VisitEmbeddedPointer. rewrite Hmode.
    unfold bind at 1, dcheck at 1, ret at 1.
    fold object. fold code. fold weak.
    destruct (ShouldMarkObject object); cbn [negb]; [|by eexists].
    rewrite (bind_lift _ _ _ (bool_decide (object ∈ marked (visitor_state s)))
               (visitor_state s)) by done.
    unfold unmarked. unfold marking_worklist.
    case_bool_decide as Hm; cbn [negb andb].
    + eexists. split; [reflexivity|]. cbn [effects visitor_state].
      split; [done|]. split; [done|]. split; [by rewrite app_nil_r|].
      by left.
    + destruct weak.
      * eexists. split; [reflexivity|]. cbn [effects visitor_state trace].
        split; [by rewrite <- app_assoc|]. split; [done|].
        rewrite pushed_app. split; [done|]. right. set_solver.
      * rewrite (bind_lift _ _ _ tt (MarkObject_state host object
                                     (visitor_state s)))
          by (cbn [visitor_state]; apply MarkObject_Ok).
        eexists. split; [reflexivity|].
        cbn [effects visitor_state trace marked MarkObject_state].
        split; [done|]. split; [done|].
        rewrite pushed_app, pushed_MarkObject_events.
        rewrite bool_decide_eq_false_2 by done.
        split; [done|]. left. set_solver.
  - intros Hmode target unmarked.
    unfold VisitCodeTarget. rewrite Hmode.
    unfold bind at 1, dcheck at 1, ret at 1. fold target.
    destruct (ShouldMarkObject target); cbn [negb]; [|by eexists].
    rewrite (bind_lift _ _ _ tt (MarkObject_state host target
                                   (visitor_state s)))
      by apply MarkObject_Ok.
    eexists. split; [reflexivity|].
    cbn [effects visitor_state trace marked MarkObject_state].
    split; [done|]. split; [done|].
    unfold marking_worklist, MarkObject_state. cbn [trace].
    rewrite pushed_app, pushed_MarkObject_events. unfold unmarked.
    by case_bool_decide.
Qed.

(** *** Shared function infos and functions *)

Section Pointers.

Hypothesis tagged_size_pos : 0 < kTaggedSize.

Lemma VisitPointer_exact host p s :
  VisitPointer host p s =
    Ok (tt, mkVisitorState (slot_marks (marked s) p) (progress_bars s) (ages s)
                           (trace s ++ slot_events false host (marked s) p)).
Proof.
  unfold VisitPointer, VisitPointersImpl.
  rewrite slots_between_cons, slots_between_nil by lia.
  pose proof (visit_slots_exact false host [p] s) as Hexact.
  cbn [foldl range_events] in Hexact. rewrite app_nil_r in Hexact.
  exact Hexact.
Qed.

Lemma loaded_slot_events host m p : loaded (slot_events false host m p) = [p].
Proof.
  unfold slot_events.
  destruct (Relaxed_Load p) as [n|o|o|]; [done| |done|done].
  destruct (ShouldMarkObject o); [|done].
  case_bool_decide; [done|]. by destruct retaining_path_mode_enabled.
Qed.

(** X16.  [VisitSharedFunctionInfo] ages a shared function info before it
    decides on flushing, and either keeps the function data alive or makes
    the function a flushing candidate, never both.  After the map pointer
    and the body are visited and the age is advanced (only when the bytecode
    can be flushed and ages are not frozen), the call returns the size; the
    function is flushed when its bytecode can be flushed and stress flushing
    is on or the advanced age is old.  A function that is not flushed has
    its function data slot visited and is not queued.  A function that is
    flushed is queued as a code flushing candidate once and its function
    data slot is not visited: with bytecode flushing on nothing is visited,
    and with baseline code flushing alone the function data is code and
    only the bytecode slot of that code is visited.  The ages are not
    touched after the aging step. *)
Theorem X16_shared_function_info_is_flushed_or_keeps_its_data
    (fuel : nat) (map shared_info : HeapObject) (s : ObjectVisitorState)
    (v1 v2 : VisitorState) (can_flush_bytecode : bool) :
  (VisitMapPointer shared_info;;;
   IterateBody map shared_info (SizeOf map shared_info)) (visitor_state s)
    = Ok (tt, v1) →
  HasBytecodeArrayForFlushing shared_info v1 = Ok (can_flush_bytecode, v1) →
  (if can_flush_bytecode && negb should_keep_ages_unchanged_
   then MakeOlder fuel shared_info else ret tt) v1 = Ok (tt, v2) →
  let flush :=
    can_flush_bytecode &&
    (kStressFlushCode code_flush_mode_ || is_old (age_of v2 shared_info)) in
  let data := RawField shared_info SharedFunctionInfo_kFunctionDataOffset in
  let baseline_code := HeapObject_cast (function_data shared_info) in
  let bytecode :=
    RawField baseline_code Code_kDeoptimizationDataOrInterpreterDataOffset in
  ∃ s' evs,
    VisitSharedFunctionInfo fuel map shared_info s
      = Ok (SizeOf map shared_info, s') ∧
    trace (visitor_state s') = trace v2 ++ evs ∧
    ages (visitor_state s') = ages v2 ∧
    (flush = false →
       effects s' = effects s ∧ loaded evs = [data] ∧
       marked (visitor_state s') = slot_marks (marked v2) data) ∧
    (flush = true →
       effects s' = effects s ++ [PushCodeFlushingCandidate shared_info] ∧
       if kFlushBytecode code_flush_mode_
       then evs = [] ∧ marked (visitor_state s') = marked v2
       else IsCode (function_data shared_info) = true ∧
            loaded evs = [bytecode] ∧
            marked (visitor_state s') = slot_marks (marked v2) bytecode).
Proof using All.
  intros Hbody Hcan Hage flush data baseline_code bytecode.
  apply bind_Ok in Hbody as ([] & v0 & Hmap & Hbody).
  unfold VisitSharedFunctionInfo.
  rewrite (bind_lift _ _ _ tt v0) by exact Hmap.
  rewrite (bind_lift _ _ _ tt v1) by exact Hbody.
  rewrite (bind_lift _ _ _ can_flush_bytecode v1) by exact Hcan.
  cbn [effects].
  assert (∀ k : unit → MO Z,
    bind (if can_flush_bytecode && negb should_keep_ages_unchanged_
          then lift (MakeOlder fuel shared_info) else ret tt) k
         (mkObjectVisitorState v1 (effects s))
    = k tt (mkObjectVisitorState v2 (effects s))) as Haged.
  { intros k. destruct (can_flush_bytecode && negb _).
    - by rewrite (bind_lift _ _ _ tt v2).
    - injection Hage as <-. done. }
  rewrite Haged.
  assert (∀ k : bool → MO Z,
    bind (if can_flush_bytecode then lift (ShouldFlushCode shared_info)
          else ret false) k (mkObjectVisitorState v2 (effects s))
    = k flush (mkObjectVisitorState v2 (effects s))) as Hshould.
  { intros k. unfold flush. destruct can_flush_bytecode; [|done].
    rewrite (bind_lift _ _ _
               (kStressFlushCode code_flush_mode_ ||
                is_old (age_of v2 shared_info)) v2); [done|].
    apply ShouldFlushCode_Ok. }
  rewrite Hshould.
  assert (negb can_flush_bytecode || negb flush = negb flush) as ->.
  { unfold flush. by destruct can_flush_bytecode. }
  fold data. fold baseline_code. fold bytecode.
  destruct flush eqn:Hflush; cbn [negb].
  - unfold IsByteCodeFlushingEnabled, IsBaselineCodeFlushingEnabled.
    destruct (kFlushBytecode code_flush_mode_) eqn:Hbc; cbn [negb].
    + eexists _, []. split; [reflexivity|]. cbn [visitor_state effects].
      split; [by rewrite app_nil_r|]. split; [done|]. split; [done|].
      intros _. done.
    + assert (can_flush_bytecode = true) as Hcan'
        by (unfold flush in Hflush; by destruct can_flush_bytecode).
      apply HasBytecodeArrayForFlushing_Ok in Hcan as [_ Hb].
      apply Hb in Hcan' as (_ & _ & [(Hcode & Hbl & _)|(_ & ? & _)]);
        [|congruence].
      rewrite Hbl. unfold bind at 1, dcheck at 1, ret at 1.
      unfold bind at 1.
      rewrite (bind_lift _ _ _ tt _ (VisitPointer_exact _ _ _)).
      eexists _, _. split; [reflexivity|]. cbn [visitor_state effects trace
        ages marked].
      split; [done|]. split; [done|]. split; [done|].
      intros _. split; [done|]. split; [done|].
      split; [apply loaded_slot_events | done].
  - rewrite (bind_lift _ _ _ tt _ (VisitPointer_exact _ _ _)).
    eexists _, _. split; [reflexivity|]. cbn [visitor_state effects trace
      ages marked].
    split; [done|]. split; [done|]. split; [|done].
    intros _. split; [done|]. split; [apply loaded_slot_events | done].
Qed.

(** X17.  A function whose baseline code can be flushed does not keep that
    code alive.  After the visit of the function as a JSObject subclass,
    [VisitJSFunction] returns the size of that visit.  When
    [ShouldFlushBaselineCode] says yes, baseline code flushing is enabled
    and the code of the function is baseline code; the function is queued
    as a baseline flushing candidate and its code slot is not visited.
    Otherwise the code slot is visited, and the function is queued as a
    flushed function exactly when bytecode flushing is enabled and its
    bytecode was flushed; such a function is not compiled. *)
Theorem X17_function_with_flushable_baseline_code_does_not_keep_it
    (map js_function : HeapObject) (s : ObjectVisitorState) (size : Z)
    (v1 : VisitorState) (should_flush : bool) :
  VisitJSObjectSubclass map js_function (visitor_state s) = Ok (size, v1) →
  ShouldFlushBaselineCode js_function v1 = Ok (should_flush, v1) →
  let code := RawField js_function JSFunction_kCodeOffset in
  ∃ s' evs,
    VisitJSFunction map js_function s = Ok (size, s') ∧
    trace (visitor_state s') = trace v1 ++ evs ∧
    (should_flush = true →
       kFlushBaselineCode code_flush_mode_ = true ∧
       IsCode (JSFunction_code_field js_function) = true ∧
       Code_kind_is_BASELINE
         (HeapObject_cast (JSFunction_code_field js_function)) = true ∧
       visitor_state s' = v1 ∧
       effects s' = effects s ++ [PushBaselineFlushingCandidate js_function]) ∧
    (should_flush = false →
       loaded evs = [code] ∧
       marked (visitor_state s') = slot_marks (marked v1) code ∧
       effects s' =
         effects s ++
         (if kFlushBytecode code_flush_mode_ &&
             NeedsResetDueToFlushedBytecode js_function
          then [PushFlushedJSFunction js_function] else [])) ∧
    (NeedsResetDueToFlushedBytecode js_function = true →
     JSFunction_is_compiled js_function = false).
Proof using All.
  intros Hvisit Hshould code.
  assert (NeedsResetDueToFlushedBytecode js_function = true →
          JSFunction_is_compiled js_function = false) as Hreset.
  { unfold NeedsResetDueToFlushedBytecode, JSFunction_is_compiled.
    destruct (IsSharedFunctionInfo _); cbn [negb]; [|done].
    destruct (IsCode _); cbn [negb]; [|done].
    destruct (SharedFunctionInfo_is_compiled _); [done|].
    intros _. apply andb_false_r. }
  unfold VisitJSFunction.
  rewrite (bind_lift _ _ _ size v1) by exact Hvisit.
  rewrite (bind_lift _ _ _ should_flush v1) by exact Hshould.
  cbn [effects]. fold code. destruct should_flush.
  - apply ShouldFlushBaselineCode_true in Hshould
      as (Hbl & _ & Hcode & Hkind & _).
    unfold IsBaselineCodeFlushingEnabled. rewrite Hbl.
    eexists _, []. split; [reflexivity|]. cbn [visitor_state effects].
    split; [by rewrite app_nil_r|]. split; [done|]. split; [done|].
    exact Hreset.
  - unfold bind at 1. unfold bind at 1.
    rewrite (lift_Ok _ _ _ _ (VisitPointer_exact _ _ _)).
    unfold IsByteCodeFlushingEnabled.
    destruct (kFlushBytecode code_flush_mode_ &&
              NeedsResetDueToFlushedBytecode js_function).
    + eexists _, _. split; [reflexivity|].
      cbn [visitor_state effects trace marked].
      split; [done|]. split; [done|]. split; [|exact Hreset].
      intros _. split; [apply loaded_slot_events | done].
    + eexists _, _. split; [reflexivity|].
      cbn [visitor_state effects trace marked].
      split; [done|]. split; [done|]. split; [|exact Hreset].
      intros _. split; [apply loaded_slot_events|]. split; [done|].
      by rewrite app_nil_r.
Qed.

End Pointers.

End Proofs.

(** *** A small heap with a function on which the statements above are run *)

(** The shared function info at 8192 holds its bytecode array (24576) as
    function data; the function at 28672 refers to it and to its baseline
    code (32768); the weak cell at 36864 has the target 12288 and the
    unregister token 16384.  Objects below 4096 are read-only; the map of
    every object is the read-only object 64. *)
Definition function_memory (slot : Slot) : Tagged :=
  if slot =? 8196 then Strong 24576          (* function data *)
  else if slot =? 28684 then Strong 8192     (* shared function info *)
  else if slot =? 28688 then Strong 32768    (* code *)
  else if slot =? 36872 then Strong 12288    (* target *)
  else if slot =? 36876 then Strong 16384    (* unregister token *)
  else Smi 0.

#[local] Instance function_heap : Heap := {|
  kTaggedSize := 4;
  kMaxRegularHeapObjectSize := 131072;
  FixedArray_kStartOffset := 8;
  JSWeakRef_kTargetOffset := 12;
  Relaxed_Load := function_memory;
  map_of := λ _, 64;
  SizeOf := λ _ _, 32;
  InReadOnlySpace := λ object, object <? 4096;
  InWritableSharedSpace := λ _, false;
  ShouldMarkObject := λ object, negb (object <? 4096);
  IterateEntries := λ _, [];
  EntryToIndex := λ i, i * 2 + 3;
  EntryToValueIndex := λ i, i * 2 + 3 + 1;
  OffsetOfElementAt := λ index, 8 + index * 4;
|}.

#[local] Instance function_flags : Flags := age_flags.

#[local] Instance sized_visitor : ConcreteVisitor := {|
  VisitJSObjectSubclass := λ _ _, ret 32;
  retaining_path_mode_enabled := false;
|}.

(** Relocation entry 1 embeds the object 12288, which the code holds
    weakly; entry 2 is a code target.  The code of CompileLazy is at
    45056. *)
#[local] Instance function_objects : Objects := {|
  IsCodeObject := λ object, object =? 32768;
  IsBytecodeArrayObject := λ object, object =? 24576;
  IsSharedFunctionInfoObject := λ object, object =? 8192;
  SharedFunctionInfo_kFunctionDataOffset := 4;
  IsResumableFunction_kind := λ _, false;
  allows_lazy_compilation := λ _, true;
  SharedFunctionInfo_is_compiled := λ _, true;
  Code_kDeoptimizationDataOrInterpreterDataOffset := 8;
  Code_kind_is_BASELINE := λ code, code =? 32768;
  Code_builtin_id_is_kCompileLazy := λ code, code =? 45056;
  Code_IsWeakObject := λ _ object, object =? 12288;
  JSFunction_kSharedFunctionInfoOffset := 12;
  JSFunction_kCodeOffset := 16;
  WeakCell_kTargetOffset := 8;
  WeakCell_kUnregisterTokenOffset := 12;
  raw_code := λ _, 32768;
  IsEmbeddedObjectMode := λ rinfo, rinfo =? 1;
  IsCodeTargetMode := λ rinfo, rinfo =? 2;
  target_object := λ _, 12288;
  target_address := λ _, 32768;
  FromTargetAddress := λ address, address;
  ProgressBar_of := λ object, object;
  IterateBody := λ _ _ _, ret tt;
|}.

(** Bytecode and baseline code flushing are enabled. *)
#[local] Instance function_fields : VisitorFields := {|
  code_flush_mode_ := mkCodeFlushModes true true false;
  should_keep_ages_unchanged_ := false;
  CanUpdateValuesInHeap := true;
  ShouldVisitMapPointer := true;
|}.

(** Nothing is marked; the shared function info has the age [a]. *)
Definition aged (a : Z) : VisitorState :=
  mkVisitorState ∅ ∅ {[8192 := a]} [].

Lemma X14_witness :
  ∃ s' evs,
    VisitFixedArray 64 1048576 nothing_marked = Ok (32, s') ∧
    trace s' = evs ∧
    loaded evs = [1048584; 1048588; 1048592; 1048596; 1048600; 1048604].
Proof.
  destruct (X14_VisitFixedArray_by_progress_bar 64 1048576 nothing_marked)
    as [_ Hregular].
  destruct Hregular as (s' & evs & Hrun & Htr & Hl & _); [by right|].
  exists s', evs. split; [exact Hrun|]. split; [exact Htr | exact Hl].
Defined.

Lemma X15_witness :
  ∃ b, HasBytecodeArrayForFlushing 8192 nothing_marked
         = Ok (b, nothing_marked) ∧
       (b = true ↔ flushable 8192) ∧
       (kFlushBytecode code_flush_mode_ = false →
        kFlushBaselineCode code_flush_mode_ = false → b = false).
Proof.
  apply (X15_bytecode_is_flushed_only_through_an_enabled_mode 8192
           nothing_marked).
  intros Hcode. discriminate Hcode.
Defined.

Lemma X16_witness :
  ∃ s', VisitSharedFunctionInfo 1 64 8192 (mkObjectVisitorState (aged 5) [])
          = Ok (32, s') ∧
        effects s' = [PushCodeFlushingCandidate 8192] ∧
        ages (visitor_state s') = {[8192 := 6]} ∧
        marked (visitor_state s') = ∅.
Proof.
  destruct (X16_shared_function_info_is_flushed_or_keeps_its_data
              (heap := function_heap) (flags := function_flags)
              (concrete_visitor := sized_visitor)
              (objects := function_objects) (fields := function_fields)
              ltac:(reflexivity) 1 64 8192
              (mkObjectVisitorState (aged 5) []) (aged 5) (aged 6) true)
    as (s' & evs & Hrun & _ & Hages & _ & Hflush);
    [reflexivity | reflexivity | reflexivity |].
  destruct (Hflush eq_refl) as (Heff & _ & Hm).
  exists s'. split; [exact Hrun|]. split; [exact Heff|].
  split; [exact Hages | exact Hm].
Defined.

Lemma X17_witness :
  ∃ s', VisitJSFunction 64 28672 (mkObjectVisitorState (aged 6) [])
          = Ok (32, s') ∧
        visitor_state s' = aged 6 ∧
        effects s' = [PushBaselineFlushingCandidate 28672].
Proof.
  destruct (X17_function_with_flushable_baseline_code_does_not_keep_it
              (heap := function_heap) (flags := function_flags)
              (concrete_visitor := sized_visitor)
              (objects := function_objects) (fields := function_fields)
              ltac:(reflexivity) 64 28672
              (mkObjectVisitorState (aged 6) []) 32 (aged 6) true)
    as (s' & evs & Hrun & _ & Hflush & _); [reflexivity | reflexivity |].
  destruct (Hflush eq_refl) as (_ & _ & _ & Hv & Heff).
  exists s'. split; [exact Hrun|]. split; [exact Hv | exact Heff].
Defined.

(** The target of the weak cell is marked and its unregister token is
    not. *)
Definition target_marked : VisitorState := mkVisitorState {[12288]} ∅ ∅ [].

Lemma X18_witness :
  ∃ s', VisitWeakCell 64 36864 (mkObjectVisitorState target_marked [])
          = Ok (32, s') ∧
        marked (visitor_state s') = {[12288]} ∧
        recorded_slots (visitor_state s') = [] ∧
        effects s' = [PushWeakCell 36864].
Proof.
  destruct (X18_weak_cell_does_not_keep_its_target_alive 64 36864
              (mkObjectVisitorState target_marked []) target_marked)
    as (s' & evs & Hrun & Hv & _ & _ & _ & Hdead); [reflexivity|].
  destruct (Hdead eq_refl) as [Heff Hrec].
  exists s'. split; [exact Hrun|]. rewrite Hv.
  split; [reflexivity|]. split; [exact Hrec | exact Heff].
Defined.

Lemma X19_witness :
  ∃ s', VisitEmbeddedPointer 40960 1 (mkObjectVisitorState nothing_marked [])
          = Ok (tt, s') ∧
        effects s' = [PushWeakObjectInCode 12288 32768;
                      RecordRelocSlot 40960 1 12288] ∧
        marked (visitor_state s') = ∅.
Proof.
  destruct (X19_relocation_entries_are_recorded 40960 1
              (mkObjectVisitorState nothing_marked [])) as [Hembedded _].
  destruct (Hembedded eq_refl) as (s' & Hrun & Heff & Hm & _).
  exists s'. split; [exact Hrun|]. split; [exact Heff | exact Hm].
Defined.

End MarkingVisitorObjectsProofs.

(** ** Resetting a function whose code was flushed *)

Module JSFunctionResetProofs.
Import MarkingVisitor MarkingVisitorObjects JSFunctionReset.

Section Proofs.

Context {heap : Heap} {objects : Objects} {flush_flags : FlushFlags}
        {builtins : Builtins}.

(** The layout of a function and what is known of the two builtins: the
    code of CompileLazy has that builtin id, and neither it nor the
    interpreter entry trampoline is baseline code. *)
Hypothesis fields_differ :
  JSFunction_kSharedFunctionInfoOffset ≠ JSFunction_kCodeOffset.
Hypothesis CompileLazy_id : Code_builtin_id_is_kCompileLazy CompileLazy = true.
Hypothesis lazy_is_not_baseline : ∀ code,
  Code_builtin_id_is_kCompileLazy code = true →
  Code_kind_is_BASELINE code = false.
Hypothesis trampoline_is_not_baseline :
  Code_kind_is_BASELINE InterpreterEntryTrampoline = false.

(** The fields of a function in a state. *)
Definition code_in (s : FunctionState) (js_function : HeapObject) : Tagged :=
  JSFunction_code_field (heap := heap_with (memory s)) js_function.
Definition shared_in (s : FunctionState) (js_function : HeapObject) : Tagged :=
  JSFunction_shared_field (heap := heap_with (memory s)) js_function.
Definition bytecode_flushed (s : FunctionState) (js_function : HeapObject)
    : bool :=
  NeedsResetDueToFlushedBytecode (heap := heap_with (memory s)) js_function.
Definition baseline_flushed (s : FunctionState) (js_function : HeapObject)
    : bool :=
  NeedsResetDueToFlushedBaselineCode (heap := heap_with (memory s))
                                     js_function.

(** The state after [set_code]. *)
Definition with_code (js_function value : HeapObject) (s : FunctionState)
    : FunctionState :=
  mkFunctionState
    (λ sl, if bool_decide (sl = RawField js_function JSFunction_kCodeOffset)
           then Strong value else memory s sl)
    (write_barriers s ++
     [(js_function, RawField js_function JSFunction_kCodeOffset, value)])
    (reset_feedback_vectors s).

Lemma code_in_with_code js value s :
  code_in (with_code js value s) js = Strong value.
Proof.
  unfold code_in, JSFunction_code_field, with_code. cbn.
  by rewrite bool_decide_eq_true_2.
Qed.

Lemma shared_in_with_code js value s :
  shared_in (with_code js value s) js = shared_in s js.
Proof using fields_differ.
  unfold shared_in, JSFunction_shared_field, with_code. cbn.
  rewrite bool_decide_eq_false_2; [done|]. unfold RawField. lia.
Qed.

Lemma bytecode_flushed_eq s js :
  bytecode_flushed s js =
    IsSharedFunctionInfo (shared_in s js) && IsCode (code_in s js) &&
    negb (SharedFunctionInfo_is_compiled (HeapObject_cast (shared_in s js))) &&
    negb (Code_builtin_id_is_kCompileLazy (HeapObject_cast (code_in s js))).
Proof.
  unfold bytecode_flushed, NeedsResetDueToFlushedBytecode.
  fold (shared_in s js). fold (code_in s js).
  destruct (IsSharedFunctionInfo _); [|done].
  by destruct (IsCode _).
Qed.

Lemma baseline_flushed_eq s js :
  baseline_flushed s js =
    Code_kind_is_BASELINE (HeapObject_cast (code_in s js)) &&
    negb (HasBaselineCode (HeapObject_cast (shared_in s js))).
Proof. reflexivity. Qed.

(** After the code is set to CompileLazy or to the interpreter entry
    trampoline no reset is needed. *)
Lemma reset_to_CompileLazy js s :
  bytecode_flushed (with_code js CompileLazy s) js = false ∧
  baseline_flushed (with_code js CompileLazy s) js = false.
Proof using All.
  rewrite bytecode_flushed_eq, baseline_flushed_eq, code_in_with_code.
  cbn [HeapObject_cast]. rewrite CompileLazy_id.
  rewrite (lazy_is_not_baseline _ CompileLazy_id).
  split; [apply andb_false_r | done].
Qed.

Lemma reset_to_trampoline js s :
  IsCode (code_in s js) = true →
  bytecode_flushed s js = false → baseline_flushed s js = true →
  bytecode_flushed (with_code js InterpreterEntryTrampoline s) js = false ∧
  baseline_flushed (with_code js InterpreterEntryTrampoline s) js = false.
Proof using All.
  intros Hcode Hneeds Hbaseline.
  rewrite bytecode_flushed_eq in Hneeds. rewrite baseline_flushed_eq in Hbaseline.
  rewrite bytecode_flushed_eq, baseline_flushed_eq, code_in_with_code,
    shared_in_with_code.
  cbn [HeapObject_cast]. rewrite trampoline_is_not_baseline.
  split; [|done].
  apply andb_prop in Hbaseline as [Hkind _].
  destruct (Code_builtin_id_is_kCompileLazy (HeapObject_cast (code_in s js)))
    eqn:Hlazy.
  { apply lazy_is_not_baseline in Hlazy. congruence. }
  rewrite Hcode in Hneeds.
  destruct (IsSharedFunctionInfo (shared_in s js)); [|done].
  destruct (SharedFunctionInfo_is_compiled _); [|done].
  by destruct (IsCode (Strong InterpreterEntryTrampoline)).
Qed.

(** The state after [reset_feedback_vector]. *)
Definition with_reset (js_function : HeapObject) (s : FunctionState)
    : FunctionState :=
  mkFunctionState (memory s) (write_barriers s)
                  (reset_feedback_vectors s ++ [js_function]).

(** [ResetIfCodeFlushed] by cases. *)
Lemma ResetIfCodeFlushed_cases js s :
  ResetIfCodeFlushed js s =
    let can_flush_bytecode := flush_bytecode || stress_snapshot in
    let can_flush_baseline := flush_baseline_code || stress_snapshot in
    if negb can_flush_bytecode && negb can_flush_baseline then Ok (tt, s)
    else if bytecode_flushed s js then
      if can_flush_bytecode
      then Ok (tt, with_reset js (with_code js CompileLazy s))
      else Err DcheckFailure
    else if baseline_flushed s js then
      if can_flush_baseline
      then Ok (tt, with_code js InterpreterEntryTrampoline s)
      else Err DcheckFailure
    else Ok (tt, s).
Proof.
  unfold ResetIfCodeFlushed. cbv zeta.
  destruct (negb _ && negb _); [done|].
  unfold bind at 1, gets at 1. fold (bytecode_flushed s js).
  destruct (bytecode_flushed s js).
  - destruct (flush_bytecode || stress_snapshot); [|done]. reflexivity.
  - cbn [implb]. unfold bind at 1, dcheck at 1, ret at 1.
    rewrite andb_false_r.
    unfold bind at 1, gets at 1. fold (baseline_flushed s js).
    destruct (baseline_flushed s js).
    + destruct (flush_baseline_code || stress_snapshot); [|done]. reflexivity.
    + cbn [implb]. unfold bind at 1, dcheck at 1, ret at 1.
      by rewrite andb_false_r.
Qed.

(** [ResetIfCodeFlushed] when nothing is to be reset. *)
Lemma ResetIfCodeFlushed_nothing js s :
  bytecode_flushed s js = false → baseline_flushed s js = false →
  ResetIfCodeFlushed js s = Ok (tt, s).
Proof.
  intros Hneeds Hbaseline. rewrite ResetIfCodeFlushed_cases. cbv zeta.
  rewrite Hneeds, Hbaseline. by destruct (negb _ && negb _).
Qed.

Lemma ResetIfCodeFlushed_disabled js s :
  flush_bytecode || stress_snapshot = false →
  flush_baseline_code || stress_snapshot = false →
  ResetIfCodeFlushed js s = Ok (tt, s).
Proof. unfold ResetIfCodeFlushed. by intros -> ->. Qed.

(** X22.  [ResetIfCodeFlushed] resets a function once.  On a function whose
    code field holds code, with distinct offsets of the shared and the code
    field and builtins of the right kinds, the call fails a DCHECK exactly
    when a way of flushing is enabled and the reset that is needed is of a
    kind that cannot flush; in every other case it returns.  When it
    returns it has set the code to CompileLazy and reset the feedback
    vector if the bytecode was flushed, else it has set the code to the
    interpreter entry trampoline if the baseline code was flushed, else it
    has changed nothing; the shared field is never written.  If a way of
    flushing is enabled no reset is needed afterwards, and a second call
    changes nothing. *)
Theorem X22_ResetIfCodeFlushed_resets_once
    (js_function : HeapObject) (s : FunctionState) :
  IsCode (code_in s js_function) = true →
  let can_flush_bytecode := flush_bytecode || stress_snapshot in
  let can_flush_baseline := flush_baseline_code || stress_snapshot in
  let bytecode := bytecode_flushed s js_function in
  let baseline := baseline_flushed s js_function in
  if (can_flush_bytecode || can_flush_baseline) &&
     ((bytecode && negb can_flush_bytecode) ||
      (negb bytecode && baseline && negb can_flush_baseline))
  then ResetIfCodeFlushed js_function s = Err DcheckFailure
  else ∃ s1,
    ResetIfCodeFlushed js_function s = Ok (tt, s1) ∧
    ResetIfCodeFlushed js_function s1 = Ok (tt, s1) ∧
    (can_flush_bytecode || can_flush_baseline = true →
     bytecode_flushed s1 js_function = false ∧
     baseline_flushed s1 js_function = false) ∧
    code_in s1 js_function =
      (if can_flush_bytecode && bytecode then Strong CompileLazy
       else if can_flush_baseline && baseline
            then Strong InterpreterEntryTrampoline
            else code_in s js_function) ∧
    shared_in s1 js_function = shared_in s js_function ∧
    reset_feedback_vectors s1 =
      reset_feedback_vectors s ++
      (if can_flush_bytecode && bytecode then [js_function] else []).
Proof using All.
  intros Hcode can_flush_bytecode can_flush_baseline bytecode baseline.
  subst can_flush_bytecode can_flush_baseline bytecode baseline.
  rewrite ResetIfCodeFlushed_cases. cbv zeta.
  destruct (bytecode_flushed s js_function) eqn:Hb.
  - (* the bytecode was flushed *)
    destruct (flush_bytecode || stress_snapshot) eqn:Hcb; cbn [negb andb orb].
    + destruct (reset_to_CompileLazy js_function s) as [Hn1 Hn2].
      eexists. split; [reflexivity|].
      split; [by apply ResetIfCodeFlushed_nothing|].
      split; [done|]. split; [apply code_in_with_code|].
      split; [apply shared_in_with_code | done].
    + destruct (flush_baseline_code || stress_snapshot) eqn:Hcl;
        cbn [negb andb orb]; [done|].
      exists s. split; [done|].
      split; [by apply ResetIfCodeFlushed_disabled|].
      split; [done|]. by rewrite app_nil_r.
  - destruct (baseline_flushed s js_function) eqn:Hbl.
    + (* the baseline code was flushed *)
      destruct (flush_baseline_code || stress_snapshot) eqn:Hcl;
        cbn [negb andb orb].
      * rewrite andb_false_r, orb_true_r. cbn [negb andb orb].
        rewrite andb_false_r.
        destruct (reset_to_trampoline js_function s Hcode Hb Hbl)
          as [Hn1 Hn2].
        eexists. split; [reflexivity|].
        split; [by apply ResetIfCodeFlushed_nothing|].
        split; [done|]. rewrite andb_false_r.
        split; [apply code_in_with_code|].
        split; [apply shared_in_with_code | by rewrite app_nil_r].
      * destruct (flush_bytecode || stress_snapshot) eqn:Hcb;
          cbn [negb andb orb]; [done|].
        exists s. split; [done|].
        split; [by apply ResetIfCodeFlushed_disabled|].
        split; [done|]. by rewrite app_nil_r.
    + (* nothing was flushed *)
      cbn [negb andb orb]. rewrite !andb_false_r.
      exists s.
      split; [by destruct (negb _ && negb _)|].
      split; [by apply ResetIfCodeFlushed_nothing|].
      split; [done|]. split; [done|].
      split; [done | by rewrite app_nil_r].
Qed.

End Proofs.

(** *** The function of the small heap, with both ways of flushing on *)

Import MarkingVisitorObjectsProofs.

Definition both_flush_flags : FlushFlags := {|
  flush_bytecode := true;
  flush_baseline_code := true;
  stress_snapshot := false;
|}.

(** The shared function info has lost its baseline code. *)
Definition function_builtins : Builtins := {|
  CompileLazy := 45056;
  InterpreterEntryTrampoline := 49152;
  HasBaselineCode := λ _, false;
|}.

Definition function_state : FunctionState :=
  mkFunctionState function_memory [] [].

Lemma X22_witness :
  ∃ s1,
    ResetIfCodeFlushed (heap := function_heap) (objects := function_objects)
      (flush_flags := both_flush_flags) (builtins := function_builtins)
      28672 function_state = Ok (tt, s1) ∧
    ResetIfCodeFlushed (heap := function_heap) (objects := function_objects)
      (flush_flags := both_flush_flags) (builtins := function_builtins)
      28672 s1 = Ok (tt, s1) ∧
    memory s1 28688 = Strong 49152 ∧
    memory s1 28684 = Strong 8192 ∧
    reset_feedback_vectors s1 = [].
Proof.
  pose proof (X22_ResetIfCodeFlushed_resets_once
                (heap := function_heap) (objects := function_objects)
                (flush_flags := both_flush_flags)
                (builtins := function_builtins)
                ltac:(done) eq_refl
                ltac:(intros code ->%Z.eqb_eq; reflexivity) eq_refl
                28672 function_state eq_refl)
    as (s1 & Hrun & Hagain & _ & Hcode & Hshared & Hresets).
  exists s1. split; [exact Hrun|]. split; [exact Hagain|].
  split; [exact Hcode|]. split; [exact Hshared | exact Hresets].
Defined.

End JSFunctionResetProofs.
